(** * Drone Lips: the simulation core, embedded and verified

    A shallow embedding of the frame-loop core of the game
    (src/game: math.ts, levels.ts, Enemy.ts, Projectiles.ts,
    input/InputRouter.ts, worlds/*.ts and Game.ts; the modules are named
    after the classes and functions they embed).

    Numbers.  A JavaScript [number] is modelled by a real ([R]): the
    arithmetic of the source ([+], [*], [Math.exp], [Math.sqrt],
    [Math.floor]) is read as exact real arithmetic, so rounding of IEEE
    doubles is outside the model.  Where the source tests a number for
    finiteness ([Number.isFinite]) the argument is a [JsNumber], which adds
    NaN and the two infinities.  Quantities that the source keeps integral
    by construction (hit points, score, pending burst shots) are [Z].

    Randomness.  [Math.random()] is a draw from a stream [nat -> R] read
    through a cursor; the functions that draw are written in the small
    state monad [Rand]. *)

From Stdlib Require Import Reals Lra Lia ZArith List Bool String.
Import ListNotations.

Local Open Scope R_scope.

(** ** JavaScript numbers *)

Inductive JsNumber : Type :=
| Finite (r : R)
| NaN
| PosInfinity
| NegInfinity.

(** [Number.isFinite]. *)
Definition Number_isFinite (n : JsNumber) : bool :=
  match n with
  | Finite _ => true
  | _ => false
  end.

(** Boolean comparisons of reals, as the source's [<], [<=], [>=], [===]. *)
Definition Rltb (a b : R) : bool := if Rlt_dec a b then true else false.
Definition Rleb (a b : R) : bool := if Rle_dec a b then true else false.
Definition Rgeb (a b : R) : bool := Rleb b a.
Definition Rgtb (a b : R) : bool := Rltb b a.
Definition Reqb (a b : R) : bool := if Req_dec_T a b then true else false.

(** [===] between a table number and an arbitrary JavaScript number. *)
Definition strictEq (a : R) (n : JsNumber) : bool :=
  match n with
  | Finite r => Reqb a r
  | _ => false
  end.

(** [Number.isInteger]. *)
Definition Number_isInteger (n : JsNumber) : bool :=
  match n with
  | Finite r => Reqb r (IZR (Zfloor r))
  | _ => false
  end.

(** [n >= r] and [n <= r] for a JavaScript number [n] and a finite [r]:
    a comparison with NaN is false. *)
Definition js_geb (n : JsNumber) (r : R) : bool :=
  match n with
  | Finite x => Rgeb x r
  | PosInfinity => true
  | _ => false
  end.

Definition js_leb (n : JsNumber) (r : R) : bool :=
  match n with
  | Finite x => Rleb x r
  | NegInfinity => true
  | _ => false
  end.

(** [items[i]] for an integral index: [undefined] ([None]) outside the
    array. *)
Definition nthZ {A : Type} (items : list A) (i : Z) : option A :=
  if (i <? 0)%Z then None else nth_error items (Z.to_nat i).

(** *** Rounding to binary64

    The arithmetic of the game is modelled on the reals.  Where a result
    is floored to an integer the rounding of the operands becomes
    observable, and the model rounds: [binary64 x] is the double nearest
    to [x], ties to the even one, for [x] below the overflow threshold. *)

(** The binade of a number: the [e] with [2^e <= |x| < 2^(e+1)]. *)
Definition binade (x : R) : Z := Zfloor (ln (Rabs x) / ln 2).

(** The spacing of the doubles around [x]: [2^(e-52)] in binade [e], and
    the subnormal spacing [2^-1074] below [2^-1022]. *)
Definition ulp (x : R) : R := powerRZ 2 (Z.max (binade x) (-1022) - 52).

(** The integer nearest to [y], a tie going to the even one. *)
Definition nearestEven (y : R) : Z :=
  let f := Zfloor y in
  let d := y - IZR f in
  if Rltb d (/ 2) then f
  else if Rltb (/ 2) d then (f + 1)%Z
  else if Z.even f then f else (f + 1)%Z.

Definition binary64 (x : R) : R :=
  if Reqb x 0 then 0 else IZR (nearestEven (x / ulp x)) * ulp x.

(** ** Math.random as a state monad over a stream of draws *)

Definition Rand (A : Type) : Type := (nat -> R) -> nat -> A * nat.

Definition ret {A : Type} (a : A) : Rand A := fun _ n => (a, n).

Definition bind {A B : Type} (c : Rand A) (k : A -> Rand B) : Rand B :=
  fun s n => let (a, n') := c s n in k a s n'.

(** [Math.random()]: the next draw of the stream. *)
Definition Math_random : Rand R := fun s n => (s n, S n).

Declare Scope rand_scope.
Delimit Scope rand_scope with rand.
Notation "x <- c ;; k" := (bind c (fun x => k))
  (at level 61, c at next level, right associativity) : rand_scope.

(** [for (const x of xs) f(x)] on a pool whose body draws: the elements are
    visited in order and replaced in place. *)
Fixpoint forEachM {A : Type} (f : A -> Rand A) (xs : list A) : Rand (list A) :=
  match xs with
  | [] => ret []
  | x :: rest =>
      bind (f x) (fun x' => bind (forEachM f rest) (fun rest' => ret (x' :: rest')))
  end.

(** [Array.from({length: n}, () => mk())]. *)
Fixpoint arrayFromM {A : Type} (n : nat) (mk : Rand A) : Rand (list A) :=
  match n with
  | O => ret []
  | S k => bind mk (fun x => bind (arrayFromM k mk) (fun rest => ret (x :: rest)))
  end.

(** [Math.round(x)]: the nearest integer, halves rounded up. *)
Definition Math_round (x : R) : Z := Zfloor (x + / 2).

(** ** math.ts *)

Module MathUtil.

(** [clamp(value, min, max) = Math.max(min, Math.min(max, value))]. *)
Definition clamp (value min max : R) : R := Rmax min (Rmin max value).

(** [lerp(a, b, t) = a + (b - a) * t]. *)
Definition lerp (a b t : R) : R := a + (b - a) * t.

(** [THREE.MathUtils.lerp(x, y, t) = (1 - t) * x + t * y]. *)
Definition three_lerp (x y t : R) : R := (1 - t) * x + t * y.

(** [damp(current, target, lambda, dt)]. *)
Definition damp (current target lambda dt : R) : R :=
  if Rleb dt 0 then current
  else lerp current target (1 - exp (- lambda * dt)).

(** [clamp] on integral quantities. *)
Definition clampZ (value min max : Z) : Z := Z.max min (Z.min max value).

(** [randRange(min, max) = min + Math.random() * (max - min)]. *)
Definition randRange (min max : R) : Rand R :=
  bind Math_random (fun r => ret (min + r * (max - min))).

(** [randInt(minInclusive, maxInclusive)
     = Math.floor(randRange(minInclusive, maxInclusive + 1))].
    [Math.floor] makes the rounding of [randRange]'s arithmetic
    observable (the rounded sum can reach [maxInclusive + 1]), so here
    each operation is rounded to binary64: the increment, the
    difference, the product with the draw and the sum. *)
Definition randInt (minInclusive maxInclusive : Z) : Rand Z :=
  bind Math_random (fun r =>
  let min := IZR minInclusive in
  let max := binary64 (IZR maxInclusive + 1) in
  ret (Zfloor (binary64 (min + binary64 (r * binary64 (max - min)))))).

(** [pickOne(items)].  The outer [None] is the thrown error (an empty
    array, detected before anything is drawn); the inner option is the
    array read. *)
Definition pickOne {A : Type} (items : list A) : Rand (option (option A)) :=
  if Nat.eqb (List.length items) 0 then ret None
  else
    bind Math_random (fun r =>
    ret (Some (nthZ items (Zfloor (r * INR (List.length items)))))).

End MathUtil.

(** ** THREE.Vector3 (the operations the game uses) *)

Module Vec3.

Record t : Type := mk { x : R; y : R; z : R }.

Definition zero : t := mk 0 0 0.

(** [a.sub(b)]. *)
Definition sub (a b : t) : t := mk (x a - x b) (y a - y b) (z a - z b).

(** [a.multiplyScalar(s)]. *)
Definition multiplyScalar (a : t) (s : R) : t := mk (x a * s) (y a * s) (z a * s).

(** [a.length()]. *)
Definition length (a : t) : R := sqrt (x a * x a + y a * y a + z a * z a).

(** [a.divideScalar(s) = a.multiplyScalar(1 / s)]. *)
Definition divideScalar (a : t) (s : R) : t := multiplyScalar a (1 / s).

(** [a.normalize() = a.divideScalar(a.length() || 1)]: the zero vector is
    left as it is. *)
Definition normalize (a : t) : t :=
  divideScalar a (if Reqb (length a) 0 then 1 else length a).

(** [a.lerp(v, alpha)]: each coordinate moves by [(v - a) * alpha]. *)
Definition lerp (a v : t) (alpha : R) : t :=
  mk (x a + (x v - x a) * alpha)
     (y a + (y v - y a) * alpha)
     (z a + (z v - z a) * alpha).

(** [a.addScaledVector(v, s)]. *)
Definition addScaledVector (a v : t) (s : R) : t :=
  mk (x a + x v * s) (y a + y v * s) (z a + z v * s).

End Vec3.

(** ** levels.ts *)

Module Levels.

Inductive Environment : Type :=
| EarthPark | EarthParkSlalom | City | Coast | Desert
| Military | UpperAtmos | Orbit | Alien | War.

Record LevelBossConfig : Type := {
  boss_hp : R;
  spawnAtScore : R;
  ufoSupportRate : R
}.

Record LevelConfig : Type := {
  id : R;
  name : string;
  environment : Environment;
  autoForward : bool;
  baseSpeed : R;
  maxSpeed : R;
  accelPerSec : R;
  boostMultiplier : R;
  windForce : R;
  obstacleDensity : R;
  asteroidCount : R;
  pickupRate : R;
  enemyRate : R;
  ufoRate : R;
  pickupScore : R;
  enemyScoreMin : R;
  enemyScoreMax : R;
  boss : option LevelBossConfig
}.

(** The entry with id 8 of the table, which is the default level. *)
Definition level8 : LevelConfig :=
  {| id := 8; name := "Orbit Debris Field"; environment := Orbit;
     autoForward := true; baseSpeed := 3.4; maxSpeed := 14.0;
     accelPerSec := 2.8; boostMultiplier := 2.1; windForce := 0.06;
     obstacleDensity := 0.2; asteroidCount := 60; pickupRate := 0.7;
     enemyRate := 0.62; ufoRate := 0.18; pickupScore := 1;
     enemyScoreMin := 6; enemyScoreMax := 10; boss := None |}.

Definition LEVELS : list LevelConfig := [
  {| id := 1; name := "NYC Park Tutorial"; environment := EarthPark;
     autoForward := false; baseSpeed := 0.0; maxSpeed := 6.0;
     accelPerSec := 1.2; boostMultiplier := 1.6; windForce := 0.05;
     obstacleDensity := 0.35; asteroidCount := 0; pickupRate := 0.25;
     enemyRate := 0.0; ufoRate := 0.0; pickupScore := 1;
     enemyScoreMin := 5; enemyScoreMax := 10; boss := None |};
  {| id := 2; name := "Park Slalom"; environment := EarthParkSlalom;
     autoForward := false; baseSpeed := 0.5; maxSpeed := 7.0;
     accelPerSec := 1.4; boostMultiplier := 1.7; windForce := 0.08;
     obstacleDensity := 0.55; asteroidCount := 0; pickupRate := 0.45;
     enemyRate := 0.0; ufoRate := 0.0; pickupScore := 1;
     enemyScoreMin := 5; enemyScoreMax := 10; boss := None |};
  {| id := 3; name := "City Flight"; environment := City;
     autoForward := true; baseSpeed := 1.2; maxSpeed := 9.0;
     accelPerSec := 1.8; boostMultiplier := 1.7; windForce := 0.1;
     obstacleDensity := 0.65; asteroidCount := 0; pickupRate := 0.55;
     enemyRate := 0.1; ufoRate := 0.0; pickupScore := 1;
     enemyScoreMin := 5; enemyScoreMax := 10; boss := None |};
  {| id := 4; name := "Coast Wind Run"; environment := Coast;
     autoForward := true; baseSpeed := 1.8; maxSpeed := 10.0;
     accelPerSec := 2.0; boostMultiplier := 1.8; windForce := 0.22;
     obstacleDensity := 0.45; asteroidCount := 0; pickupRate := 0.6;
     enemyRate := 0.18; ufoRate := 0.0; pickupScore := 1;
     enemyScoreMin := 5; enemyScoreMax := 10; boss := None |};
  {| id := 5; name := "Desert Canyon"; environment := Desert;
     autoForward := true; baseSpeed := 2.2; maxSpeed := 11.0;
     accelPerSec := 2.2; boostMultiplier := 1.9; windForce := 0.12;
     obstacleDensity := 0.7; asteroidCount := 0; pickupRate := 0.65;
     enemyRate := 0.28; ufoRate := 0.0; pickupScore := 1;
     enemyScoreMin := 5; enemyScoreMax := 10; boss := None |};
  {| id := 6; name := "Military Base Combat"; environment := Military;
     autoForward := true; baseSpeed := 2.6; maxSpeed := 12.0;
     accelPerSec := 2.4; boostMultiplier := 2.0; windForce := 0.1;
     obstacleDensity := 0.55; asteroidCount := 0; pickupRate := 0.6;
     enemyRate := 0.5; ufoRate := 0.05; pickupScore := 1;
     enemyScoreMin := 6; enemyScoreMax := 10; boss := None |};
  {| id := 7; name := "Upper Atmosphere"; environment := UpperAtmos;
     autoForward := true; baseSpeed := 3.0; maxSpeed := 13.0;
     accelPerSec := 2.6; boostMultiplier := 2.1; windForce := 0.08;
     obstacleDensity := 0.35; asteroidCount := 10; pickupRate := 0.65;
     enemyRate := 0.55; ufoRate := 0.12; pickupScore := 1;
     enemyScoreMin := 6; enemyScoreMax := 10; boss := None |};
  level8;
  {| id := 9; name := "Alien Zone"; environment := Alien;
     autoForward := true; baseSpeed := 3.8; maxSpeed := 15.0;
     accelPerSec := 3.0; boostMultiplier := 2.2; windForce := 0.04;
     obstacleDensity := 0.18; asteroidCount := 80; pickupRate := 0.75;
     enemyRate := 0.78; ufoRate := 0.35; pickupScore := 1;
     enemyScoreMin := 7; enemyScoreMax := 10; boss := None |};
  {| id := 10; name := "Space War (Boss)"; environment := War;
     autoForward := true; baseSpeed := 4.2; maxSpeed := 16.0;
     accelPerSec := 3.2; boostMultiplier := 2.3; windForce := 0.03;
     obstacleDensity := 0.15; asteroidCount := 100; pickupRate := 0.8;
     enemyRate := 0.95; ufoRate := 0.5; pickupScore := 1;
     enemyScoreMin := 8; enemyScoreMax := 12;
     boss := Some {| boss_hp := 220; spawnAtScore := 90;
                     ufoSupportRate := 0.65 |} |}
].

Definition DEFAULT_LEVEL_ID : Z := 8.

(** [getLevelConfig(levelId)].  [LEVELS[i]] is [nth_error]: an index
    outside the table reads [undefined] ([None]). *)
Definition getLevelConfig (levelId : JsNumber) : option LevelConfig :=
  let fallback :=
    nth_error LEVELS
      (Z.to_nat (Z.max 0 (Z.min (Z.of_nat (List.length LEVELS) - 1)
                                (DEFAULT_LEVEL_ID - 1)))) in
  if negb (Number_isFinite levelId) then fallback
  else
    match find (fun l => strictEq (id l) levelId) LEVELS with
    | Some l => Some l
    | None => fallback
    end.

(** [isValidLevelId(levelId)]. *)
Definition isValidLevelId (levelId : JsNumber) : bool :=
  Number_isInteger levelId
  && js_geb levelId 1
  && js_leb levelId (INR (List.length LEVELS)).

End Levels.

(** ** THREE.Object3D (the fields the game touches) *)

Record Object3D : Type := {
  position : Vec3.t;
  rotation : Vec3.t;
  scale : R;
  visible : bool
}.

(** ** Enemy.ts *)

Module Enemy.

Inductive EnemyKind : Type := Ship | Spike.

Record EnemySpawnBounds : Type := {
  xRange : R;
  yRange : R;
  zMin : R;
  zMax : R
}.

Record EnemyConfig : Type := {
  cfg_kind : EnemyKind;
  cfg_hp : R;
  cfg_radius : R;
  cfg_approachSpeed : R;
  cfg_reward : R
}.

Record t : Type := {
  id : Z;
  kind : EnemyKind;
  mesh : Object3D;
  radius : R;
  reward : Z;
  approachSpeed : R;
  maxHp : Z;
  hp : Z;
  alive : bool
}.

(** [new Enemy(id, kind, mesh, cfg)]. *)
Definition new (id0 : Z) (kind0 : EnemyKind) (mesh0 : Object3D)
    (cfg : EnemyConfig) : t :=
  let maxHp0 := Z.max 1 (Zfloor (cfg_hp cfg)) in
  {| id := id0;
     kind := kind0;
     mesh := mesh0;
     radius := Rmax 0.2 (cfg_radius cfg);
     reward := Z.max 1 (Zfloor (cfg_reward cfg));
     approachSpeed := Rmax 1 (cfg_approachSpeed cfg);
     maxHp := maxHp0;
     hp := maxHp0;
     alive := true |}.

(** [spawn(bounds, playerY)]: three draws place the mesh. *)
Definition spawn (bounds : EnemySpawnBounds) (playerY : R) (e : t) : Rand t :=
  bind (MathUtil.randRange (- xRange bounds) (xRange bounds)) (fun px =>
  bind (MathUtil.randRange (- yRange bounds) (yRange bounds)) (fun py =>
  bind (MathUtil.randRange (zMin bounds) (zMax bounds)) (fun pz =>
  ret {| id := id e;
         kind := kind e;
         mesh := {| position := Vec3.mk px (py + playerY * 0.25) pz;
                    rotation := Vec3.zero;
                    scale := 1;
                    visible := true |};
         radius := radius e;
         reward := reward e;
         approachSpeed := approachSpeed e;
         maxHp := maxHp e;
         hp := maxHp e;
         alive := true |}))).

(** [update(dt, worldSpeed, playerPos, timeMs)]. *)
Definition update (dt worldSpeed : R) (playerPos : Vec3.t) (timeMs : R)
    (e : t) : t :=
  if negb (alive e) then e
  else
    let p := position (mesh e) in
    let z1 := Vec3.z p - (worldSpeed + approachSpeed e) * dt in
    let x1 := MathUtil.three_lerp (Vec3.x p) (Vec3.x playerPos)
                (1 - exp (- 0.8 * dt)) in
    let y1 := MathUtil.three_lerp (Vec3.y p) (Vec3.y playerPos)
                (1 - exp (- 0.8 * dt)) in
    let wobble := sin (timeMs * 0.0015 + IZR (id e)) * 0.15 in
    let r := rotation (mesh e) in
    {| id := id e;
       kind := kind e;
       mesh := {| position := Vec3.mk x1 y1 z1;
                  rotation := Vec3.mk (Vec3.x r) (Vec3.y r) wobble;
                  scale := scale (mesh e);
                  visible := visible (mesh e) |};
       radius := radius e;
       reward := reward e;
       approachSpeed := approachSpeed e;
       maxHp := maxHp e;
       hp := hp e;
       alive := alive e |}.

(** [isOutOfRange(zBehind)]. *)
Definition isOutOfRange (zBehind : R) (e : t) : bool :=
  Rltb (Vec3.z (position (mesh e))) zBehind.

(** [takeDamage(amount)]. *)
Definition takeDamage (amount : R) (e : t) : t :=
  if negb (alive e) then e
  else
    let hp1 := MathUtil.clampZ (hp e - Z.max 1 (Zfloor amount)) 0 (maxHp e) in
    let dead := (hp1 <=? 0)%Z in
    {| id := id e;
       kind := kind e;
       mesh := {| position := position (mesh e);
                  rotation := rotation (mesh e);
                  scale := scale (mesh e);
                  visible := if dead then false else visible (mesh e) |};
       radius := radius e;
       reward := reward e;
       approachSpeed := approachSpeed e;
       maxHp := maxHp e;
       hp := hp1;
       alive := if dead then false else alive e |}.

(** The operations of the class, for sequences of calls. *)
Inductive op : Type :=
| OpSpawn (bounds : EnemySpawnBounds) (playerY : R)
| OpUpdate (dt worldSpeed : R) (playerPos : Vec3.t) (timeMs : R)
| OpTakeDamage (amount : R).

Definition run_op (o : op) (e : t) : Rand t :=
  match o with
  | OpSpawn bounds playerY => spawn bounds playerY e
  | OpUpdate dt worldSpeed playerPos timeMs =>
      ret (update dt worldSpeed playerPos timeMs e)
  | OpTakeDamage amount => ret (takeDamage amount e)
  end.

Fixpoint run_ops (os : list op) (e : t) : Rand t :=
  match os with
  | [] => ret e
  | o :: rest => bind (run_op o e) (run_ops rest)
  end.

(** The class invariant of the specification. *)
Definition invariant (e : t) : Prop :=
  (0 <= hp e <= maxHp e)%Z /\ alive e = (0 <? hp e)%Z.

(** What the constructor establishes and every method keeps: the class
    invariant together with [maxHp >= 1]. *)
Definition enemy_ok (e : t) : Prop :=
  (1 <= maxHp e)%Z /\ invariant e.

(** [k] successive calls of [takeDamage(amount)]. *)
Fixpoint hits (k : nat) (amount : R) (e : t) : t :=
  match k with
  | O => e
  | S k' => hits k' amount (takeDamage amount e)
  end.

End Enemy.

(** ** Projectiles.ts *)

Module Projectiles.

Record LaserShot : Type := {
  l_active : bool;
  l_ttl : R;
  l_pos : Vec3.t;
  l_vel : Vec3.t
}.

(** [new LaserShot()]. *)
Definition newLaserShot : LaserShot :=
  {| l_active := false; l_ttl := 0; l_pos := Vec3.zero; l_vel := Vec3.zero |}.

(** [LaserShot.spawn(pos, vel, ttl)]. *)
Definition laserSpawn (pos vel : Vec3.t) (ttl : R) (s : LaserShot) : LaserShot :=
  {| l_active := true; l_ttl := ttl; l_pos := pos; l_vel := vel |}.

(** [LaserShot.update(dt)]. *)
Definition laserUpdate (dt : R) (s : LaserShot) : LaserShot :=
  if negb (l_active s) then s
  else
    let ttl1 := l_ttl s - dt in
    if Rleb ttl1 0 then
      {| l_active := false; l_ttl := ttl1; l_pos := l_pos s; l_vel := l_vel s |}
    else
      {| l_active := true; l_ttl := ttl1;
         l_pos := Vec3.addScaledVector (l_pos s) (l_vel s) dt;
         l_vel := l_vel s |}.

Record MissileShot : Type := {
  m_active : bool;
  m_ttl : R;
  m_pos : Vec3.t;
  m_vel : Vec3.t
}.

(** [new MissileShot()]. *)
Definition newMissileShot : MissileShot :=
  {| m_active := false; m_ttl := 0; m_pos := Vec3.zero; m_vel := Vec3.zero |}.

(** [MissileShot.spawn(pos, initialVel, ttl)]. *)
Definition spawn (pos0 initialVel : Vec3.t) (ttl0 : R) (m : MissileShot)
    : MissileShot :=
  {| m_active := true; m_ttl := ttl0; m_pos := pos0; m_vel := initialVel |}.

(** The heading the homing step steers to: the normalised blend of the
    current heading and the direction to the target. *)
Definition steer (vel0 desiredDir : Vec3.t) (t : R) : Vec3.t :=
  Vec3.normalize (Vec3.lerp (Vec3.normalize vel0) desiredDir t).

(** [MissileShot.update(dt, targetPos, turnRate)]. *)
Definition update (dt : R) (targetPos : option Vec3.t) (turnRate : R)
    (m : MissileShot) : MissileShot :=
  if negb (m_active m) then m
  else
    let ttl1 := m_ttl m - dt in
    if Rleb ttl1 0 then
      {| m_active := false; m_ttl := ttl1; m_pos := m_pos m; m_vel := m_vel m |}
    else
      let vel1 :=
        match targetPos with
        | Some target =>
            let desired := Vec3.sub target (m_pos m) in
            let len := Vec3.length desired in
            if Rgtb len 1e-6 then
              let desiredDir := Vec3.multiplyScalar desired (1 / len) in
              let t := MathUtil.clamp (turnRate * dt) 0 1 in
              let newDir := steer (m_vel m) desiredDir t in
              let speed := Vec3.length (m_vel m) in
              Vec3.multiplyScalar newDir speed
            else m_vel m
        | None => m_vel m
        end in
      {| m_active := true; m_ttl := ttl1;
         m_pos := Vec3.addScaledVector (m_pos m) vel1 dt;
         m_vel := vel1 |}.

(** Successive calls of [LaserShot.update], one for each frame time of
    [dts]. *)
Fixpoint laserFlight (dts : list R) (s : LaserShot) : LaserShot :=
  match dts with
  | [] => s
  | dt :: rest => laserFlight rest (laserUpdate dt s)
  end.

(** The frame times of a flight, added up. *)
Fixpoint elapsed (dts : list R) : R :=
  match dts with
  | [] => 0
  | dt :: rest => dt + elapsed rest
  end.

(** [a.dot(b)]. *)
Definition dot (a b : Vec3.t) : R :=
  Vec3.x a * Vec3.x b + Vec3.y a * Vec3.y b + Vec3.z a * Vec3.z b.

End Projectiles.

(** ** input/InputState.ts, FaceTracker.ts (the controls record) *)

Module Input.

Inductive ControlMode : Type := Mouth | Keyboard.

Inductive FlipAxis : Type := AxisX | AxisZ.

Inductive FlipDir : Type := DirPlus | DirMinus.

Record FlipCommand : Type := { axis : FlipAxis; dir : FlipDir }.

Record InputState : Type := {
  mode : ControlMode;
  moveX : R;
  moveY : R;
  boost : R;
  stop : bool;
  fireGuns : bool;
  fireGunsBurst : bool;
  fireMissile : bool;
  flip : option FlipCommand;
  hasCamera : bool
}.

(** [createDefaultInputState()]. *)
Definition createDefaultInputState : InputState :=
  {| mode := Keyboard; moveX := 0; moveY := 0; boost := 0; stop := false;
     fireGuns := false; fireGunsBurst := false; fireMissile := false;
     flip := None; hasCamera := false |}.

(** What the face tracker publishes each frame. *)
Record FaceControls : Type := {
  calibrated : bool;
  strafeX : R;
  strafeY : R;
  f_boost : R;
  mouthOpen : R;
  fireBurst : bool;
  fireHold : bool
}.

Inductive VoiceCommand : Type :=
| VFireGuns
| VFireMissile
| VStop
| VTogglePause
| VNudge (x y : R) (durationMs : JsNumber)
| VFlip (axis : FlipAxis) (dir : FlipDir).

End Input.

(** ** VoiceHandler.ts: the command parser *)

Module Voice.

Import Input.

Local Open Scope string_scope.

(** [text.includes(t)].  The parser's tokens are ASCII, so searching the
    bytes of the text finds what searching its UTF-16 code units finds. *)
Fixpoint includes (text t : string) : bool :=
  String.prefix t text
  || match text with
     | EmptyString => false
     | String _ rest => includes rest t
     end.

(** [includesAny(text, tokens)]. *)
Definition includesAny (text : string) (tokens : list string) : bool :=
  existsb (includes text) tokens.

(** The token arrays of [parseVoiceCommand], in the order they appear. *)
Definition pauseWords : list string := ["pause"; "pausa"].
Definition resumeWords : list string := ["resume"; "continuar"; "reanudar"].
Definition stopWords : list string :=
  ["stop"; "alto"; "parar"; "detente"; "detener"].
Definition missileWords : list string :=
  ["missile"; "misil"; "rocket"; "cohete"; "launch"; "lanz"].
Definition flipWords : list string :=
  ["flip"; "roll"; "barrel"; "voltereta"; "voltea"; "gira"].
Definition shootWords : list string :=
  ["shoot"; "fire"; "guns"; "gun"; "dispara"; "disparar"; "tirar"].
Definition leftWords : list string := ["left"; "izquierda"].
Definition rightWords : list string := ["right"; "derecha"].
Definition upWords : list string := ["up"; "arriba"].
Definition downWords : list string := ["down"; "abajo"].

(** [parseVoiceCommand(rawText)] after its first line: [text] is what
    [normalize(rawText)] returned.  [None] is [null]. *)
Definition parseNormalized (text : string) : option VoiceCommand :=
  match text with
  | EmptyString => None
  | _ =>
      let wantsPause := includesAny text pauseWords in
      let wantsResume := includesAny text resumeWords in
      if wantsPause || wantsResume then Some VTogglePause
      else if includesAny text stopWords then Some VStop
      else if includesAny text missileWords then Some VFireMissile
      else if includesAny text flipWords then
        let dir0 :=
          if includesAny text leftWords then DirMinus
          else if includesAny text rightWords then DirPlus
          else DirPlus in
        let axis0 :=
          if includesAny text ["up"; "arriba"; "down"; "abajo"] then AxisX
          else AxisZ in
        let finalDir :=
          match axis0 with
          | AxisX => if includesAny text upWords then DirMinus else dir0
          | AxisZ => dir0
          end in
        Some (VFlip axis0 finalDir)
      else if includesAny text shootWords then Some VFireGuns
      else
        let wantsLeft := includesAny text leftWords in
        let wantsRight := includesAny text rightWords in
        let wantsUp := includesAny text upWords in
        let wantsDown := includesAny text downWords in
        if wantsLeft || wantsRight || wantsUp || wantsDown then
          let x := if wantsLeft then -1 else if wantsRight then 1 else 0 in
          let y := if wantsUp then 1 else if wantsDown then -1 else 0 in
          Some (VNudge x y (Finite 700))
        else None
  end.

End Voice.

(** ** input/InputRouter.ts *)

Module InputRouter.

Import Input.

Record ManualNudge : Type := { n_x : R; n_y : R; untilMs : R }.

Record Keys : Type := {
  k_left : bool;
  k_right : bool;
  k_up : bool;
  k_down : bool;
  k_boost : bool;
  k_fire : bool;
  k_stop : bool
}.

Definition noKeys : Keys :=
  {| k_left := false; k_right := false; k_up := false; k_down := false;
     k_boost := false; k_fire := false; k_stop := false |}.

(** The router object.  [togglePauseCalls] counts the invocations of the
    injected [onTogglePause] callback. *)
Record t : Type := {
  state : InputState;
  r_hasCamera : bool;
  keys : Keys;
  manualNudge : option ManualNudge;
  stopHeld : bool;
  stopToggled : bool;
  queuedGunBurst : bool;
  queuedMissile : bool;
  queuedFlip : option FlipCommand;
  lastVoiceFireMs : R;
  lastVoiceMissileMs : R;
  lastVoiceStopMs : R;
  togglePauseCalls : nat
}.

(** [new InputRouter(options)]. *)
Definition new : t :=
  {| state := createDefaultInputState;
     r_hasCamera := false;
     keys := noKeys;
     manualNudge := None;
     stopHeld := false;
     stopToggled := false;
     queuedGunBurst := false;
     queuedMissile := false;
     queuedFlip := None;
     lastVoiceFireMs := 0;
     lastVoiceMissileMs := 0;
     lastVoiceStopMs := 0;
     togglePauseCalls := 0 |}.

(** [reset()]. *)
Definition reset (r : t) : t :=
  {| state := createDefaultInputState;
     r_hasCamera := r_hasCamera r;
     keys := noKeys;
     manualNudge := None;
     stopHeld := false;
     stopToggled := false;
     queuedGunBurst := false;
     queuedMissile := false;
     queuedFlip := None;
     lastVoiceFireMs := 0;
     lastVoiceMissileMs := 0;
     lastVoiceStopMs := 0;
     togglePauseCalls := togglePauseCalls r |}.

Definition with_queue (r : t) (burst missile : bool)
    (fl : option FlipCommand) : t :=
  {| state := state r;
     r_hasCamera := r_hasCamera r;
     keys := keys r;
     manualNudge := manualNudge r;
     stopHeld := stopHeld r;
     stopToggled := stopToggled r;
     queuedGunBurst := burst;
     queuedMissile := missile;
     queuedFlip := fl;
     lastVoiceFireMs := lastVoiceFireMs r;
     lastVoiceMissileMs := lastVoiceMissileMs r;
     lastVoiceStopMs := lastVoiceStopMs r;
     togglePauseCalls := togglePauseCalls r |}.

(** [queueGunBurst()]. *)
Definition queueGunBurst (r : t) : t :=
  with_queue r true (queuedMissile r) (queuedFlip r).

(** [queueMissile()]. *)
Definition queueMissile (r : t) : t :=
  with_queue r (queuedGunBurst r) true (queuedFlip r).

(** [queueFlip(axis, dir)]. *)
Definition queueFlip (a : FlipAxis) (d : FlipDir) (r : t) : t :=
  with_queue r (queuedGunBurst r) (queuedMissile r)
    (Some {| axis := a; dir := d |}).

Definition with_nudge_stop (r : t) (nudge0 : option ManualNudge)
    (held toggled : bool) : t :=
  {| state := state r;
     r_hasCamera := r_hasCamera r;
     keys := keys r;
     manualNudge := nudge0;
     stopHeld := held;
     stopToggled := toggled;
     queuedGunBurst := queuedGunBurst r;
     queuedMissile := queuedMissile r;
     queuedFlip := queuedFlip r;
     lastVoiceFireMs := lastVoiceFireMs r;
     lastVoiceMissileMs := lastVoiceMissileMs r;
     lastVoiceStopMs := lastVoiceStopMs r;
     togglePauseCalls := togglePauseCalls r |}.

(** [setStopHeld(held)]. *)
Definition setStopHeld (held : bool) (r : t) : t :=
  with_nudge_stop r (manualNudge r) held (stopToggled r).

(** [toggleStop()]. *)
Definition toggleStop (r : t) : t :=
  with_nudge_stop r None (stopHeld r) (negb (stopToggled r)).

(** [nudge(x, y, durationMs)]; [now] is the reading of
    [performance.now()]. *)
Definition nudge (now : R) (x y : R) (durationMs : JsNumber) (r : t) : t :=
  let ms := match durationMs with Finite d => d | _ => 700 end in
  with_nudge_stop r
    (Some {| n_x := MathUtil.clamp x (-1) 1;
             n_y := MathUtil.clamp y (-1) 1;
             untilMs := now + ms |})
    (stopHeld r) (stopToggled r).

Definition with_voice (r : t) (fireMs missileMs stopMs : R) (pauses : nat) : t :=
  {| state := state r;
     r_hasCamera := r_hasCamera r;
     keys := keys r;
     manualNudge := manualNudge r;
     stopHeld := stopHeld r;
     stopToggled := stopToggled r;
     queuedGunBurst := queuedGunBurst r;
     queuedMissile := queuedMissile r;
     queuedFlip := queuedFlip r;
     lastVoiceFireMs := fireMs;
     lastVoiceMissileMs := missileMs;
     lastVoiceStopMs := stopMs;
     togglePauseCalls := pauses |}.

(** [handleVoiceCommand(cmd)]; [now] is the reading of
    [performance.now()]. *)
Definition handleVoiceCommand (now : R) (cmd : VoiceCommand) (r : t) : t :=
  match cmd with
  | VFireGuns =>
      if Rltb (now - lastVoiceFireMs r) 450 then r
      else queueGunBurst
             (with_voice r now (lastVoiceMissileMs r) (lastVoiceStopMs r)
                (togglePauseCalls r))
  | VFireMissile =>
      if Rltb (now - lastVoiceMissileMs r) 700 then r
      else queueMissile
             (with_voice r (lastVoiceFireMs r) now (lastVoiceStopMs r)
                (togglePauseCalls r))
  | VStop =>
      if Rltb (now - lastVoiceStopMs r) 650 then r
      else toggleStop
             (with_voice r (lastVoiceFireMs r) (lastVoiceMissileMs r) now
                (togglePauseCalls r))
  | VNudge x y durationMs => nudge now x y durationMs r
  | VFlip a d => queueFlip a d r
  | VTogglePause =>
      with_voice r (lastVoiceFireMs r) (lastVoiceMissileMs r)
        (lastVoiceStopMs r) (S (togglePauseCalls r))
  end.

Definition b2r (b : bool) : R := if b then 1 else 0.

(** [update(nowMs)]; [face] is the current value of the tracker's shared
    controls reference. *)
Definition update (face : FaceControls) (nowMs : R) (r : t) : t :=
  let hasMouth := calibrated face in
  let mode0 := if hasMouth then Mouth else Keyboard in
  let moveX0 := if hasMouth then strafeX face else 0 in
  let moveY0 := if hasMouth then strafeY face else 0 in
  let '(moveX1, moveY1, nudge1) :=
    match manualNudge r with
    | Some manual =>
        if Rgtb (untilMs manual) nowMs
        then (n_x manual, n_y manual, Some manual)
        else (moveX0, moveY0, None)
    | None => (moveX0, moveY0, None)
    end in
  let keyX := b2r (k_right (keys r)) - b2r (k_left (keys r)) in
  let keyY := b2r (k_up (keys r)) - b2r (k_down (keys r)) in
  let '(moveX2, moveY2) :=
    if negb (Reqb keyX 0) || negb (Reqb keyY 0)
    then (MathUtil.clamp (moveX1 + keyX) (-1) 1,
          MathUtil.clamp (moveY1 + keyY) (-1) 1)
    else (moveX1, moveY1) in
  let boost0 :=
    MathUtil.clamp ((if hasMouth then f_boost face else 0)
                    + b2r (k_boost (keys r))) 0 1 in
  let stop0 := stopHeld r || stopToggled r || k_stop (keys r) in
  let fireGuns0 := (hasMouth && fireHold face) || k_fire (keys r) in
  let fireGunsBurst0 := (hasMouth && fireBurst face) || queuedGunBurst r in
  let fireMissile0 := queuedMissile r in
  let flip0 := queuedFlip r in
  {| state := {| mode := mode0;
                 moveX := moveX2;
                 moveY := moveY2;
                 boost := boost0;
                 stop := stop0;
                 fireGuns := fireGuns0;
                 fireGunsBurst := fireGunsBurst0;
                 fireMissile := fireMissile0;
                 flip := flip0;
                 hasCamera := r_hasCamera r || hasMouth |};
     r_hasCamera := r_hasCamera r;
     keys := keys r;
     manualNudge := nudge1;
     stopHeld := stopHeld r;
     stopToggled := stopToggled r;
     queuedGunBurst := false;
     queuedMissile := false;
     queuedFlip := None;
     lastVoiceFireMs := lastVoiceFireMs r;
     lastVoiceMissileMs := lastVoiceMissileMs r;
     lastVoiceStopMs := lastVoiceStopMs r;
     togglePauseCalls := togglePauseCalls r |}.

(** What may happen to the router between two polls. *)
Inductive event : Type :=
| EQueueGunBurst
| EQueueMissile
| EQueueFlip (a : FlipAxis) (d : FlipDir)
| ESetStopHeld (held : bool)
| EToggleStop
| ENudge (now x y : R) (durationMs : JsNumber)
| EVoice (now : R) (cmd : VoiceCommand).

Definition handle (ev : event) (r : t) : t :=
  match ev with
  | EQueueGunBurst => queueGunBurst r
  | EQueueMissile => queueMissile r
  | EQueueFlip a d => queueFlip a d r
  | ESetStopHeld held => setStopHeld held r
  | EToggleStop => toggleStop r
  | ENudge now x y durationMs => nudge now x y durationMs r
  | EVoice now cmd => handleVoiceCommand now cmd r
  end.

(** The events that file no one-shot request. *)
Definition files_no_request (ev : event) : bool :=
  match ev with
  | ESetStopHeld _ | EToggleStop | ENudge _ _ _ _ => true
  | EVoice _ VStop | EVoice _ VTogglePause | EVoice _ (VNudge _ _ _) => true
  | _ => false
  end.

(** *** The keyboard handlers *)

(** [toLowerCase] and [toUpperCase] on the ASCII letters; the key names and
    tag names the handlers compare with are ASCII, and no other character
    maps to one of their letters. *)
Definition lowerAscii (c : Ascii.ascii) : Ascii.ascii :=
  let n := Ascii.nat_of_ascii c in
  if (65 <=? n)%nat && (n <=? 90)%nat then Ascii.ascii_of_nat (n + 32) else c.

Definition upperAscii (c : Ascii.ascii) : Ascii.ascii :=
  let n := Ascii.nat_of_ascii c in
  if (97 <=? n)%nat && (n <=? 122)%nat then Ascii.ascii_of_nat (n - 32) else c.

Fixpoint toLowerCase (s : string) : string :=
  match s with
  | EmptyString => EmptyString
  | String c rest => String (lowerAscii c) (toLowerCase rest)
  end.

Fixpoint toUpperCase (s : string) : string :=
  match s with
  | EmptyString => EmptyString
  | String c rest => String (upperAscii c) (toUpperCase rest)
  end.

(** The target of a keyboard event: its [tagName] ([None] when it has
    none) and [isContentEditable]. *)
Record KeyTarget : Type := {
  tagName : option string;
  isContentEditable : bool
}.

(** A [KeyboardEvent], as far as the handlers read it. *)
Record KeyEvent : Type := {
  key : string;
  repeat : bool;
  target : option KeyTarget
}.

(** [shouldIgnoreKeyEvent(e)]. *)
Definition shouldIgnoreKeyEvent (e : KeyEvent) : bool :=
  let tag :=
    toUpperCase
      match target e with
      | Some tg => match tagName tg with Some s => s | None => EmptyString end
      | None => EmptyString
      end in
  if String.eqb tag "INPUT" || String.eqb tag "TEXTAREA"
     || String.eqb tag "SELECT"
  then true
  else
    match target e with
    | Some tg => isContentEditable tg
    | None => false
    end.

Definition with_keys (r : t) (k : Keys) : t :=
  {| state := state r;
     r_hasCamera := r_hasCamera r;
     keys := k;
     manualNudge := manualNudge r;
     stopHeld := stopHeld r;
     stopToggled := stopToggled r;
     queuedGunBurst := queuedGunBurst r;
     queuedMissile := queuedMissile r;
     queuedFlip := queuedFlip r;
     lastVoiceFireMs := lastVoiceFireMs r;
     lastVoiceMissileMs := lastVoiceMissileMs r;
     lastVoiceStopMs := lastVoiceStopMs r;
     togglePauseCalls := togglePauseCalls r |}.

(** Which of the held-key flags a key name controls. *)
Definition keyFlags (e : KeyEvent) : Keys :=
  let k := toLowerCase (key e) in
  {| k_left := String.eqb k "a" || String.eqb (key e) "ArrowLeft";
     k_right := String.eqb k "d" || String.eqb (key e) "ArrowRight";
     k_up := String.eqb k "w" || String.eqb (key e) "ArrowUp";
     k_down := String.eqb k "s" || String.eqb (key e) "ArrowDown";
     k_boost := String.eqb (key e) "Shift";
     k_fire := String.eqb (key e) " ";
     k_stop := String.eqb k "x" || String.eqb k "c" |}.

(** [onKeyDown(e)]: the router after the handler, and whether the handler
    called [e.preventDefault()]. *)
Definition onKeyDown (e : KeyEvent) (r : t) : t * bool :=
  if shouldIgnoreKeyEvent e then (r, false)
  else
    let k := toLowerCase (key e) in
    let f := keyFlags e in
    let r1 :=
      with_keys r
        {| k_left := if k_left f then true else k_left (keys r);
           k_right := if k_right f then true else k_right (keys r);
           k_up := if k_up f then true else k_up (keys r);
           k_down := if k_down f then true else k_down (keys r);
           k_boost := if k_boost f then true else k_boost (keys r);
           k_fire := if k_fire f then true else k_fire (keys r);
           k_stop := if k_stop f then true else k_stop (keys r) |} in
    let r2 := if k_fire f && negb (repeat e) then queueGunBurst r1 else r1 in
    let r3 := if String.eqb k "f" then queueGunBurst r2 else r2 in
    let r4 :=
      if String.eqb k "m" && negb (repeat e) then queueMissile r3 else r3 in
    let r5 :=
      if String.eqb k "p" && negb (repeat e)
      then with_voice r4 (lastVoiceFireMs r4) (lastVoiceMissileMs r4)
             (lastVoiceStopMs r4) (S (togglePauseCalls r4))
      else r4 in
    (r5,
     k_left f || k_right f || k_up f || k_down f || k_stop f || k_fire f).

(** [onKeyUp(e)]. *)
Definition onKeyUp (e : KeyEvent) (r : t) : t :=
  if shouldIgnoreKeyEvent e then r
  else
    let f := keyFlags e in
    with_keys r
      {| k_left := if k_left f then false else k_left (keys r);
         k_right := if k_right f then false else k_right (keys r);
         k_up := if k_up f then false else k_up (keys r);
         k_down := if k_down f then false else k_down (keys r);
         k_boost := if k_boost f then false else k_boost (keys r);
         k_fire := if k_fire f then false else k_fire (keys r);
         k_stop := if k_stop f then false else k_stop (keys r) |}.

(** [setHasCamera(hasCamera)]. *)
Definition setHasCamera (b : bool) (r : t) : t :=
  {| state := state r;
     r_hasCamera := b;
     keys := keys r;
     manualNudge := manualNudge r;
     stopHeld := stopHeld r;
     stopToggled := stopToggled r;
     queuedGunBurst := queuedGunBurst r;
     queuedMissile := queuedMissile r;
     queuedFlip := queuedFlip r;
     lastVoiceFireMs := lastVoiceFireMs r;
     lastVoiceMissileMs := lastVoiceMissileMs r;
     lastVoiceStopMs := lastVoiceStopMs r;
     togglePauseCalls := togglePauseCalls r |}.

(** *** Everything that can happen to a router *)

Inductive action : Type :=
| APoll (face : FaceControls) (nowMs : R)
| AEvent (ev : event)
| AKeyDown (e : KeyEvent)
| AKeyUp (e : KeyEvent)
| ASetHasCamera (b : bool)
| AReset.

Definition act (a : action) (r : t) : t :=
  match a with
  | APoll face nowMs => update face nowMs r
  | AEvent ev => handle ev r
  | AKeyDown e => fst (onKeyDown e r)
  | AKeyUp e => onKeyUp e r
  | ASetHasCamera b => setHasCamera b r
  | AReset => reset r
  end.

Fixpoint run (acts : list action) (r : t) : t :=
  match acts with
  | [] => r
  | a :: rest => run rest (act a r)
  end.

(** The cool-down of the rate-limited voice commands, and the time stamp
    each of them is checked against. *)
Definition voiceCooldownMs (cmd : VoiceCommand) : option R :=
  match cmd with
  | VFireGuns => Some 450
  | VFireMissile => Some 700
  | VStop => Some 650
  | _ => None
  end.

Definition lastVoiceMs (cmd : VoiceCommand) (r : t) : R :=
  match cmd with
  | VFireGuns => lastVoiceFireMs r
  | VFireMissile => lastVoiceMissileMs r
  | VStop => lastVoiceStopMs r
  | _ => 0
  end.

(** Key events on the page itself (no form field has the focus). *)
Definition keyPress (k : string) (isRepeat : bool) : KeyEvent :=
  {| key := k; repeat := isRepeat; target := None |}.

(** The ranges the comments of [InputState] and [FaceControls] promise:
    a stored nudge within [-1, 1], and tracker strafes within [-1, 1]
    once calibrated. *)
Definition nudge_in_range (r : t) : Prop :=
  match manualNudge r with
  | Some m => -1 <= n_x m <= 1 /\ -1 <= n_y m <= 1
  | None => True
  end.

Definition face_in_range (face : FaceControls) : Prop :=
  calibrated face = true ->
  -1 <= strafeX face <= 1 /\ -1 <= strafeY face <= 1.

End InputRouter.

(** ** worlds/World.ts, worlds/OrbitWorld.ts, worlds/EarthParkWorld.ts *)

Module World.

Import Levels.

Record WorldPlayerBounds : Type := {
  xMin : R;
  xMax : R;
  yMin : R;
  yMax : R
}.

Record Pickup : Type := {
  p_pos : Vec3.t;
  p_rot : Vec3.t;
  p_spin : R;
  p_radius : R
}.

Record Asteroid : Type := {
  a_pos : Vec3.t;
  a_rot : Vec3.t;
  a_spin : Vec3.t;
  a_scale : R;
  a_radius : R
}.

Record Tree : Type := {
  t_pos : Vec3.t;
  t_rotY : R;
  t_scale : R;
  t_radius : R
}.

Record GroundTile : Type := {
  g_meshZ : R;
  g_z : R
}.

(** A pool [{ mesh, items, temp, count }]: the items and the capacity the
    instanced mesh was allocated with. *)
Record Pool (A : Type) : Type := {
  items : list A;
  count : Z
}.

Arguments items {A} _.
Arguments count {A} _.

(** A geometry or material handle: [true] while it is allocated, [false]
    for [null] (never created, or disposed and cleared). *)
Definition Resource : Type := bool.

Record OrbitWorld : Type := {
  o_level : LevelConfig;
  o_isIOS : bool;
  o_inScene : bool;
  o_star : option R;
  o_asteroidGeo : Resource;
  o_asteroidMat : Resource;
  o_asteroids : option (Pool Asteroid);
  o_pickupGeo : Resource;
  o_pickupMat : Resource;
  o_pickups : option (Pool Pickup)
}.

Record EarthParkWorld : Type := {
  e_level : LevelConfig;
  e_isIOS : bool;
  e_inScene : bool;
  e_groundTiles : list GroundTile;
  e_groundGeo : Resource;
  e_groundMat : Resource;
  e_trunkGeo : Resource;
  e_trunkMat : Resource;
  e_foliageGeo : Resource;
  e_foliageMat : Resource;
  e_trees : option (Pool Tree);
  e_pickupGeo : Resource;
  e_pickupMat : Resource;
  e_pickups : option (Pool Pickup)
}.

(** The two implementations of the [World] interface. *)
Inductive t : Type :=
| Orbit (w : OrbitWorld)
| EarthPark (w : EarthParkWorld).

Definition level (w : t) : LevelConfig :=
  match w with
  | Orbit o => o_level o
  | EarthPark e => e_level e
  end.

Definition playerBounds (w : t) : WorldPlayerBounds :=
  match w with
  | Orbit _ => {| xMin := -11; xMax := 11; yMin := -7; yMax := 7 |}
  | EarthPark _ => {| xMin := -7; xMax := 7; yMin := -3.5; yMax := 6 |}
  end.

Definition enemySpawnBounds (w : t) : Enemy.EnemySpawnBounds :=
  match w with
  | Orbit _ =>
      {| Enemy.xRange := 12; Enemy.yRange := 7;
         Enemy.zMin := 110; Enemy.zMax := 190 |}
  | EarthPark _ =>
      {| Enemy.xRange := 8; Enemy.yRange := 4.5;
         Enemy.zMin := 95; Enemy.zMax := 165 |}
  end.

Definition behindZ (w : t) : R :=
  match w with
  | Orbit _ => -28
  | EarthPark _ => -32
  end.

(** *** OrbitWorld *)

Definition O_Z_SPAWN_MIN : R := 70.
Definition O_Z_SPAWN_MAX : R := 220.
Definition ASTEROID_FIELD_X : R := 18.
Definition ASTEROID_FIELD_Y : R := 10.
Definition SAFE_LANE_X : R := 3.4.
Definition SAFE_LANE_Y : R := 2.4.

(** The retry loop of [randomLanePos]: [n] attempts are left. *)
Fixpoint randomLanePos_loop (n : nat) (rangeX rangeY : R)
    (fallback : Rand (R * R)) : Rand (R * R) :=
  match n with
  | O => fallback
  | S k =>
      bind (MathUtil.randRange (- rangeX) rangeX) (fun x =>
      bind (MathUtil.randRange (- rangeY) rangeY) (fun y =>
      if Rgtb (Rabs x) SAFE_LANE_X || Rgtb (Rabs y) SAFE_LANE_Y
      then ret (x, y)
      else randomLanePos_loop k rangeX rangeY fallback))
  end.

(** [randomLanePos(rangeX, rangeY)]. *)
Definition randomLanePos (rangeX rangeY : R) : Rand (R * R) :=
  randomLanePos_loop 6 rangeX rangeY
    (bind Math_random (fun sx =>
     bind (MathUtil.randRange SAFE_LANE_X rangeX) (fun ax =>
     bind Math_random (fun sy =>
     bind (MathUtil.randRange SAFE_LANE_Y rangeY) (fun ay =>
     ret ((if Rltb sx 0.5 then -1 else 1) * ax,
          (if Rltb sy 0.5 then -1 else 1) * ay)))))).

(** [computePickupPoolSize(level)] of OrbitWorld.ts. *)
Definition o_computePickupPoolSize (l : LevelConfig) : Z :=
  let est := Math_round (pickupRate l * 16 + 4) in
  Z.max 6 (Z.min 28 est).

(** [computeAsteroidCount(level)]. *)
Definition computeAsteroidCount (l : LevelConfig) : Z :=
  let n := Math_round (asteroidCount l) in
  Z.max 0 (Z.min 220 n).

Definition randomEuler : Rand Vec3.t :=
  bind Math_random (fun a =>
  bind Math_random (fun b =>
  bind Math_random (fun c =>
  ret (Vec3.mk (a * PI) (b * PI) (c * PI))))).

Definition randomSpin : Rand Vec3.t :=
  bind (MathUtil.randRange (-1.2) 1.2) (fun a =>
  bind (MathUtil.randRange (-1.2) 1.2) (fun b =>
  bind (MathUtil.randRange (-1.2) 1.2) (fun c =>
  ret (Vec3.mk a b c)))).

(** One asteroid of the initial pool of [create()]. *)
Definition o_makeAsteroid : Rand Asteroid :=
  bind (MathUtil.randRange O_Z_SPAWN_MIN O_Z_SPAWN_MAX) (fun z =>
  bind randomEuler (fun rot =>
  bind randomSpin (fun spin =>
  bind (MathUtil.randRange 0.45 1.45) (fun sc =>
  ret {| a_pos := Vec3.mk 0 0 z; a_rot := rot; a_spin := spin;
         a_scale := sc; a_radius := 1 |})))).

(** The second pass of [create()] over the asteroids. *)
Definition o_placeAsteroid (a : Asteroid) : Rand Asteroid :=
  bind (randomLanePos ASTEROID_FIELD_X ASTEROID_FIELD_Y) (fun p =>
  ret {| a_pos := Vec3.mk (fst p) (snd p) (Vec3.z (a_pos a));
         a_rot := a_rot a; a_spin := a_spin a;
         a_scale := a_scale a; a_radius := a_scale a * 0.82 |}).

(** One pickup of the initial pool of [create()]. *)
Definition o_makePickup : Rand Pickup :=
  bind (MathUtil.randRange (-10) 10) (fun x =>
  bind (MathUtil.randRange (-6) 6) (fun y =>
  bind (MathUtil.randRange O_Z_SPAWN_MIN O_Z_SPAWN_MAX) (fun z =>
  bind (MathUtil.randRange 0.8 2.0) (fun sp =>
  ret {| p_pos := Vec3.mk x y z; p_rot := Vec3.zero;
         p_spin := sp; p_radius := 0.55 |})))).

(** The body of the asteroid loop of [reset()]. *)
Definition o_resetAsteroid (a : Asteroid) : Rand Asteroid :=
  bind (randomLanePos ASTEROID_FIELD_X ASTEROID_FIELD_Y) (fun p =>
  bind (MathUtil.randRange O_Z_SPAWN_MIN O_Z_SPAWN_MAX) (fun z =>
  bind (MathUtil.randRange 0.45 1.45) (fun sc =>
  bind randomEuler (fun rot =>
  bind randomSpin (fun spin =>
  ret {| a_pos := Vec3.mk (fst p) (snd p) z; a_rot := rot; a_spin := spin;
         a_scale := sc; a_radius := sc * 0.82 |}))))).

(** The body of the pickup loop of [reset()]. *)
Definition o_resetPickup (p : Pickup) : Rand Pickup :=
  bind (MathUtil.randRange (-10) 10) (fun x =>
  bind (MathUtil.randRange (-6) 6) (fun y =>
  bind (MathUtil.randRange O_Z_SPAWN_MIN O_Z_SPAWN_MAX) (fun z =>
  bind (MathUtil.randRange 0.8 2.0) (fun sp =>
  ret {| p_pos := Vec3.mk x y z; p_rot := Vec3.zero;
         p_spin := sp; p_radius := p_radius p |})))).

(** A loop over [pool?.items] that replaces the items in place. *)
Definition forPool {A : Type} (f : A -> Rand A) (p : option (Pool A))
    : Rand (option (Pool A)) :=
  match p with
  | None => ret None
  | Some pool =>
      bind (forEachM f (items pool)) (fun its =>
      ret (Some {| items := its; count := count pool |}))
  end.

(** [OrbitWorld.reset(playerPos)]. *)
Definition o_reset (w : OrbitWorld) : Rand OrbitWorld :=
  bind (forPool o_resetAsteroid (o_asteroids w)) (fun asts =>
  bind (forPool o_resetPickup (o_pickups w)) (fun pks =>
  ret {| o_level := o_level w; o_isIOS := o_isIOS w;
         o_inScene := o_inScene w; o_star := o_star w;
         o_asteroidGeo := o_asteroidGeo w; o_asteroidMat := o_asteroidMat w;
         o_asteroids := asts;
         o_pickupGeo := o_pickupGeo w; o_pickupMat := o_pickupMat w;
         o_pickups := pks |})).

(** [new OrbitWorld(args)]. *)
Definition o_new (l : LevelConfig) (isIOS : bool) : OrbitWorld :=
  {| o_level := l; o_isIOS := isIOS; o_inScene := false; o_star := None;
     o_asteroidGeo := false; o_asteroidMat := false; o_asteroids := None;
     o_pickupGeo := false; o_pickupMat := false; o_pickups := None |}.

(** [OrbitWorld.create()].  The draws of [createStarfield] only fill the
    star buffers, which the simulation never reads; they are not drawn
    here. *)
Definition o_create (w : OrbitWorld) : Rand OrbitWorld :=
  let asteroidCount := computeAsteroidCount (o_level w) in
  bind (if (0 <? asteroidCount)%Z
        then
          bind (arrayFromM (Z.to_nat asteroidCount) o_makeAsteroid) (fun a0 =>
          bind (forEachM o_placeAsteroid a0) (fun a1 =>
          ret (true, Some {| items := a1; count := asteroidCount |})))
        else ret (o_asteroidGeo w, o_asteroids w)) (fun ast =>
  let pickupCount := o_computePickupPoolSize (o_level w) in
  bind (arrayFromM (Z.to_nat pickupCount) o_makePickup) (fun pks =>
  o_reset
    {| o_level := o_level w; o_isIOS := o_isIOS w;
       o_inScene := true; o_star := Some 0;
       o_asteroidGeo := fst ast;
       o_asteroidMat := if (0 <? asteroidCount)%Z then true
                        else o_asteroidMat w;
       o_asteroids := snd ast;
       o_pickupGeo := true; o_pickupMat := true;
       o_pickups := Some {| items := pks; count := pickupCount |} |})).

(** [OrbitWorld.dispose()]. *)
Definition o_dispose (w : OrbitWorld) : OrbitWorld :=
  {| o_level := o_level w; o_isIOS := o_isIOS w;
     o_inScene := false; o_star := None;
     o_asteroidGeo := false; o_asteroidMat := false; o_asteroids := None;
     o_pickupGeo := false; o_pickupMat := false; o_pickups := None |}.

(** *** EarthParkWorld *)

Definition GROUND_Y : R := -6.5.
Definition TILE_LENGTH : R := 90.
Definition TILE_COUNT : nat := 3.
Definition E_Z_SPAWN_MIN : R := 55.
Definition E_Z_SPAWN_MAX : R := 200.
Definition E_X_MIN : R := -7.
Definition E_X_MAX : R := 7.

(** [computeTreeCount(level)]. *)
Definition computeTreeCount (l : LevelConfig) : Z :=
  let density := Rmax 0 (Rmin 1 (obstacleDensity l)) in
  let base := Math_round (10 + density * 40) in
  Z.max 12 (Z.min 80 base).

(** [computePickupPoolSize(level)] of EarthParkWorld.ts. *)
Definition e_computePickupPoolSize (l : LevelConfig) : Z :=
  let est := Math_round (pickupRate l * 14 + 4) in
  Z.max 6 (Z.min 26 est).

(** The ground tiles of [create()]: tile [i] at [i * TILE_LENGTH]. *)
Fixpoint makeTiles (i n : nat) : list GroundTile :=
  match n with
  | O => []
  | S k => {| g_meshZ := INR i * TILE_LENGTH; g_z := INR i * TILE_LENGTH |}
           :: makeTiles (S i) k
  end.

(** The tile loop of [reset()]: tile [i] goes back to [i * TILE_LENGTH]. *)
Fixpoint resetTiles (i : nat) (ts : list GroundTile) : list GroundTile :=
  match ts with
  | [] => []
  | _ :: rest =>
      {| g_meshZ := INR i * TILE_LENGTH; g_z := INR i * TILE_LENGTH |}
      :: resetTiles (S i) rest
  end.

(** One tree of the initial pool of [create()]. *)
Definition e_makeTree : Rand Tree :=
  bind (MathUtil.randRange E_Z_SPAWN_MIN E_Z_SPAWN_MAX) (fun z =>
  bind Math_random (fun r =>
  bind (MathUtil.randRange 0.85 1.35) (fun sc =>
  ret {| t_pos := Vec3.mk 0 GROUND_Y z; t_rotY := r * PI * 2;
         t_scale := sc; t_radius := 0.8 |}))).

(** The second pass of [create()] over the trees. *)
Definition e_placeTree (t0 : Tree) : Rand Tree :=
  bind (MathUtil.randRange (E_X_MIN - 3) (E_X_MAX + 3)) (fun x =>
  ret {| t_pos := Vec3.mk x (Vec3.y (t_pos t0)) (Vec3.z (t_pos t0));
         t_rotY := t_rotY t0; t_scale := t_scale t0;
         t_radius := 0.65 * t_scale t0 |}).

(** One pickup of the initial pool of [create()]. *)
Definition e_makePickup : Rand Pickup :=
  bind (MathUtil.randRange E_X_MIN E_X_MAX) (fun x =>
  bind (MathUtil.randRange (-1.5) 4.5) (fun y =>
  bind (MathUtil.randRange E_Z_SPAWN_MIN E_Z_SPAWN_MAX) (fun z =>
  bind (MathUtil.randRange 0.8 2.0) (fun sp =>
  ret {| p_pos := Vec3.mk x y z; p_rot := Vec3.zero;
         p_spin := sp; p_radius := 0.55 |})))).

(** The body of the tree loop of [reset()]. *)
Definition e_resetTree (t0 : Tree) : Rand Tree :=
  bind (MathUtil.randRange (E_X_MIN - 3) (E_X_MAX + 3)) (fun x =>
  bind (MathUtil.randRange E_Z_SPAWN_MIN E_Z_SPAWN_MAX) (fun z =>
  bind Math_random (fun r =>
  bind (MathUtil.randRange 0.85 1.35) (fun sc =>
  ret {| t_pos := Vec3.mk x GROUND_Y z; t_rotY := r * PI * 2;
         t_scale := sc; t_radius := 0.65 * sc |})))).

(** The body of the pickup loop of [reset()]. *)
Definition e_resetPickup (p : Pickup) : Rand Pickup :=
  bind (MathUtil.randRange E_X_MIN E_X_MAX) (fun x =>
  bind (MathUtil.randRange (-1.5) 4.5) (fun y =>
  bind (MathUtil.randRange E_Z_SPAWN_MIN E_Z_SPAWN_MAX) (fun z =>
  bind (MathUtil.randRange 0.8 2.0) (fun sp =>
  ret {| p_pos := Vec3.mk x y z; p_rot := Vec3.zero;
         p_spin := sp; p_radius := p_radius p |})))).

(** [EarthParkWorld.reset(playerPos)]. *)
Definition e_reset (w : EarthParkWorld) : Rand EarthParkWorld :=
  let tiles := resetTiles 0 (e_groundTiles w) in
  bind (forPool e_resetTree (e_trees w)) (fun trs =>
  bind (forPool e_resetPickup (e_pickups w)) (fun pks =>
  ret {| e_level := e_level w; e_isIOS := e_isIOS w;
         e_inScene := e_inScene w;
         e_groundTiles := tiles;
         e_groundGeo := e_groundGeo w; e_groundMat := e_groundMat w;
         e_trunkGeo := e_trunkGeo w; e_trunkMat := e_trunkMat w;
         e_foliageGeo := e_foliageGeo w; e_foliageMat := e_foliageMat w;
         e_trees := trs;
         e_pickupGeo := e_pickupGeo w; e_pickupMat := e_pickupMat w;
         e_pickups := pks |})).

(** [new EarthParkWorld(args)]. *)
Definition e_new (l : LevelConfig) (isIOS : bool) : EarthParkWorld :=
  {| e_level := l; e_isIOS := isIOS; e_inScene := false;
     e_groundTiles := [];
     e_groundGeo := false; e_groundMat := false;
     e_trunkGeo := false; e_trunkMat := false;
     e_foliageGeo := false; e_foliageMat := false;
     e_trees := None;
     e_pickupGeo := false; e_pickupMat := false;
     e_pickups := None |}.

(** [EarthParkWorld.create()]. *)
Definition e_create (w : EarthParkWorld) : Rand EarthParkWorld :=
  let tiles := e_groundTiles w ++ makeTiles 0 TILE_COUNT in
  let treeCount :=
    if e_isIOS w
    then Math_round (IZR (computeTreeCount (e_level w)) * 0.82)
    else computeTreeCount (e_level w) in
  bind (arrayFromM (Z.to_nat treeCount) e_makeTree) (fun t0 =>
  bind (forEachM e_placeTree t0) (fun t1 =>
  let pickupCount :=
    if e_isIOS w
    then Math_round (IZR (e_computePickupPoolSize (e_level w)) * 0.9)
    else e_computePickupPoolSize (e_level w) in
  bind (arrayFromM (Z.to_nat pickupCount) e_makePickup) (fun pks =>
  e_reset
    {| e_level := e_level w; e_isIOS := e_isIOS w;
       e_inScene := true;
       e_groundTiles := tiles;
       e_groundGeo := true; e_groundMat := true;
       e_trunkGeo := true; e_trunkMat := true;
       e_foliageGeo := true; e_foliageMat := true;
       e_trees := Some {| items := t1; count := treeCount |};
       e_pickupGeo := true; e_pickupMat := true;
       e_pickups := Some {| items := pks; count := pickupCount |} |}))).

(** [EarthParkWorld.dispose()]. *)
Definition e_dispose (w : EarthParkWorld) : EarthParkWorld :=
  e_new (e_level w) (e_isIOS w).

(** *** The interface, and createWorld.ts *)

Definition isSpaceEnvironment (env : Environment) : bool :=
  match env with
  | Levels.Orbit | UpperAtmos | Alien | War => true
  | _ => false
  end.

(** [createWorld(args)]. *)
Definition createWorld (l : LevelConfig) (isIOS : bool) : t :=
  if isSpaceEnvironment (environment l)
  then Orbit (o_new l isIOS)
  else EarthPark (e_new l isIOS).

Definition create (w : t) : Rand t :=
  match w with
  | Orbit o => bind (o_create o) (fun o' => ret (Orbit o'))
  | EarthPark e => bind (e_create e) (fun e' => ret (EarthPark e'))
  end.

Definition reset (playerPos : Vec3.t) (w : t) : Rand t :=
  match w with
  | Orbit o => bind (o_reset o) (fun o' => ret (Orbit o'))
  | EarthPark e => bind (e_reset e) (fun e' => ret (EarthPark e'))
  end.

Definition dispose (w : t) : t :=
  match w with
  | Orbit o => Orbit (o_dispose o)
  | EarthPark e => EarthPark (e_dispose e)
  end.

(** The sizes of the pools of a world, and its allocated resources: what
    [reset] must leave alone. *)
Definition poolSize {A : Type} (p : option (Pool A)) : option (nat * Z) :=
  match p with
  | None => None
  | Some pool => Some (List.length (items pool), count pool)
  end.

Record Geometry : Type := {
  geo_inScene : bool;
  geo_tiles : nat;
  geo_obstacles : option (nat * Z);
  geo_pickups : option (nat * Z);
  geo_resources : list Resource
}.

Definition geometry (w : t) : Geometry :=
  match w with
  | Orbit o =>
      {| geo_inScene := o_inScene o;
         geo_tiles := 0;
         geo_obstacles := poolSize (o_asteroids o);
         geo_pickups := poolSize (o_pickups o);
         geo_resources := [o_asteroidGeo o; o_asteroidMat o;
                           o_pickupGeo o; o_pickupMat o] |}
  | EarthPark e =>
      {| geo_inScene := e_inScene e;
         geo_tiles := List.length (e_groundTiles e);
         geo_obstacles := poolSize (e_trees e);
         geo_pickups := poolSize (e_pickups e);
         geo_resources := [e_groundGeo e; e_groundMat e;
                           e_trunkGeo e; e_trunkMat e;
                           e_foliageGeo e; e_foliageMat e;
                           e_pickupGeo e; e_pickupMat e] |}
  end.

(** The scale and the collision radius of the first obstacle of a world
    (asteroid or tree). *)
Definition firstObstacle (w : t) : option (R * R) :=
  match w with
  | Orbit o =>
      match o_asteroids o with
      | Some p =>
          match items p with
          | a :: _ => Some (a_scale a, a_radius a)
          | [] => None
          end
      | None => None
      end
  | EarthPark e =>
      match e_trees e with
      | Some p =>
          match items p with
          | t0 :: _ => Some (t_scale t0, t_radius t0)
          | [] => None
          end
      | None => None
      end
  end.

(** *** World.update *)

Definition O_Z_BEHIND : R := -28.
Definition E_Z_BEHIND : R := -32.

(** The collision test of the loops: the squared distance between a
    centre and the player against the squared sum of the radii. *)
Definition overlaps (c playerPos : Vec3.t) (r : R) : bool :=
  let dx := Vec3.x c - Vec3.x playerPos in
  let dy := Vec3.y c - Vec3.y playerPos in
  let dz := Vec3.z c - Vec3.z playerPos in
  Rltb (dx * dx + dy * dy + dz * dz) (r * r).

(** The body of the first asteroid loop of [OrbitWorld.update]: scroll,
    spin, and recycle once behind the player. *)
Definition o_moveAsteroid (speed dt : R) (a : Asteroid) : Rand Asteroid :=
  let z1 := Vec3.z (a_pos a) - speed * dt in
  let rot1 :=
    Vec3.mk (Vec3.x (a_rot a) + Vec3.x (a_spin a) * dt)
            (Vec3.y (a_rot a) + Vec3.y (a_spin a) * dt)
            (Vec3.z (a_rot a) + Vec3.z (a_spin a) * dt) in
  if Rltb z1 O_Z_BEHIND then
    bind (randomLanePos ASTEROID_FIELD_X ASTEROID_FIELD_Y) (fun p =>
    bind (MathUtil.randRange O_Z_SPAWN_MIN O_Z_SPAWN_MAX) (fun z =>
    bind (MathUtil.randRange 0.45 1.45) (fun sc =>
    ret {| a_pos := Vec3.mk (fst p) (snd p) z; a_rot := rot1;
           a_spin := a_spin a; a_scale := sc; a_radius := sc * 0.82 |})))
  else
    ret {| a_pos := Vec3.mk (Vec3.x (a_pos a)) (Vec3.y (a_pos a)) z1;
           a_rot := rot1; a_spin := a_spin a; a_scale := a_scale a;
           a_radius := a_radius a |}.

(** [p.pos.set(randRange(..), randRange(..), randRange(..))] of the two
    worlds. *)
Definition o_respawnPickup (p : Pickup) : Rand Pickup :=
  bind (MathUtil.randRange (-10) 10) (fun x =>
  bind (MathUtil.randRange (-6) 6) (fun y =>
  bind (MathUtil.randRange O_Z_SPAWN_MIN O_Z_SPAWN_MAX) (fun z =>
  ret {| p_pos := Vec3.mk x y z; p_rot := p_rot p;
         p_spin := p_spin p; p_radius := p_radius p |}))).

Definition e_respawnPickup (p : Pickup) : Rand Pickup :=
  bind (MathUtil.randRange E_X_MIN E_X_MAX) (fun x =>
  bind (MathUtil.randRange (-1.5) 4.5) (fun y =>
  bind (MathUtil.randRange E_Z_SPAWN_MIN E_Z_SPAWN_MAX) (fun z =>
  ret {| p_pos := Vec3.mk x y z; p_rot := p_rot p;
         p_spin := p_spin p; p_radius := p_radius p |}))).

(** The body of the pickup loop of [update] (the same in both worlds up
    to the respawn ranges and the recycling plane): the pickup after the
    step, and whether [onCollectPickup(1)] was called. *)
Definition stepPickup (respawn : Pickup -> Rand Pickup) (behind : R)
    (speed dt : R) (playerPos : Vec3.t) (playerRadius : R) (p : Pickup)
    : Rand (Pickup * bool) :=
  let p1 :=
    {| p_pos := Vec3.mk (Vec3.x (p_pos p)) (Vec3.y (p_pos p))
                        (Vec3.z (p_pos p) - speed * dt);
       p_rot := Vec3.mk (Vec3.x (p_rot p) + p_spin p * 0.35 * dt)
                        (Vec3.y (p_rot p) + p_spin p * dt)
                        (Vec3.z (p_rot p));
       p_spin := p_spin p; p_radius := p_radius p |} in
  bind (if Rltb (Vec3.z (p_pos p1)) behind then respawn p1 else ret p1)
       (fun p2 =>
  if overlaps (p_pos p2) playerPos (playerRadius + p_radius p2)
  then bind (respawn p2) (fun p3 => ret (p3, true))
  else ret (p2, false)).

(** The pickup loop: the pickups after it and the number of calls of
    [onCollectPickup] (each with the count 1). *)
Fixpoint pickupLoop (step : Pickup -> Rand (Pickup * bool)) (ps : list Pickup)
    : Rand (list Pickup * nat) :=
  match ps with
  | [] => ret ([], O)
  | p :: rest =>
      bind (step p) (fun r =>
      bind (pickupLoop step rest) (fun rs =>
      ret (fst r :: fst rs, ((if snd r then 1 else 0) + snd rs)%nat)))
  end.

Definition pickupsUpdate (step : Pickup -> Rand (Pickup * bool))
    (p : option (Pool Pickup)) : Rand (option (Pool Pickup) * nat) :=
  match p with
  | None => ret (None, O)
  | Some pool =>
      bind (pickupLoop step (items pool)) (fun r =>
      ret (Some {| items := fst r; count := count pool |}, snd r))
  end.

(** [OrbitWorld.update(args)]: the world after the call, [hit], and the
    number of calls of [args.onCollectPickup].  The instance matrices are
    presentation and are left out. *)
Definition o_update (dt nowMs speed : R) (playerPos : Vec3.t)
    (playerRadius : R) (w : OrbitWorld) : Rand (OrbitWorld * bool * nat) :=
  let star1 := option_map (fun _ => nowMs * 0.001) (o_star w) in
  bind (match o_asteroids w with
        | Some ast =>
            bind (forEachM (o_moveAsteroid speed dt) (items ast)) (fun its =>
            ret (Some {| items := its; count := count ast |},
                 Rgeb (obstacleDensity (o_level w)) 0.18
                 && existsb (fun a => overlaps (a_pos a) playerPos
                                        (playerRadius + a_radius a)) its))
        | None => ret (None, false)
        end) (fun ah =>
  let w1 :=
    {| o_level := o_level w; o_isIOS := o_isIOS w;
       o_inScene := o_inScene w; o_star := star1;
       o_asteroidGeo := o_asteroidGeo w; o_asteroidMat := o_asteroidMat w;
       o_asteroids := fst ah;
       o_pickupGeo := o_pickupGeo w; o_pickupMat := o_pickupMat w;
       o_pickups := o_pickups w |} in
  if snd ah then ret (w1, true, O)
  else
    bind (pickupsUpdate
            (stepPickup o_respawnPickup O_Z_BEHIND speed dt playerPos
               playerRadius)
            (o_pickups w)) (fun pc =>
    ret ({| o_level := o_level w; o_isIOS := o_isIOS w;
            o_inScene := o_inScene w; o_star := star1;
            o_asteroidGeo := o_asteroidGeo w; o_asteroidMat := o_asteroidMat w;
            o_asteroids := fst ah;
            o_pickupGeo := o_pickupGeo w; o_pickupMat := o_pickupMat w;
            o_pickups := fst pc |},
         false, snd pc))).

(** The ground-tile loop of [EarthParkWorld.update]. *)
Definition scrollTile (speed dt : R) (t0 : GroundTile) : GroundTile :=
  let z1 := g_z t0 - speed * dt in
  let z2 :=
    if Rltb z1 (E_Z_BEHIND - TILE_LENGTH * 0.5)
    then z1 + TILE_LENGTH * INR TILE_COUNT
    else z1 in
  {| g_meshZ := z2; g_z := z2 |}.

(** The tree loop of [EarthParkWorld.update]: it returns from inside the
    loop on the first collision, leaving the trees after it untouched. *)
Fixpoint e_treeLoop (speed dt : R) (playerPos : Vec3.t) (playerRadius : R)
    (ts : list Tree) : Rand (list Tree * bool) :=
  match ts with
  | [] => ret ([], false)
  | t0 :: rest =>
      let z1 := Vec3.z (t_pos t0) - speed * dt in
      bind (if Rltb z1 E_Z_BEHIND then
              bind (MathUtil.randRange (E_X_MIN - 3) (E_X_MAX + 3)) (fun x =>
              bind (MathUtil.randRange E_Z_SPAWN_MIN E_Z_SPAWN_MAX) (fun z =>
              bind Math_random (fun r =>
              bind (MathUtil.randRange 0.85 1.35) (fun sc =>
              ret {| t_pos := Vec3.mk x (Vec3.y (t_pos t0)) z;
                     t_rotY := r * PI * 2;
                     t_scale := sc; t_radius := 0.65 * sc |}))))
            else
              ret {| t_pos := Vec3.mk (Vec3.x (t_pos t0)) (Vec3.y (t_pos t0)) z1;
                     t_rotY := t_rotY t0; t_scale := t_scale t0;
                     t_radius := t_radius t0 |}) (fun t1 =>
      let c := Vec3.mk (Vec3.x (t_pos t1))
                       (Vec3.y (t_pos t1) + 1.3 * t_scale t1)
                       (Vec3.z (t_pos t1)) in
      if overlaps c playerPos (playerRadius + t_radius t1)
      then ret (t1 :: rest, true)
      else
        bind (e_treeLoop speed dt playerPos playerRadius rest) (fun r =>
        ret (t1 :: fst r, snd r)))
  end.

(** [EarthParkWorld.update(args)]. *)
Definition e_update (dt nowMs speed : R) (playerPos : Vec3.t)
    (playerRadius : R) (w : EarthParkWorld)
    : Rand (EarthParkWorld * bool * nat) :=
  let tiles := map (scrollTile speed dt) (e_groundTiles w) in
  bind (match e_trees w with
        | Some trees =>
            bind (e_treeLoop speed dt playerPos playerRadius (items trees))
                 (fun r =>
            ret (Some {| items := fst r; count := count trees |}, snd r))
        | None => ret (None, false)
        end) (fun th =>
  if snd th then
    ret ({| e_level := e_level w; e_isIOS := e_isIOS w;
            e_inScene := e_inScene w;
            e_groundTiles := tiles;
            e_groundGeo := e_groundGeo w; e_groundMat := e_groundMat w;
            e_trunkGeo := e_trunkGeo w; e_trunkMat := e_trunkMat w;
            e_foliageGeo := e_foliageGeo w; e_foliageMat := e_foliageMat w;
            e_trees := fst th;
            e_pickupGeo := e_pickupGeo w; e_pickupMat := e_pickupMat w;
            e_pickups := e_pickups w |},
         true, O)
  else
    bind (pickupsUpdate
            (stepPickup e_respawnPickup E_Z_BEHIND speed dt playerPos
               playerRadius)
            (e_pickups w)) (fun pc =>
    ret ({| e_level := e_level w; e_isIOS := e_isIOS w;
            e_inScene := e_inScene w;
            e_groundTiles := tiles;
            e_groundGeo := e_groundGeo w; e_groundMat := e_groundMat w;
            e_trunkGeo := e_trunkGeo w; e_trunkMat := e_trunkMat w;
            e_foliageGeo := e_foliageGeo w; e_foliageMat := e_foliageMat w;
            e_trees := fst th;
            e_pickupGeo := e_pickupGeo w; e_pickupMat := e_pickupMat w;
            e_pickups := fst pc |},
         false, snd pc))).

(** [World.update(args)]. *)
Definition update (dt nowMs speed : R) (playerPos : Vec3.t)
    (playerRadius : R) (w : t) : Rand (t * bool * nat) :=
  match w with
  | Orbit o =>
      bind (o_update dt nowMs speed playerPos playerRadius o) (fun r =>
      ret (Orbit (fst (fst r)), snd (fst r), snd r))
  | EarthPark e =>
      bind (e_update dt nowMs speed playerPos playerRadius e) (fun r =>
      ret (EarthPark (fst (fst r)), snd (fst r), snd r))
  end.

(** The [z] coordinates of the obstacles and of the pickups of a world. *)
Definition obstacleZs (w : t) : list R :=
  match w with
  | Orbit o =>
      match o_asteroids o with
      | Some p => map (fun a => Vec3.z (a_pos a)) (items p)
      | None => []
      end
  | EarthPark e =>
      match e_trees e with
      | Some p => map (fun t0 => Vec3.z (t_pos t0)) (items p)
      | None => []
      end
  end.

Definition pickupZs (w : t) : list R :=
  match (match w with Orbit o => o_pickups o | EarthPark e => e_pickups e end)
  with
  | Some p => map (fun k => Vec3.z (p_pos k)) (items p)
  | None => []
  end.

(** The positions of the ground tiles of a world. *)
Definition tileZs (w : t) : list R :=
  match w with
  | Orbit _ => []
  | EarthPark e => map g_z (e_groundTiles e)
  end.

(** Successive ground scrolls, one for each pair of a speed and a frame
    time. *)
Fixpoint scrollTilesBy (moves : list (R * R)) (ts : list GroundTile)
    : list GroundTile :=
  match moves with
  | [] => ts
  | (speed, dt) :: rest => scrollTilesBy rest (map (scrollTile speed dt) ts)
  end.

End World.

(** ** Drone.ts (the state the simulation writes) *)

Module Drone.

Record FlipAnim : Type := {
  fl_axis : Input.FlipAxis;
  fl_dir : Input.FlipDir;
  fl_t : R;
  fl_duration : R
}.

Record t : Type := {
  position : Vec3.t;
  flip : option FlipAnim
}.

(** [triggerFlip(axis, dir)]. *)
Definition triggerFlip (a : Input.FlipAxis) (d : Input.FlipDir) (dr : t) : t :=
  {| position := position dr;
     flip := Some {| fl_axis := a; fl_dir := d; fl_t := 0;
                     fl_duration := 0.38 |} |}.

(** [DroneUpdateInput]. *)
Record DroneUpdateInput : Type := {
  in_timeMs : R;
  in_strafeX : R;
  in_strafeY : R;
  in_speed : R
}.

(** What [update] writes to the scene graph: the rotation of the group,
    the intensity of the thruster lights and the opacity of their glow. *)
Record Pose : Type := {
  pose_rotation : Vec3.t;
  pose_intensity : R;
  pose_glowOpacity : R
}.

Definition dirSign (d : Input.FlipDir) : R :=
  match d with
  | Input.DirPlus => 1
  | Input.DirMinus => -1
  end.

(** [update(dt, input)]: the drone after the call, and what it shows. *)
Definition update (dt : R) (input : DroneUpdateInput) (dr : t) : t * Pose :=
  let tiltX := MathUtil.clamp (- in_strafeY input * 0.35) (-0.45) 0.45 in
  let tiltZ := MathUtil.clamp (- in_strafeX input * 0.35) (-0.45) 0.45 in
  let '(flipX, flipZ, flip1) :=
    match flip dr with
    | Some f =>
        let t1 := fl_t f + dt in
        let p := Rmin 1 (t1 / fl_duration f) in
        let eased := p * (2 - p) in
        let a := dirSign (fl_dir f) * PI * 2 * eased in
        (match fl_axis f with Input.AxisX => a | Input.AxisZ => 0 end,
         match fl_axis f with Input.AxisZ => a | Input.AxisX => 0 end,
         if Rgeb p 1 then None
         else Some {| fl_axis := fl_axis f; fl_dir := fl_dir f; fl_t := t1;
                      fl_duration := fl_duration f |})
    | None => (0, 0, None)
    end in
  let speedT := MathUtil.clamp (in_speed input / 18) 0 1 in
  let flicker := 0.9 + 0.1 * sin (in_timeMs input * 0.02) in
  ({| position := position dr; flip := flip1 |},
   {| pose_rotation := Vec3.mk (tiltX + flipX) 0 (tiltZ + flipZ);
      pose_intensity := (1.2 + speedT * 2.0) * flicker;
      pose_glowOpacity := 0.45 + speedT * 0.4 |}).

(** Successive calls of [update], one for each frame: the drone after
    them and what the last call showed. *)
Fixpoint fly (frames : list (R * DroneUpdateInput)) (dr : t) (shown : Pose)
    : t * Pose :=
  match frames with
  | [] => (dr, shown)
  | (dt, input) :: rest =>
      let (dr1, shown1) := update dt input dr in
      fly rest dr1 shown1
  end.

(** The frame times of a sequence of frames, added up. *)
Fixpoint flown (frames : list (R * DroneUpdateInput)) : R :=
  match frames with
  | [] => 0
  | (dt, _) :: rest => dt + flown rest
  end.

End Drone.

(** ** Game.ts *)

Module Game.

Import Levels Projectiles.

Definition PLAYER_RADIUS : R := 1.1.
Definition MAX_LASERS : nat := 140.
Definition MAX_MISSILES : nat := 8.
Definition MAX_EXPLOSIONS : nat := 14.

Definition GUN_BURST_COUNT : R := 5.
Definition GUN_BURST_INTERVAL_MS : R := 70.
Definition GUN_HOLD_INTERVAL_MS : R := 95.

Definition LASER_SPEED : R := 58.
Definition LASER_TTL : R := 1.1.
Definition LASER_Z_MAX : R := 260.

Definition MISSILE_SPEED : R := 26.
Definition MISSILE_TTL : R := 3.2.
Definition MISSILE_TURN_RATE : R := 4.2.

Definition STRAFE_SPEED : R := 10.

Record EnemySlot : Type := {
  enemy : Enemy.t;
  deadUntilMs : R
}.

Record MissileSlot : Type := {
  shot : MissileShot;
  m_meshVisible : bool;
  m_trailVisible : bool
}.

Record Explosion : Type := {
  mesh : Object3D;
  age : R;
  lifetime : R;
  startScale : R
}.

Inductive ResetReason : Type := ReasonReset | ReasonHit.

(** The orchestrator.  [hasScene] is [this.scene !== null];
    [hitFlashCalls] counts the invocations of the [onHitFlash] callback.
    The renderer, the camera, the meshes of the pools and the HUD text are
    presentation and are left out, and with them the writes [reset] and
    [frame] make to them. *)
Record t : Type := {
  isIOS : bool;
  running : bool;
  crashed : bool;
  hasScene : bool;
  level : LevelConfig;
  world : option World.t;
  score : Z;
  speedBase : R;
  speed : R;
  pos : Vec3.t;
  drone : option Drone.t;
  gunBurstRemaining : Z;
  gunBurstNextMs : R;
  lastGunFireMs : R;
  enemies : list EnemySlot;
  lasers : option (list LaserShot);
  missiles : list MissileSlot;
  explosions : list Explosion;
  hitFlashCalls : nat
}.

(** [setRunning(running)]. *)
Definition setRunning (b : bool) (g : t) : t :=
  {| isIOS := isIOS g; running := b; crashed := crashed g;
     hasScene := hasScene g; level := level g; world := world g;
     score := score g; speedBase := speedBase g; speed := speed g;
     pos := pos g; drone := drone g;
     gunBurstRemaining := gunBurstRemaining g;
     gunBurstNextMs := gunBurstNextMs g;
     lastGunFireMs := lastGunFireMs g;
     enemies := enemies g; lasers := lasers g; missiles := missiles g;
     explosions := explosions g; hitFlashCalls := hitFlashCalls g |}.

Definition with_speed (g : t) (speedBase0 speed0 : R) : t :=
  {| isIOS := isIOS g; running := running g; crashed := crashed g;
     hasScene := hasScene g; level := level g; world := world g;
     score := score g; speedBase := speedBase0; speed := speed0;
     pos := pos g; drone := drone g;
     gunBurstRemaining := gunBurstRemaining g;
     gunBurstNextMs := gunBurstNextMs g;
     lastGunFireMs := lastGunFireMs g;
     enemies := enemies g; lasers := lasers g; missiles := missiles g;
     explosions := explosions g; hitFlashCalls := hitFlashCalls g |}.

(** [updateSpeed(dt, boost, stopActive)]. *)
Definition updateSpeed (dt boost : R) (stopActive : bool) (g : t) : t :=
  let baseSpeed0 := Rmax 0 (baseSpeed (level g)) in
  let maxSpeed0 := Rmax baseSpeed0 (maxSpeed (level g)) in
  let accel := Rmax 0 (accelPerSec (level g)) in
  let boostMult := Rmax 1 (boostMultiplier (level g)) in
  if stopActive then with_speed g baseSpeed0 0
  else if autoForward (level g) then
    let speedBase1 :=
      MathUtil.clamp (speedBase g + accel * dt) baseSpeed0 maxSpeed0 in
    let target :=
      MathUtil.clamp (speedBase1 * (1 + boost * (boostMult - 1))) 0 maxSpeed0 in
    let t := 1 - exp (- 8 * dt) in
    with_speed g speedBase1 (MathUtil.three_lerp (speed g) target t)
  else
    let target :=
      MathUtil.clamp (baseSpeed0 + boost * (maxSpeed0 - baseSpeed0))
        0 maxSpeed0 in
    let t := 1 - exp (- 10 * dt) in
    with_speed g baseSpeed0 (MathUtil.three_lerp (speed g) target t).

(** The upper bound [updateSpeed] clamps to:
    [Math.max(Math.max(0, baseSpeed), maxSpeed)]. *)
Definition effectiveMaxSpeed (l : LevelConfig) : R :=
  Rmax (Rmax 0 (baseSpeed l)) (maxSpeed l).

(** [computeEnemyPoolSize(level)]. *)
Definition computeEnemyPoolSize (l : LevelConfig) : Z :=
  let rate := enemyRate l in
  if Rleb rate 0 then 0%Z
  else
    let est := Math_round (rate * 16) in
    Z.max 0 (Z.min 20 est).

(** The tuning table of [createEnemiesForLevel]. *)
Definition enemyCfgs (k : Enemy.EnemyKind) : Enemy.EnemyConfig :=
  match k with
  | Enemy.Ship =>
      {| Enemy.cfg_kind := Enemy.Ship; Enemy.cfg_hp := 3;
         Enemy.cfg_radius := 1.2; Enemy.cfg_approachSpeed := 7;
         Enemy.cfg_reward := 10 |}
  | Enemy.Spike =>
      {| Enemy.cfg_kind := Enemy.Spike; Enemy.cfg_hp := 2;
         Enemy.cfg_radius := 1.1; Enemy.cfg_approachSpeed := 9;
         Enemy.cfg_reward := 5 |}
  end.

(** [createEnemyMesh(kind)]: the ship group is scaled by 1.05. *)
Definition createEnemyMesh (k : Enemy.EnemyKind) : Object3D :=
  {| position := Vec3.zero; rotation := Vec3.zero;
     scale := match k with Enemy.Ship => 1.05 | Enemy.Spike => 1 end;
     visible := true |}.

(** The loop of [createEnemiesForLevel]: slot [i] of [i + n]. *)
Fixpoint createEnemies_loop (i : Z) (n : nat) (bounds : Enemy.EnemySpawnBounds)
    : Rand (list EnemySlot) :=
  match n with
  | O => ret []
  | S k =>
      bind Math_random (fun r =>
      let kind := if Rltb r 0.65 then Enemy.Ship else Enemy.Spike in
      let e := Enemy.new (i + 1) kind (createEnemyMesh kind) (enemyCfgs kind) in
      bind (Enemy.spawn bounds 0 e) (fun e' =>
      bind (createEnemies_loop (i + 1) k bounds) (fun rest =>
      ret ({| enemy := e'; deadUntilMs := 0 |} :: rest))))
  end.

Definition with_enemies (g : t) (es : list EnemySlot) : t :=
  {| isIOS := isIOS g; running := running g; crashed := crashed g;
     hasScene := hasScene g; level := level g; world := world g;
     score := score g; speedBase := speedBase g; speed := speed g;
     pos := pos g; drone := drone g;
     gunBurstRemaining := gunBurstRemaining g;
     gunBurstNextMs := gunBurstNextMs g;
     lastGunFireMs := lastGunFireMs g;
     enemies := es; lasers := lasers g; missiles := missiles g;
     explosions := explosions g; hitFlashCalls := hitFlashCalls g |}.

(** [createEnemiesForLevel()]. *)
Definition createEnemiesForLevel (g : t) : Rand t :=
  if negb (hasScene g) then ret g
  else
    match world g with
    | None => ret g
    | Some w =>
        let count := computeEnemyPoolSize (level g) in
        if (count <=? 0)%Z then ret g
        else
          bind (createEnemies_loop 0 (Z.to_nat count)
                  (World.enemySpawnBounds w)) (fun es =>
          ret (with_enemies g es))
    end.

(** [disposeEnemies()]. *)
Definition disposeEnemies (g : t) : t := with_enemies g [].

(** [xs.find(free)] followed by a write to the slot found: the first
    element that satisfies [free] is replaced by [f] of it; [None] when
    [find] returns [undefined]. *)
Fixpoint spawnFirst {A : Type} (free : A -> bool) (f : A -> A) (xs : list A)
    : option (list A) :=
  match xs with
  | [] => None
  | x :: rest =>
      if free x then Some (f x :: rest)
      else
        match spawnFirst free f rest with
        | Some rest' => Some (x :: rest')
        | None => None
        end
  end.

(** The number of active slots of a pool. *)
Definition activeCount {A : Type} (isActive : A -> bool) (xs : list A) : nat :=
  List.length (filter isActive xs).

(** The body of the enemy loop of [reset]. *)
Definition resetSlot (bounds : Enemy.EnemySpawnBounds) (playerY : R)
    (s : EnemySlot) : Rand EnemySlot :=
  bind (Enemy.spawn bounds playerY (enemy s)) (fun e =>
  ret {| enemy := e; deadUntilMs := 0 |}).

Definition deactivateLaser (l : LaserShot) : LaserShot :=
  {| l_active := false; l_ttl := l_ttl l; l_pos := l_pos l; l_vel := l_vel l |}.

Definition deactivateMissile (m : MissileSlot) : MissileSlot :=
  {| shot := {| m_active := false; m_ttl := m_ttl (shot m);
                m_pos := m_pos (shot m); m_vel := m_vel (shot m) |};
     m_meshVisible := m_meshVisible m;
     m_trailVisible := m_trailVisible m |}.

Definition expireExplosion (e : Explosion) : Explosion :=
  {| mesh := {| position := position (mesh e);
                rotation := rotation (mesh e);
                scale := scale (mesh e);
                visible := false |};
     age := lifetime e;
     lifetime := lifetime e;
     startScale := startScale e |}.

Definition defaultSpawnBounds : Enemy.EnemySpawnBounds :=
  {| Enemy.xRange := 12; Enemy.yRange := 7;
     Enemy.zMin := 110; Enemy.zMax := 190 |}.

(** [reset(reason)]. *)
Definition reset (reason : ResetReason) (g : t) : Rand t :=
  let pos0 := Vec3.zero in
  let drone1 :=
    match drone g with
    | Some d => Some {| Drone.position := pos0; Drone.flip := Drone.flip d |}
    | None => None
    end in
  bind (match world g with
        | Some w => bind (World.reset pos0 w) (fun w' => ret (Some w'))
        | None => ret None
        end) (fun world1 =>
  let bounds :=
    match world1 with
    | Some w => World.enemySpawnBounds w
    | None => defaultSpawnBounds
    end in
  bind (forEachM (resetSlot bounds (Vec3.y pos0)) (enemies g)) (fun enemies1 =>
  ret {| isIOS := isIOS g; running := running g; crashed := crashed g;
         hasScene := hasScene g; level := level g; world := world1;
         score := 1;
         speedBase := Rmax 0 (baseSpeed (level g));
         speed := 0;
         pos := pos0; drone := drone1;
         gunBurstRemaining := 0;
         gunBurstNextMs := 0;
         lastGunFireMs := 0;
         enemies := enemies1;
         lasers := option_map (map deactivateLaser) (lasers g);
         missiles := map deactivateMissile (missiles g);
         explosions := map expireExplosion (explosions g);
         hitFlashCalls :=
           match reason with
           | ReasonHit => S (hitFlashCalls g)
           | ReasonReset => hitFlashCalls g
           end |})).

Definition with_guns (g : t) (remaining : Z) (nextMs lastMs : R)
    (ls : option (list LaserShot)) : t :=
  {| isIOS := isIOS g; running := running g; crashed := crashed g;
     hasScene := hasScene g; level := level g; world := world g;
     score := score g; speedBase := speedBase g; speed := speed g;
     pos := pos g; drone := drone g;
     gunBurstRemaining := remaining;
     gunBurstNextMs := nextMs;
     lastGunFireMs := lastMs;
     enemies := enemies g; lasers := ls; missiles := missiles g;
     explosions := explosions g; hitFlashCalls := hitFlashCalls g |}.

(** [queueGunBurst(count)]; [now] is the reading of [performance.now()]. *)
Definition queueGunBurst (count now : R) (g : t) : t :=
  if negb (running g) then g
  else
    with_guns g
      (Z.min 25 (gunBurstRemaining g + Z.max 1 (Zfloor count)))
      (if Rltb (gunBurstNextMs g) now then now else gunBurstNextMs g)
      (lastGunFireMs g)
      (lasers g).

Definition with_missiles (g : t) (ms : list MissileSlot) : t :=
  {| isIOS := isIOS g; running := running g; crashed := crashed g;
     hasScene := hasScene g; level := level g; world := world g;
     score := score g; speedBase := speedBase g; speed := speed g;
     pos := pos g; drone := drone g;
     gunBurstRemaining := gunBurstRemaining g;
     gunBurstNextMs := gunBurstNextMs g;
     lastGunFireMs := lastGunFireMs g;
     enemies := enemies g; lasers := lasers g; missiles := ms;
     explosions := explosions g; hitFlashCalls := hitFlashCalls g |}.

Definition missileFree (m : MissileSlot) : bool := negb (m_active (shot m)).

Definition missileActive (m : MissileSlot) : bool := m_active (shot m).

Definition launchMissile (spawnPos spawnVel : Vec3.t) (m : MissileSlot)
    : MissileSlot :=
  {| shot := Projectiles.spawn spawnPos spawnVel MISSILE_TTL (shot m);
     m_meshVisible := true;
     m_trailVisible := true |}.

(** [fireMissile()]. *)
Definition fireMissile (g : t) : t :=
  if negb (running g) then g
  else
    let spawnPos :=
      Vec3.mk (Vec3.x (pos g)) (Vec3.y (pos g) - 0.15) (Vec3.z (pos g) + 1.1) in
    let spawnVel := Vec3.mk 0 0 MISSILE_SPEED in
    match spawnFirst missileFree (launchMissile spawnPos spawnVel) (missiles g) with
    | None => g
    | Some ms => with_missiles g ms
    end.

Definition laserFree (l : LaserShot) : bool := negb (l_active l).

(** The closure [spawnLaser] of [frame]: the pool after the call and the
    boolean it returns. *)
Definition spawnLaser (playerPos : Vec3.t) (items : list LaserShot)
    : list LaserShot * bool :=
  let spawnPos :=
    Vec3.mk (Vec3.x playerPos) (Vec3.y playerPos + 0.02)
            (Vec3.z playerPos + 1.35) in
  let spawnVel := Vec3.mk 0 0 LASER_SPEED in
  match spawnFirst laserFree (laserSpawn spawnPos spawnVel LASER_TTL) items with
  | None => (items, false)
  | Some items' => (items', true)
  end.

Definition with_drone (g : t) (d : option Drone.t) : t :=
  {| isIOS := isIOS g; running := running g; crashed := crashed g;
     hasScene := hasScene g; level := level g; world := world g;
     score := score g; speedBase := speedBase g; speed := speed g;
     pos := pos g; drone := d;
     gunBurstRemaining := gunBurstRemaining g;
     gunBurstNextMs := gunBurstNextMs g;
     lastGunFireMs := lastGunFireMs g;
     enemies := enemies g; lasers := lasers g; missiles := missiles g;
     explosions := explosions g; hitFlashCalls := hitFlashCalls g |}.

(** [triggerFlip(axis, dir)]. *)
Definition triggerFlip (a : Input.FlipAxis) (d : Input.FlipDir) (g : t) : t :=
  with_drone g (option_map (Drone.triggerFlip a d) (drone g)).

(** What the gun block of one frame did. *)
Inductive Fired : Type :=
| NoShot
| BurstShot
| BurstDropped
| HoldShot.

(** The gun block of [frame] ("Guns (blink burst + hold)"), after the burst
    request was queued. *)
Definition gunBlock (input : Input.InputState) (nowMs : R)
    (items : list LaserShot) (g : t) : t * Fired :=
  if (0 <? gunBurstRemaining g)%Z && Rgeb nowMs (gunBurstNextMs g) then
    let (items', ok) := spawnLaser (pos g) items in
    if ok then
      (with_guns g (gunBurstRemaining g - 1)
         (gunBurstNextMs g + GUN_BURST_INTERVAL_MS) nowMs (Some items'),
       BurstShot)
    else
      (with_guns g 0 (gunBurstNextMs g) (lastGunFireMs g) (Some items'),
       BurstDropped)
  else
    let wantsHoldFire := Input.fireGuns input in
    if wantsHoldFire && Rgeb (nowMs - lastGunFireMs g) GUN_HOLD_INTERVAL_MS then
      let (items', ok) := spawnLaser (pos g) items in
      if ok then
        (with_guns g (gunBurstRemaining g) (gunBurstNextMs g) nowMs (Some items'),
         HoldShot)
      else
        (with_guns g (gunBurstRemaining g) (gunBurstNextMs g)
           (lastGunFireMs g) (Some items'),
         NoShot)
    else (g, NoShot).

(** The part of [frame] that consumes the one-shot inputs and fires the
    guns (from [if (input.fireMissile)] to the end of the gun block), in a
    frame that reaches it: the session is running and the pools exist.
    [nowMs] is the frame's clock reading and [queueNow] the later reading
    taken inside [queueGunBurst]. *)
Definition fireControl (input : Input.InputState) (nowMs queueNow : R)
    (g : t) : t * Fired :=
  match lasers g with
  | None => (g, NoShot)
  | Some _ =>
      if negb (running g) then (g, NoShot)
      else
        let g1 := if Input.fireMissile input then fireMissile g else g in
        let g2 :=
          match Input.flip input with
          | Some f => triggerFlip (Input.axis f) (Input.dir f) g1
          | None => g1
          end in
        let g3 :=
          if Input.fireGunsBurst input
          then queueGunBurst GUN_BURST_COUNT queueNow g2
          else g2 in
        match lasers g3 with
        | None => (g3, NoShot)
        | Some items => gunBlock input nowMs items g3
        end
  end.

(** The value of the field initialiser [getLevelConfig(8)]. *)
Definition initialLevel : LevelConfig :=
  match getLevelConfig (Finite 8) with
  | Some l => l
  | None => level8
  end.

(** The pools [init()] allocates. *)
Definition initialMissile : MissileSlot :=
  {| shot := newMissileShot; m_meshVisible := false; m_trailVisible := false |}.

Definition initialExplosion : Explosion :=
  {| mesh := {| position := Vec3.zero; rotation := Vec3.zero;
                scale := 1; visible := false |};
     age := 999; lifetime := 0.5; startScale := 0.7 |}.

(** The object after the field initialisers and [init()]. *)
Definition init (isIOS0 : bool) : t :=
  {| isIOS := isIOS0; running := false; crashed := false;
     hasScene := true; level := initialLevel; world := None;
     score := 1; speedBase := 0; speed := 0;
     pos := Vec3.zero;
     drone := Some {| Drone.position := Vec3.zero; Drone.flip := None |};
     gunBurstRemaining := 0;
     gunBurstNextMs := 0;
     lastGunFireMs := 0;
     enemies := [];
     lasers := Some (repeat newLaserShot MAX_LASERS);
     missiles := repeat initialMissile MAX_MISSILES;
     explosions := repeat initialExplosion MAX_EXPLOSIONS;
     hitFlashCalls := 0 |}.

Definition with_level_world (g : t) (l : LevelConfig) (w : option World.t) : t :=
  {| isIOS := isIOS g; running := running g; crashed := crashed g;
     hasScene := hasScene g; level := l; world := w;
     score := score g; speedBase := speedBase g; speed := speed g;
     pos := pos g; drone := drone g;
     gunBurstRemaining := gunBurstRemaining g;
     gunBurstNextMs := gunBurstNextMs g;
     lastGunFireMs := lastGunFireMs g;
     enemies := enemies g; lasers := lasers g; missiles := missiles g;
     explosions := explosions g; hitFlashCalls := hitFlashCalls g |}.

(** [setLevel(levelId)].  The result is [None] when the call throws: an
    [undefined] configuration makes [createWorld] read a property of
    [undefined]. *)
Definition setLevel (levelId : JsNumber) (g : t) : Rand (option t) :=
  if negb (hasScene g) then ret (Some g)
  else
    match getLevelConfig levelId with
    | None => ret None
    | Some next =>
        let g1 := disposeEnemies (with_level_world g next None) in
        bind (World.create (World.createWorld next (isIOS g))) (fun w =>
        bind (createEnemiesForLevel (with_level_world g1 next (Some w))) (fun g2 =>
        bind (reset ReasonReset g2) (fun g3 =>
        ret (Some g3))))
    end.

(** [new Game(options)], up to the start of the frame loop. *)
Definition new (isIOS0 : bool) (levelId : option JsNumber) : Rand (option t) :=
  setLevel (match levelId with Some n => n | None => Finite 8 end)
           (init isIOS0).

(** A running session whose laser and missile pools are saturated: every
    slot holds a live shot. *)
Definition saturated (g : t) : t :=
  let shotPos := Vec3.mk 0 0 1 in
  {| isIOS := isIOS g; running := true; crashed := crashed g;
     hasScene := hasScene g; level := level g; world := world g;
     score := score g; speedBase := speedBase g; speed := speed g;
     pos := pos g; drone := drone g;
     gunBurstRemaining := gunBurstRemaining g;
     gunBurstNextMs := gunBurstNextMs g;
     lastGunFireMs := lastGunFireMs g;
     enemies := enemies g;
     lasers :=
       option_map
         (map (laserSpawn shotPos (Vec3.mk 0 0 LASER_SPEED) LASER_TTL))
         (lasers g);
     missiles :=
       map (launchMissile shotPos (Vec3.mk 0 0 MISSILE_SPEED)) (missiles g);
     explosions := explosions g; hitFlashCalls := hitFlashCalls g |}.

(** What identifies a pooled enemy across respawns: everything but its
    placement, hit points and aliveness. *)
Definition slotIdentity (s : EnemySlot)
    : Z * Enemy.EnemyKind * Z * R * Z * R :=
  (Enemy.id (enemy s), Enemy.kind (enemy s), Enemy.maxHp (enemy s),
   Enemy.radius (enemy s), Enemy.reward (enemy s),
   Enemy.approachSpeed (enemy s)).

(** An explosion the frame loop skips: hidden, with its age at its
    lifetime. *)
Definition expired (e : Explosion) : Prop :=
  visible (mesh e) = false /\ age e = lifetime e.

(** The number of inactive slots of the laser pool. *)
Definition freeSlots (items : list LaserShot) : nat :=
  List.length (filter laserFree items).

(** The pending-shot counter and the next-shot time once the frame's burst
    request, if any, went through [queueGunBurst()]. *)
Definition pendingAfterRequest (input : Input.InputState) (queueNow : R)
    (g : t) : Z * R :=
  if Input.fireGunsBurst input
  then (Z.min 25 (gunBurstRemaining g + 5),
        if Rltb (gunBurstNextMs g) queueNow then queueNow
        else gunBurstNextMs g)
  else (gunBurstRemaining g, gunBurstNextMs g).

(** What one frame may do to the pending-shot counter and the next-shot
    time, from [remaining] and [nextMs], by what it fired. *)
Definition gunStep (remaining : Z) (nextMs nowMs : R) (g' : t) (out : Fired)
    : Prop :=
  match out with
  | BurstShot =>
      (0 < remaining)%Z /\ nextMs <= nowMs
      /\ gunBurstRemaining g' = (remaining - 1)%Z
      /\ gunBurstNextMs g' = nextMs + GUN_BURST_INTERVAL_MS
  | BurstDropped =>
      gunBurstRemaining g' = 0%Z /\ gunBurstNextMs g' = nextMs
  | NoShot | HoldShot =>
      gunBurstRemaining g' = remaining /\ gunBurstNextMs g' = nextMs
  end.

(** What the gun block reads of a running game: the pending shots, the
    next-shot time, and a lower bound on the inactive laser slots. *)
Definition gunState (g : t) (remaining : Z) (nextMs : R) (free : nat) : Prop :=
  running g = true
  /\ gunBurstRemaining g = remaining
  /\ gunBurstNextMs g = nextMs
  /\ exists items, lasers g = Some items /\ (free <= freeSlots items)%nat.

(** *** Two streams of draws *)

(** Every draw is 0. *)
Definition calmStream : nat -> R := fun _ => 0.

(** Every draw is 0 but the fourth, which is one half. *)
Definition gustStream : nat -> R := fun i => if Nat.eqb i 3 then / 2 else 0.

Definition firstObstacle (g : t) : option (R * R) :=
  match world g with
  | Some w => World.firstObstacle w
  | None => None
  end.

(** *** The rest of the frame loop *)

Definition with_score (g : t) (sc : Z) : t :=
  {| isIOS := isIOS g; running := running g; crashed := crashed g;
     hasScene := hasScene g; level := level g; world := world g;
     score := sc; speedBase := speedBase g; speed := speed g;
     pos := pos g; drone := drone g;
     gunBurstRemaining := gunBurstRemaining g;
     gunBurstNextMs := gunBurstNextMs g;
     lastGunFireMs := lastGunFireMs g;
     enemies := enemies g; lasers := lasers g; missiles := missiles g;
     explosions := explosions g; hitFlashCalls := hitFlashCalls g |}.

(** [addScore(amount)]; the HUD text is left out. *)
Definition addScore (amount : R) (g : t) : t :=
  let delta := Z.max 0 (Zfloor amount) in
  if (delta =? 0)%Z then g else with_score g (score g + delta).

(** [getEnemyKillReward()]. *)
Definition getEnemyKillReward (g : t) : Rand Z :=
  let min := Z.max 1 (Zfloor (enemyScoreMin (level g))) in
  let max := Z.max min (Zfloor (enemyScoreMax (level g))) in
  MathUtil.randInt min max.

(** The squared distance [dx * dx + dy * dy + dz * dz] of the loops. *)
Definition dist2 (a b : Vec3.t) : R :=
  let dx := Vec3.x a - Vec3.x b in
  let dy := Vec3.y a - Vec3.y b in
  let dz := Vec3.z a - Vec3.z b in
  dx * dx + dy * dy + dz * dz.

(** The loop of [findNearestEnemy]: [i] is the index of the first slot of
    [slots] in the pool, [best] the nearest living enemy so far, as its
    squared distance and the index of its slot. *)
Fixpoint nearestFrom (i : nat) (slots : list EnemySlot) (from : Vec3.t)
    (best : option (R * nat)) : option (R * nat) :=
  match slots with
  | [] => best
  | slot :: rest =>
      let e := enemy slot in
      if negb (Enemy.alive e) then nearestFrom (S i) rest from best
      else
        let d2 := dist2 (position (Enemy.mesh e)) from in
        nearestFrom (S i) rest from
          match best with
          | None => Some (d2, i)
          | Some b => if Rltb d2 (fst b) then Some (d2, i) else best
          end
  end.

(** [findNearestEnemy(enemies, from)]: the enemy object it returns is given
    by the index of its slot; [None] is [null]. *)
Definition findNearestEnemy (slots : list EnemySlot) (from : Vec3.t)
    : option nat :=
  option_map snd (nearestFrom 0 slots from None).

(** [xs[i] = f(xs[i])]. *)
Fixpoint updateAt {A : Type} (i : nat) (f : A -> A) (xs : list A) : list A :=
  match xs, i with
  | [], _ => []
  | x :: rest, O => f x :: rest
  | x :: rest, S k => x :: updateAt k f rest
  end.

Definition with_explosions (g : t) (xs : list Explosion) : t :=
  {| isIOS := isIOS g; running := running g; crashed := crashed g;
     hasScene := hasScene g; level := level g; world := world g;
     score := score g; speedBase := speedBase g; speed := speed g;
     pos := pos g; drone := drone g;
     gunBurstRemaining := gunBurstRemaining g;
     gunBurstNextMs := gunBurstNextMs g;
     lastGunFireMs := lastGunFireMs g;
     enemies := enemies g; lasers := lasers g; missiles := missiles g;
     explosions := xs; hitFlashCalls := hitFlashCalls g |}.

(** [const exp = this.explosions.find((x) => !x.mesh.visible); if (exp)
    { ... }]: the first hidden explosion is shown at [at0], with the scale
    [sc] of it, and its age set to 0. *)
Definition explode (at0 : Vec3.t) (sc : Explosion -> R) (g : t) : t :=
  match spawnFirst (fun x => negb (visible (mesh x)))
          (fun x =>
             {| mesh := {| position := at0;
                           rotation := rotation (mesh x);
                           scale := sc x;
                           visible := true |};
                age := 0;
                lifetime := lifetime x;
                startScale := startScale x |})
          (explosions g) with
  | Some xs => with_explosions g xs
  | None => g
  end.

(** The inner loop of "Lasers simulation" for one laser: the enemies are
    scanned in order up to the first living one in range, which takes the
    hit ([break]).  [None] when no enemy is hit; otherwise the enemy pool
    and the game after the hit.  The [enemies] field of [g] is not read
    here: the pool is passed on its own while it is being scanned. *)
Fixpoint laserScan (nowMs : R) (l : LaserShot) (slots : list EnemySlot)
    (g : t) : Rand (option (list EnemySlot * t)) :=
  match slots with
  | [] => ret None
  | slot :: rest =>
      let e := enemy slot in
      if Enemy.alive e
         && Rltb (dist2 (position (Enemy.mesh e)) (l_pos l))
                 ((Enemy.radius e + 0.32) * (Enemy.radius e + 0.32))
      then
        let e1 := Enemy.takeDamage 1 e in
        if negb (Enemy.alive e1) then
          bind (getEnemyKillReward g) (fun reward =>
          let g1 := addScore (IZR reward) g in
          let g2 := explode (position (Enemy.mesh e1)) startScale g1 in
          bind (MathUtil.randInt 0 600) (fun extra =>
          ret (Some ({| enemy := e1;
                        deadUntilMs := nowMs + 700 + IZR extra |} :: rest,
                     g2))))
        else
          ret (Some ({| enemy := e1; deadUntilMs := deadUntilMs slot |} :: rest,
                     g))
      else
        bind (laserScan nowMs l rest g) (fun r =>
        ret (match r with
             | Some hit => Some (slot :: fst hit, snd hit)
             | None => None
             end))
  end.

(** The second loop of "Lasers simulation": the lasers in order, against
    the enemies as the earlier lasers left them. *)
Fixpoint laserLoop (nowMs : R) (ls : list LaserShot) (slots : list EnemySlot)
    (g : t) : Rand (list LaserShot * (list EnemySlot * t)) :=
  match ls with
  | [] => ret ([], (slots, g))
  | l :: rest =>
      bind (if negb (l_active l) then ret (l, (slots, g))
            else if Rgtb (Vec3.z (l_pos l)) LASER_Z_MAX
            then ret (deactivateLaser l, (slots, g))
            else
              bind (laserScan nowMs l slots g) (fun r =>
              ret (match r with
                   | Some hit => (deactivateLaser l, hit)
                   | None => (l, (slots, g))
                   end))) (fun r =>
      bind (laserLoop nowMs rest (fst (snd r)) (snd (snd r))) (fun rs =>
      ret (fst r :: fst rs, snd rs)))
  end.

(** "Lasers simulation": every shot is stepped, then tested. *)
Definition lasersBlock (dt nowMs : R) (g : t) : Rand t :=
  match lasers g with
  | None => ret g
  | Some items =>
      bind (laserLoop nowMs (map (laserUpdate dt) items) (enemies g) g)
           (fun r =>
      let g1 := with_enemies (snd (snd r)) (fst (snd r)) in
      ret (with_guns g1 (gunBurstRemaining g1) (gunBurstNextMs g1)
             (lastGunFireMs g1) (Some (fst r))))
  end.

Definition setShot (m : MissileSlot) (s : MissileShot) : MissileSlot :=
  {| shot := s; m_meshVisible := true; m_trailVisible := true |}.

Definition retire (s : MissileShot) : MissileShot :=
  {| m_active := false; m_ttl := m_ttl s; m_pos := m_pos s; m_vel := m_vel s |}.

(** The body of the loop "Missiles" for one slot. *)
Definition missileStep (dt nowMs : R) (m : MissileSlot) (g : t)
    : Rand (MissileSlot * t) :=
  if negb (m_active (shot m)) then
    ret ({| shot := shot m; m_meshVisible := false; m_trailVisible := false |},
         g)
  else
    let target :=
      match findNearestEnemy (enemies g) (m_pos (shot m)) with
      | Some i =>
          match nth_error (enemies g) i with
          | Some slot => Some (i, enemy slot)
          | None => None
          end
      | None => None
      end in
    let shot1 :=
      Projectiles.update dt
        (option_map (fun ie => position (Enemy.mesh (snd ie))) target)
        MISSILE_TURN_RATE (shot m) in
    bind (match target with
          | Some (i, e) =>
              if Rltb (dist2 (position (Enemy.mesh e)) (m_pos shot1))
                      ((Enemy.radius e + 0.5) * (Enemy.radius e + 0.5))
              then
                let e1 := Enemy.takeDamage 999 e in
                let g1 :=
                  with_enemies g
                    (updateAt i
                       (fun s => {| enemy := e1; deadUntilMs := deadUntilMs s |})
                       (enemies g)) in
                bind (getEnemyKillReward g1) (fun reward =>
                let g2 := addScore (IZR reward) g1 in
                let g3 :=
                  explode (position (Enemy.mesh e1))
                    (fun x => startScale x * 1.2) g2 in
                let sameId :=
                  fun s => (Enemy.id (enemy s) =? Enemy.id e1)%Z in
                bind (if existsb sameId (enemies g3) then
                        bind (MathUtil.randInt 0 800) (fun extra =>
                        ret match spawnFirst sameId
                                    (fun s =>
                                       {| enemy := enemy s;
                                          deadUntilMs :=
                                            nowMs + 800 + IZR extra |})
                                    (enemies g3) with
                            | Some es => with_enemies g3 es
                            | None => g3
                            end)
                      else ret g3) (fun g4 =>
                ret (retire shot1, g4)))
              else ret (shot1, g)
          | None => ret (shot1, g)
          end) (fun r =>
    let shot2 :=
      if Rgtb (Vec3.z (m_pos (fst r))) LASER_Z_MAX then retire (fst r)
      else fst r in
    ret (setShot m shot2, snd r)).

(** The loop "Missiles". *)
Fixpoint missileLoop (dt nowMs : R) (ms : list MissileSlot) (g : t)
    : Rand (list MissileSlot * t) :=
  match ms with
  | [] => ret ([], g)
  | m :: rest =>
      bind (missileStep dt nowMs m g) (fun r =>
      bind (missileLoop dt nowMs rest (snd r)) (fun rs =>
      ret (fst r :: fst rs, snd rs)))
  end.

Definition missilesBlock (dt nowMs : R) (g : t) : Rand t :=
  bind (missileLoop dt nowMs (missiles g) g) (fun r =>
  ret (with_missiles (snd r) (fst r))).

(** The body of the loop "Explosions"; the opacity of the material is
    left out. *)
Definition explosionStep (dt : R) (e : Explosion) : Explosion :=
  if negb (visible (mesh e)) then e
  else
    let age1 := age e + dt in
    let p := MathUtil.clamp (age1 / lifetime e) 0 1 in
    {| mesh := {| position := position (mesh e);
                  rotation := rotation (mesh e);
                  scale := startScale e + p * 2.6;
                  visible := if Rgeb p 1 then false else visible (mesh e) |};
       age := age1;
       lifetime := lifetime e;
       startScale := startScale e |}.

(** The loop "Enemies + collision": the pool after it, and whether it
    ended in a collision with the player (the loop returns from inside on
    the first one, leaving the slots after it untouched).  [lookAt] only
    turns the mesh of a ship and is left out. *)
Fixpoint enemyLoop (dt nowMs worldSpeed : R) (playerPos : Vec3.t)
    (spawnBounds : Enemy.EnemySpawnBounds) (behindZ : R)
    (slots : list EnemySlot) : Rand (list EnemySlot * bool) :=
  match slots with
  | [] => ret ([], false)
  | slot :: rest =>
      if negb (Enemy.alive (enemy slot)) then
        bind (if Rgeb nowMs (deadUntilMs slot)
              then
                bind (Enemy.spawn spawnBounds (Vec3.y playerPos) (enemy slot))
                     (fun e => ret {| enemy := e; deadUntilMs := 0 |})
              else ret slot) (fun slot1 =>
        bind (enemyLoop dt nowMs worldSpeed playerPos spawnBounds behindZ rest)
             (fun r =>
        ret (slot1 :: fst r, snd r)))
      else
        let e1 := Enemy.update dt worldSpeed playerPos nowMs (enemy slot) in
        if Enemy.isOutOfRange behindZ e1 then
          bind (Enemy.spawn spawnBounds (Vec3.y playerPos) e1) (fun e2 =>
          bind (enemyLoop dt nowMs worldSpeed playerPos spawnBounds behindZ rest)
               (fun r =>
          ret ({| enemy := e2; deadUntilMs := deadUntilMs slot |} :: fst r,
               snd r)))
        else if Rltb (dist2 (position (Enemy.mesh e1)) playerPos)
                     ((PLAYER_RADIUS + Enemy.radius e1)
                      * (PLAYER_RADIUS + Enemy.radius e1))
        then ret ({| enemy := e1; deadUntilMs := deadUntilMs slot |} :: rest,
                  true)
        else
          bind (enemyLoop dt nowMs worldSpeed playerPos spawnBounds behindZ rest)
               (fun r =>
          ret ({| enemy := e1; deadUntilMs := deadUntilMs slot |} :: fst r,
               snd r))
  end.

(** The steering of one frame: the strafe the frame applies, with the
    wind drift of the level. *)
Definition frameStrafeX (nowMs : R) (input : Input.InputState) (g : t) : R :=
  let stopActive := Input.stop input in
  let wind :=
    if stopActive then 0 else MathUtil.clamp (windForce (level g)) 0 1 in
  let windDriftX :=
    if Rgtb wind 0 then sin (nowMs * 0.00025) * wind * 0.8 else 0 in
  MathUtil.clamp (- (Input.moveX input + windDriftX)) (-1) 1.

(** The player position after the movement of one frame. *)
Definition movePlayer (dt strafeX strafeY : R) (bounds : World.WorldPlayerBounds)
    (p : Vec3.t) : Vec3.t :=
  Vec3.mk
    (MathUtil.clamp (Vec3.x p + strafeX * STRAFE_SPEED * dt)
       (World.xMin bounds) (World.xMax bounds))
    (MathUtil.clamp (Vec3.y p + strafeY * STRAFE_SPEED * dt)
       (World.yMin bounds) (World.yMax bounds))
    (Vec3.z p).

Definition with_pos (g : t) (p : Vec3.t) (d : option Drone.t) : t :=
  {| isIOS := isIOS g; running := running g; crashed := crashed g;
     hasScene := hasScene g; level := level g; world := world g;
     score := score g; speedBase := speedBase g; speed := speed g;
     pos := p; drone := d;
     gunBurstRemaining := gunBurstRemaining g;
     gunBurstNextMs := gunBurstNextMs g;
     lastGunFireMs := lastGunFireMs g;
     enemies := enemies g; lasers := lasers g; missiles := missiles g;
     explosions := explosions g; hitFlashCalls := hitFlashCalls g |}.

(** [n] calls of [onCollectPickup(1)], the callback [frame] passes to
    [world.update]. *)
Fixpoint collectPickups (n : nat) (g : t) : t :=
  match n with
  | O => g
  | S k =>
      collectPickups k
        (addScore (1 * IZR (Z.max 1 (Zfloor (pickupScore (level g))))) g)
  end.

(** The frame loop's own state: the game, [lastMs], and the input router
    [opts.input]. *)
Record Loop : Type := {
  game : t;
  lastMs : R;
  router : InputRouter.t
}.

(** [frame()].  [nowMs] is the reading of [performance.now()] at the top
    of the frame, [queueNow] the later reading inside [queueGunBurst()],
    [face] the tracker's controls at the time of the poll.  [hasScene]
    stands for the renderer, the scene and the camera, which [init] and
    [dispose] set and clear together.  Nothing in the body throws in this
    model, so the [catch] branch is not reached.  The callback
    [onCollectPickup] only adds to the score, which [world.update] does not
    read, so its calls are applied after the world's step. *)
Definition frame (nowMs queueNow : R) (face : Input.FaceControls) (st : Loop)
    : Rand Loop :=
  let g := game st in
  if crashed g then ret st
  else
    match hasScene g, drone g, lasers g, world g with
    | true, Some dr, Some _, Some w =>
        let dt := Rmin 0.05 ((nowMs - lastMs st) / 1000) in
        let router1 := InputRouter.update face nowMs (router st) in
        let done := fun g' => {| game := g'; lastMs := nowMs; router := router1 |} in
        if negb (running g) then ret (done g)
        else
          let input := InputRouter.state router1 in
          let stopActive := Input.stop input in
          let boost := MathUtil.clamp (Input.boost input) 0 1 in
          let strafeX := frameStrafeX nowMs input g in
          let strafeY := Input.moveY input in
          let g1 := updateSpeed dt boost stopActive g in
          let pos1 := movePlayer dt strafeX strafeY (World.playerBounds w) (pos g1) in
          let dr1 :=
            fst (Drone.update dt
                   {| Drone.in_timeMs := nowMs; Drone.in_strafeX := strafeX;
                      Drone.in_strafeY := strafeY; Drone.in_speed := speed g1 |}
                   {| Drone.position := pos1; Drone.flip := Drone.flip dr |}) in
          let g2 := with_pos g1 pos1 (Some dr1) in
          bind (World.update dt nowMs (speed g2) pos1 PLAYER_RADIUS w) (fun wr =>
          let g3 :=
            collectPickups (snd wr)
              (with_level_world g2 (level g2) (Some (fst (fst wr)))) in
          if snd (fst wr) then
            bind (reset ReasonHit g3) (fun g4 => ret (done g4))
          else
            bind (enemyLoop dt nowMs (speed g3) (pos g3)
                    (World.enemySpawnBounds (fst (fst wr)))
                    (World.behindZ (fst (fst wr))) (enemies g3)) (fun er =>
            let g4 := with_enemies g3 (fst er) in
            if snd er then
              bind (reset ReasonHit g4) (fun g5 => ret (done g5))
            else
              let g5 := fst (fireControl input nowMs queueNow g4) in
              bind (lasersBlock dt nowMs g5) (fun g6 =>
              bind (missilesBlock dt nowMs g6) (fun g7 =>
              ret (done (with_explosions g7
                           (map (explosionStep dt) (explosions g7))))))))
    | _, _, _, _ => ret st
    end.

(** A run of the loop: one frame for each clock reading and tracker
    sample, with what happened to the router before the frame (key events,
    voice commands, UI calls). *)
Record Tick : Type := {
  tk_before : list InputRouter.action;
  tk_nowMs : R;
  tk_queueNow : R;
  tk_face : Input.FaceControls
}.

Fixpoint frames (ticks : list Tick) (st : Loop) : Rand Loop :=
  match ticks with
  | [] => ret st
  | tk :: rest =>
      bind (frame (tk_nowMs tk) (tk_queueNow tk) (tk_face tk)
              {| game := game st; lastMs := lastMs st;
                 router := InputRouter.run (tk_before tk) (router st) |})
           (frames rest)
  end.

(** *** What a frame conserves

    The configuration of a game: the flags, the level, what the world has
    allocated, the identities of the pooled enemies and the sizes of the
    projectile and explosion pools. *)
Definition shape (g : t) :=
  (isIOS g, running g, crashed g, hasScene g, level g,
   option_map World.geometry (world g),
   map slotIdentity (enemies g),
   option_map (@List.length LaserShot) (lasers g),
   List.length (missiles g),
   List.length (explosions g),
   match drone g with Some _ => true | None => false end).

(** A position inside the player bounds of a world. *)
Definition in_bounds (b : World.WorldPlayerBounds) (p : Vec3.t) : Prop :=
  World.xMin b <= Vec3.x p <= World.xMax b
  /\ World.yMin b <= Vec3.y p <= World.yMax b.

(** The state of play the frame loop maintains: a score of at least 1, a
    speed between 0 and the level's bound, the player inside the bounds of
    the world and on the plane [z = 0], and the drone where the player
    is. *)
Definition playable (g : t) : Prop :=
  (1 <= score g)%Z
  /\ 0 <= speed g <= effectiveMaxSpeed (level g)
  /\ Vec3.z (pos g) = 0
  /\ match world g with
     | Some w => in_bounds (World.playerBounds w) (pos g)
     | None => True
     end
  /\ match drone g with
     | Some d => Drone.position d = pos g
     | None => True
     end.

(** What the combat part of a frame (enemies, guns, lasers, missiles,
    explosions) leaves alone, and what it may only raise. *)
Definition carriesOn (g g' : t) : Prop :=
  shape g' = shape g
  /\ world g' = world g
  /\ pos g' = pos g
  /\ option_map Drone.position (drone g') = option_map Drone.position (drone g)
  /\ speed g' = speed g
  /\ speedBase g' = speedBase g
  /\ hitFlashCalls g' = hitFlashCalls g
  /\ (score g <= score g')%Z.

(** The clock of a run never goes back: each reading of
    [performance.now()] is at least the one before it, the first at least
    [last]. *)
Fixpoint clockRuns (last : R) (ticks : list Tick) : Prop :=
  match ticks with
  | [] => True
  | tk :: rest => last <= tk_nowMs tk /\ clockRuns (tk_nowMs tk) rest
  end.

(** A game that skips its frames: crashed, paused, or without one of the
    objects [frame()] needs. *)
Definition idle (g : t) : bool :=
  crashed g || negb (running g) || negb (hasScene g)
  || match drone g, lasers g, world g with
     | Some _, Some _, Some _ => false
     | _, _, _ => true
     end.

(** *** The frame loop, with what each frame did to the guns

    What a frame came to: one of the early returns of [frame()] (crashed,
    an object missing, paused); a collision, which ends the frame in
    [reset('hit')] before the gun block; or the gun block, with the two
    gun flags the router published ([fireGunsBurst], a burst request, and
    [fireGuns], the fire key held) and what the block did. *)
Inductive Outcome : Type :=
| Skipped
| Hit
| Guns (request hold : bool) (out : Fired).

(** [frame()], returning its outcome beside the state.  As in [frame],
    nothing in the body throws in this model: a frame whose rendering
    throws (the [catch] branch, which sets [crashed] and stops the loop)
    is not a frame of these runs. *)
Definition frameT (nowMs queueNow : R) (face : Input.FaceControls) (st : Loop)
    : Rand (Loop * Outcome) :=
  let g := game st in
  if crashed g then ret (st, Skipped)
  else
    match hasScene g, drone g, lasers g, world g with
    | true, Some dr, Some _, Some w =>
        let dt := Rmin 0.05 ((nowMs - lastMs st) / 1000) in
        let router1 := InputRouter.update face nowMs (router st) in
        let done := fun g' => {| game := g'; lastMs := nowMs; router := router1 |} in
        if negb (running g) then ret (done g, Skipped)
        else
          let input := InputRouter.state router1 in
          let stopActive := Input.stop input in
          let boost := MathUtil.clamp (Input.boost input) 0 1 in
          let strafeX := frameStrafeX nowMs input g in
          let strafeY := Input.moveY input in
          let g1 := updateSpeed dt boost stopActive g in
          let pos1 := movePlayer dt strafeX strafeY (World.playerBounds w) (pos g1) in
          let dr1 :=
            fst (Drone.update dt
                   {| Drone.in_timeMs := nowMs; Drone.in_strafeX := strafeX;
                      Drone.in_strafeY := strafeY; Drone.in_speed := speed g1 |}
                   {| Drone.position := pos1; Drone.flip := Drone.flip dr |}) in
          let g2 := with_pos g1 pos1 (Some dr1) in
          bind (World.update dt nowMs (speed g2) pos1 PLAYER_RADIUS w) (fun wr =>
          let g3 :=
            collectPickups (snd wr)
              (with_level_world g2 (level g2) (Some (fst (fst wr)))) in
          if snd (fst wr) then
            bind (reset ReasonHit g3) (fun g4 => ret (done g4, Hit))
          else
            bind (enemyLoop dt nowMs (speed g3) (pos g3)
                    (World.enemySpawnBounds (fst (fst wr)))
                    (World.behindZ (fst (fst wr))) (enemies g3)) (fun er =>
            let g4 := with_enemies g3 (fst er) in
            if snd er then
              bind (reset ReasonHit g4) (fun g5 => ret (done g5, Hit))
            else
              let fc := fireControl input nowMs queueNow g4 in
              bind (lasersBlock dt nowMs (fst fc)) (fun g6 =>
              bind (missilesBlock dt nowMs g6) (fun g7 =>
              ret (done (with_explosions g7
                           (map (explosionStep dt) (explosions g7))),
                   Guns (Input.fireGunsBurst input) (Input.fireGuns input)
                        (snd fc))))))
    | _, _, _, _ => ret (st, Skipped)
    end.

(** A run of the loop with its trace: the clock reading and the outcome
    of each frame. *)
Fixpoint framesT (ticks : list Tick) (st : Loop)
    : Rand (Loop * list (R * Outcome)) :=
  match ticks with
  | [] => ret (st, [])
  | tk :: rest =>
      bind (frameT (tk_nowMs tk) (tk_queueNow tk) (tk_face tk)
              {| game := game st; lastMs := lastMs st;
                 router := InputRouter.run (tk_before tk) (router st) |})
           (fun r =>
      bind (framesT rest (fst r)) (fun rs =>
      ret (fst rs, (tk_nowMs tk, snd r) :: snd rs)))
  end.

(** The clock readings of the frames that spawned a burst shot. *)
Fixpoint burstTimes (trace : list (R * Outcome)) : list R :=
  match trace with
  | [] => []
  | (tm, Guns _ _ BurstShot) :: rest => tm :: burstTimes rest
  | _ :: rest => burstTimes rest
  end.

(** A frame whose gun block processed a burst request. *)
Definition isRequest (o : R * Outcome) : bool :=
  match snd o with
  | Guns request _ _ => request
  | _ => false
  end.

(** A frame that dropped the rest of a burst: a shot was due and no
    laser slot was inactive. *)
Definition isDropped (o : R * Outcome) : bool :=
  match snd o with
  | Guns _ _ BurstDropped => true
  | _ => false
  end.

(** A frame that ended in a collision. *)
Definition isHit (o : R * Outcome) : bool :=
  match snd o with
  | Hit => true
  | _ => false
  end.

(** A frame that reached its gun block with the fire key not held. *)
Definition isSteady (o : R * Outcome) : bool :=
  match snd o with
  | Guns _ hold _ => negb hold
  | _ => false
  end.

(** The number of frames at or after the clock reading [t]. *)
Definition framesFrom (t : R) (trace : list (R * Outcome)) : nat :=
  List.length (filter (fun o => Rgeb (fst o) t) trace).

(** The account of a run of frames against [pending] shots due from
    [start] on: no more burst shots than were pending; shot [k] no
    earlier than [start + 70 * k]; the shots make up for the pending
    shots spent, unless the burst was dropped or a collision reset the
    game. *)
Definition accounting (pending : Z) (start : R)
    (r : Loop * list (R * Outcome)) : Prop :=
  let shots := burstTimes (snd r) in
  (Z.of_nat (List.length shots) <= pending)%Z
  /\ (forall k tm, nth_error shots k = Some tm ->
        start + GUN_BURST_INTERVAL_MS * INR k <= tm)
  /\ ((Z.of_nat (List.length shots) + gunBurstRemaining (game (fst r))
       = pending)%Z
      \/ existsb isDropped (snd r) = true
      \/ existsb isHit (snd r) = true)
  /\ (0 <= gunBurstRemaining (game (fst r)))%Z.

(** What the blocks of a frame other than the gun block leave alone: the
    gun fields and the running flag. *)
Definition keepsGuns (g g' : t) : Prop :=
  running g' = running g
  /\ gunBurstRemaining g' = gunBurstRemaining g
  /\ gunBurstNextMs g' = gunBurstNextMs g
  /\ lastGunFireMs g' = lastGunFireMs g.

(** The laser pool of [g'] has every inactive slot of the pool of [g]
    inactive: shots were retired at most. *)
Definition retiresOnly (g g' : t) : Prop :=
  match lasers g, lasers g' with
  | Some items, Some items' =>
      Forall2 (fun l l' => laserFree l = true -> laserFree l' = true)
        items items'
  | None, None => True
  | _, _ => False
  end.

(** Where an enemy is, how fast it closes in and how large it is. *)
Definition placing (sl : EnemySlot) : Vec3.t * R * R :=
  (position (Enemy.mesh (enemy sl)), Enemy.approachSpeed (enemy sl),
   Enemy.radius (enemy sl)).

(** What scoring, explosions and damage leave alone: the gun fields, the
    laser pool and the placing of the enemies. *)
Definition sideline (g g' : t) : Prop :=
  keepsGuns g g' /\ lasers g' = lasers g
  /\ map placing (enemies g') = map placing (enemies g).

(** What the blocks after the gun block (lasers, missiles, explosions)
    leave alone: the gun fields, the placing of the enemies, and the
    inactive laser slots. *)
Definition afterGuns (g g' : t) : Prop :=
  keepsGuns g g' /\ retiresOnly g g'
  /\ map placing (enemies g') = map placing (enemies g).

(** *** A game out of harm's way

    The orbit world of a level on which asteroids do not collide
    ([obstacleDensity < 0.18]). *)
Definition calmWorld (g : t) : Prop :=
  match world g with
  | Some (World.Orbit o) => obstacleDensity (World.o_level o) < 0.18
  | _ => False
  end.

(** An enemy at least [b] ahead of the plane of the player, with the
    tuning of the enemy table at most. *)
Definition beyond (b : R) (sl : EnemySlot) : Prop :=
  b <= Vec3.z (position (Enemy.mesh (enemy sl)))
  /\ Enemy.approachSpeed (enemy sl) <= 9
  /\ 0 <= Enemy.radius (enemy sl) <= 1.2.

(** Every enemy of the pool is at least [b] ahead. *)
Definition enemiesBeyond (b : R) (g : t) : Prop :=
  Forall (beyond b) (enemies g).

(** A router with no key held and nothing queued. *)
Definition restingRouter (r : InputRouter.t) : Prop :=
  InputRouter.keys r = InputRouter.noKeys
  /\ InputRouter.queuedGunBurst r = false
  /\ InputRouter.queuedMissile r = false
  /\ InputRouter.queuedFlip r = None.

(** A loop out of harm's way: its game is not idle, playable and in a
    calm world, on a level that bounds the speed by 16, with every enemy
    at least [b] ahead; no key is held and nothing is queued. *)
Definition outOfHarm (b : R) (st : Loop) : Prop :=
  idle (game st) = false
  /\ playable (game st)
  /\ calmWorld (game st)
  /\ effectiveMaxSpeed (level (game st)) <= 16
  /\ enemiesBeyond b (game st)
  /\ restingRouter (router st).

(** A tracker that is not calibrated. *)
Definition noFace : Input.FaceControls :=
  {| Input.calibrated := false; Input.strafeX := 0; Input.strafeY := 0;
     Input.f_boost := 0; Input.mouthOpen := 0; Input.fireBurst := false;
     Input.fireHold := false |}.

(** A frame at the clock reading [nowMs], with [queueNow] read inside
    [queueGunBurst()]; when [burst] is set, [queueGunBurst()] was called
    on the router before the frame. *)
Definition tickAt (nowMs queueNow : R) (burst : bool) : Tick :=
  {| tk_before :=
       if burst then [InputRouter.AEvent InputRouter.EQueueGunBurst] else [];
     tk_nowMs := nowMs; tk_queueNow := queueNow; tk_face := noFace |}.

(** One burst request, then a stall of 200 ms, then frames 16 ms apart. *)
Definition stalledSession : list Tick :=
  [ tickAt 1000 1000.1 true;
    tickAt 1200 1200.1 false;
    tickAt 1216 1216.1 false;
    tickAt 1232 1232.1 false;
    tickAt 1248 1248.1 false;
    tickAt 1264 1264.1 false;
    tickAt 1280 1280.1 false;
    tickAt 1296 1296.1 false ].

(** A burst request in each of six consecutive frames. *)
Definition hammeredSession : list Tick :=
  [ tickAt 1000 1000.1 true;
    tickAt 1016 1016.1 true;
    tickAt 1032 1032.1 true;
    tickAt 1048 1048.1 true;
    tickAt 1064 1064.1 true;
    tickAt 1080 1080.1 true ].

(** A stream of draws that are all one half. *)
Definition evenStream : nat -> R := fun _ => / 2.

(** A new game on level 10, set running, with its loop 16 ms before the
    first frame of the sessions. *)
Definition freshLoop : Loop :=
  {| game :=
       setRunning true
         match fst (new false (Some (Finite 10)) evenStream 0%nat) with
         | Some g => g
         | None => init false
         end;
     lastMs := 984;
     router := InputRouter.new |}.

End Game.

(** ** LevelManager.ts *)

Module LevelManager.

Import Levels.

Definition DEFAULT_STORAGE_KEY : string := "drone-lips:level-id".

Section Storage.

(** The strings [localStorage] holds are kept abstract, with the two
    conversions the class applies to them: [Number(raw)] on the result of
    [getItem] ([None] is [null]) and [String(levelId)]. *)
Variable Item : Type.
Variable Number_of : option Item -> JsNumber.
Variable String_of : JsNumber -> Item.

(** [window.localStorage]: its cells, and whether [getItem] and [setItem]
    throw (storage blocked, quota exceeded). *)
Record Storage : Type := {
  cells : string -> option Item;
  getThrows : bool;
  setThrows : bool
}.

(** [None] when [typeof window === 'undefined']. *)
Definition Window : Type := option Storage.

Record t : Type := {
  storageKey : string;
  defaultLevelId : JsNumber;
  levelId : JsNumber
}.

(** [options.defaultLevelId] is [None] unless it is of type number. *)
Record LevelManagerOptions : Type := {
  opt_storageKey : option string;
  opt_defaultLevelId : option JsNumber
}.

(** [load()]. *)
Definition load (w : Window) (m : t) : JsNumber :=
  match w with
  | None => defaultLevelId m
  | Some st =>
      if getThrows st then defaultLevelId m
      else
        let n := Number_of (cells st (storageKey m)) in
        if isValidLevelId n then n else defaultLevelId m
  end.

(** [persist(levelId)]: the window after the call. *)
Definition persist (levelId0 : JsNumber) (w : Window) (m : t) : Window :=
  match w with
  | None => None
  | Some st =>
      if setThrows st then Some st
      else
        Some {| cells := fun k =>
                  if String.eqb k (storageKey m)
                  then Some (String_of levelId0)
                  else cells st k;
                getThrows := getThrows st;
                setThrows := setThrows st |}
  end.

(** [new LevelManager(options)]. *)
Definition new (options : LevelManagerOptions) (w : Window) : t :=
  let key :=
    match opt_storageKey options with
    | Some k => k
    | None => DEFAULT_STORAGE_KEY
    end in
  let dflt :=
    match opt_defaultLevelId options with
    | Some n => if isValidLevelId n then n else Finite (IZR DEFAULT_LEVEL_ID)
    | None => Finite (IZR DEFAULT_LEVEL_ID)
    end in
  let m0 := {| storageKey := key; defaultLevelId := dflt; levelId := dflt |} in
  {| storageKey := key; defaultLevelId := dflt; levelId := load w m0 |}.

(** [get level()]. *)
Definition level (m : t) : option LevelConfig := getLevelConfig (levelId m).

(** [setLevelId(levelId)]: the manager and the window after the call. *)
Definition setLevelId (levelId0 : JsNumber) (mw : t * Window) : t * Window :=
  let (m, w) := mw in
  let next := if isValidLevelId levelId0 then levelId0 else defaultLevelId m in
  ({| storageKey := storageKey m;
      defaultLevelId := defaultLevelId m;
      levelId := next |},
   persist next w m).

(** Successive calls of [setLevelId]. *)
Fixpoint setLevelIds (ns : list JsNumber) (mw : t * Window) : t * Window :=
  match ns with
  | [] => mw
  | n :: rest => setLevelIds rest (setLevelId n mw)
  end.

End Storage.

Arguments cells {Item} _ _.
Arguments getThrows {Item} _.
Arguments setThrows {Item} _.

End LevelManager.

(** * Properties *)

(** ** Comparisons and the random monad *)

Lemma Rltb_true a b : Rltb a b = true <-> a < b.
Proof. unfold Rltb; destruct (Rlt_dec a b); split; intros; try easy. Qed.

Lemma Rltb_false a b : Rltb a b = false <-> b <= a.
Proof. unfold Rltb; destruct (Rlt_dec a b); split; intros; try easy; lra. Qed.

Lemma Rleb_true a b : Rleb a b = true <-> a <= b.
Proof. unfold Rleb; destruct (Rle_dec a b); split; intros; try easy. Qed.

Lemma Rleb_false a b : Rleb a b = false <-> b < a.
Proof. unfold Rleb; destruct (Rle_dec a b); split; intros; try easy; lra. Qed.

Lemma Reqb_true a b : Reqb a b = true <-> a = b.
Proof. unfold Reqb; destruct (Req_dec_T a b); split; intros; try easy. Qed.

Lemma Reqb_false a b : Reqb a b = false <-> a <> b.
Proof. unfold Reqb; destruct (Req_dec_T a b); split; intros; try easy. Qed.

Lemma Rgeb_true a b : Rgeb a b = true <-> b <= a.
Proof. unfold Rgeb; apply Rleb_true. Qed.

Lemma Rgeb_false a b : Rgeb a b = false <-> a < b.
Proof. unfold Rgeb; apply Rleb_false. Qed.

Lemma Rgtb_true a b : Rgtb a b = true <-> b < a.
Proof. unfold Rgtb; apply Rltb_true. Qed.

Lemma Rgtb_false a b : Rgtb a b = false <-> a <= b.
Proof. unfold Rgtb; apply Rltb_false. Qed.

(** Running a computation of the random monad. *)
Lemma bind_run {A B : Type} (c : Rand A) (k : A -> Rand B) s n :
  bind c k s n = k (fst (c s n)) s (snd (c s n)).
Proof. unfold bind. destruct (c s n); reflexivity. Qed.

Lemma ret_run {A : Type} (a : A) s n : ret a s n = (a, n).
Proof. reflexivity. Qed.

(** A loop over a pool keeps its length, whatever it draws. *)
Lemma forEachM_length {A : Type} (f : A -> Rand A) (xs : list A) s n :
  List.length (fst (forEachM f xs s n)) = List.length xs.
Proof.
  revert n; induction xs as [| x rest IH]; intros n; simpl; [reflexivity |].
  unfold bind at 1. destruct (f x s n) as [x' n1].
  unfold bind at 1. specialize (IH n1).
  destruct (forEachM f rest s n1) as [rest' n2]; simpl in *.
  now rewrite IH.
Qed.

(** ** math.ts *)

Lemma clamp_bounds value lo hi :
  lo <= hi -> lo <= MathUtil.clamp value lo hi <= hi.
Proof.
  intros H; unfold MathUtil.clamp, Rmax, Rmin.
  destruct (Rle_dec hi value); destruct (Rle_dec lo _); lra.
Qed.

Lemma clamp_id value lo hi :
  lo <= value <= hi -> MathUtil.clamp value lo hi = value.
Proof.
  intros H; unfold MathUtil.clamp, Rmax, Rmin.
  destruct (Rle_dec hi value); destruct (Rle_dec lo _); lra.
Qed.

Lemma clampZ_bounds value lo hi :
  (lo <= hi)%Z -> (lo <= MathUtil.clampZ value lo hi <= hi)%Z.
Proof. unfold MathUtil.clampZ; lia. Qed.

(** The smoothing factor [1 - Math.exp(-k * dt)] is a blend weight. *)
Lemma smoothing_factor_range k dt :
  0 <= k -> 0 <= dt -> 0 <= 1 - exp (- k * dt) < 1.
Proof.
  intros Hk Hdt.
  assert (Hpos : 0 < exp (- k * dt)) by apply exp_pos.
  assert (Hle : exp (- k * dt) <= 1).
  { rewrite <- exp_0.
    destruct (Req_dec_T (- k * dt) 0) as [E | N].
    - rewrite E; lra.
    - left; apply exp_increasing; nra. }
  lra.
Qed.

Lemma three_lerp_between x y t lo hi :
  0 <= t <= 1 -> lo <= x <= hi -> lo <= y <= hi ->
  lo <= MathUtil.three_lerp x y t <= hi.
Proof. intros Ht Hx Hy; unfold MathUtil.three_lerp; nra. Qed.

(** ** levels.ts *)

Section LevelFacts.

Import Levels.

(** Every entry of the table keeps [0 <= baseSpeed <= maxSpeed]. *)
Lemma LEVELS_speed_order l :
  In l LEVELS -> 0 <= baseSpeed l <= maxSpeed l.
Proof.
  unfold LEVELS; simpl; intros H.
  repeat (destruct H as [H | H]; [subst l; simpl; lra |]).
  contradiction.
Qed.

Lemma fallback_is_level8 :
  nth_error LEVELS
    (Z.to_nat (Z.max 0 (Z.min (Z.of_nat (List.length LEVELS) - 1)
                              (DEFAULT_LEVEL_ID - 1)))) = Some level8.
Proof. reflexivity. Qed.

Lemma level8_in_LEVELS : In level8 LEVELS.
Proof. unfold LEVELS; simpl; intuition. Qed.

Lemma getLevelConfig_cases levelId :
  (exists l, getLevelConfig levelId = Some l /\ In l LEVELS
             /\ strictEq (id l) levelId = true)
  \/ (getLevelConfig levelId = Some level8
      /\ forall l, In l LEVELS -> strictEq (id l) levelId = false).
Proof.
  unfold getLevelConfig. rewrite fallback_is_level8.
  destruct (Number_isFinite levelId) eqn:Efin; cbn [negb].
  - destruct (find (fun l => strictEq (id l) levelId) LEVELS) as [l |] eqn:Ef.
    + left. apply find_some in Ef. destruct Ef as [Hin Heq].
      exists l. split; [reflexivity | split; assumption].
    + right. split; [reflexivity |].
      intros l Hl. exact (find_none _ _ Ef l Hl).
  - right. split; [reflexivity |].
    intros l _. destruct levelId; simpl in *; try reflexivity; discriminate.
Qed.

End LevelFacts.

(** Deciding the comparisons of a goal whose operands are numerals. *)
Ltac decide_cmp :=
  repeat match goal with
  | |- context [Reqb ?a ?b] =>
      first [ rewrite (proj2 (Reqb_true a b)) by lra
            | rewrite (proj2 (Reqb_false a b)) by lra ]
  | |- context [Rltb ?a ?b] =>
      first [ rewrite (proj2 (Rltb_true a b)) by lra
            | rewrite (proj2 (Rltb_false a b)) by lra ]
  | |- context [Rleb ?a ?b] =>
      first [ rewrite (proj2 (Rleb_true a b)) by lra
            | rewrite (proj2 (Rleb_false a b)) by lra ]
  end.

Section LevelLookup.

Import Levels.

Lemma getLevelConfig_8 : getLevelConfig (Finite 8) = Some level8.
Proof.
  unfold getLevelConfig. rewrite fallback_is_level8.
  unfold LEVELS; cbn [Number_isFinite negb find strictEq id level8].
  decide_cmp. reflexivity.
Qed.

Lemma initialLevel_is_level8 : Game.initialLevel = level8.
Proof. unfold Game.initialLevel. now rewrite getLevelConfig_8. Qed.

End LevelLookup.

(** ** Game.ts: what the level-changing operations keep *)

Lemma createEnemiesForLevel_level g s n :
  Game.level (fst (Game.createEnemiesForLevel g s n)) = Game.level g.
Proof.
  unfold Game.createEnemiesForLevel.
  destruct (Game.hasScene g); simpl; [| reflexivity].
  destruct (Game.world g); [| reflexivity].
  destruct (_ <=? 0)%Z; [reflexivity |].
  unfold bind. destruct (Game.createEnemies_loop _ _ _ s n). reflexivity.
Qed.

Lemma reset_level reason g s n :
  Game.level (fst (Game.reset reason g s n)) = Game.level g.
Proof.
  unfold Game.reset, bind.
  destruct (Game.world g) as [w |].
  - destruct (World.reset Vec3.zero w s n) as [w' n1]. simpl.
    destruct (forEachM _ (Game.enemies g) s n1). reflexivity.
  - simpl. destruct (forEachM _ (Game.enemies g) s n). reflexivity.
Qed.

(** [setLevel] on a game with a scene returns normally whenever the
    lookup does, and installs what the lookup returned. *)
Lemma setLevel_installs levelId next g s n :
  Game.hasScene g = true ->
  Levels.getLevelConfig levelId = Some next ->
  exists g' n', Game.setLevel levelId g s n = (Some g', n')
                /\ Game.level g' = next.
Proof.
  intros Hs Hl. unfold Game.setLevel. rewrite Hs, Hl. cbn [negb].
  unfold bind at 1.
  destruct (World.create _ s n) as [w n1].
  unfold bind at 1.
  pose proof (createEnemiesForLevel_level
                (Game.with_level_world
                   (Game.disposeEnemies (Game.with_level_world g next None))
                   next (Some w)) s n1) as Hc.
  destruct (Game.createEnemiesForLevel _ s n1) as [g2 n2].
  unfold bind at 1.
  pose proof (reset_level Game.ReasonReset g2 s n2) as Hr.
  destruct (Game.reset Game.ReasonReset g2 s n2) as [g3 n3].
  exists g3, n3. split; [reflexivity |].
  simpl in *. congruence.
Qed.

(** C10.  [getLevelConfig] is total: for every JavaScript number, NaN and
    the infinities included, it returns an entry of the table [LEVELS], and
    the default entry (id 8) whenever no entry has that id; [setLevel]
    therefore never throws and, on a game that has its scene, installs an
    entry of the table (without a scene it leaves the game as it is). *)
Theorem getLevelConfig_total (levelId : JsNumber) :
  (exists l, Levels.getLevelConfig levelId = Some l /\ In l Levels.LEVELS)
  /\ ((forall l, In l Levels.LEVELS -> strictEq (Levels.id l) levelId = false) ->
      Levels.getLevelConfig levelId = Some Levels.level8
      /\ Levels.id Levels.level8 = 8)
  /\ (forall g s n, exists g' n',
        Game.setLevel levelId g s n = (Some g', n')
        /\ (Game.hasScene g = true ->
            Some (Game.level g') = Levels.getLevelConfig levelId
            /\ In (Game.level g') Levels.LEVELS)
        /\ (Game.hasScene g = false -> g' = g)).
Proof.
  assert (Hex : exists l, Levels.getLevelConfig levelId = Some l
                          /\ In l Levels.LEVELS).
  { destruct (getLevelConfig_cases levelId) as [[l [H1 [H2 _]]] | [H1 _]].
    - exists l; tauto.
    - exists Levels.level8; split; [assumption | apply level8_in_LEVELS]. }
  split; [exact Hex |]. split.
  - intros Hnone.
    destruct (getLevelConfig_cases levelId) as [[l [_ [H2 H3]]] | [H1 _]].
    + rewrite (Hnone l H2) in H3. discriminate.
    + split; [assumption | reflexivity].
  - intros g s n. destruct Hex as [l [Hl Hin]].
    destruct (Game.hasScene g) eqn:Hs.
    + destruct (setLevel_installs levelId l g s n Hs Hl) as [g' [n' [E1 E2]]].
      exists g', n'. split; [assumption |]. split; [| discriminate].
      intros _. subst l. split; [now rewrite Hl | assumption].
    + exists g, n. unfold Game.setLevel. rewrite Hs. cbn [negb].
      split; [reflexivity |]. split; [discriminate | reflexivity].
Qed.

(** ** Game.updateSpeed *)

(** The step keeps the speed below the bound it clamps to, for any level
    record. *)
Lemma updateSpeed_effective_bound g dt boost stopActive :
  0 <= dt ->
  0 <= Game.speed g <= Game.effectiveMaxSpeed (Game.level g) ->
  0 <= Game.speed (Game.updateSpeed dt boost stopActive g)
    <= Game.effectiveMaxSpeed (Game.level g).
Proof.
  intros Hdt Hsp. unfold Game.effectiveMaxSpeed in *.
  set (b := Rmax 0 (Levels.baseSpeed (Game.level g))) in *.
  set (m := Rmax b (Levels.maxSpeed (Game.level g))) in *.
  assert (Hb : 0 <= b) by apply Rmax_l.
  assert (Hm : b <= m) by apply Rmax_l.
  unfold Game.updateSpeed. fold b. fold m.
  destruct stopActive; [simpl; lra |].
  destruct (Levels.autoForward (Game.level g)); simpl.
  - apply three_lerp_between.
    + pose proof (smoothing_factor_range 8 dt) as H.
      replace (- 8 * dt) with (- (8) * dt) by lra. lra.
    + assumption.
    + apply clamp_bounds; lra.
  - apply three_lerp_between.
    + pose proof (smoothing_factor_range 10 dt) as H.
      replace (- 10 * dt) with (- (10) * dt) by lra. lra.
    + assumption.
    + apply clamp_bounds; lra.
Qed.

Lemma effectiveMaxSpeed_table l :
  In l Levels.LEVELS -> Game.effectiveMaxSpeed l = Levels.maxSpeed l.
Proof.
  intros H. apply LEVELS_speed_order in H. unfold Game.effectiveMaxSpeed.
  rewrite (Rmax_right 0 (Levels.baseSpeed l)) by lra.
  apply Rmax_right; lra.
Qed.

Lemma updateSpeed_level dt boost stopActive g :
  Game.level (Game.updateSpeed dt boost stopActive g) = Game.level g.
Proof.
  unfold Game.updateSpeed.
  destruct stopActive; [reflexivity |].
  destruct (Levels.autoForward (Game.level g)); reflexivity.
Qed.

(** C1.  For an active level of the table, any [dt >= 0], any boost and
    any stop flag: a forward speed within [0, maxSpeed] stays within
    [0, maxSpeed] across [updateSpeed]. *)
Theorem updateSpeed_within_bounds (g : Game.t) (dt boost : R)
    (stopActive : bool) :
  In (Game.level g) Levels.LEVELS ->
  0 <= dt ->
  0 <= Game.speed g <= Levels.maxSpeed (Game.level g) ->
  0 <= Game.speed (Game.updateSpeed dt boost stopActive g)
    <= Levels.maxSpeed (Game.level g).
Proof.
  intros Hin Hdt Hsp.
  rewrite <- (effectiveMaxSpeed_table _ Hin) in *.
  now apply updateSpeed_effective_bound.
Qed.

Lemma updateSpeed_within_bounds_witness :
  0 <= Game.speed (Game.updateSpeed 0.05 1 false (Game.init false))
    <= Levels.maxSpeed (Game.level (Game.init false)).
Proof.
  apply (updateSpeed_within_bounds (Game.init false) 0.05 1 false).
  - simpl. rewrite initialLevel_is_level8. apply level8_in_LEVELS.
  - lra.
  - simpl. rewrite initialLevel_is_level8. simpl. lra.
Defined.

(** ** Enemy.ts *)

Section EnemyFacts.

Import Enemy.

Lemma new_ok id0 kind0 mesh0 cfg : enemy_ok (new id0 kind0 mesh0 cfg).
Proof.
  unfold enemy_ok, invariant, new; simpl.
  set (m := Z.max 1 (Zfloor (cfg_hp cfg))).
  assert (1 <= m)%Z by apply Z.le_max_l.
  repeat split; try lia.
  all: symmetry; apply Z.ltb_lt; lia.
Qed.

Lemma spawn_fields bounds playerY e s n :
  let e' := fst (spawn bounds playerY e s n) in
  alive e' = true /\ hp e' = maxHp e /\ maxHp e' = maxHp e /\ id e' = id e.
Proof. unfold spawn, MathUtil.randRange, bind, Math_random, ret; simpl; tauto. Qed.

Lemma spawn_ok bounds playerY e s n :
  enemy_ok e -> enemy_ok (fst (spawn bounds playerY e s n)).
Proof.
  intros [Hm _].
  destruct (spawn_fields bounds playerY e s n) as [Ha [Hh [Hx _]]].
  unfold enemy_ok, invariant. rewrite Ha, Hh, Hx.
  repeat split; try lia. all: symmetry; apply Z.ltb_lt; lia.
Qed.

Lemma update_ok dt worldSpeed playerPos timeMs e :
  enemy_ok e -> enemy_ok (update dt worldSpeed playerPos timeMs e).
Proof.
  unfold update. destruct (alive e) eqn:Ea; simpl; [| tauto].
  unfold enemy_ok, invariant; simpl. now rewrite Ea.
Qed.

Lemma takeDamage_dead amount e : alive e = false -> takeDamage amount e = e.
Proof. intros H; unfold takeDamage; now rewrite H. Qed.

Lemma takeDamage_alive amount e :
  alive e = true ->
  let hp1 := MathUtil.clampZ (hp e - Z.max 1 (Zfloor amount)) 0 (maxHp e) in
  hp (takeDamage amount e) = hp1
  /\ maxHp (takeDamage amount e) = maxHp e
  /\ alive (takeDamage amount e) = negb (hp1 <=? 0)%Z.
Proof.
  intros H; unfold takeDamage; rewrite H; simpl.
  repeat split; now destruct (_ <=? 0)%Z.
Qed.

Lemma takeDamage_ok amount e : enemy_ok e -> enemy_ok (takeDamage amount e).
Proof.
  intros [Hm Hinv]. destruct (alive e) eqn:Ea.
  - destruct (takeDamage_alive amount e Ea) as [Hh [Hx Hal]].
    unfold enemy_ok, invariant. rewrite Hh, Hx, Hal.
    set (h := MathUtil.clampZ _ 0 (maxHp e)).
    assert (0 <= h <= maxHp e)%Z by (apply clampZ_bounds; lia).
    repeat split; lia.
  - rewrite takeDamage_dead by assumption. split; assumption.
Qed.

End EnemyFacts.

Lemma run_ops_ok os e s n :
  Enemy.enemy_ok e -> Enemy.enemy_ok (fst (Enemy.run_ops os e s n)).
Proof.
  revert e n; induction os as [| o rest IH]; intros e n He;
    cbn [Enemy.run_ops].
  - exact He.
  - unfold bind.
    destruct o as [bounds playerY | dt ws pp tm | amount];
      cbn [Enemy.run_op].
    + pose proof (spawn_ok bounds playerY e s n He) as H.
      destruct (Enemy.spawn bounds playerY e s n) as [e' n'].
      apply IH. exact H.
    + unfold ret. apply IH. now apply update_ok.
    + unfold ret. apply IH. now apply takeDamage_ok.
Qed.

(** C5, as stated, fails: a ship with 3 hit points that takes damage 0
    ends with 2 hit points, where subtracting [floor 0] would leave 3. *)
Lemma takeDamage_floor_counterexample :
  let e := Enemy.new 1 Enemy.Ship (Game.createEnemyMesh Enemy.Ship)
             (Game.enemyCfgs Enemy.Ship) in
  Enemy.alive e = true
  /\ Enemy.hp e = 3%Z
  /\ Enemy.hp (Enemy.takeDamage 0 e) = 2%Z
  /\ MathUtil.clampZ (Enemy.hp e - Zfloor 0) 0 (Enemy.maxHp e) = 3%Z.
Proof.
  cbv zeta.
  unfold Enemy.takeDamage, Enemy.new, Game.enemyCfgs; cbn [Enemy.alive Enemy.hp
    Enemy.maxHp Enemy.cfg_hp negb].
  rewrite !ZfloorZ. repeat split; reflexivity.
Qed.

(** C5, amended.  On a living enemy [takeDamage(amount)] subtracts
    [max(1, floor(amount))] from hp and clamps the result to [0, maxHp];
    alive becomes false exactly when the new hp is 0; on a dead enemy the
    call changes nothing. *)
Theorem takeDamage_spec (e : Enemy.t) (amount : R) :
  Enemy.enemy_ok e ->
  (Enemy.alive e = true ->
     Enemy.hp (Enemy.takeDamage amount e)
       = MathUtil.clampZ (Enemy.hp e - Z.max 1 (Zfloor amount)) 0 (Enemy.maxHp e)
     /\ (0 <= Enemy.hp (Enemy.takeDamage amount e) <= Enemy.maxHp e)%Z
     /\ (Enemy.alive (Enemy.takeDamage amount e) = false
         <-> Enemy.hp (Enemy.takeDamage amount e) = 0%Z))
  /\ (Enemy.alive e = false -> Enemy.takeDamage amount e = e).
Proof.
  intros [Hm Hinv]. split.
  - intros Ha. destruct (takeDamage_alive amount e Ha) as [Hh [_ Hal]].
    rewrite Hh, Hal.
    set (h := MathUtil.clampZ _ 0 (Enemy.maxHp e)).
    assert (Hb : (0 <= h <= Enemy.maxHp e)%Z) by (apply clampZ_bounds; lia).
    split; [reflexivity |]. split; [exact Hb |].
    destruct (Z.leb_spec h 0); simpl; split; intros; try lia; try discriminate;
      reflexivity.
  - apply takeDamage_dead.
Qed.

Lemma takeDamage_spec_witness :
  let e := Enemy.new 1 Enemy.Spike (Game.createEnemyMesh Enemy.Spike)
             (Game.enemyCfgs Enemy.Spike) in
  Enemy.enemy_ok e
  /\ (Enemy.alive e = true ->
        Enemy.hp (Enemy.takeDamage 1 e)
          = MathUtil.clampZ (Enemy.hp e - Z.max 1 (Zfloor 1)) 0 (Enemy.maxHp e)
        /\ (0 <= Enemy.hp (Enemy.takeDamage 1 e) <= Enemy.maxHp e)%Z
        /\ (Enemy.alive (Enemy.takeDamage 1 e) = false
            <-> Enemy.hp (Enemy.takeDamage 1 e) = 0%Z))
  /\ (Enemy.alive e = false -> Enemy.takeDamage 1 e = e).
Proof.
  cbv zeta. split; [apply new_ok |].
  apply (takeDamage_spec
           (Enemy.new 1 Enemy.Spike (Game.createEnemyMesh Enemy.Spike)
              (Game.enemyCfgs Enemy.Spike)) 1).
  apply new_ok.
Defined.

(** C6.  The constructor establishes, and every sequence of [spawn],
    [update] and [takeDamage] calls keeps, [0 <= hp <= maxHp] and
    [alive = (hp > 0)]; an enemy whose hp is 0 is dead, and a dead enemy is
    inert: [update] and [takeDamage] leave it as it is until [spawn]. *)
Theorem enemy_invariant_preserved (id0 : Z) (kind0 : Enemy.EnemyKind)
    (mesh0 : Object3D) (cfg : Enemy.EnemyConfig) (os : list Enemy.op)
    (s : nat -> R) (n : nat) :
  let e := fst (Enemy.run_ops os (Enemy.new id0 kind0 mesh0 cfg) s n) in
  Enemy.invariant (Enemy.new id0 kind0 mesh0 cfg)
  /\ Enemy.invariant e
  /\ (Enemy.hp e = 0%Z -> Enemy.alive e = false)
  /\ (Enemy.alive e = false ->
      (forall dt ws pp tm, Enemy.update dt ws pp tm e = e)
      /\ (forall amount, Enemy.takeDamage amount e = e)).
Proof.
  cbv zeta.
  pose proof (new_ok id0 kind0 mesh0 cfg) as H0.
  pose proof (run_ops_ok os _ s n H0) as H1.
  destruct H0 as [_ H0]. destruct H1 as [_ H1].
  split; [exact H0 |]. split; [exact H1 |]. split.
  - intros Hz. destruct H1 as [_ Ha]. rewrite Ha, Hz. reflexivity.
  - intros Hd. split.
    + intros. unfold Enemy.update. now rewrite Hd.
    + intros. now apply takeDamage_dead.
Qed.

(** C7.  Round trip, for every enemy the class can produce:
    [spawn] then [takeDamage(maxHp)] leaves it dead, and the next [spawn]
    brings it back alive with [hp = maxHp]. *)
Theorem spawn_kill_respawn (id0 : Z) (kind0 : Enemy.EnemyKind)
    (mesh0 : Object3D) (cfg : Enemy.EnemyConfig) (os : list Enemy.op)
    (s : nat -> R) (n : nat)
    (bounds bounds' : Enemy.EnemySpawnBounds) (playerY playerY' : R)
    (n1 n2 : nat) :
  let e := fst (Enemy.run_ops os (Enemy.new id0 kind0 mesh0 cfg) s n) in
  let e1 := fst (Enemy.spawn bounds playerY e s n1) in
  let e2 := Enemy.takeDamage (IZR (Enemy.maxHp e1)) e1 in
  let e3 := fst (Enemy.spawn bounds' playerY' e2 s n2) in
  Enemy.alive e2 = false
  /\ Enemy.alive e3 = true
  /\ Enemy.hp e3 = Enemy.maxHp e3.
Proof.
  cbv zeta.
  set (e := fst (Enemy.run_ops os _ s n)).
  assert (He : Enemy.enemy_ok e)
    by (apply run_ops_ok, new_ok).
  destruct He as [Hm _].
  destruct (spawn_fields bounds playerY e s n1) as [Ha [Hh [Hx _]]].
  set (e1 := fst (Enemy.spawn bounds playerY e s n1)) in *.
  destruct (takeDamage_alive (IZR (Enemy.maxHp e1)) e1 Ha) as [Hh2 [Hx2 Ha2]].
  set (e2 := Enemy.takeDamage (IZR (Enemy.maxHp e1)) e1) in *.
  destruct (spawn_fields bounds' playerY' e2 s n2) as [Ha3 [Hh3 [Hx3 _]]].
  split.
  - rewrite Ha2, ZfloorZ, Hh, Hx. unfold MathUtil.clampZ.
    destruct (Z.leb_spec (Z.max 0 (Z.min (Enemy.maxHp e)
                (Enemy.maxHp e - Z.max 1 (Enemy.maxHp e)))) 0);
      [reflexivity | lia].
  - split; [exact Ha3 |]. now rewrite Hh3, Hx3.
Qed.

(** ** Pools: firing into a saturated pool *)

Lemma spawnFirst_none {A : Type} (free : A -> bool) (f : A -> A) (xs : list A) :
  forallb (fun x => negb (free x)) xs = true -> Game.spawnFirst free f xs = None.
Proof.
  induction xs as [| x rest IH]; simpl; [reflexivity |].
  intros H. apply andb_true_iff in H. destruct H as [Hx Hr].
  apply negb_true_iff in Hx. rewrite Hx. now rewrite (IH Hr).
Qed.

Lemma activeCount_full {A : Type} (isActive : A -> bool) (xs : list A) :
  forallb isActive xs = true ->
  Game.activeCount isActive xs = List.length xs.
Proof.
  unfold Game.activeCount.
  induction xs as [| x rest IH]; simpl; [reflexivity |].
  intros H. apply andb_true_iff in H. destruct H as [Hx Hr].
  rewrite Hx. simpl. now rewrite (IH Hr).
Qed.

Lemma forallb_ext_in {A : Type} (p q : A -> bool) (xs : list A) :
  (forall x, p x = q x) -> forallb p xs = forallb q xs.
Proof.
  intros H; induction xs as [| x rest IH]; simpl; [reflexivity |].
  now rewrite H, IH.
Qed.

Lemma spawnLaser_full playerPos items :
  forallb Projectiles.l_active items = true ->
  Game.spawnLaser playerPos items = (items, false).
Proof.
  intros H. unfold Game.spawnLaser.
  rewrite spawnFirst_none; [reflexivity |].
  rewrite <- H. apply forallb_ext_in.
  intros x; unfold Game.laserFree. apply negb_involutive.
Qed.

Lemma fireMissile_full g :
  forallb Game.missileActive (Game.missiles g) = true ->
  Game.fireMissile g = g.
Proof.
  intros H. unfold Game.fireMissile.
  destruct (Game.running g); [| reflexivity]. cbn [negb].
  rewrite spawnFirst_none; [reflexivity |].
  rewrite <- H. apply forallb_ext_in.
  intros x; unfold Game.missileFree, Game.missileActive. apply negb_involutive.
Qed.

(** C8.  With every laser slot active, [spawnLaser] returns false and
    leaves the pool as it is, and the gun block of a frame leaves it as it
    is too; with every missile slot active, [fireMissile] leaves the whole
    game as it is.  The calls return normally and the active count stays at
    the capacity. *)
Theorem full_pool_fire_is_noop (g : Game.t) (items : list Projectiles.LaserShot)
    (input : Input.InputState) (nowMs : R) :
  Game.lasers g = Some items ->
  (forallb Projectiles.l_active items = true ->
     Game.spawnLaser (Game.pos g) items = (items, false)
     /\ Game.lasers (fst (Game.gunBlock input nowMs items g)) = Some items
     /\ Game.activeCount Projectiles.l_active items = List.length items)
  /\ (forallb Game.missileActive (Game.missiles g) = true ->
      Game.fireMissile g = g
      /\ Game.activeCount Game.missileActive (Game.missiles g)
         = List.length (Game.missiles g)).
Proof.
  intros Hl. split.
  - intros Hfull. split; [now apply spawnLaser_full |]. split.
    + unfold Game.gunBlock. rewrite (spawnLaser_full _ _ Hfull).
      destruct (_ && _); [reflexivity |].
      destruct (_ && _); [reflexivity | exact Hl].
    + now apply activeCount_full.
  - intros Hfull. split; [now apply fireMissile_full |].
    now apply activeCount_full.
Qed.

Lemma full_pool_fire_is_noop_witness :
  let g := Game.saturated (Game.init false) in
  let items :=
    map (Projectiles.laserSpawn (Vec3.mk 0 0 1) (Vec3.mk 0 0 Game.LASER_SPEED)
           Game.LASER_TTL)
        (repeat Projectiles.newLaserShot Game.MAX_LASERS) in
  (Game.spawnLaser (Game.pos g) items = (items, false)
   /\ Game.lasers (fst (Game.gunBlock Input.createDefaultInputState 0 items g))
      = Some items
   /\ Game.activeCount Projectiles.l_active items = 140%nat)
  /\ Game.fireMissile g = g
  /\ Game.activeCount Game.missileActive (Game.missiles g) = 8%nat.
Proof.
  cbv zeta.
  destruct (full_pool_fire_is_noop (Game.saturated (Game.init false))
              (map (Projectiles.laserSpawn (Vec3.mk 0 0 1)
                      (Vec3.mk 0 0 Game.LASER_SPEED) Game.LASER_TTL)
                   (repeat Projectiles.newLaserShot Game.MAX_LASERS))
              Input.createDefaultInputState 0 eq_refl) as [HL HM].
  split.
  - exact (HL eq_refl).
  - exact (HM eq_refl).
Defined.

(** ** input/InputRouter.ts: one-shot requests *)

(** The three one-shot queue cells of a router. *)
Lemma update_clears_queue face nowMs r :
  InputRouter.queuedGunBurst (InputRouter.update face nowMs r) = false
  /\ InputRouter.queuedMissile (InputRouter.update face nowMs r) = false
  /\ InputRouter.queuedFlip (InputRouter.update face nowMs r) = None.
Proof.
  unfold InputRouter.update.
  destruct (InputRouter.manualNudge r) as [m |];
    [destruct (Rgtb (InputRouter.untilMs m) nowMs) |];
    destruct (negb _ || negb _); simpl; tauto.
Qed.

Lemma update_publishes face nowMs r :
  Input.fireGunsBurst (InputRouter.state (InputRouter.update face nowMs r))
    = (Input.calibrated face && Input.fireBurst face)
      || InputRouter.queuedGunBurst r
  /\ Input.fireMissile (InputRouter.state (InputRouter.update face nowMs r))
     = InputRouter.queuedMissile r
  /\ Input.flip (InputRouter.state (InputRouter.update face nowMs r))
     = InputRouter.queuedFlip r.
Proof.
  unfold InputRouter.update.
  destruct (InputRouter.manualNudge r) as [m |];
    [destruct (Rgtb (InputRouter.untilMs m) nowMs) |];
    destruct (negb _ || negb _); simpl; tauto.
Qed.

Lemma handle_keeps_queue ev r :
  InputRouter.files_no_request ev = true ->
  InputRouter.queuedGunBurst (InputRouter.handle ev r)
    = InputRouter.queuedGunBurst r
  /\ InputRouter.queuedMissile (InputRouter.handle ev r)
     = InputRouter.queuedMissile r
  /\ InputRouter.queuedFlip (InputRouter.handle ev r)
     = InputRouter.queuedFlip r.
Proof.
  destruct ev as [| | a d | held | | now x y ms | now cmd];
    cbn [InputRouter.files_no_request InputRouter.handle];
    try discriminate.
  - intros _; simpl; tauto.
  - intros _; simpl; tauto.
  - intros _; simpl; tauto.
  - destruct cmd; try discriminate; intros _;
      unfold InputRouter.handleVoiceCommand.
    + destruct (Rltb (now - InputRouter.lastVoiceStopMs r) 650); simpl; tauto.
    + simpl; tauto.
    + simpl; tauto.
Qed.

Lemma handle_all_keeps_queue evs r :
  forallb InputRouter.files_no_request evs = true ->
  let r' := fold_left (fun acc ev => InputRouter.handle ev acc) evs r in
  InputRouter.queuedGunBurst r' = InputRouter.queuedGunBurst r
  /\ InputRouter.queuedMissile r' = InputRouter.queuedMissile r
  /\ InputRouter.queuedFlip r' = InputRouter.queuedFlip r.
Proof.
  revert r; induction evs as [| ev rest IH]; intros r H; simpl in *.
  - tauto.
  - apply andb_true_iff in H. destruct H as [Hev Hrest].
    destruct (IH (InputRouter.handle ev r) Hrest) as [A [B C]].
    destruct (handle_keeps_queue ev r Hev) as [A' [B' C']].
    rewrite A, B, C. tauto.
Qed.

(** C9.  After any poll of the router, the next poll, with no request
    filed in between, publishes [fireMissile = false] and [flip = null],
    and publishes [fireGunsBurst] as the tracker's burst edge alone: a
    queued one-shot is published by exactly one poll. *)
Theorem one_shot_published_once (r : InputRouter.t)
    (face1 face2 : Input.FaceControls) (nowMs1 nowMs2 : R)
    (evs : list InputRouter.event) :
  forallb InputRouter.files_no_request evs = true ->
  let r1 := InputRouter.update face1 nowMs1 r in
  let r2 :=
    InputRouter.update face2 nowMs2
      (fold_left (fun acc ev => InputRouter.handle ev acc) evs r1) in
  Input.fireGunsBurst (InputRouter.state r2)
    = Input.calibrated face2 && Input.fireBurst face2
  /\ Input.fireMissile (InputRouter.state r2) = false
  /\ Input.flip (InputRouter.state r2) = None.
Proof.
  intros Hev; cbv zeta.
  destruct (update_clears_queue face1 nowMs1 r) as [A [B C]].
  destruct (handle_all_keeps_queue evs (InputRouter.update face1 nowMs1 r) Hev)
    as [A' [B' C']]. cbv zeta in A', B', C'.
  destruct (update_publishes face2 nowMs2
              (fold_left (fun acc ev => InputRouter.handle ev acc) evs
                 (InputRouter.update face1 nowMs1 r))) as [P [Q S]].
  rewrite P, Q, S, A', B', C', A, B, C.
  rewrite orb_false_r. tauto.
Qed.

Lemma one_shot_published_once_witness :
  let face :=
    {| Input.calibrated := false; Input.strafeX := 0; Input.strafeY := 0;
       Input.f_boost := 0; Input.mouthOpen := 0;
       Input.fireBurst := false; Input.fireHold := false |} in
  let r :=
    InputRouter.queueFlip Input.AxisX Input.DirPlus
      (InputRouter.queueMissile (InputRouter.queueGunBurst InputRouter.new)) in
  let r1 := InputRouter.update face 16 r in
  let r2 :=
    InputRouter.update face 32
      (fold_left (fun acc ev => InputRouter.handle ev acc)
         [InputRouter.EToggleStop] r1) in
  (Input.fireGunsBurst (InputRouter.state r1) = true
   /\ Input.fireMissile (InputRouter.state r1) = true
   /\ Input.flip (InputRouter.state r1)
      = Some {| Input.axis := Input.AxisX; Input.dir := Input.DirPlus |})
  /\ (Input.fireGunsBurst (InputRouter.state r2) = false
      /\ Input.fireMissile (InputRouter.state r2) = false
      /\ Input.flip (InputRouter.state r2) = None).
Proof.
  cbv zeta. split.
  - pose proof (update_publishes
                  {| Input.calibrated := false; Input.strafeX := 0;
                     Input.strafeY := 0; Input.f_boost := 0;
                     Input.mouthOpen := 0; Input.fireBurst := false;
                     Input.fireHold := false |} 16
                  (InputRouter.queueFlip Input.AxisX Input.DirPlus
                     (InputRouter.queueMissile
                        (InputRouter.queueGunBurst InputRouter.new)))) as H.
    exact H.
  - exact (one_shot_published_once
             (InputRouter.queueFlip Input.AxisX Input.DirPlus
                (InputRouter.queueMissile
                   (InputRouter.queueGunBurst InputRouter.new)))
             {| Input.calibrated := false; Input.strafeX := 0;
                Input.strafeY := 0; Input.f_boost := 0;
                Input.mouthOpen := 0; Input.fireBurst := false;
                Input.fireHold := false |}
             {| Input.calibrated := false; Input.strafeX := 0;
                Input.strafeY := 0; Input.f_boost := 0;
                Input.mouthOpen := 0; Input.fireBurst := false;
                Input.fireHold := false |}
             16 32 [InputRouter.EToggleStop] eq_refl).
Defined.

(** ** Game.reset *)

Lemma forEachM_Forall2 {A : Type} (P : A -> A -> Prop) (f : A -> Rand A)
    (xs : list A) s n :
  (forall x s' n', P x (fst (f x s' n'))) ->
  Forall2 P xs (fst (forEachM f xs s n)).
Proof.
  intros Hf. revert n; induction xs as [| x rest IH]; intros n; simpl.
  - constructor.
  - unfold bind at 1. pose proof (Hf x s n) as Hx.
    destruct (f x s n) as [x' n1].
    unfold bind at 1. specialize (IH n1).
    destruct (forEachM f rest s n1) as [rest' n2]; simpl in *.
    now constructor.
Qed.

Lemma Forall2_map_eq {A B : Type} (h : A -> B) (xs ys : list A) :
  Forall2 (fun a b => h b = h a) xs ys -> map h ys = map h xs.
Proof. induction 1; simpl; congruence. Qed.

Lemma forPool_size {A : Type} (f : A -> Rand A) (p : option (World.Pool A)) s n :
  World.poolSize (fst (World.forPool f p s n)) = World.poolSize p.
Proof.
  destruct p as [pool |]; simpl; [| reflexivity].
  unfold bind. pose proof (forEachM_length f (World.items pool) s n) as H.
  destruct (forEachM f (World.items pool) s n) as [its n']; simpl in *.
  now rewrite H.
Qed.

Lemma resetTiles_length i ts :
  List.length (World.resetTiles i ts) = List.length ts.
Proof.
  revert i; induction ts as [| t0 rest IH]; intros i; simpl;
    [reflexivity | now rewrite IH].
Qed.

(** [World.reset] re-randomises the items and nothing else: the pools keep
    their sizes and capacities, the resources stay allocated, the root
    stays in the scene. *)
Lemma world_reset_geometry playerPos w s n :
  World.geometry (fst (World.reset playerPos w s n)) = World.geometry w.
Proof.
  destruct w as [o | e]; unfold World.reset, bind.
  - unfold World.o_reset, bind.
    pose proof (forPool_size World.o_resetAsteroid (World.o_asteroids o) s n) as Ha.
    destruct (World.forPool World.o_resetAsteroid (World.o_asteroids o) s n)
      as [asts n1].
    pose proof (forPool_size World.o_resetPickup (World.o_pickups o) s n1) as Hp.
    destruct (World.forPool World.o_resetPickup (World.o_pickups o) s n1)
      as [pks n2].
    simpl in *. unfold World.geometry; simpl. now rewrite Ha, Hp.
  - unfold World.e_reset, bind.
    pose proof (forPool_size World.e_resetTree (World.e_trees e) s n) as Ha.
    destruct (World.forPool World.e_resetTree (World.e_trees e) s n)
      as [trs n1].
    pose proof (forPool_size World.e_resetPickup (World.e_pickups e) s n1) as Hp.
    destruct (World.forPool World.e_resetPickup (World.e_pickups e) s n1)
      as [pks n2].
    simpl in *. unfold World.geometry; simpl.
    now rewrite Ha, Hp, resetTiles_length.
Qed.

Lemma resetSlot_identity bounds playerY sl s n :
  Game.slotIdentity (fst (Game.resetSlot bounds playerY sl s n))
    = Game.slotIdentity sl
  /\ Enemy.alive (Game.enemy (fst (Game.resetSlot bounds playerY sl s n))) = true
  /\ Enemy.hp (Game.enemy (fst (Game.resetSlot bounds playerY sl s n)))
     = Enemy.maxHp (Game.enemy (fst (Game.resetSlot bounds playerY sl s n))).
Proof.
  unfold Game.resetSlot, Enemy.spawn, MathUtil.randRange, bind, Math_random, ret.
  simpl. tauto.
Qed.

(** What [reset] does to the fields it rewrites, whatever the reason. *)
Lemma reset_fields reason g s n :
  let g' := fst (Game.reset reason g s n) in
  Game.score g' = 1%Z
  /\ Game.lasers g'
     = option_map (map Game.deactivateLaser) (Game.lasers g)
  /\ Game.missiles g' = map Game.deactivateMissile (Game.missiles g)
  /\ Game.explosions g' = map Game.expireExplosion (Game.explosions g)
  /\ option_map World.geometry (Game.world g')
     = option_map World.geometry (Game.world g)
  /\ map Game.slotIdentity (Game.enemies g')
     = map Game.slotIdentity (Game.enemies g)
  /\ Forall (fun sl => Enemy.alive (Game.enemy sl) = true
                       /\ Enemy.hp (Game.enemy sl)
                          = Enemy.maxHp (Game.enemy sl))
       (Game.enemies g').
Proof.
  cbv zeta. unfold Game.reset, bind.
  assert (Hw : forall w, option_map World.geometry
                 (Some (fst (World.reset Vec3.zero w s n)))
               = option_map World.geometry (Some w))
    by (intros w; simpl; now rewrite world_reset_geometry).
  destruct (Game.world g) as [w |].
  - specialize (Hw w).
    destruct (World.reset Vec3.zero w s n) as [w' n1]. cbn [ret fst] in *.
    set (b := World.enemySpawnBounds w').
    pose proof (forEachM_Forall2
                  (fun a c => Game.slotIdentity c = Game.slotIdentity a
                              /\ Enemy.alive (Game.enemy c) = true
                              /\ Enemy.hp (Game.enemy c)
                                 = Enemy.maxHp (Game.enemy c))
                  (Game.resetSlot b (Vec3.y Vec3.zero)) (Game.enemies g) s n1) as HF.
    destruct (forEachM _ (Game.enemies g) s n1) as [es n2]. cbn [fst] in *.
    assert (HF' : Forall2 (fun a c => Game.slotIdentity c = Game.slotIdentity a
                              /\ Enemy.alive (Game.enemy c) = true
                              /\ Enemy.hp (Game.enemy c)
                                 = Enemy.maxHp (Game.enemy c))
                    (Game.enemies g) es).
    { apply HF. intros x s' n'.
      destruct (resetSlot_identity b (Vec3.y Vec3.zero) x s' n'); tauto. }
    repeat split; try reflexivity; try exact Hw.
    + apply Forall2_map_eq.
      eapply Forall2_impl; [| exact HF']. simpl; tauto.
    + clear - HF'. induction HF'; constructor; tauto.
  - cbn [ret fst].
    set (b := Game.defaultSpawnBounds).
    pose proof (forEachM_Forall2
                  (fun a c => Game.slotIdentity c = Game.slotIdentity a
                              /\ Enemy.alive (Game.enemy c) = true
                              /\ Enemy.hp (Game.enemy c)
                                 = Enemy.maxHp (Game.enemy c))
                  (Game.resetSlot b (Vec3.y Vec3.zero)) (Game.enemies g) s n) as HF.
    destruct (forEachM _ (Game.enemies g) s n) as [es n2]. cbn [fst] in *.
    assert (HF' : Forall2 (fun a c => Game.slotIdentity c = Game.slotIdentity a
                              /\ Enemy.alive (Game.enemy c) = true
                              /\ Enemy.hp (Game.enemy c)
                                 = Enemy.maxHp (Game.enemy c))
                    (Game.enemies g) es).
    { apply HF. intros x s' n'.
      destruct (resetSlot_identity b (Vec3.y Vec3.zero) x s' n'); tauto. }
    repeat split; try reflexivity.
    + apply Forall2_map_eq.
      eapply Forall2_impl; [| exact HF']. simpl; tauto.
    + clear - HF'. induction HF'; constructor; tauto.
Qed.

Lemma forallb_map_true {A B : Type} (p : B -> bool) (h : A -> B) (xs : list A) :
  (forall x, p (h x) = true) -> forallb p (map h xs) = true.
Proof.
  intros H; induction xs as [| x rest IH]; simpl; [reflexivity |].
  now rewrite H, IH.
Qed.

Lemma Forall_map_intro {A B : Type} (P : B -> Prop) (h : A -> B) (xs : list A) :
  (forall x, P (h x)) -> Forall P (map h xs).
Proof. intros H; induction xs; simpl; constructor; auto. Qed.


(** ** THREE.Vector3 *)

Lemma length_nonneg v : 0 <= Vec3.length v.
Proof. unfold Vec3.length; apply sqrt_pos. Qed.

Lemma length_multiplyScalar v k :
  Vec3.length (Vec3.multiplyScalar v k) = Rabs k * Vec3.length v.
Proof.
  unfold Vec3.length, Vec3.multiplyScalar; simpl.
  replace (Vec3.x v * k * (Vec3.x v * k) + Vec3.y v * k * (Vec3.y v * k)
           + Vec3.z v * k * (Vec3.z v * k))
    with (Rsqr k * (Vec3.x v * Vec3.x v + Vec3.y v * Vec3.y v
                    + Vec3.z v * Vec3.z v))
    by (unfold Rsqr; ring).
  rewrite sqrt_mult_alt by apply Rle_0_sqr.
  now rewrite sqrt_Rsqr_abs.
Qed.

Lemma length_unit_scaled v :
  Vec3.length v <> 0 ->
  Vec3.length (Vec3.multiplyScalar v (1 / Vec3.length v)) = 1.
Proof.
  intros H. rewrite length_multiplyScalar.
  pose proof (length_nonneg v) as Hn.
  assert (Hp : 0 < Vec3.length v) by lra.
  rewrite Rabs_right.
  - field; lra.
  - apply Rle_ge. unfold Rdiv. rewrite Rmult_1_l.
    left. now apply Rinv_0_lt_compat.
Qed.

Lemma normalize_unit v :
  Vec3.length v <> 0 -> Vec3.length (Vec3.normalize v) = 1.
Proof.
  intros H. unfold Vec3.normalize, Vec3.divideScalar.
  rewrite (proj2 (Reqb_false _ _) H). now apply length_unit_scaled.
Qed.

Lemma normalize_zero v :
  Vec3.length v = 0 -> Vec3.normalize v = Vec3.multiplyScalar v (1 / 1).
Proof.
  intros H. unfold Vec3.normalize, Vec3.divideScalar.
  now rewrite (proj2 (Reqb_true _ _) H).
Qed.

(** The length of a vector along the z axis. *)
Lemma length_axis_z c : Vec3.length (Vec3.mk 0 0 c) = Rabs c.
Proof.
  unfold Vec3.length; simpl.
  replace (0 * 0 + 0 * 0 + c * c) with (Rsqr c) by (unfold Rsqr; ring).
  apply sqrt_Rsqr_abs.
Qed.

Lemma length_axis_x c : Vec3.length (Vec3.mk c 0 0) = Rabs c.
Proof.
  unfold Vec3.length; simpl.
  replace (c * c + 0 * 0 + 0 * 0) with (Rsqr c) by (unfold Rsqr; ring).
  apply sqrt_Rsqr_abs.
Qed.

Lemma length_zero_iff v :
  Vec3.length v = 0 <-> Vec3.x v = 0 /\ Vec3.y v = 0 /\ Vec3.z v = 0.
Proof.
  unfold Vec3.length. split.
  - intros H. apply sqrt_eq_0 in H; [nra | nra].
  - intros [A [B C]]. rewrite A, B, C.
    replace (0 * 0 + 0 * 0 + 0 * 0) with 0 by ring. apply sqrt_0.
Qed.

Lemma length_sqr v :
  Vec3.length v * Vec3.length v
  = Vec3.x v * Vec3.x v + Vec3.y v * Vec3.y v + Vec3.z v * Vec3.z v.
Proof. unfold Vec3.length. apply sqrt_sqrt. nra. Qed.

(** A blend of two unit vectors with weight below one half is not the zero
    vector: its component along the first is at least [1 - 2 t]. *)
Lemma lerp_units_nonzero c d t :
  Vec3.length c = 1 -> Vec3.length d = 1 -> 0 <= t < / 2 ->
  Vec3.length (Vec3.lerp c d t) <> 0.
Proof.
  intros Hc Hd Ht Hz.
  apply length_zero_iff in Hz. destruct Hz as [Zx [Zy Zz]].
  pose proof (length_sqr c) as Sc. rewrite Hc in Sc.
  pose proof (length_sqr d) as Sd. rewrite Hd in Sd.
  simpl in Zx, Zy, Zz.
  destruct c as [cx cy cz], d as [dx dy dz]; simpl in *.
  assert (Hdot : -1 <= cx * dx + cy * dy + cz * dz).
  { pose proof (Rle_0_sqr (cx + dx)) as Qx.
    pose proof (Rle_0_sqr (cy + dy)) as Qy.
    pose proof (Rle_0_sqr (cz + dz)) as Qz.
    unfold Rsqr in Qx, Qy, Qz. lra. }
  assert (H0 : (cx + (dx - cx) * t) * cx + (cy + (dy - cy) * t) * cy
               + (cz + (dz - cz) * t) * cz = 0)
    by (rewrite Zx, Zy, Zz; ring).
  assert (H1 : (cx + (dx - cx) * t) * cx + (cy + (dy - cy) * t) * cy
               + (cz + (dz - cz) * t) * cz
               = (1 - t) * (cx * cx + cy * cy + cz * cz)
                 + t * (cx * dx + cy * dy + cz * dz))
    by ring.
  rewrite H1 in H0. rewrite <- Sc in H0. nra.
Qed.

(** ** Projectiles.ts: the homing step *)

Section MissileFacts.

Import Projectiles.

Variables (m : MissileShot) (dt turnRate : R).
Hypothesis Hactive : m_active m = true.
Hypothesis Httl : 0 < m_ttl m - dt.

Lemma update_no_target :
  m_vel (update dt None turnRate m) = m_vel m
  /\ m_pos (update dt None turnRate m)
     = Vec3.addScaledVector (m_pos m) (m_vel m) dt
  /\ m_active (update dt None turnRate m) = true.
Proof.
  unfold update. rewrite Hactive. cbn [negb].
  rewrite (proj2 (Rleb_false _ _) Httl). simpl. tauto.
Qed.

Lemma update_near_target target :
  Vec3.length (Vec3.sub target (m_pos m)) <= 1e-6 ->
  m_vel (update dt (Some target) turnRate m) = m_vel m.
Proof.
  intros Hlen. unfold update. rewrite Hactive. cbn [negb].
  rewrite (proj2 (Rleb_false _ _) Httl).
  rewrite (proj2 (Rgtb_false _ _) Hlen). reflexivity.
Qed.

Lemma update_far_target target :
  1e-6 < Vec3.length (Vec3.sub target (m_pos m)) ->
  let desired := Vec3.sub target (m_pos m) in
  let desiredDir := Vec3.multiplyScalar desired (1 / Vec3.length desired) in
  m_vel (update dt (Some target) turnRate m)
  = Vec3.multiplyScalar
      (steer (m_vel m) desiredDir (MathUtil.clamp (turnRate * dt) 0 1))
      (Vec3.length (m_vel m)).
Proof.
  intros Hlen. cbv zeta. unfold update. rewrite Hactive. cbn [negb].
  rewrite (proj2 (Rleb_false _ _) Httl).
  rewrite (proj2 (Rgtb_true _ _) Hlen). reflexivity.
Qed.

End MissileFacts.

(** Scaling a unit heading by the speed gives back the speed. *)
Lemma steer_speed vel0 desiredDir t :
  Vec3.length (Vec3.lerp (Vec3.normalize vel0) desiredDir t) <> 0 ->
  Vec3.length (Vec3.multiplyScalar (Projectiles.steer vel0 desiredDir t)
                 (Vec3.length vel0))
  = Vec3.length vel0.
Proof.
  intros H. rewrite length_multiplyScalar. unfold Projectiles.steer.
  rewrite (normalize_unit _ H).
  rewrite Rabs_right by (apply Rle_ge, length_nonneg). ring.
Qed.

(** In the game the blend weight is at most [4.2 * 0.05 = 0.21]: below one
    half the blend of a moving missile's heading never vanishes, so the
    speed is conserved. *)
Lemma missile_speed_conserved_small_turn m dt turnRate target :
  Projectiles.m_active m = true ->
  0 < Projectiles.m_ttl m - dt ->
  Vec3.length (Projectiles.m_vel m) <> 0 ->
  turnRate * dt < / 2 ->
  Vec3.length (Projectiles.m_vel
                 (Projectiles.update dt (Some target) turnRate m))
  = Vec3.length (Projectiles.m_vel m).
Proof.
  intros Ha Ht Hv Hsmall.
  destruct (Rle_dec (Vec3.length (Vec3.sub target (Projectiles.m_pos m))) 1e-6)
    as [Hle | Hgt].
  - now rewrite (update_near_target m dt turnRate Ha Ht target Hle).
  - assert (Hlen : 1e-6 < Vec3.length (Vec3.sub target (Projectiles.m_pos m)))
      by lra.
    pose proof (update_far_target m dt turnRate Ha Ht target Hlen) as E.
    cbv zeta in E. rewrite E. apply steer_speed.
    apply lerp_units_nonzero.
    + now apply normalize_unit.
    + apply length_unit_scaled. lra.
    + unfold MathUtil.clamp, Rmax, Rmin.
      destruct (Rle_dec 1 (turnRate * dt));
        destruct (Rle_dec 0 _); lra.
Qed.

(** C4, amended.  For an active missile whose ttl outlasts the step:
    with no target, or a target within 1e-6 of the missile, the velocity is
    unchanged (and with no target the missile advances along it); with a
    target farther than 1e-6 the new velocity is the old speed times the
    normalised blend of the old heading and the unit direction to the
    target, with weight [clamp(turnRate * dt, 0, 1)], and the speed is
    conserved whenever that blend is not the zero vector. *)
Theorem missile_update_spec (m : Projectiles.MissileShot) (dt turnRate : R)
    (targetPos : option Vec3.t) :
  Projectiles.m_active m = true ->
  0 < Projectiles.m_ttl m - dt ->
  let m' := Projectiles.update dt targetPos turnRate m in
  match targetPos with
  | None =>
      Projectiles.m_vel m' = Projectiles.m_vel m
      /\ Projectiles.m_pos m'
         = Vec3.addScaledVector (Projectiles.m_pos m) (Projectiles.m_vel m) dt
  | Some target =>
      let desired := Vec3.sub target (Projectiles.m_pos m) in
      let desiredDir :=
        Vec3.multiplyScalar desired (1 / Vec3.length desired) in
      let t := MathUtil.clamp (turnRate * dt) 0 1 in
      let blend :=
        Vec3.lerp (Vec3.normalize (Projectiles.m_vel m)) desiredDir t in
      (Vec3.length desired <= 1e-6 ->
         Projectiles.m_vel m' = Projectiles.m_vel m)
      /\ (1e-6 < Vec3.length desired ->
          Projectiles.m_vel m'
          = Vec3.multiplyScalar (Vec3.normalize blend)
              (Vec3.length (Projectiles.m_vel m))
          /\ (Vec3.length blend <> 0 ->
              Vec3.length (Projectiles.m_vel m')
              = Vec3.length (Projectiles.m_vel m)))
  end.
Proof.
  intros Ha Ht. cbv zeta. destruct targetPos as [target |].
  - split.
    + now apply update_near_target.
    + intros Hlen.
      pose proof (update_far_target m dt turnRate Ha Ht target Hlen) as E.
      cbv zeta in E. split.
      * exact E.
      * intros Hb. rewrite E. now apply steer_speed.
  - destruct (update_no_target m dt turnRate Ha Ht) as [A [B _]]. now split.
Qed.

Lemma normalize_axis_z c :
  0 < c -> Vec3.normalize (Vec3.mk 0 0 c) = Vec3.mk 0 0 1.
Proof.
  intros Hc. unfold Vec3.normalize, Vec3.divideScalar.
  rewrite length_axis_z, (Rabs_right c) by lra.
  rewrite (proj2 (Reqb_false c 0)) by lra.
  unfold Vec3.multiplyScalar; simpl. f_equal; field; lra.
Qed.

Lemma normalize_axis_x c :
  0 < c -> Vec3.normalize (Vec3.mk c 0 0) = Vec3.mk 1 0 0.
Proof.
  intros Hc. unfold Vec3.normalize, Vec3.divideScalar.
  rewrite length_axis_x, (Rabs_right c) by lra.
  rewrite (proj2 (Reqb_false c 0)) by lra.
  unfold Vec3.multiplyScalar; simpl. f_equal; field; lra.
Qed.

Lemma sub_zero v : Vec3.sub v Vec3.zero = v.
Proof. destruct v; unfold Vec3.sub, Vec3.zero; simpl. f_equal; ring. Qed.

(** C4, as stated, fails at two inputs.  A target at distance 5e-7, which
    is positive, is ignored: the missile keeps flying along z although the
    stated heading leans towards the target.  A target straight behind the
    missile with [turnRate * dt = 1/2] blends the heading to the zero
    vector and the missile loses its speed. *)
Lemma missile_update_counterexample :
  let m :=
    {| Projectiles.m_active := true; Projectiles.m_ttl := 3.2;
       Projectiles.m_pos := Vec3.zero;
       Projectiles.m_vel := Vec3.mk 0 0 26 |} in
  let near := Vec3.mk 5e-7 0 0 in
  let behind := Vec3.mk 0 0 (-10) in
  (0 < Vec3.length (Vec3.sub near (Projectiles.m_pos m))
   /\ Projectiles.m_vel (Projectiles.update 0.05 (Some near) 4.2 m)
      = Vec3.mk 0 0 26
   /\ 0 < Vec3.x (Projectiles.steer (Projectiles.m_vel m)
                    (Vec3.normalize (Vec3.sub near (Projectiles.m_pos m)))
                    (MathUtil.clamp (4.2 * 0.05) 0 1)))
  /\ (0 < Vec3.length (Vec3.sub behind (Projectiles.m_pos m))
      /\ Vec3.length (Projectiles.m_vel m) = 26
      /\ Vec3.length
           (Projectiles.m_vel (Projectiles.update (/ 2) (Some behind) 1 m))
         = 0).
Proof.
  cbv zeta.
  set (m := {| Projectiles.m_active := true; Projectiles.m_ttl := 3.2;
               Projectiles.m_pos := Vec3.zero;
               Projectiles.m_vel := Vec3.mk 0 0 26 |}).
  assert (Ha : Projectiles.m_active m = true) by reflexivity.
  split.
  - assert (Hlen : Vec3.length (Vec3.sub (Vec3.mk 5e-7 0 0) (Projectiles.m_pos m))
                   = 5e-7).
    { simpl. rewrite sub_zero, length_axis_x. apply Rabs_right; lra. }
    split; [rewrite Hlen; lra |]. split.
    + apply update_near_target; [exact Ha | simpl; lra | rewrite Hlen; lra].
    + simpl Projectiles.m_vel. simpl Projectiles.m_pos.
      rewrite sub_zero, (normalize_axis_x 5e-7) by lra.
      unfold Projectiles.steer. rewrite (normalize_axis_z 26) by lra.
      rewrite (clamp_id (4.2 * 0.05) 0 1) by lra.
      unfold Vec3.normalize, Vec3.divideScalar, Vec3.multiplyScalar.
      cbn [Vec3.x].
      set (b := Vec3.lerp (Vec3.mk 0 0 1) (Vec3.mk 1 0 0) (4.2 * 0.05)).
      assert (Hb : 0 < Vec3.x b) by (unfold b; simpl; lra).
      pose proof (length_nonneg b) as Hn.
      apply Rmult_lt_0_compat; [exact Hb |].
      unfold Reqb. destruct (Req_dec_T (Vec3.length b) 0); [lra |].
      apply Rdiv_lt_0_compat; lra.
  - assert (Hlen : Vec3.length (Vec3.sub (Vec3.mk 0 0 (-10)) (Projectiles.m_pos m))
                   = 10).
    { simpl. rewrite sub_zero, length_axis_z. rewrite Rabs_left; lra. }
    split; [rewrite Hlen; lra |]. split.
    + simpl. rewrite length_axis_z. apply Rabs_right; lra.
    + assert (Ht : 0 < Projectiles.m_ttl m - / 2) by (simpl; lra).
      assert (Hfar : 1e-6 < Vec3.length
                       (Vec3.sub (Vec3.mk 0 0 (-10)) (Projectiles.m_pos m)))
        by (rewrite Hlen; lra).
      pose proof (update_far_target m (/ 2) 1 Ha Ht _ Hfar) as E.
      cbv zeta in E. rewrite E. clear E.
      rewrite length_multiplyScalar. rewrite Hlen.
      simpl Projectiles.m_vel. simpl Projectiles.m_pos. rewrite sub_zero.
      unfold Projectiles.steer. rewrite (normalize_axis_z 26) by lra.
      rewrite (clamp_id (1 * / 2) 0 1) by lra.
      set (b := Vec3.lerp (Vec3.mk 0 0 1)
                  (Vec3.multiplyScalar (Vec3.mk 0 0 (-10)) (1 / 10)) (1 * / 2)).
      assert (Hb : Vec3.length b = 0).
      { apply length_zero_iff. unfold b; simpl. repeat split; lra. }
      rewrite (normalize_zero b Hb), length_multiplyScalar, Hb. ring.
Qed.

Lemma missile_update_spec_witness :
  let m :=
    {| Projectiles.m_active := true; Projectiles.m_ttl := 3.2;
       Projectiles.m_pos := Vec3.zero;
       Projectiles.m_vel := Vec3.mk 0 0 26 |} in
  let target := Vec3.mk 4 0 100 in
  Vec3.length (Projectiles.m_vel
                 (Projectiles.update 0.05 (Some target) 4.2 m))
  = Vec3.length (Projectiles.m_vel m).
Proof.
  cbv zeta.
  set (m := {| Projectiles.m_active := true; Projectiles.m_ttl := 3.2;
               Projectiles.m_pos := Vec3.zero;
               Projectiles.m_vel := Vec3.mk 0 0 26 |}).
  assert (Ha : Projectiles.m_active m = true) by reflexivity.
  assert (Ht : 0 < Projectiles.m_ttl m - 0.05) by (simpl; lra).
  pose proof (missile_update_spec m 0.05 4.2 (Some (Vec3.mk 4 0 100)) Ha Ht)
    as S.
  cbv zeta in S. destruct S as [_ Sfar].
  assert (Hlen : 1e-6 < Vec3.length
                   (Vec3.sub (Vec3.mk 4 0 100) (Projectiles.m_pos m))).
  { simpl Projectiles.m_pos. rewrite sub_zero.
    apply Rlt_le_trans with (Vec3.length (Vec3.mk 0 0 100)).
    - rewrite length_axis_z, Rabs_right; lra.
    - unfold Vec3.length; simpl. apply sqrt_le_1_alt. lra. }
  destruct (Sfar Hlen) as [_ Hc]. apply Hc.
  apply lerp_units_nonzero.
  - apply normalize_unit. simpl. rewrite length_axis_z, Rabs_right; lra.
  - apply length_unit_scaled. lra.
  - rewrite clamp_id; lra.
Defined.

(** ** Game.ts: the gun block *)

Lemma gunBlock_cases input nowMs items g :
  let r := Game.gunBlock input nowMs items g in
  Game.running (fst r) = Game.running g
  /\ (Game.lasers g <> None -> Game.lasers (fst r) <> None)
  /\ Game.gunStep (Game.gunBurstRemaining g) (Game.gunBurstNextMs g) nowMs
       (fst r) (snd r).
Proof.
  cbv zeta. unfold Game.gunBlock.
  destruct ((0 <? Game.gunBurstRemaining g)%Z) eqn:Erem;
    destruct (Rgeb nowMs (Game.gunBurstNextMs g)) eqn:Edue; cbn [andb].
  - destruct (Game.spawnLaser (Game.pos g) items) as [items' ok].
    destruct ok; simpl.
    + apply Z.ltb_lt in Erem. apply Rgeb_true in Edue.
      repeat split; try assumption; discriminate.
    + repeat split; discriminate.
  - destruct (Input.fireGuns input && _).
    + destruct (Game.spawnLaser (Game.pos g) items) as [items' ok].
      destruct ok; simpl; repeat split; discriminate.
    + simpl; repeat split. tauto.
  - destruct (Input.fireGuns input && _).
    + destruct (Game.spawnLaser (Game.pos g) items) as [items' ok].
      destruct ok; simpl; repeat split; discriminate.
    + simpl; repeat split. tauto.
  - destruct (Input.fireGuns input && _).
    + destruct (Game.spawnLaser (Game.pos g) items) as [items' ok].
      destruct ok; simpl; repeat split; discriminate.
    + simpl; repeat split. tauto.
Qed.

Lemma Zfloor_burst_count : Z.max 1 (Zfloor Game.GUN_BURST_COUNT) = 5%Z.
Proof. unfold Game.GUN_BURST_COUNT. now rewrite ZfloorZ. Qed.

Lemma fireMissile_keeps g :
  Game.running (Game.fireMissile g) = Game.running g
  /\ Game.lasers (Game.fireMissile g) = Game.lasers g
  /\ Game.gunBurstRemaining (Game.fireMissile g) = Game.gunBurstRemaining g
  /\ Game.gunBurstNextMs (Game.fireMissile g) = Game.gunBurstNextMs g.
Proof.
  unfold Game.fireMissile.
  destruct (Game.running g) eqn:Er; cbn [negb]; [| rewrite Er; tauto].
  destruct (Game.spawnFirst _ _ _); simpl; rewrite ?Er; tauto.
Qed.

Lemma spawnFirst_free {A : Type} (free : A -> bool) (f : A -> A) (xs : list A) :
  (forall x, free (f x) = false) ->
  (0 < List.length (filter free xs))%nat ->
  exists xs', Game.spawnFirst free f xs = Some xs'
              /\ S (List.length (filter free xs')) = List.length (filter free xs).
Proof.
  intros Hf. induction xs as [| x rest IH]; simpl; [lia |].
  destruct (free x) eqn:Ex; simpl.
  - intros _. exists (f x :: rest). split; [reflexivity |].
    simpl. now rewrite Hf.
  - intros H. destruct (IH H) as [rest' [E1 E2]]. rewrite E1.
    exists (x :: rest'). split; [reflexivity |]. simpl. now rewrite Ex.
Qed.

Lemma spawnLaser_free playerPos items :
  (0 < Game.freeSlots items)%nat ->
  snd (Game.spawnLaser playerPos items) = true
  /\ S (Game.freeSlots (fst (Game.spawnLaser playerPos items)))
     = Game.freeSlots items.
Proof.
  intros H. unfold Game.spawnLaser, Game.freeSlots in *.
  match goal with
  | |- context [Game.spawnFirst Game.laserFree ?f items] =>
      destruct (spawnFirst_free Game.laserFree f items) as [xs' [E1 E2]];
      [reflexivity | exact H |]
  end.
  rewrite E1. simpl. split; [reflexivity | exact E2].
Qed.

(** With at least as many inactive slots as pending shots and the fire key
    not held, the gun block drops nothing and keeps it so. *)
Lemma gunBlock_enough_slots input nowMs items g :
  Input.fireGuns input = false ->
  (Game.gunBurstRemaining g <= Z.of_nat (Game.freeSlots items))%Z ->
  let r := Game.gunBlock input nowMs items g in
  snd r <> Game.BurstDropped
  /\ (Game.lasers g = Some items ->
      exists items',
        Game.lasers (fst r) = Some items'
        /\ (Game.gunBurstRemaining (fst r)
            <= Z.of_nat (Game.freeSlots items'))%Z).
Proof.
  intros Hh Hle. cbv zeta. unfold Game.gunBlock. rewrite Hh.
  destruct ((0 <? Game.gunBurstRemaining g)%Z) eqn:Erem;
    destruct (Rgeb nowMs (Game.gunBurstNextMs g)) eqn:Edue; cbn [andb].
  - apply Z.ltb_lt in Erem.
    assert (Hfree : (0 < Game.freeSlots items)%nat) by lia.
    destruct (spawnLaser_free (Game.pos g) items Hfree) as [Hok Hs].
    destruct (Game.spawnLaser (Game.pos g) items) as [items' ok].
    cbn [fst snd] in Hok, Hs. subst ok. cbn [fst snd].
    split; [discriminate |]. intros _. exists items'.
    cbn [Game.lasers Game.gunBurstRemaining Game.with_guns].
    split; [reflexivity | lia].
  - cbn [fst snd]. split; [discriminate |]. intros Hl. now exists items.
  - cbn [fst snd]. split; [discriminate |]. intros Hl. now exists items.
  - cbn [fst snd]. split; [discriminate |]. intros Hl. now exists items.
Qed.

(** One frame's fire control, in a running session with its pools. *)
Lemma fireControl_cases input nowMs queueNow g :
  Game.running g = true ->
  Game.lasers g <> None ->
  let r := Game.fireControl input nowMs queueNow g in
  let p := Game.pendingAfterRequest input queueNow g in
  Game.running (fst r) = true
  /\ Game.lasers (fst r) <> None
  /\ Game.gunStep (fst p) (snd p) nowMs (fst r) (snd r).
Proof.
  intros Hrun Hl. cbv zeta. unfold Game.fireControl.
  destruct (Game.lasers g) as [items0 |] eqn:El; [| contradiction].
  rewrite Hrun. cbn [negb].
  set (g1 := if Input.fireMissile input then Game.fireMissile g else g).
  assert (H1 : Game.running g1 = true /\ Game.lasers g1 = Some items0
               /\ Game.gunBurstRemaining g1 = Game.gunBurstRemaining g
               /\ Game.gunBurstNextMs g1 = Game.gunBurstNextMs g).
  { unfold g1. destruct (Input.fireMissile input); [| tauto].
    destruct (fireMissile_keeps g) as [A [B [C D]]].
    rewrite A, B, C, D. tauto. }
  set (g2 := match Input.flip input with
             | Some f => Game.triggerFlip (Input.axis f) (Input.dir f) g1
             | None => g1
             end).
  assert (H2 : Game.running g2 = true /\ Game.lasers g2 = Some items0
               /\ Game.gunBurstRemaining g2 = Game.gunBurstRemaining g
               /\ Game.gunBurstNextMs g2 = Game.gunBurstNextMs g).
  { unfold g2. destruct (Input.flip input); [simpl |]; exact H1. }
  clearbody g2. clear g1 H1. destruct H2 as [R2 [L2 [P2 N2]]].
  unfold Game.pendingAfterRequest.
  destruct (Input.fireGunsBurst input).
  - unfold Game.queueGunBurst. rewrite R2. cbn [negb].
    rewrite Zfloor_burst_count. cbn [Game.lasers Game.with_guns].
    rewrite L2, P2, N2.
    match goal with
    | |- context [Game.gunBlock input nowMs items0 ?g3] =>
        pose proof (gunBlock_cases input nowMs items0 g3) as H
    end.
    cbv zeta in H. destruct H as [A [B C]].
    cbn [Game.running Game.lasers Game.gunBurstRemaining Game.gunBurstNextMs
         Game.with_guns] in A, B, C.
    cbn [fst snd].
    split; [now rewrite A |]. split; [apply B; discriminate |].
    exact C.
  - rewrite L2.
    pose proof (gunBlock_cases input nowMs items0 g2) as H.
    cbv zeta in H. destruct H as [A [B C]].
    rewrite P2, N2 in C. cbn [fst snd].
    split; [now rewrite A |]. split; [apply B; rewrite L2; discriminate |].
    exact C.
Qed.

Lemma fireControl_enough_slots input nowMs queueNow g items :
  Game.running g = true ->
  Game.lasers g = Some items ->
  Input.fireGuns input = false ->
  (fst (Game.pendingAfterRequest input queueNow g)
   <= Z.of_nat (Game.freeSlots items))%Z ->
  let r := Game.fireControl input nowMs queueNow g in
  snd r <> Game.BurstDropped
  /\ exists items',
       Game.lasers (fst r) = Some items'
       /\ (Game.gunBurstRemaining (fst r)
           <= Z.of_nat (Game.freeSlots items'))%Z.
Proof.
  intros Hrun El Hh Hle. cbv zeta. unfold Game.fireControl.
  rewrite El, Hrun. cbn [negb].
  set (g1 := if Input.fireMissile input then Game.fireMissile g else g).
  assert (H1 : Game.running g1 = true /\ Game.lasers g1 = Some items
               /\ Game.gunBurstRemaining g1 = Game.gunBurstRemaining g
               /\ Game.gunBurstNextMs g1 = Game.gunBurstNextMs g).
  { unfold g1. destruct (Input.fireMissile input); [| tauto].
    destruct (fireMissile_keeps g) as [A [B [C D]]].
    rewrite A, B, C, D. tauto. }
  set (g2 := match Input.flip input with
             | Some f => Game.triggerFlip (Input.axis f) (Input.dir f) g1
             | None => g1
             end).
  assert (H2 : Game.running g2 = true /\ Game.lasers g2 = Some items
               /\ Game.gunBurstRemaining g2 = Game.gunBurstRemaining g
               /\ Game.gunBurstNextMs g2 = Game.gunBurstNextMs g).
  { unfold g2. destruct (Input.flip input); [simpl |]; exact H1. }
  clearbody g2. clear g1 H1. destruct H2 as [R2 [L2 [P2 N2]]].
  unfold Game.pendingAfterRequest in Hle.
  destruct (Input.fireGunsBurst input); cbn [fst] in Hle.
  - unfold Game.queueGunBurst. rewrite R2. cbn [negb].
    rewrite Zfloor_burst_count. cbn [Game.lasers Game.with_guns].
    rewrite L2, P2.
    match goal with
    | |- context [Game.gunBlock input nowMs items ?g3] =>
        pose proof (gunBlock_enough_slots input nowMs items g3 Hh) as H
    end.
    cbn [Game.gunBurstRemaining Game.lasers Game.with_guns] in H.
    destruct (H Hle) as [A B]. split; [exact A | exact (B eq_refl)].
  - rewrite L2.
    assert (Hle2 : (Game.gunBurstRemaining g2
                    <= Z.of_nat (Game.freeSlots items))%Z)
      by (rewrite P2; exact Hle).
    destruct (gunBlock_enough_slots input nowMs items g2 Hh Hle2) as [A B].
    split; [exact A | exact (B L2)].
Qed.

(** ** Game.reset and the obstacles of the world *)

Lemma forEachM_head {A : Type} (f : A -> Rand A) (a : A) (rest : list A) s n :
  exists rest', fst (forEachM f (a :: rest) s n) = fst (f a s n) :: rest'.
Proof.
  cbn [forEachM]. unfold bind at 1. destruct (f a s n) as [a' n1].
  unfold bind at 1. destruct (forEachM f rest s n1) as [rest' n2].
  exists rest'. reflexivity.
Qed.

(** A lane position outside the safe lane in x is accepted at the first
    attempt: two draws are used. *)
Lemma randomLanePos_accept rangeX rangeY s n :
  World.SAFE_LANE_X < Rabs (- rangeX + s n * (rangeX - - rangeX)) ->
  World.randomLanePos rangeX rangeY s n
  = ((- rangeX + s n * (rangeX - - rangeX),
      - rangeY + s (S n) * (rangeY - - rangeY)), S (S n)).
Proof.
  intros H. apply Rgtb_true in H.
  unfold World.randomLanePos. cbn [World.randomLanePos_loop].
  cbv beta iota zeta delta [bind ret Math_random MathUtil.randRange].
  rewrite H. reflexivity.
Qed.

(** When the first draw is 0 the lane position is accepted at once, and the
    new scale of the asteroid is read from the fourth draw. *)
Lemma o_resetAsteroid_scale a s n :
  s n = 0 ->
  let a' := fst (World.o_resetAsteroid a s n) in
  World.a_scale a' = 0.45 + s (S (S (S n))) * (1.45 - 0.45)
  /\ World.a_radius a' = (0.45 + s (S (S (S n))) * (1.45 - 0.45)) * 0.82.
Proof.
  intros Hs. cbv zeta.
  assert (E : World.randomLanePos World.ASTEROID_FIELD_X
                World.ASTEROID_FIELD_Y s n
              = ((- World.ASTEROID_FIELD_X
                  + s n * (World.ASTEROID_FIELD_X - - World.ASTEROID_FIELD_X),
                  - World.ASTEROID_FIELD_Y
                  + s (S n) * (World.ASTEROID_FIELD_Y - - World.ASTEROID_FIELD_Y)),
                 S (S n))).
  { apply randomLanePos_accept. rewrite Hs.
    unfold World.ASTEROID_FIELD_X, World.SAFE_LANE_X.
    rewrite Rabs_left; lra. }
  unfold World.o_resetAsteroid. cbv beta delta [bind]. rewrite E.
  cbv beta iota zeta delta [ret Math_random MathUtil.randRange
                            World.randomEuler World.randomSpin fst snd
                            World.a_scale World.a_radius].
  split; reflexivity.
Qed.

Lemma createEnemiesForLevel_world g s n :
  Game.world (fst (Game.createEnemiesForLevel g s n)) = Game.world g.
Proof.
  unfold Game.createEnemiesForLevel.
  destruct (Game.hasScene g); cbn [negb]; [| reflexivity].
  destruct (Game.world g) as [w |] eqn:Ew; [| simpl; congruence].
  destruct (_ <=? 0)%Z; [simpl; congruence |].
  unfold bind. destruct (Game.createEnemies_loop _ _ _ s n).
  simpl; congruence.
Qed.

Lemma reset_world reason g w s n :
  Game.world g = Some w ->
  Game.world (fst (Game.reset reason g s n))
  = Some (fst (World.reset Vec3.zero w s n)).
Proof.
  intros Hw. unfold Game.reset, bind. rewrite Hw.
  destruct (World.reset Vec3.zero w s n) as [w' n1]. cbn [ret fst].
  destruct (forEachM _ (Game.enemies g) s n1). reflexivity.
Qed.

(** The world [setLevel] leaves behind: the one it created, reset once
    more by [reset]. *)
Lemma setLevel_world levelId next g s n :
  Game.hasScene g = true ->
  Levels.getLevelConfig levelId = Some next ->
  exists g' n' n2,
    Game.setLevel levelId g s n = (Some g', n')
    /\ Game.world g'
       = Some (fst (World.reset Vec3.zero
                      (fst (World.create
                              (World.createWorld next (Game.isIOS g)) s n))
                      s n2)).
Proof.
  intros Hs Hl. unfold Game.setLevel. rewrite Hs, Hl. cbn [negb].
  unfold bind at 1.
  destruct (World.create _ s n) as [w n1]. cbn [fst].
  unfold bind at 1.
  pose proof (createEnemiesForLevel_world
                (Game.with_level_world
                   (Game.disposeEnemies (Game.with_level_world g next None))
                   next (Some w)) s n1) as Hc.
  destruct (Game.createEnemiesForLevel _ s n1) as [g2 n2].
  cbn [fst Game.world Game.with_level_world] in Hc.
  unfold bind at 1.
  pose proof (reset_world Game.ReasonReset g2 w s n2 Hc) as Hr.
  destruct (Game.reset Game.ReasonReset g2 s n2) as [g3 n3].
  exists g3, n3, n2. split; [reflexivity | exact Hr].
Qed.

Lemma arrayFromM_length {A : Type} (mk : Rand A) k s n :
  List.length (fst (arrayFromM k mk s n)) = k.
Proof.
  revert n; induction k as [| k IH]; intros n; simpl; [reflexivity |].
  unfold bind at 1. destruct (mk s n) as [x n1].
  unfold bind at 1. specialize (IH n1).
  destruct (arrayFromM k mk s n1) as [xs n2]; simpl in *. now rewrite IH.
Qed.

Lemma Math_round_Z z : Math_round (IZR z) = z.
Proof. unfold Math_round. apply Zfloor_eq. lra. Qed.

Lemma computeAsteroidCount_level8 :
  World.computeAsteroidCount Levels.level8 = 60%Z.
Proof.
  unfold World.computeAsteroidCount. cbn [Levels.asteroidCount Levels.level8].
  now rewrite Math_round_Z.
Qed.

(** The orbit world of level 8 comes out of [create()] through [reset],
    from a world with 60 asteroids. *)
Lemma o_create_level8 isIOS s n :
  exists o n',
    fst (World.o_create (World.o_new Levels.level8 isIOS) s n)
    = fst (World.o_reset o s n')
    /\ World.poolSize (World.o_asteroids o) = Some (60%nat, 60%Z).
Proof.
  unfold World.o_create.
  cbn [World.o_level World.o_new]. rewrite computeAsteroidCount_level8.
  cbn [Z.ltb Z.compare]. unfold bind at 1. unfold bind at 1.
  pose proof (arrayFromM_length World.o_makeAsteroid (Z.to_nat 60) s n) as Ha.
  destruct (arrayFromM (Z.to_nat 60) World.o_makeAsteroid s n) as [a0 n1].
  unfold bind at 1.
  pose proof (forEachM_length World.o_placeAsteroid a0 s n1) as Hb.
  destruct (forEachM World.o_placeAsteroid a0 s n1) as [a1 n2].
  cbn [ret fst snd] in *. unfold bind at 1.
  destruct (arrayFromM _ World.o_makePickup s n2) as [pks n3].
  eexists. exists n3. split; [reflexivity |].
  cbn [World.o_asteroids World.poolSize World.items World.count].
  rewrite Hb, Ha. reflexivity.
Qed.

(** [reset] on an orbit world with asteroids, when the first draw is 0:
    the first asteroid takes its scale from the fourth draw. *)
Lemma o_reset_firstObstacle o k c s n :
  World.poolSize (World.o_asteroids o) = Some (S k, c) ->
  s n = 0 ->
  World.firstObstacle (World.Orbit (fst (World.o_reset o s n)))
  = Some (0.45 + s (S (S (S n))) * (1.45 - 0.45),
          (0.45 + s (S (S (S n))) * (1.45 - 0.45)) * 0.82).
Proof.
  intros Hp Hs. unfold World.o_reset. unfold bind at 1.
  destruct (World.o_asteroids o) as [pool |] eqn:Ea; [| discriminate].
  cbn [World.poolSize] in Hp.
  destruct (World.items pool) as [| a rest] eqn:Ei; [discriminate |].
  cbn [World.forPool]. rewrite Ei. unfold bind at 1.
  destruct (forEachM_head World.o_resetAsteroid a rest s n) as [rest' E].
  destruct (forEachM World.o_resetAsteroid (a :: rest) s n) as [its n1].
  cbn [fst] in E. subst its. cbn [ret]. unfold bind at 1.
  destruct (World.forPool World.o_resetPickup (World.o_pickups o) s n1)
    as [pks n2].
  cbn [ret fst World.firstObstacle World.o_asteroids World.items].
  destruct (o_resetAsteroid_scale a s n Hs) as [E1 E2]. cbv zeta in E1, E2.
  now rewrite E1, E2.
Qed.

Lemma create_orbit o s n :
  fst (World.create (World.Orbit o) s n)
  = World.Orbit (fst (World.o_create o s n)).
Proof.
  unfold World.create, bind. destruct (World.o_create o s n). reflexivity.
Qed.

Lemma reset_orbit playerPos o s n :
  fst (World.reset playerPos (World.Orbit o) s n)
  = World.Orbit (fst (World.o_reset o s n)).
Proof.
  unfold World.reset, bind. destruct (World.o_reset o s n). reflexivity.
Qed.

Lemma o_reset_poolSize o s n :
  World.poolSize (World.o_asteroids (fst (World.o_reset o s n)))
  = World.poolSize (World.o_asteroids o).
Proof.
  pose proof (world_reset_geometry Vec3.zero (World.Orbit o) s n) as H.
  rewrite reset_orbit in H. unfold World.geometry in H.
  now injection H.
Qed.


(** * Further properties of the code *)

(** ** Rounding to binary64 *)

Lemma ln2_pos : 0 < ln 2.
Proof. pose proof ln_lt_2. lra. Qed.

Lemma ln_powerRZ_2 e : ln (powerRZ 2 e) = IZR e * ln 2.
Proof. rewrite powerRZ_Rpower by lra. apply ln_Rpower. Qed.

Lemma powerRZ_2_pos e : 0 < powerRZ 2 e.
Proof. rewrite powerRZ_Rpower by lra. apply exp_pos. Qed.

(** The binade of a number between two consecutive powers of 2. *)
Lemma binade_eq x e :
  powerRZ 2 e <= Rabs x < powerRZ 2 (e + 1) -> binade x = e.
Proof.
  intros [Hlo Hhi]. unfold binade. apply Zfloor_eq.
  pose proof ln2_pos as L2. pose proof (powerRZ_2_pos e) as Pe.
  assert (Hl : IZR e * ln 2 <= ln (Rabs x)).
  { rewrite <- ln_powerRZ_2. destruct Hlo as [Hlt | Heq].
    - left. apply ln_increasing; assumption.
    - right. now rewrite Heq. }
  assert (Hu : ln (Rabs x) < (IZR e + 1) * ln 2).
  { rewrite <- plus_IZR, <- ln_powerRZ_2. apply ln_increasing; lra. }
  split.
  - apply Rmult_le_reg_r with (ln 2); [exact L2 |].
    unfold Rdiv. rewrite Rmult_assoc, Rinv_l by lra. lra.
  - apply Rmult_lt_reg_r with (ln 2); [exact L2 |].
    unfold Rdiv. rewrite Rmult_assoc, Rinv_l by lra. lra.
Qed.

Lemma two_pow_53 : 2 ^ 53 = 9007199254740992.
Proof. rewrite pow_IZR. apply f_equal. reflexivity. Qed.

(** Below [2^53] the binade is at most 52. *)
Lemma binade_small x :
  x <> 0 -> Rabs x < 9007199254740992 -> (binade x <= 52)%Z.
Proof.
  intros Hx Hb. unfold binade.
  pose proof ln2_pos as L2.
  assert (Hpos : 0 < Rabs x) by now apply Rabs_pos_lt.
  assert (Hl : ln (Rabs x) < 53 * ln 2).
  { replace (53 * ln 2) with (ln (2 ^ 53)).
    - apply ln_increasing; [exact Hpos |]. now rewrite two_pow_53.
    - rewrite ln_pow by lra. simpl INR. lra. }
  assert (Hd : ln (Rabs x) / ln 2 < 53).
  { apply Rmult_lt_reg_r with (ln 2); [exact L2 |].
    unfold Rdiv. rewrite Rmult_assoc, Rinv_l by lra. lra. }
  pose proof (Zfloor_bound (ln (Rabs x) / ln 2)) as [Hf _].
  assert (IZR (Zfloor (ln (Rabs x) / ln 2)) < IZR 53) by lra.
  apply lt_IZR in H. lia.
Qed.

Lemma powerRZ_2_neg k :
  powerRZ 2 (- Z.of_nat k) = / IZR (2 ^ Z.of_nat k).
Proof. now rewrite powerRZ_neg', <- pow_powerRZ, pow_IZR. Qed.

(** Below [2^53] the spacing of the doubles is the inverse of a power of
    2: every integer is a multiple of it. *)
Lemma ulp_scale x :
  x <> 0 -> Rabs x < 9007199254740992 ->
  exists K : Z, (0 < K)%Z /\ ulp x = / IZR K.
Proof.
  intros Hx Hb. pose proof (binade_small x Hx Hb) as He.
  unfold ulp.
  set (m := (Z.max (binade x) (-1022) - 52)%Z).
  assert (Hm : (m <= 0)%Z) by (unfold m; lia).
  exists (2 ^ Z.of_nat (Z.to_nat (- m)))%Z. split.
  - apply Z.pow_pos_nonneg; lia.
  - rewrite <- powerRZ_2_neg. f_equal. lia.
Qed.

Lemma nearestEven_le y a : y <= IZR a -> (nearestEven y <= a)%Z.
Proof.
  intros Hy. unfold nearestEven.
  pose proof (Zfloor_bound y) as [Hf1 Hf2].
  assert (Hfa : (Zfloor y <= a)%Z) by (apply le_IZR; lra).
  destruct (Z.eq_dec (Zfloor y) a) as [E | N].
  - assert (Hd : y - IZR (Zfloor y) < / 2) by (rewrite E; lra).
    now rewrite (proj2 (Rltb_true _ _) Hd).
  - destruct (Rltb _ (/ 2)); [lia |].
    destruct (Rltb (/ 2) _); [lia |].
    destruct (Z.even _); lia.
Qed.

Lemma nearestEven_ge y a : IZR a <= y -> (a <= nearestEven y)%Z.
Proof.
  intros Hy. unfold nearestEven.
  pose proof (Zfloor_lub a y Hy) as Hf.
  destruct (Rltb _ (/ 2)); [lia |].
  destruct (Rltb (/ 2) _); [lia |].
  destruct (Z.even _); lia.
Qed.

Lemma binary64_0 : binary64 0 = 0.
Proof. unfold binary64. now rewrite (proj2 (Reqb_true 0 0)). Qed.

(** Rounding does not cross an integer: below [2^53] every integer is a
    double, and the nearest double to [x] lies on the same side of it as
    [x]. *)
Lemma binary64_barrier x a :
  Rabs x < 9007199254740992 ->
  (x <= IZR a -> binary64 x <= IZR a)
  /\ (IZR a <= x -> IZR a <= binary64 x).
Proof.
  intros Hb. destruct (Req_dec_T x 0) as [E | N].
  - subst x. rewrite binary64_0. tauto.
  - unfold binary64. rewrite (proj2 (Reqb_false _ _) N).
    destruct (ulp_scale x N Hb) as (K & HK & EK). rewrite EK.
    assert (HKr : 0 < IZR K) by now apply IZR_lt.
    unfold Rdiv. rewrite Rinv_inv.
    split; intros H.
    + assert (Hy : x * IZR K <= IZR (a * K))
        by (rewrite mult_IZR; apply Rmult_le_compat_r; lra).
      apply nearestEven_le, IZR_le in Hy. rewrite mult_IZR in Hy.
      apply Rmult_le_reg_r with (IZR K); [exact HKr |].
      rewrite Rmult_assoc, Rinv_l by lra. lra.
    + assert (Hy : IZR (a * K) <= x * IZR K)
        by (rewrite mult_IZR; apply Rmult_le_compat_r; lra).
      apply nearestEven_ge, IZR_le in Hy. rewrite mult_IZR in Hy.
      apply Rmult_le_reg_r with (IZR K); [exact HKr |].
      rewrite Rmult_assoc, Rinv_l by lra. lra.
Qed.

(** The integers below [2^53] are doubles. *)
Lemma binary64_int z :
  (Z.abs z < 9007199254740992)%Z -> binary64 (IZR z) = IZR z.
Proof.
  intros Hz.
  assert (Hb : Rabs (IZR z) < 9007199254740992)
    by (rewrite <- abs_IZR; now apply IZR_lt).
  destruct (binary64_barrier (IZR z) z Hb) as [H1 H2].
  apply Rle_antisym; [apply H1 | apply H2]; lra.
Qed.

(** The value of [binary64] at a number whose binade is known. *)
Lemma binary64_at x e k m :
  powerRZ 2 e <= Rabs x < powerRZ 2 (e + 1) ->
  (-1022 <= e)%Z -> (52 - e = Z.of_nat k)%Z ->
  nearestEven (x * IZR (2 ^ Z.of_nat k)) = m ->
  binary64 x = IZR m / IZR (2 ^ Z.of_nat k).
Proof.
  intros Hx He Hk Hm.
  assert (N : x <> 0).
  { intros E. subst x. rewrite Rabs_R0 in Hx.
    pose proof (powerRZ_2_pos e). lra. }
  unfold binary64. rewrite (proj2 (Reqb_false _ _) N).
  assert (Eu : ulp x = / IZR (2 ^ Z.of_nat k)).
  { unfold ulp. rewrite (binade_eq x e Hx), <- powerRZ_2_neg. f_equal. lia. }
  rewrite Eu. unfold Rdiv. rewrite Rinv_inv, Hm. reflexivity.
Qed.

Lemma nearestEven_up y f :
  IZR f + / 2 < y < IZR f + 1 -> nearestEven y = (f + 1)%Z.
Proof.
  intros Hy. unfold nearestEven.
  rewrite (Zfloor_eq f y) by lra.
  rewrite (proj2 (Rltb_false _ _)) by lra.
  now rewrite (proj2 (Rltb_true _ _)) by lra.
Qed.

Lemma nearestEven_tie_odd y f :
  y = IZR f + / 2 -> Z.even f = false -> nearestEven y = (f + 1)%Z.
Proof.
  intros Hy Hodd. unfold nearestEven.
  rewrite (Zfloor_eq f y) by lra.
  rewrite (proj2 (Rltb_false _ _)) by lra.
  rewrite (proj2 (Rltb_false _ _)) by lra.
  now rewrite Hodd.
Qed.

(** ** math.ts: smoothing and draws *)

(** X1.  [damp] moves [current] towards [target] and never past it: for a
    rate [lambda >= 0] the result lies between the two and is no farther
    from [target] than [current] was; it is strictly nearer when
    [lambda > 0], [dt > 0] and [current] differs from [target]; a frame
    time [dt <= 0] returns [current] itself. *)
Theorem damp_no_overshoot (current target lambda dt : R) :
  0 <= lambda ->
  Rmin current target <= MathUtil.damp current target lambda dt
    <= Rmax current target
  /\ Rabs (MathUtil.damp current target lambda dt - target)
     <= Rabs (current - target)
  /\ (0 < lambda -> 0 < dt -> current <> target ->
      Rabs (MathUtil.damp current target lambda dt - target)
      < Rabs (current - target))
  /\ (dt <= 0 -> MathUtil.damp current target lambda dt = current).
Proof.
  intros Hl. unfold MathUtil.damp.
  destruct (Rleb dt 0) eqn:E.
  - apply Rleb_true in E.
    repeat split.
    + apply Rmin_l.
    + apply Rmax_l.
    + lra.
    + intros _ Hdt; lra.
  - apply Rleb_false in E.
    assert (Hpos : 0 < exp (- lambda * dt)) by apply exp_pos.
    assert (Hr : 0 <= 1 - exp (- lambda * dt) < 1)
      by (apply smoothing_factor_range; lra).
    set (k := exp (- lambda * dt)) in *.
    assert (Eq : MathUtil.lerp current target (1 - k) - target
                 = (current - target) * k)
      by (unfold MathUtil.lerp; ring).
    assert (Hk : Rabs k = k) by (apply Rabs_pos_eq; lra).
    split; [| split; [| split]].
    + unfold MathUtil.lerp, Rmin, Rmax.
      destruct (Rle_dec current target); nra.
    + rewrite Eq, Rabs_mult, Hk.
      pose proof (Rabs_pos (current - target)). nra.
    + intros Hl' Hdt Hne.
      rewrite Eq, Rabs_mult, Hk.
      assert (Hlt : k < 1).
      { unfold k. rewrite <- exp_0. apply exp_increasing. nra. }
      assert (0 < Rabs (current - target)) by (apply Rabs_pos_lt; lra).
      nra.
    + intros Hdt; lra.
Qed.

Lemma damp_no_overshoot_witness :
  Rmin 2 10 <= MathUtil.damp 2 10 8 0.016 <= Rmax 2 10
  /\ Rabs (MathUtil.damp 2 10 8 0.016 - 10) <= Rabs (2 - 10)
  /\ (0 < 8 -> 0 < 0.016 -> 2 <> 10 ->
      Rabs (MathUtil.damp 2 10 8 0.016 - 10) < Rabs (2 - 10))
  /\ (0.016 <= 0 -> MathUtil.damp 2 10 8 0.016 = 2).
Proof. apply (damp_no_overshoot 2 10 8 0.016). lra. Defined.

(** What [randRange] returns for a draw [r]. *)
Lemma randRange_value lo hi s n :
  MathUtil.randRange lo hi s n = (lo + s n * (hi - lo), S n).
Proof. reflexivity. Qed.

Lemma randRange_bounds lo hi s n :
  0 <= s n < 1 -> lo <= hi ->
  lo <= fst (MathUtil.randRange lo hi s n) <= hi.
Proof. intros Hr Hle; rewrite randRange_value; simpl; nra. Qed.

Lemma randRange_strict lo hi s n :
  0 <= s n < 1 -> lo < hi ->
  lo <= fst (MathUtil.randRange lo hi s n) < hi.
Proof. intros Hr Hle; rewrite randRange_value; simpl; nra. Qed.

Lemma randInt_value lo hi s n :
  MathUtil.randInt lo hi s n
  = (Zfloor (binary64 (IZR lo + binary64 (s n * binary64
               (binary64 (IZR hi + 1) - IZR lo)))), S n).
Proof. reflexivity. Qed.

(** With the rounding, the result of [randInt] is an integer from [lo]
    to [hi + 1]. *)
Lemma randInt_between (lo hi : Z) (s : nat -> R) (n : nat) :
  (- 2251799813685248 <= lo)%Z -> (lo <= hi)%Z ->
  (hi <= 2251799813685248)%Z -> 0 <= s n < 1 ->
  (lo <= fst (MathUtil.randInt lo hi s n) <= hi + 1)%Z.
Proof.
  intros Hlo Hle Hhi Hr. rewrite randInt_value; cbn [fst].
  assert (Rlo : -2251799813685248 <= IZR lo) by now apply IZR_le.
  assert (Rle : IZR lo <= IZR hi) by now apply IZR_le.
  assert (Rhi : IZR hi <= 2251799813685248) by now apply IZR_le.
  replace (IZR hi + 1) with (IZR (hi + 1)) by (rewrite plus_IZR; reflexivity).
  rewrite (binary64_int (hi + 1)) by lia.
  replace (IZR (hi + 1) - IZR lo) with (IZR (hi + 1 - lo))
    by (rewrite minus_IZR; reflexivity).
  rewrite (binary64_int (hi + 1 - lo)) by lia.
  rewrite minus_IZR, plus_IZR.
  set (w := IZR hi + 1 - IZR lo).
  assert (Hw : 1 <= w <= 4503599627370497) by (unfold w; lra).
  set (p := s n * w).
  assert (Hp : 0 <= p <= w) by (unfold p; nra).
  assert (Hq : 0 <= binary64 p <= w).
  { assert (Hb : Rabs p < 9007199254740992)
      by (rewrite Rabs_pos_eq; lra).
    split.
    - apply (proj2 (binary64_barrier p 0 Hb)). lra.
    - replace w with (IZR (hi + 1 - lo))
        by (unfold w; rewrite minus_IZR, plus_IZR; reflexivity).
      apply (proj1 (binary64_barrier p (hi + 1 - lo) Hb)).
      rewrite minus_IZR, plus_IZR. fold w. lra. }
  set (q := binary64 p) in *.
  assert (Hb : Rabs (IZR lo + q) < 9007199254740992).
  { apply Rabs_def1; unfold w in *; lra. }
  split.
  - apply Zfloor_lub.
    apply (proj2 (binary64_barrier (IZR lo + q) lo Hb)). lra.
  - rewrite <- (ZfloorZ (hi + 1)). apply Zfloor_le.
    apply (proj1 (binary64_barrier (IZR lo + q) (hi + 1) Hb)).
    rewrite plus_IZR. unfold w in *. lra.
Qed.

(** The upper end [hi + 1] is reached: at the draw [1 - 2^-52] the
    product [5 - 5 * 2^-52] rounds to [5 - 2^-50], and the sum
    [11 - 2^-50], half way between two doubles, rounds to 11. *)
Lemma randInt_overshoot (s : nat -> R) (n : nat) :
  s n = 1 - / 2 ^ 52 -> fst (MathUtil.randInt 6 10 s n) = 11%Z.
Proof.
  intros Hs. rewrite randInt_value; cbn [fst]. rewrite Hs.
  replace (IZR 10 + 1) with (IZR 11) by lra.
  rewrite (binary64_int 11) by lia.
  replace (IZR 11 - IZR 6) with (IZR 5) by lra.
  rewrite (binary64_int 5) by lia.
  rewrite pow_IZR.
  change (2 ^ Z.of_nat 52)%Z with 4503599627370496%Z.
  assert (E1 : binary64 ((1 - / 4503599627370496) * 5)
               = 5 - / 1125899906842624).
  { rewrite (binary64_at _ 2 50 5629499534213119).
    - change (2 ^ Z.of_nat 50)%Z with 1125899906842624%Z. lra.
    - change (powerRZ 2 2) with (2 * (2 * 1)).
      change (powerRZ 2 (2 + 1)) with (2 * (2 * (2 * 1))).
      rewrite Rabs_pos_eq by lra. lra.
    - lia.
    - reflexivity.
    - change (2 ^ Z.of_nat 50)%Z with 1125899906842624%Z.
      apply (nearestEven_up _ 5629499534213118). lra. }
  rewrite E1.
  assert (E2 : binary64 (6 + (5 - / 1125899906842624)) = 11).
  { rewrite (binary64_at _ 3 49 6192449487634432).
    - change (2 ^ Z.of_nat 49)%Z with 562949953421312%Z. lra.
    - change (powerRZ 2 3) with (2 * (2 * (2 * 1))).
      change (powerRZ 2 (3 + 1)) with (2 * (2 * (2 * (2 * 1)))).
      rewrite Rabs_pos_eq by lra. lra.
    - lia.
    - reflexivity.
    - change (2 ^ Z.of_nat 49)%Z with 562949953421312%Z.
      apply (nearestEven_tie_odd _ 6192449487634431); [lra | reflexivity]. }
  rewrite E2. apply ZfloorZ.
Qed.

(** X2.  [randInt(lo, hi)] with integers [lo <= hi] (of magnitude at most
    [2^51]) takes exactly one draw of [Math.random()] and returns an
    integer from [lo] to [hi + 1]: the binary64 rounding of the sum lets
    the largest draws reach [hi + 1], one more than the inclusive maximum.
    [randInt(6, 10)] returns 11 at the draw [1 - 2^-52]. *)
Theorem randInt_range (lo hi : Z) (s : nat -> R) (n : nat) :
  (- 2251799813685248 <= lo)%Z -> (lo <= hi)%Z ->
  (hi <= 2251799813685248)%Z -> 0 <= s n < 1 ->
  (lo <= fst (MathUtil.randInt lo hi s n) <= hi + 1)%Z
  /\ snd (MathUtil.randInt lo hi s n) = S n
  /\ fst (MathUtil.randInt 6 10 (fun _ => 1 - / 2 ^ 52) 0%nat) = 11%Z.
Proof.
  intros Hlo Hle Hhi Hr. split; [now apply randInt_between |].
  split; [now rewrite randInt_value | now apply randInt_overshoot].
Qed.

Lemma randInt_range_witness :
  (0 <= fst (MathUtil.randInt 0 600 (fun _ => / 2) 0%nat) <= 600 + 1)%Z
  /\ snd (MathUtil.randInt 0 600 (fun _ => / 2) 0%nat) = 1%nat
  /\ fst (MathUtil.randInt 6 10 (fun _ => 1 - / 2 ^ 52) 0%nat) = 11%Z.
Proof.
  apply (randInt_range 0 600 (fun _ => / 2) 0%nat); [lia | lia | lia | lra].
Defined.

(** X3.  [pickOne] throws on an empty array before drawing anything; on a
    non-empty array it returns one of its elements (never [undefined]),
    for a draw of [Math.random()]. *)
Theorem pickOne_member {A : Type} (items : list A) (s : nat -> R) (n : nat) :
  0 <= s n < 1 ->
  (items = [] -> MathUtil.pickOne items s n = (None, n))
  /\ (items <> [] ->
      exists x, MathUtil.pickOne items s n = (Some (Some x), S n)
                /\ In x items).
Proof.
  intros Hr. split.
  - intros ->. reflexivity.
  - intros Hne. unfold MathUtil.pickOne.
    destruct items as [| a rest]; [contradiction |].
    set (items := a :: rest) in *.
    assert (Hlen : (0 < List.length items)%nat) by (simpl; lia).
    destruct (Nat.eqb (List.length items) 0) eqn:E;
      [apply Nat.eqb_eq in E; lia |].
    unfold bind, Math_random, ret.
    set (v := s n * INR (List.length items)).
    assert (Hpos : 0 < INR (List.length items)) by now apply lt_0_INR.
    assert (Hv : 0 <= v < INR (List.length items)) by (unfold v; nra).
    assert (H0 : (0 <= Zfloor v)%Z) by (apply Zfloor_lub; simpl; lra).
    assert (Hlt : (Z.to_nat (Zfloor v) < List.length items)%nat).
    { pose proof (Zfloor_bound v) as [Hb _].
      apply INR_lt. rewrite INR_IZR_INZ, Z2Nat.id by assumption. lra. }
    unfold nthZ. destruct (Zfloor v <? 0)%Z eqn:Eneg;
      [apply Z.ltb_lt in Eneg; lia |].
    destruct (nth_error items (Z.to_nat (Zfloor v))) as [x |] eqn:Ex.
    + exists x. split; [reflexivity |]. eapply nth_error_In; eassumption.
    + apply nth_error_None in Ex. lia.
Qed.

Lemma pickOne_member_witness :
  (([40; 90; 140] : list R) = [] ->
   MathUtil.pickOne [40; 90; 140] (fun _ => / 2) 0%nat = (None, 0%nat))
  /\ (([40; 90; 140] : list R) <> [] ->
      exists x, MathUtil.pickOne [40; 90; 140] (fun _ => / 2) 0%nat
                = (Some (Some x), 1%nat)
                /\ In x [40; 90; 140]).
Proof. apply (pickOne_member [40; 90; 140] (fun _ => / 2) 0%nat). lra. Defined.

(** ** levels.ts and LevelManager.ts: valid level ids *)

Section ValidLevelIds.

Import Levels.

Lemma LEVELS_ids l :
  In l LEVELS ->
  exists z, (1 <= z <= 10)%Z /\ id l = IZR z.
Proof.
  unfold LEVELS; simpl; intros H.
  repeat (destruct H as [H | H];
          [subst l; simpl; eexists; split; [| reflexivity]; lia |]).
  contradiction.
Qed.

Lemma LEVELS_has_id z :
  (1 <= z <= 10)%Z -> exists l, In l LEVELS /\ id l = IZR z.
Proof.
  intros Hz.
  assert (C : (z = 1 \/ z = 2 \/ z = 3 \/ z = 4 \/ z = 5 \/ z = 6 \/ z = 7
               \/ z = 8 \/ z = 9 \/ z = 10)%Z) by lia.
  exists (nth (Z.to_nat (z - 1)) LEVELS level8).
  decompose [or] C; subst z;
    (split; [unfold LEVELS; simpl; auto 15 | reflexivity]).
Qed.

Lemma isValidLevelId_spec levelId :
  isValidLevelId levelId = true
  <-> exists z, (1 <= z <= 10)%Z /\ levelId = Finite (IZR z).
Proof.
  unfold isValidLevelId.
  replace (INR (List.length LEVELS)) with 10
    by (unfold LEVELS; simpl; lra).
  split.
  - intros H. apply andb_prop in H as [H H3]. apply andb_prop in H as [H1 H2].
    destruct levelId as [r | | |]; simpl in *; try discriminate.
    apply Reqb_true in H1. apply Rgeb_true in H2. apply Rleb_true in H3.
    exists (Zfloor r). split; [| now rewrite <- H1].
    rewrite H1 in H2, H3.
    apply le_IZR in H2. apply le_IZR in H3. lia.
  - intros (z & Hz & ->). simpl.
    rewrite ZfloorZ.
    destruct Hz as [Hz1 Hz2]. apply IZR_le in Hz1. apply IZR_le in Hz2.
    rewrite (proj2 (Reqb_true _ _)) by reflexivity.
    rewrite (proj2 (Rgeb_true _ _)) by lra.
    rewrite (proj2 (Rleb_true _ _)) by lra.
    reflexivity.
Qed.

Lemma valid_id_found (levelId : JsNumber) :
  isValidLevelId levelId = true ->
  exists l, getLevelConfig levelId = Some l /\ In l LEVELS
            /\ Finite (id l) = levelId.
Proof.
  intros Hv.
  destruct (getLevelConfig_cases levelId) as [(l & Hg & Hin & Heq) | [Hg Hno]].
  - exists l. repeat split; try assumption.
    destruct levelId as [r | | |]; simpl in Heq; try discriminate.
    apply Reqb_true in Heq. now rewrite Heq.
  - exfalso.
    apply isValidLevelId_spec in Hv as (z & Hz & ->).
    destruct (LEVELS_has_id z Hz) as (l & Hin & Hid).
    specialize (Hno l Hin). simpl in Hno.
    apply Reqb_false in Hno. contradiction.
Qed.

Lemma invalid_id_falls_back (levelId : JsNumber) :
  isValidLevelId levelId = false -> getLevelConfig levelId = Some level8.
Proof.
  intros Hinv.
  destruct (getLevelConfig_cases levelId) as [(l & Hg & Hin & Heq) | [Hg Hno]];
    [| exact Hg].
  exfalso.
  assert (Hid : Finite (id l) = levelId).
  { destruct levelId as [r | | |]; simpl in Heq; try discriminate.
    apply Reqb_true in Heq. now rewrite Heq. }
  destruct (LEVELS_ids l Hin) as (z & Hz & Hzid).
  assert (isValidLevelId levelId = true)
    by (apply isValidLevelId_spec; exists z; split; [assumption |];
        now rewrite <- Hid, Hzid).
  congruence.
Qed.

(** X4.  Lookup by id: [getLevelConfig] returns the entry whose id is the
    argument exactly when [isValidLevelId] accepts the argument, and the
    entry of level 8 for every other argument (fractions, out-of-range
    numbers, NaN, the infinities). *)
Theorem getLevelConfig_valid_id (levelId : JsNumber) :
  (isValidLevelId levelId = true ->
     exists l, getLevelConfig levelId = Some l /\ In l LEVELS
               /\ Finite (id l) = levelId)
  /\ (isValidLevelId levelId = false ->
      getLevelConfig levelId = Some level8).
Proof.
  split; [apply valid_id_found | apply invalid_id_falls_back].
Qed.

End ValidLevelIds.

Section LevelManagerFacts.

Import Levels LevelManager.

Variable Item : Type.
Variable Number_of : option Item -> JsNumber.
Variable String_of : JsNumber -> Item.

Lemma default_is_valid :
  isValidLevelId (Finite (IZR DEFAULT_LEVEL_ID)) = true.
Proof. apply isValidLevelId_spec. exists 8%Z. split; [lia | reflexivity]. Qed.

Lemma load_valid (w : Window Item) (m : t) :
  isValidLevelId (defaultLevelId m) = true ->
  isValidLevelId (load Item Number_of w m) = true.
Proof.
  intros Hd. unfold load.
  destruct w as [st |]; [| assumption].
  destruct (getThrows st); [assumption |].
  destruct (isValidLevelId (Number_of (cells st (storageKey m)))) eqn:E;
    assumption.
Qed.

Lemma new_valid options (w : Window Item) :
  isValidLevelId (defaultLevelId (new Item Number_of options w)) = true
  /\ isValidLevelId (levelId (new Item Number_of options w)) = true.
Proof.
  assert (Hd : isValidLevelId
                 (defaultLevelId (new Item Number_of options w)) = true).
  { unfold new; cbn [defaultLevelId].
    destruct (opt_defaultLevelId options) as [n |];
      [| apply default_is_valid].
    destruct (isValidLevelId n) eqn:E; [assumption | apply default_is_valid]. }
  split; [exact Hd |].
  unfold new in *; cbn [levelId defaultLevelId] in *.
  apply load_valid. exact Hd.
Qed.

Lemma setLevelId_valid n (mw : t * Window Item) :
  isValidLevelId (defaultLevelId (fst mw)) = true ->
  isValidLevelId
    (defaultLevelId (fst (setLevelId Item String_of n mw))) = true
  /\ isValidLevelId (levelId (fst (setLevelId Item String_of n mw))) = true.
Proof.
  destruct mw as [m w]; simpl; intros Hd. split; [assumption |].
  destruct (isValidLevelId n) eqn:E; assumption.
Qed.

Lemma setLevelIds_valid ns (mw : t * Window Item) :
  isValidLevelId (defaultLevelId (fst mw)) = true ->
  isValidLevelId (levelId (fst mw)) = true ->
  isValidLevelId (levelId (fst (setLevelIds Item String_of ns mw))) = true.
Proof.
  revert mw; induction ns as [| n rest IH]; intros mw Hd Hl; simpl;
    [assumption |].
  destruct (setLevelId_valid n mw Hd) as [Hd' Hl'].
  apply IH; assumption.
Qed.

(** X5.  A LevelManager never holds an invalid level id: whatever the
    options, whatever [localStorage] contains (or throws, or with no
    window at all), and after any sequence of [setLevelId] calls with
    arbitrary numbers, [levelId] passes [isValidLevelId] and the [level]
    getter returns the table entry with exactly that id. *)
Theorem LevelManager_id_always_valid (options : LevelManagerOptions)
    (w : Window Item) (ns : list JsNumber) :
  let m := fst (setLevelIds Item String_of ns
                  (new Item Number_of options w, w)) in
  isValidLevelId (levelId m) = true
  /\ exists l, level m = Some l /\ In l LEVELS /\ Finite (id l) = levelId m.
Proof.
  intros m.
  assert (Hv : isValidLevelId (levelId m) = true).
  { unfold m. destruct (new_valid options w) as [Hd Hl].
    apply setLevelIds_valid; assumption. }
  split; [exact Hv |].
  unfold level. exact (valid_id_found (levelId m) Hv).
Qed.

Lemma load_after_persist k (st : Storage Item) (m m' : t) :
  getThrows st = false -> setThrows st = false ->
  storageKey m' = storageKey m ->
  isValidLevelId k = true ->
  Number_of (Some (String_of k)) = k ->
  load Item Number_of (persist Item String_of k (Some st) m) m' = k.
Proof.
  intros Hg Hs Hkey Hv Hrt. unfold persist, load.
  rewrite Hs. cbn [getThrows cells]. rewrite Hg, Hkey, String.eqb_refl.
  now rewrite Hrt, Hv.
Qed.

Lemma new_storageKey options (w : Window Item) :
  storageKey (new Item Number_of options w)
  = match opt_storageKey options with
    | Some k => k
    | None => DEFAULT_STORAGE_KEY
    end.
Proof. reflexivity. Qed.

(** X6.  The stored level survives a reload: when [localStorage] works
    and [Number(String(n)) = n] for the valid ids, a manager constructed
    on the same storage key after [setLevelId] starts at the level id the
    earlier manager ended with, whatever its own default. *)
Theorem LevelManager_reload (options options' : LevelManagerOptions)
    (st : Storage Item) (n : JsNumber) :
  (forall k, isValidLevelId k = true -> Number_of (Some (String_of k)) = k) ->
  getThrows st = false -> setThrows st = false ->
  opt_storageKey options' = opt_storageKey options ->
  let mw := setLevelId Item String_of n
              (new Item Number_of options (Some st), Some st) in
  levelId (new Item Number_of options' (snd mw)) = levelId (fst mw).
Proof.
  intros Hrt Hg Hs Hkey mw.
  destruct (new_valid options (Some st)) as [Hd Hl].
  destruct (setLevelId_valid n (new Item Number_of options (Some st), Some st) Hd)
    as [_ Hv].
  fold mw in Hv.
  set (m := new Item Number_of options (Some st)) in *.
  assert (Emw : mw = ({| storageKey := storageKey m;
                         defaultLevelId := defaultLevelId m;
                         levelId := levelId (fst mw) |},
                      persist Item String_of (levelId (fst mw)) (Some st) m))
    by reflexivity.
  rewrite Emw at 1. cbn [snd].
  unfold new at 1. cbn [levelId].
  apply load_after_persist; try assumption.
  - cbn [storageKey]. unfold m. rewrite new_storageKey, Hkey. reflexivity.
  - apply Hrt. exact Hv.
Qed.

End LevelManagerFacts.

Lemma LevelManager_reload_witness :
  let Number_of := fun o : option JsNumber =>
                     match o with Some k => k | None => Finite 0 end in
  let String_of := fun k : JsNumber => k in
  let options := {| LevelManager.opt_storageKey := None;
                    LevelManager.opt_defaultLevelId := Some (Finite 3) |} in
  let options' := {| LevelManager.opt_storageKey := None;
                     LevelManager.opt_defaultLevelId := None |} in
  let st := {| LevelManager.cells := fun _ : string => @None JsNumber;
               LevelManager.getThrows := false;
               LevelManager.setThrows := false |} in
  let mw := LevelManager.setLevelId JsNumber String_of (Finite 5)
              (LevelManager.new JsNumber Number_of options (Some st), Some st) in
  LevelManager.levelId (LevelManager.new JsNumber Number_of options' (snd mw))
  = LevelManager.levelId (fst mw).
Proof.
  intros Number_of String_of options options' st.
  apply (LevelManager_reload JsNumber Number_of String_of options options' st
           (Finite 5)); reflexivity.
Defined.

(** ** Enemy.ts: placement, approach and hit points *)

Section EnemyBehaviour.

Import Enemy.

Lemma spawn_position bounds playerY e s n :
  position (mesh (fst (spawn bounds playerY e s n)))
  = Vec3.mk (- xRange bounds + s n * (xRange bounds - - xRange bounds))
            (- yRange bounds + s (S n) * (yRange bounds - - yRange bounds)
             + playerY * 0.25)
            (zMin bounds + s (S (S n)) * (zMax bounds - zMin bounds))
  /\ snd (spawn bounds playerY e s n) = S (S (S n)).
Proof. split; reflexivity. Qed.

(** X7.  [Enemy.spawn] places the enemy inside its spawn bounds, alive and
    at full hit points, with exactly three draws: [x] within
    [-xRange, xRange], [y] within [yRange] of a quarter of the player's
    height, [z] in [zMin, zMax].  With the spawn bounds of either world the
    enemy starts ahead of the world's [behindZ], so it is not out of
    range. *)
Theorem spawn_within_bounds (bounds : EnemySpawnBounds) (playerY : R)
    (e : Enemy.t) (s : nat -> R) (n : nat) :
  (forall i, 0 <= s i < 1) ->
  0 <= xRange bounds -> 0 <= yRange bounds -> zMin bounds <= zMax bounds ->
  let e' := fst (spawn bounds playerY e s n) in
  let p := position (mesh e') in
  - xRange bounds <= Vec3.x p <= xRange bounds
  /\ - yRange bounds <= Vec3.y p - playerY * 0.25 <= yRange bounds
  /\ zMin bounds <= Vec3.z p <= zMax bounds
  /\ alive e' = true /\ hp e' = maxHp e'
  /\ snd (spawn bounds playerY e s n) = S (S (S n))
  /\ (forall w, bounds = World.enemySpawnBounds w ->
        isOutOfRange (World.behindZ w) e' = false).
Proof.
  intros Hs Hx Hy Hz e' p.
  destruct (spawn_position bounds playerY e s n) as [Hp Hn].
  destruct (spawn_fields bounds playerY e s n) as [Ha [Hh [Hm _]]].
  fold e' in Hp, Ha, Hh, Hm. unfold p. rewrite Hp. cbn [Vec3.x Vec3.y Vec3.z].
  pose proof (Hs n) as H0. pose proof (Hs (S n)) as H1.
  pose proof (Hs (S (S n))) as H2.
  assert (Hzr : zMin bounds
                <= zMin bounds + s (S (S n)) * (zMax bounds - zMin bounds)
                <= zMax bounds) by nra.
  repeat split; try nra; try assumption; try congruence.
  intros w Hw. unfold isOutOfRange. rewrite Hp. cbn [Vec3.z].
  apply Rltb_false.
  destruct Hzr as [Hzr _]. rewrite Hw in Hzr |- *.
  destruct w; cbn [World.enemySpawnBounds World.behindZ zMin zMax] in *; lra.
Qed.

Lemma spawn_within_bounds_witness :
  let bounds := {| xRange := 12; yRange := 7; zMin := 110; zMax := 190 |} in
  let e := new 1 Ship (Game.createEnemyMesh Ship) (Game.enemyCfgs Ship) in
  let e' := fst (spawn bounds 2 e (fun _ => / 2) 0%nat) in
  let p := position (mesh e') in
  - xRange bounds <= Vec3.x p <= xRange bounds
  /\ - yRange bounds <= Vec3.y p - 2 * 0.25 <= yRange bounds
  /\ zMin bounds <= Vec3.z p <= zMax bounds
  /\ alive e' = true /\ hp e' = maxHp e'
  /\ snd (spawn bounds 2 e (fun _ => / 2) 0%nat) = 3%nat
  /\ (forall w, bounds = World.enemySpawnBounds w ->
        isOutOfRange (World.behindZ w) e' = false).
Proof.
  intros bounds e.
  apply (spawn_within_bounds bounds 2 e (fun _ => / 2) 0%nat);
    unfold bounds; cbn [xRange yRange zMin zMax]; intros; lra.
Defined.

Lemma hits_S k amount e :
  hits (S k) amount e = hits k amount (takeDamage amount e).
Proof. reflexivity. Qed.

(** X8.  Hits to kill: [k] laser hits ([takeDamage(1)]) leave an enemy
    with [max(0, hp - k)] hit points, and it is alive exactly while
    [k < hp]; so an enemy at full health dies on hit number [maxHp] and
    further hits change nothing. *)
Theorem hits_to_kill (e : Enemy.t) (k : nat) :
  enemy_ok e ->
  hp (hits k 1 e) = Z.max 0 (hp e - Z.of_nat k)
  /\ alive (hits k 1 e) = (Z.of_nat k <? hp e)%Z
  /\ maxHp (hits k 1 e) = maxHp e.
Proof.
  revert e; induction k as [| k IH]; intros e Hok.
  - destruct Hok as [Hm [Hr Ha]]. cbn [hits].
    repeat split; [lia | rewrite Ha; reflexivity].
  - rewrite hits_S.
    pose proof (takeDamage_ok 1 e Hok) as Hok'.
    destruct (IH _ Hok') as [Hh [Ha Hx]]. rewrite Hh, Ha, Hx. clear IH Hh Ha Hx.
    destruct Hok as [Hm [Hr Hal]].
    destruct (alive e) eqn:Ea.
    + destruct (takeDamage_alive 1 e Ea) as [Hh [Hx _]].
      rewrite Hh, Hx. replace (Zfloor 1) with 1%Z by (symmetry; apply (ZfloorZ 1)).
      symmetry in Hal. apply Z.ltb_lt in Hal.
      unfold MathUtil.clampZ.
      repeat split; try lia.
      destruct (Z.ltb_spec (Z.of_nat k) (Z.max 0 (Z.min (maxHp e) (hp e - Z.max 1 1))));
        destruct (Z.ltb_spec (Z.of_nat (S k)) (hp e)); try reflexivity; lia.
    + rewrite takeDamage_dead by assumption.
      symmetry in Hal. apply Z.ltb_ge in Hal.
      repeat split; try lia.
      destruct (Z.ltb_spec (Z.of_nat k) (hp e));
        destruct (Z.ltb_spec (Z.of_nat (S k)) (hp e)); try reflexivity; lia.
Qed.

Lemma hits_to_kill_witness :
  let e := new 1 Ship (Game.createEnemyMesh Ship) (Game.enemyCfgs Ship) in
  hp (hits 3 1 e) = Z.max 0 (hp e - Z.of_nat 3)
  /\ alive (hits 3 1 e) = (Z.of_nat 3 <? hp e)%Z
  /\ maxHp (hits 3 1 e) = maxHp e.
Proof.
  intros e. apply (hits_to_kill e 3). apply new_ok.
Defined.

Lemma update_step (e : Enemy.t) (dt worldSpeed timeMs : R)
    (playerPos : Vec3.t) :
  alive e = true -> 0 <= dt -> 0 <= worldSpeed ->
  let p := position (mesh e) in
  let p' := position (mesh (update dt worldSpeed playerPos timeMs e)) in
  Vec3.z p' <= Vec3.z p - approachSpeed e * dt
  /\ Vec3.x p' - Vec3.x playerPos
     = (Vec3.x p - Vec3.x playerPos) * exp (- 0.8 * dt)
  /\ Vec3.y p' - Vec3.y playerPos
     = (Vec3.y p - Vec3.y playerPos) * exp (- 0.8 * dt)
  /\ Rabs (Vec3.x p' - Vec3.x playerPos) <= Rabs (Vec3.x p - Vec3.x playerPos)
  /\ Rabs (Vec3.y p' - Vec3.y playerPos) <= Rabs (Vec3.y p - Vec3.y playerPos).
Proof.
  intros Ha Hdt Hw p p'.
  unfold p', update. rewrite Ha. cbn [negb mesh position Vec3.x Vec3.y Vec3.z].
  fold p. unfold MathUtil.three_lerp.
  assert (Hk : 0 <= 1 - exp (- 0.8 * dt) < 1).
  { pose proof (smoothing_factor_range 0.8 dt) as H.
    replace (- 0.8 * dt) with (- (0.8) * dt) by lra. lra. }
  set (k := exp (- 0.8 * dt)) in *.
  assert (Ex : (1 - (1 - k)) * Vec3.x p + (1 - k) * Vec3.x playerPos
               - Vec3.x playerPos = (Vec3.x p - Vec3.x playerPos) * k) by ring.
  assert (Ey : (1 - (1 - k)) * Vec3.y p + (1 - k) * Vec3.y playerPos
               - Vec3.y playerPos = (Vec3.y p - Vec3.y playerPos) * k) by ring.
  assert (Hak : Rabs k = k) by (apply Rabs_pos_eq; lra).
  split; [nra |]. split; [exact Ex |]. split; [exact Ey |].
  rewrite Ex, Ey, !Rabs_mult, Hak.
  pose proof (Rabs_pos (Vec3.x p - Vec3.x playerPos)).
  pose proof (Rabs_pos (Vec3.y p - Vec3.y playerPos)).
  split; nra.
Qed.

(** The constructor sets [approachSpeed = Math.max(1, cfg.approachSpeed)],
    and no method writes it. *)
Lemma run_op_approachSpeed o e s n :
  approachSpeed (fst (run_op o e s n)) = approachSpeed e.
Proof.
  destruct o as [bounds playerY | dt ws pp tm | amount]; cbn [run_op].
  - unfold spawn. rewrite !bind_run, ret_run. reflexivity.
  - rewrite ret_run. cbn [fst]. unfold update.
    destruct (negb (alive e)); reflexivity.
  - rewrite ret_run. cbn [fst]. unfold takeDamage.
    destruct (negb (alive e)); reflexivity.
Qed.

Lemma run_ops_approachSpeed os :
  forall e s n, approachSpeed (fst (run_ops os e s n)) = approachSpeed e.
Proof.
  induction os as [| o rest IH]; intros e s n; cbn [run_ops].
  - reflexivity.
  - rewrite bind_run, IH. apply run_op_approachSpeed.
Qed.

Lemma constructed_approachSpeed id0 kind0 mesh0 cfg os s n :
  1 <= approachSpeed (fst (run_ops os (new id0 kind0 mesh0 cfg) s n)).
Proof.
  rewrite run_ops_approachSpeed. cbn [new approachSpeed]. apply Rmax_l.
Qed.

(** X9.  A living enemy always closes in.  For every enemy the class can
    produce (the constructor followed by any calls of [spawn], [update]
    and [takeDamage]), [approachSpeed] is at least 1, and one [update]
    with [dt >= 0] and a world speed [>= 0] moves it towards the player's
    plane by at least [approachSpeed * dt], so by at least [dt]; it steers
    it sideways towards the player without passing it: the offsets in [x]
    and [y] shrink by the factor [exp(-0.8 dt)]. *)
Theorem update_approaches (id0 : Z) (kind0 : EnemyKind) (mesh0 : Object3D)
    (cfg : EnemyConfig) (os : list op) (s : nat -> R) (n : nat)
    (dt worldSpeed timeMs : R) (playerPos : Vec3.t) :
  let e := fst (run_ops os (new id0 kind0 mesh0 cfg) s n) in
  alive e = true -> 0 <= dt -> 0 <= worldSpeed ->
  let p := position (mesh e) in
  let p' := position (mesh (update dt worldSpeed playerPos timeMs e)) in
  1 <= approachSpeed e
  /\ Vec3.z p' <= Vec3.z p - approachSpeed e * dt
  /\ Vec3.z p' <= Vec3.z p - dt
  /\ Vec3.x p' - Vec3.x playerPos
     = (Vec3.x p - Vec3.x playerPos) * exp (- 0.8 * dt)
  /\ Vec3.y p' - Vec3.y playerPos
     = (Vec3.y p - Vec3.y playerPos) * exp (- 0.8 * dt)
  /\ Rabs (Vec3.x p' - Vec3.x playerPos) <= Rabs (Vec3.x p - Vec3.x playerPos)
  /\ Rabs (Vec3.y p' - Vec3.y playerPos) <= Rabs (Vec3.y p - Vec3.y playerPos).
Proof.
  intros e Ha Hdt Hw p p'.
  pose proof (constructed_approachSpeed id0 kind0 mesh0 cfg os s n) as Hs.
  fold e in Hs.
  destruct (update_step e dt worldSpeed timeMs playerPos Ha Hdt Hw)
    as (Hz & Hx & Hy & Hax & Hay).
  fold p p' in Hz, Hx, Hy, Hax, Hay.
  split; [exact Hs |]. split; [exact Hz |].
  split; [nra |]. repeat split; assumption.
Qed.

Lemma update_approaches_witness :
  let bounds := {| xRange := 12; yRange := 7; zMin := 110; zMax := 190 |} in
  let e := fst (run_ops [OpSpawn bounds 0; OpTakeDamage 1]
                  (new 1 Ship (Game.createEnemyMesh Ship)
                     (Game.enemyCfgs Ship)) (fun _ => / 2) 0%nat) in
  let playerPos := Vec3.mk 3 (-2) 0 in
  let p := position (mesh e) in
  let p' := position (mesh (update 0.016 4 playerPos 1000 e)) in
  1 <= approachSpeed e
  /\ Vec3.z p' <= Vec3.z p - approachSpeed e * 0.016
  /\ Vec3.z p' <= Vec3.z p - 0.016
  /\ Vec3.x p' - Vec3.x playerPos
     = (Vec3.x p - Vec3.x playerPos) * exp (- 0.8 * 0.016)
  /\ Vec3.y p' - Vec3.y playerPos
     = (Vec3.y p - Vec3.y playerPos) * exp (- 0.8 * 0.016)
  /\ Rabs (Vec3.x p' - Vec3.x playerPos) <= Rabs (Vec3.x p - Vec3.x playerPos)
  /\ Rabs (Vec3.y p' - Vec3.y playerPos) <= Rabs (Vec3.y p - Vec3.y playerPos).
Proof.
  intros bounds e playerPos.
  apply (update_approaches 1 Ship (Game.createEnemyMesh Ship)
           (Game.enemyCfgs Ship) [OpSpawn bounds 0; OpTakeDamage 1]
           (fun _ => / 2) 0%nat 0.016 4 1000 playerPos); [| lra | lra].
  cbn [run_ops run_op]. rewrite !bind_run, !ret_run. cbn [fst].
  unfold spawn. rewrite !bind_run, ret_run. cbn [fst].
  unfold takeDamage. cbn [alive negb hp maxHp new Game.enemyCfgs cfg_hp].
  rewrite ZfloorZ, ZfloorZ. reflexivity.
Defined.

End EnemyBehaviour.

(** ** Projectiles.ts: the life of a laser shot *)

Section LaserLifetime.

Import Projectiles.

Lemma laserFlight_inactive dts s :
  l_active s = false -> laserFlight dts s = s.
Proof.
  revert s; induction dts as [| dt rest IH]; intros s Hs; [reflexivity |].
  cbn [laserFlight]. unfold laserUpdate. rewrite Hs. cbn [negb].
  apply IH; assumption.
Qed.

Lemma addScaledVector_add p v a b :
  Vec3.addScaledVector (Vec3.addScaledVector p v a) v b
  = Vec3.addScaledVector p v (a + b).
Proof. unfold Vec3.addScaledVector; simpl; f_equal; ring. Qed.

Lemma addScaledVector_0 p v : Vec3.addScaledVector p v 0 = p.
Proof. destruct p; unfold Vec3.addScaledVector; simpl; f_equal; ring. Qed.

Lemma elapsed_nonneg dts : Forall (fun dt => 0 <= dt) dts -> 0 <= elapsed dts.
Proof.
  induction 1 as [| dt rest Hd _ IH]; simpl; lra.
Qed.

Lemma laserFlight_active dts s :
  Forall (fun dt => 0 <= dt) dts -> l_active s = true ->
  (elapsed dts < l_ttl s ->
     l_active (laserFlight dts s) = true
     /\ l_ttl (laserFlight dts s) = l_ttl s - elapsed dts
     /\ l_pos (laserFlight dts s)
        = Vec3.addScaledVector (l_pos s) (l_vel s) (elapsed dts)
     /\ l_vel (laserFlight dts s) = l_vel s)
  /\ (l_ttl s <= elapsed dts -> dts <> [] ->
      l_active (laserFlight dts s) = false).
Proof.
  intros Hd; revert s; induction Hd as [| dt rest Hdt Hrest IH]; intros s Hs.
  - cbn [laserFlight elapsed]. split.
    + intros _. rewrite addScaledVector_0, Rminus_0_r. repeat split; assumption.
    + intros _ Hne; contradiction.
  - cbn [laserFlight elapsed].
    pose proof (elapsed_nonneg rest Hrest) as Hnn.
    unfold laserUpdate. rewrite Hs. cbn [negb].
    destruct (Rleb (l_ttl s - dt) 0) eqn:E.
    + apply Rleb_true in E. split.
      * intros Hlt; lra.
      * intros _ _. rewrite laserFlight_inactive; reflexivity.
    + apply Rleb_false in E.
      set (s1 := {| l_active := true; l_ttl := l_ttl s - dt;
                    l_pos := Vec3.addScaledVector (l_pos s) (l_vel s) dt;
                    l_vel := l_vel s |}).
      destruct (IH s1 eq_refl) as [IH1 IH2]. cbn [s1 l_ttl l_pos l_vel] in IH1, IH2.
      split.
      * intros Hlt. destruct IH1 as [A [B [C D]]]; [lra |].
        rewrite A, B, C, D, addScaledVector_add.
        repeat split; try reflexivity. lra.
      * intros Hge _. destruct rest as [| dt2 rest2].
        -- cbn [elapsed] in Hge. lra.
        -- apply IH2; [lra | discriminate].
Qed.

(** X10.  The life of a laser shot: spawned with time-to-live [ttl] and
    stepped by frame times [dts >= 0], the shot is active exactly while the
    elapsed time stays below [ttl]; until then it flies in a straight line
    at constant velocity ([pos + vel * elapsed]); once the elapsed time
    reaches [ttl] it is inactive and stays so. *)
Theorem laser_lifetime (pos vel : Vec3.t) (ttl : R) (s : LaserShot)
    (dts : list R) :
  Forall (fun dt => 0 <= dt) dts ->
  let l := laserFlight dts (laserSpawn pos vel ttl s) in
  (elapsed dts < ttl ->
     l_active l = true
     /\ l_pos l = Vec3.addScaledVector pos vel (elapsed dts)
     /\ l_vel l = vel)
  /\ (ttl <= elapsed dts -> dts <> [] -> l_active l = false)
  /\ (forall more, l_active l = false -> laserFlight more l = l).
Proof.
  intros Hd l.
  destruct (laserFlight_active dts (laserSpawn pos vel ttl s) Hd eq_refl)
    as [H1 H2].
  cbn [laserSpawn l_ttl l_pos l_vel] in H1, H2. fold l in H1, H2.
  split; [| split].
  - intros Hlt. destruct (H1 Hlt) as [A [_ [C D]]]. repeat split; assumption.
  - exact H2.
  - intros more Hoff. apply laserFlight_inactive; assumption.
Qed.

Lemma laser_lifetime_witness :
  let pos := Vec3.mk 0 0.02 1.35 in
  let vel := Vec3.mk 0 0 Game.LASER_SPEED in
  let dts := [0.016; 0.016; 0.05] in
  let l := laserFlight dts (laserSpawn pos vel Game.LASER_TTL newLaserShot) in
  (elapsed dts < Game.LASER_TTL ->
     l_active l = true
     /\ l_pos l = Vec3.addScaledVector pos vel (elapsed dts)
     /\ l_vel l = vel)
  /\ (Game.LASER_TTL <= elapsed dts -> dts <> [] -> l_active l = false)
  /\ (forall more, l_active l = false -> laserFlight more l = l).
Proof.
  intros pos vel dts.
  apply (laser_lifetime pos vel Game.LASER_TTL newLaserShot dts).
  unfold dts. repeat constructor; lra.
Defined.

End LaserLifetime.

(** ** Projectiles.ts: the homing step never turns away *)

Section Homing.

Import Projectiles.

Lemma dot_multiplyScalar_l a b k :
  dot (Vec3.multiplyScalar a k) b = k * dot a b.
Proof. unfold dot, Vec3.multiplyScalar; simpl; ring. Qed.

Lemma dot_self v : dot v v = Vec3.length v * Vec3.length v.
Proof. rewrite length_sqr. reflexivity. Qed.

Lemma dot_lerp c d t :
  dot (Vec3.lerp c d t) d = (1 - t) * dot c d + t * dot d d.
Proof. unfold dot, Vec3.lerp; simpl; ring. Qed.

Lemma dot_lerp_self c d t :
  dot (Vec3.lerp c d t) (Vec3.lerp c d t)
  = (1 - t) * (1 - t) * dot c c + 2 * t * (1 - t) * dot c d
    + t * t * dot d d.
Proof. unfold dot, Vec3.lerp; simpl; ring. Qed.

(** Cauchy-Schwarz for unit vectors. *)
Lemma dot_units_range c d :
  Vec3.length c = 1 -> Vec3.length d = 1 -> -1 <= dot c d <= 1.
Proof.
  intros Hc Hd.
  pose proof (length_sqr c) as Sc. rewrite Hc in Sc.
  pose proof (length_sqr d) as Sd. rewrite Hd in Sd.
  unfold dot. destruct c as [cx cy cz], d as [dx dy dz]; simpl in *.
  pose proof (Rle_0_sqr (cx + dx)) as Px.
  pose proof (Rle_0_sqr (cy + dy)) as Py.
  pose proof (Rle_0_sqr (cz + dz)) as Pz.
  pose proof (Rle_0_sqr (cx - dx)) as Mx.
  pose proof (Rle_0_sqr (cy - dy)) as My.
  pose proof (Rle_0_sqr (cz - dz)) as Mz.
  unfold Rsqr in *. lra.
Qed.

(** The scalar core: [x] is the cosine of the angle between heading and
    target direction, [L] the length of their blend with weight [t]. *)
Lemma homing_scalar x t L :
  -1 <= x <= 1 -> 0 <= t <= 1 -> 0 < L ->
  L * L = (1 - t) * (1 - t) + 2 * t * (1 - t) * x + t * t ->
  x * L <= (1 - t) * x + t.
Proof.
  intros Hx Ht HL Hq.
  set (y := (1 - t) * x + t).
  assert (Hd : y * y - x * x * (L * L)
               = (1 - x * x) * t * (2 * (1 - t) * x + t))
    by (rewrite Hq; unfold y; ring).
  assert (Hxx : 0 <= 1 - x * x) by nra.
  destruct (Rle_dec x 0) as [Hneg | Hpos].
  - destruct (Rle_dec 0 y) as [Hy | Hy].
    + nra.
    + assert (Hy' : y < 0) by lra.
      assert (H2 : 2 * (1 - t) * x + t <= 0) by (unfold y in Hy'; nra).
      assert (Hsq : y * y <= x * x * (L * L)).
      { assert (0 <= (1 - x * x) * t) by nra.
        assert ((1 - x * x) * t * (2 * (1 - t) * x + t) <= 0) by nra.
        lra. }
      destruct (Rle_dec (x * L) y) as [Hok | Hbad]; [assumption |].
      exfalso.
      assert (y < x * L) by lra.
      assert (x * L <= 0) by nra.
      assert ((x * L) * (x * L) < y * y) by nra.
      nra.
  - assert (Hx0 : 0 < x) by lra.
    assert (Hy : 0 <= y) by (unfold y; nra).
    assert (H2 : 0 <= 2 * (1 - t) * x + t) by nra.
    assert (Hsq : x * x * (L * L) <= y * y).
    { assert (0 <= (1 - x * x) * t) by nra.
      assert (0 <= (1 - x * x) * t * (2 * (1 - t) * x + t)) by nra.
      lra. }
    destruct (Rle_dec (x * L) y) as [Hok | Hbad]; [assumption |].
    exfalso.
    assert (y < x * L) by lra.
    assert (y * y < (x * L) * (x * L)) by nra.
    nra.
Qed.

(** Steering a unit heading [c] towards a unit direction [d] gives a
    heading at least as close to [d]. *)
Lemma steer_units_toward c d t :
  Vec3.length c = 1 -> Vec3.length d = 1 -> 0 <= t <= 1 ->
  dot c d <= dot (Vec3.normalize (Vec3.lerp c d t)) d.
Proof.
  intros Hc Hd Ht.
  pose proof (dot_units_range c d Hc Hd) as Hx.
  set (b := Vec3.lerp c d t).
  assert (Hbd : dot b d = (1 - t) * dot c d + t).
  { unfold b. rewrite dot_lerp, (dot_self d), Hd. ring. }
  assert (Hbb : Vec3.length b * Vec3.length b
                = (1 - t) * (1 - t) + 2 * t * (1 - t) * dot c d + t * t).
  { rewrite <- dot_self. unfold b.
    rewrite dot_lerp_self, (dot_self c), (dot_self d), Hc, Hd. ring. }
  unfold Vec3.normalize, Vec3.divideScalar.
  rewrite dot_multiplyScalar_l, Hbd.
  pose proof (length_nonneg b) as Hn.
  destruct (Reqb (Vec3.length b) 0) eqn:E.
  - apply Reqb_true in E. rewrite E in Hbb.
    replace (1 / 1) with 1 by field. rewrite Rmult_1_l.
    set (x := dot c d) in *.
    assert (Heq : (1 - t) * x + t = 0).
    { assert (H1 : 0 <= 1 - x * x) by nra.
      assert (H2 : 0 <= (1 - t) * (1 - t)) by nra.
      assert (H3 : 0 <= (1 - t) * (1 - t) * (1 - x * x))
        by (apply Rmult_le_pos; assumption).
      assert (H4 : ((1 - t) * x + t) * ((1 - t) * x + t)
                   + (1 - t) * (1 - t) * (1 - x * x) = 0).
      { replace (((1 - t) * x + t) * ((1 - t) * x + t)
                 + (1 - t) * (1 - t) * (1 - x * x))
          with ((1 - t) * (1 - t) + 2 * t * (1 - t) * x + t * t) by ring.
        lra. }
      nra. }
    rewrite Heq.
    destruct (Rle_dec x 0) as [Hle | Hgt]; [assumption |].
    exfalso. assert (0 <= (1 - t) * x) by nra. nra.
  - apply Reqb_false in E.
    assert (HL : 0 < Vec3.length b) by lra.
    pose proof (homing_scalar (dot c d) t (Vec3.length b) Hx Ht HL Hbb) as Hs.
    apply (Rmult_le_reg_r (Vec3.length b)); [assumption |].
    replace (1 / Vec3.length b * ((1 - t) * dot c d + t) * Vec3.length b)
      with ((1 - t) * dot c d + t) by (field; lra).
    exact Hs.
Qed.

Lemma zero_vector v : Vec3.length v = 0 -> v = Vec3.zero.
Proof.
  intros H. apply length_zero_iff in H. destruct v as [a b c]; simpl in H.
  destruct H as [-> [-> ->]]. reflexivity.
Qed.

Lemma clamp_unit_interval v : 0 <= MathUtil.clamp v 0 1 <= 1.
Proof. apply clamp_bounds; lra. Qed.

(** X11.  Homing never turns a missile away from its target: for an
    active missile that outlives the step and a target farther than 1e-6,
    the component of the new velocity along the unit direction to the
    target is at least that of the old velocity, for every turn rate and
    frame time; and when [turnRate * dt >= 1] the new velocity points
    straight at the target with the old speed. *)
Theorem missile_never_turns_away (m : MissileShot) (dt turnRate : R)
    (target : Vec3.t) :
  m_active m = true ->
  0 < m_ttl m - dt ->
  1e-6 < Vec3.length (Vec3.sub target (m_pos m)) ->
  let desired := Vec3.sub target (m_pos m) in
  let dir := Vec3.multiplyScalar desired (1 / Vec3.length desired) in
  let m' := update dt (Some target) turnRate m in
  dot (m_vel m) dir <= dot (m_vel m') dir
  /\ (1 <= turnRate * dt ->
      m_vel m' = Vec3.multiplyScalar dir (Vec3.length (m_vel m))).
Proof.
  intros Ha Httl Hlen desired dir m'.
  pose proof (update_far_target m dt turnRate Ha Httl target Hlen) as E.
  cbv zeta in E. fold desired in E. fold dir in E. fold m' in E.
  assert (Hdir : Vec3.length dir = 1).
  { unfold dir. apply length_unit_scaled. unfold desired. lra. }
  pose proof (clamp_unit_interval (turnRate * dt)) as Ht.
  set (t := MathUtil.clamp (turnRate * dt) 0 1) in *.
  split.
  - rewrite E, dot_multiplyScalar_l.
    destruct (Req_dec_T (Vec3.length (m_vel m)) 0) as [Hz | Hnz].
    + rewrite Hz, (zero_vector _ Hz). unfold dot; simpl. lra.
    + pose proof (length_nonneg (m_vel m)) as Hn.
      set (c := Vec3.normalize (m_vel m)).
      assert (Hc : Vec3.length c = 1) by (apply normalize_unit; assumption).
      assert (Hv : dot (m_vel m) dir = Vec3.length (m_vel m) * dot c dir).
      { unfold c, Vec3.normalize, Vec3.divideScalar.
        rewrite (proj2 (Reqb_false _ _) Hnz), dot_multiplyScalar_l.
        field. assumption. }
      rewrite Hv. unfold steer. fold c.
      apply Rmult_le_compat_l; [assumption |].
      apply steer_units_toward; assumption.
  - intros Hfull. rewrite E. f_equal.
    assert (Et : t = 1).
    { unfold t, MathUtil.clamp, Rmax, Rmin.
      destruct (Rle_dec 1 (turnRate * dt)); [| lra].
      destruct (Rle_dec 0 1); lra. }
    rewrite Et. unfold steer.
    assert (El : Vec3.lerp (Vec3.normalize (m_vel m)) dir 1 = dir).
    { destruct dir as [a b c]. unfold Vec3.lerp; simpl. f_equal; ring. }
    rewrite El. unfold Vec3.normalize, Vec3.divideScalar. rewrite Hdir.
    rewrite (proj2 (Reqb_false 1 0)) by lra.
    destruct dir as [a b c]. unfold Vec3.multiplyScalar; simpl.
    f_equal; field.
Qed.

Lemma missile_never_turns_away_witness :
  let m := spawn (Vec3.mk 0 (-0.15) 1.1) (Vec3.mk 0 0 Game.MISSILE_SPEED)
             Game.MISSILE_TTL newMissileShot in
  let target := Vec3.mk 3 0 1.1 in
  let desired := Vec3.sub target (m_pos m) in
  let dir := Vec3.multiplyScalar desired (1 / Vec3.length desired) in
  let m' := update 0.05 (Some target) Game.MISSILE_TURN_RATE m in
  dot (m_vel m) dir <= dot (m_vel m') dir
  /\ (1 <= Game.MISSILE_TURN_RATE * 0.05 ->
      m_vel m' = Vec3.multiplyScalar dir (Vec3.length (m_vel m))).
Proof.
  intros m target.
  apply (missile_never_turns_away m 0.05 Game.MISSILE_TURN_RATE target).
  - reflexivity.
  - unfold m; cbn [spawn m_ttl]; unfold Game.MISSILE_TTL; lra.
  - unfold m, target; cbn [spawn m_pos Vec3.sub Vec3.x Vec3.y Vec3.z].
    unfold Vec3.length; cbn [Vec3.sub Vec3.x Vec3.y Vec3.z].
    apply Rsqr_incrst_0; [| lra | apply sqrt_pos].
    rewrite Rsqr_sqrt by nra. unfold Rsqr. nra.
Defined.

End Homing.

(** ** input/InputRouter.ts: what a poll publishes *)

Section RouterFacts.

Import Input InputRouter.

(** The fields of the router and of the published state after a poll. *)
Lemma update_fields face nowMs r :
  let live := match manualNudge r with
              | Some m => Rgtb (untilMs m) nowMs
              | None => false
              end in
  let keyX := b2r (k_right (keys r)) - b2r (k_left (keys r)) in
  let keyY := b2r (k_up (keys r)) - b2r (k_down (keys r)) in
  let baseX := match manualNudge r with
               | Some m => if live then n_x m
                           else if calibrated face then strafeX face else 0
               | None => if calibrated face then strafeX face else 0
               end in
  let baseY := match manualNudge r with
               | Some m => if live then n_y m
                           else if calibrated face then strafeY face else 0
               | None => if calibrated face then strafeY face else 0
               end in
  let keyed := negb (Reqb keyX 0) || negb (Reqb keyY 0) in
  let r' := update face nowMs r in
  manualNudge r' = (if live then manualNudge r else None)
  /\ keys r' = keys r
  /\ lastVoiceFireMs r' = lastVoiceFireMs r
  /\ lastVoiceMissileMs r' = lastVoiceMissileMs r
  /\ lastVoiceStopMs r' = lastVoiceStopMs r
  /\ moveX (state r')
     = (if keyed then MathUtil.clamp (baseX + keyX) (-1) 1 else baseX)
  /\ moveY (state r')
     = (if keyed then MathUtil.clamp (baseY + keyY) (-1) 1 else baseY)
  /\ boost (state r')
     = MathUtil.clamp ((if calibrated face then f_boost face else 0)
                       + b2r (k_boost (keys r))) 0 1
  /\ fireGuns (state r')
     = (calibrated face && fireHold face) || k_fire (keys r)
  /\ stop (state r') = stopHeld r || stopToggled r || k_stop (keys r).
Proof.
  cbv zeta. unfold update.
  destruct (manualNudge r) as [m |];
    [destruct (Rgtb (untilMs m) nowMs) |];
    destruct (negb _ || negb _); cbn; repeat split.
Qed.

Lemma nudge_in_range_act a r : nudge_in_range r -> nudge_in_range (act a r).
Proof.
  unfold nudge_in_range. intros H.
  destruct a as [face nowMs | ev | e | e | b |]; cbn [act].
  - destruct (update_fields face nowMs r) as [E _]. rewrite E.
    destruct (manualNudge r) as [m |]; [| exact I].
    destruct (Rgtb (untilMs m) nowMs); [exact H | exact I].
  - destruct ev as [| | a d | held | | now x y d | now cmd]; cbn [handle];
      try exact H.
    + exact I.
    + cbn [nudge with_nudge_stop manualNudge n_x n_y].
      split; apply clamp_bounds; lra.
    + destruct cmd as [| | | | x y d | a d]; cbn [handleVoiceCommand].
      * destruct (Rltb (now - lastVoiceFireMs r) 450); exact H.
      * destruct (Rltb (now - lastVoiceMissileMs r) 700); exact H.
      * destruct (Rltb (now - lastVoiceStopMs r) 650); [exact H | exact I].
      * exact H.
      * cbn [nudge with_nudge_stop manualNudge n_x n_y].
        split; apply clamp_bounds; lra.
      * exact H.
  - unfold onKeyDown.
    destruct (shouldIgnoreKeyEvent e); cbn [fst]; [exact H |].
    repeat match goal with
           | |- context [if ?b then _ else _] => destruct b
           end; exact H.
  - unfold onKeyUp. destruct (shouldIgnoreKeyEvent e); exact H.
  - exact H.
  - exact I.
Qed.

Lemma nudge_in_range_run acts r :
  nudge_in_range r -> nudge_in_range (run acts r).
Proof.
  revert r; induction acts as [| a rest IH]; intros r H; [exact H |].
  cbn [run]. apply IH, nudge_in_range_act, H.
Qed.

Lemma b2r_range b : 0 <= b2r b <= 1.
Proof. destruct b; simpl; lra. Qed.

(** X12.  The published ranges: whatever happened to a router since it
    was constructed (polls, queue and stop calls, nudges, voice commands,
    key events, resets), a poll publishes [boost] in [0, 1]; and when the
    tracker's strafes are within [-1, 1] it publishes [moveX] and [moveY]
    in [-1, 1], with or without keys held and nudges pending. *)
Theorem published_ranges (acts : list action) (face : FaceControls)
    (nowMs : R) :
  face_in_range face ->
  let st := state (update face nowMs (run acts new)) in
  0 <= boost st <= 1 /\ -1 <= moveX st <= 1 /\ -1 <= moveY st <= 1.
Proof.
  intros Hf st.
  assert (Hn : nudge_in_range (run acts new))
    by (apply nudge_in_range_run; exact I).
  set (r := run acts new) in *.
  destruct (update_fields face nowMs r) as (_ & _ & _ & _ & _ & Ex & Ey & Eb & _).
  unfold st. rewrite Ex, Ey, Eb. clear Ex Ey Eb.
  split; [apply clamp_bounds; lra |].
  assert (H0 : -1 <= (if calibrated face then strafeX face else 0) <= 1
               /\ -1 <= (if calibrated face then strafeY face else 0) <= 1).
  { unfold face_in_range in Hf.
    destruct (calibrated face); [apply Hf; reflexivity | lra]. }
  unfold nudge_in_range in Hn.
  destruct (negb (Reqb (b2r (k_right (keys r)) - b2r (k_left (keys r))) 0)
            || negb (Reqb (b2r (k_up (keys r)) - b2r (k_down (keys r))) 0)).
  - split; apply clamp_bounds; lra.
  - destruct (manualNudge r) as [m |]; [| exact H0].
    destruct (Rgtb (untilMs m) nowMs); [exact Hn | exact H0].
Qed.

Lemma published_ranges_witness :
  let face := {| calibrated := true; strafeX := 0.4; strafeY := -1;
                 f_boost := 1; mouthOpen := 0.3; fireBurst := false;
                 fireHold := false |} in
  let acts := [ AKeyDown (keyPress "d" false);
                AEvent (ENudge 100 5 (-3) NaN);
                APoll face 120;
                AKeyDown (keyPress "Shift" false) ] in
  let st := state (update face 200 (run acts new)) in
  0 <= boost st <= 1 /\ -1 <= moveX st <= 1 /\ -1 <= moveY st <= 1.
Proof.
  intros face acts.
  apply (published_ranges acts face 200).
  unfold face_in_range, face; cbn [calibrated strafeX strafeY].
  intros _; lra.
Defined.

(** X13.  A nudge overrides the tracker until it expires: after
    [nudge(x, y, durationMs)] at clock reading [now], with no movement key
    held, every poll before [now + durationMs] (700 ms when the duration
    is not finite) publishes the nudge clamped to [-1, 1] and keeps it; the
    first poll at or after that time publishes the tracker's strafes again
    (0 when not calibrated) and drops the nudge. *)
Theorem nudge_override_and_expiry (r : InputRouter.t) (now x y : R)
    (durationMs : JsNumber) (face : FaceControls) (nowMs : R) :
  k_left (keys r) = k_right (keys r) ->
  k_up (keys r) = k_down (keys r) ->
  let ms := match durationMs with Finite d => d | _ => 700 end in
  let r1 := nudge now x y durationMs r in
  let r2 := update face nowMs r1 in
  (nowMs < now + ms ->
     moveX (state r2) = MathUtil.clamp x (-1) 1
     /\ moveY (state r2) = MathUtil.clamp y (-1) 1
     /\ manualNudge r2 = manualNudge r1)
  /\ (now + ms <= nowMs ->
      moveX (state r2) = (if calibrated face then strafeX face else 0)
      /\ moveY (state r2) = (if calibrated face then strafeY face else 0)
      /\ manualNudge r2 = None).
Proof.
  intros Hx Hy ms r1 r2.
  assert (Ex : Reqb (b2r (k_right (keys r)) - b2r (k_left (keys r))) 0 = true).
  { apply Reqb_true. rewrite Hx. lra. }
  assert (Ey : Reqb (b2r (k_up (keys r)) - b2r (k_down (keys r))) 0 = true).
  { apply Reqb_true. rewrite Hy. lra. }
  destruct (update_fields face nowMs r1) as (En & _ & _ & _ & _ & Emx & Emy & _).
  fold r2 in En, Emx, Emy. rewrite En, Emx, Emy. clear En Emx Emy.
  unfold r1, nudge.
  cbn [with_nudge_stop manualNudge keys untilMs n_x n_y].
  fold ms. rewrite Ex, Ey. cbn [negb orb].
  split; intros Ht.
  - rewrite (proj2 (Rgtb_true _ _) Ht). repeat split.
  - rewrite (proj2 (Rgtb_false _ _) Ht). repeat split.
Qed.

Lemma nudge_override_and_expiry_witness :
  let face := {| calibrated := true; strafeX := 0.4; strafeY := -1;
                 f_boost := 1; mouthOpen := 0.3; fireBurst := false;
                 fireHold := false |} in
  let ms := 700 in
  let r1 := nudge 1000 (-1) 0 NaN new in
  let r2 := update face 1500 r1 in
  (1500 < 1000 + ms ->
     moveX (state r2) = MathUtil.clamp (-1) (-1) 1
     /\ moveY (state r2) = MathUtil.clamp 0 (-1) 1
     /\ manualNudge r2 = manualNudge r1)
  /\ (1000 + ms <= 1500 ->
      moveX (state r2) = (if calibrated face then strafeX face else 0)
      /\ moveY (state r2) = (if calibrated face then strafeY face else 0)
      /\ manualNudge r2 = None).
Proof.
  intros face.
  apply (nudge_override_and_expiry new 1000 (-1) 0 NaN face 1500); reflexivity.
Defined.

(** X14.  Voice commands are rate limited: once a fire, missile or stop
    command has been accepted at clock reading [now1], the same command
    arriving less than its cool-down later (450, 700 and 650 ms) changes
    nothing, also when polls happened in between; and a newly constructed
    or reset router, whose time stamps are 0, ignores such a command
    during the first cool-down after the page's time origin. *)
Theorem voice_rate_limit (cmd : VoiceCommand) (w : R) (r : InputRouter.t)
    (now1 now2 : R) (polls : list (FaceControls * R)) :
  voiceCooldownMs cmd = Some w ->
  let poll := fun q => APoll (fst q) (snd q) in
  (w <= now1 - lastVoiceMs cmd r -> now2 - now1 < w ->
     let r1 := run (map poll polls) (handleVoiceCommand now1 cmd r) in
     handleVoiceCommand now2 cmd r1 = r1)
  /\ (now1 < w ->
      handleVoiceCommand now1 cmd new = new
      /\ handleVoiceCommand now1 cmd (reset r) = reset r).
Proof.
  intros Hw poll.
  assert (Hpolls : forall r0,
             lastVoiceFireMs (run (map poll polls) r0) = lastVoiceFireMs r0
             /\ lastVoiceMissileMs (run (map poll polls) r0)
                = lastVoiceMissileMs r0
             /\ lastVoiceStopMs (run (map poll polls) r0) = lastVoiceStopMs r0).
  { induction polls as [| q rest IH]; intros r0; [repeat split |].
    cbn [map run]. destruct (IH (act (poll q) r0)) as [A [B C]].
    rewrite A, B, C. unfold poll; cbn [act].
    destruct (update_fields (fst q) (snd q) r0) as (_ & _ & F & M & S0 & _).
    repeat split; assumption. }
  split.
  - intros Hacc Hsoon r1.
    destruct (Hpolls (handleVoiceCommand now1 cmd r)) as [A [B C]].
    fold r1 in A, B, C.
    destruct cmd; cbn [voiceCooldownMs] in Hw; try discriminate;
      injection Hw as <-; cbn [lastVoiceMs] in Hacc;
      cbn [handleVoiceCommand] in *.
    + rewrite (proj2 (Rltb_false _ _) Hacc) in A.
      cbn [queueGunBurst with_queue with_voice lastVoiceFireMs] in A.
      rewrite A. now rewrite (proj2 (Rltb_true _ _) Hsoon).
    + rewrite (proj2 (Rltb_false _ _) Hacc) in B.
      cbn [queueMissile with_queue with_voice lastVoiceMissileMs] in B.
      rewrite B. now rewrite (proj2 (Rltb_true _ _) Hsoon).
    + rewrite (proj2 (Rltb_false _ _) Hacc) in C.
      cbn [toggleStop with_nudge_stop with_voice lastVoiceStopMs] in C.
      rewrite C. now rewrite (proj2 (Rltb_true _ _) Hsoon).
  - intros Hearly.
    destruct cmd; cbn [voiceCooldownMs] in Hw; try discriminate;
      injection Hw as <-; cbn [handleVoiceCommand new reset lastVoiceFireMs
                                 lastVoiceMissileMs lastVoiceStopMs];
      rewrite (proj2 (Rltb_true _ _)) by lra; split; reflexivity.
Qed.

Lemma voice_rate_limit_witness :
  let face := {| calibrated := false; strafeX := 0; strafeY := 0;
                 f_boost := 0; mouthOpen := 0; fireBurst := false;
                 fireHold := false |} in
  let polls := [(face, 1016); (face, 1032)] in
  let poll := fun q : FaceControls * R => APoll (fst q) (snd q) in
  (450 <= 1000 - lastVoiceMs VFireGuns new -> 1300 - 1000 < 450 ->
     let r1 := run (map poll polls) (handleVoiceCommand 1000 VFireGuns new) in
     handleVoiceCommand 1300 VFireGuns r1 = r1)
  /\ (1000 < 450 ->
      handleVoiceCommand 1000 VFireGuns new = new
      /\ handleVoiceCommand 1000 VFireGuns (reset new) = reset new).
Proof.
  intros face polls.
  apply (voice_rate_limit VFireGuns 450 new 1000 1300 polls). reflexivity.
Defined.

Lemma keyPress_not_ignored k isRepeat :
  shouldIgnoreKeyEvent (keyPress k isRepeat) = false.
Proof. reflexivity. Qed.

Lemma onKeyDown_space isRepeat r :
  k_fire (keys (fst (onKeyDown (keyPress " " isRepeat) r))) = true
  /\ queuedGunBurst (fst (onKeyDown (keyPress " " isRepeat) r))
     = (if isRepeat then queuedGunBurst r else true).
Proof.
  unfold onKeyDown. rewrite keyPress_not_ignored.
  destruct isRepeat; split; reflexivity.
Qed.

Lemma onKeyDown_f isRepeat r :
  queuedGunBurst (fst (onKeyDown (keyPress "f" isRepeat) r)) = true.
Proof.
  unfold onKeyDown. rewrite keyPress_not_ignored.
  destruct isRepeat; reflexivity.
Qed.

Lemma onKeyUp_space isRepeat r :
  k_fire (keys (onKeyUp (keyPress " " isRepeat) r)) = false.
Proof. unfold onKeyUp. rewrite keyPress_not_ignored. reflexivity. Qed.

(** X15.  Holding the space bar: the first key-down (not a repeat) files
    one burst and starts hold fire, so the next poll publishes
    [fireGunsBurst] and [fireGuns]; the auto-repeat key-downs that follow
    file nothing, so later polls publish only the tracker's burst edge
    while [fireGuns] stays on; the key-up ends hold fire.  The [f] key, in
    contrast, files a burst on every repeat. *)
Theorem space_bar_hold (r : InputRouter.t) (face : FaceControls)
    (t1 t2 t3 : R) :
  let r1 := update face t1 (fst (onKeyDown (keyPress " " false) r)) in
  let r2 := update face t2 (fst (onKeyDown (keyPress " " true) r1)) in
  let r3 := update face t3 (onKeyUp (keyPress " " false) r2) in
  fireGunsBurst (state r1) = true /\ fireGuns (state r1) = true
  /\ fireGunsBurst (state r2) = calibrated face && fireBurst face
  /\ fireGuns (state r2) = true
  /\ fireGuns (state r3) = calibrated face && fireHold face
  /\ fireGunsBurst
       (state (update face t2 (fst (onKeyDown (keyPress "f" true) r1))))
     = true.
Proof.
  intros r1 r2 r3.
  assert (Hg : forall f t0 r0,
             fireGuns (state (update f t0 r0))
             = (calibrated f && fireHold f) || k_fire (keys r0)).
  { intros f t0 r0. destruct (update_fields f t0 r0) as (_&_&_&_&_&_&_&_&E&_).
    exact E. }
  assert (Hb : forall f t0 r0,
             fireGunsBurst (state (update f t0 r0))
             = (calibrated f && fireBurst f) || queuedGunBurst r0).
  { intros f t0 r0. exact (proj1 (update_publishes f t0 r0)). }
  assert (Hq1 : queuedGunBurst r1 = false)
    by exact (proj1 (update_clears_queue _ _ _)).
  destruct (onKeyDown_space false r) as [F0 Q0].
  destruct (onKeyDown_space true r1) as [F1 Q1].
  unfold r3, r2. rewrite !Hg, !Hb.
  rewrite onKeyUp_space, onKeyDown_f, F1, Q1, Hq1.
  unfold r1. rewrite Hg, Hb, F0, Q0.
  rewrite !orb_true_r, !orb_false_r. repeat split.
Qed.

Lemma onKeyDown_keys e r0 :
  keys (fst (onKeyDown e r0))
  = if shouldIgnoreKeyEvent e then keys r0
    else {| k_left := if k_left (keyFlags e) then true else k_left (keys r0);
            k_right := if k_right (keyFlags e) then true
                       else k_right (keys r0);
            k_up := if k_up (keyFlags e) then true else k_up (keys r0);
            k_down := if k_down (keyFlags e) then true else k_down (keys r0);
            k_boost := if k_boost (keyFlags e) then true
                       else k_boost (keys r0);
            k_fire := if k_fire (keyFlags e) then true else k_fire (keys r0);
            k_stop := if k_stop (keyFlags e) then true
                      else k_stop (keys r0) |}.
Proof.
  unfold onKeyDown.
  destruct (shouldIgnoreKeyEvent e); [reflexivity |].
  cbn [fst].
  repeat match goal with
         | |- context [if ?b then queueGunBurst _ else _] => destruct b
         | |- context [if ?b then queueMissile _ else _] => destruct b
         | |- context [if ?b then with_voice _ _ _ _ _ else _] => destruct b
         end; reflexivity.
Qed.

(** What a key-down leaves in the router besides the held keys: the
    one-shots it queued. *)
Lemma onKeyDown_rest e r0 :
  let r1 := fst (onKeyDown e r0) in
  let live := negb (shouldIgnoreKeyEvent e) in
  manualNudge r1 = manualNudge r0
  /\ stopHeld r1 = stopHeld r0 /\ stopToggled r1 = stopToggled r0
  /\ r_hasCamera r1 = r_hasCamera r0
  /\ queuedFlip r1 = queuedFlip r0
  /\ queuedGunBurst r1
     = queuedGunBurst r0
       || (live && ((String.eqb (key e) " " && negb (repeat e))
                    || String.eqb (toLowerCase (key e)) "f"))
  /\ queuedMissile r1
     = queuedMissile r0
       || (live && String.eqb (toLowerCase (key e)) "m" && negb (repeat e)).
Proof.
  cbv zeta. unfold onKeyDown.
  destruct (shouldIgnoreKeyEvent e); cbn [negb andb fst].
  - rewrite !orb_false_r. repeat split.
  - cbn [keyFlags k_fire].
    destruct (String.eqb (key e) " "), (repeat e),
      (String.eqb (toLowerCase (key e)) "f"),
      (String.eqb (toLowerCase (key e)) "m"),
      (String.eqb (toLowerCase (key e)) "p");
      cbn [negb andb orb queueGunBurst queueMissile with_queue with_voice
           with_keys manualNudge stopHeld stopToggled r_hasCamera queuedFlip
           queuedGunBurst queuedMissile];
      rewrite ?orb_true_r, ?orb_false_r; repeat split.
Qed.

Lemma onKeyUp_rest e r0 :
  manualNudge (onKeyUp e r0) = manualNudge r0
  /\ stopHeld (onKeyUp e r0) = stopHeld r0
  /\ stopToggled (onKeyUp e r0) = stopToggled r0
  /\ r_hasCamera (onKeyUp e r0) = r_hasCamera r0
  /\ queuedFlip (onKeyUp e r0) = queuedFlip r0
  /\ queuedGunBurst (onKeyUp e r0) = queuedGunBurst r0
  /\ queuedMissile (onKeyUp e r0) = queuedMissile r0.
Proof. unfold onKeyUp. destruct (shouldIgnoreKeyEvent e); repeat split. Qed.

(** The movement, boost, hold fire and stop a poll publishes depend on
    the router through its held keys, its nudge and its stop flags. *)
Lemma update_steady face nowMs r1 r2 :
  keys r1 = keys r2 -> manualNudge r1 = manualNudge r2 ->
  stopHeld r1 = stopHeld r2 -> stopToggled r1 = stopToggled r2 ->
  let s1 := state (update face nowMs r1) in
  let s2 := state (update face nowMs r2) in
  moveX s1 = moveX s2 /\ moveY s1 = moveY s2 /\ boost s1 = boost s2
  /\ fireGuns s1 = fireGuns s2 /\ stop s1 = stop s2.
Proof.
  intros Hk Hn Hh Ht. cbv zeta.
  destruct (update_fields face nowMs r1) as (_&_&_&_&_& X1 & Y1 & B1 & F1 & S1).
  destruct (update_fields face nowMs r2) as (_&_&_&_&_& X2 & Y2 & B2 & F2 & S2).
  cbv zeta in *.
  rewrite X1, Y1, B1, F1, S1, X2, Y2, B2, F2, S2, Hk, Hn, Hh, Ht.
  repeat split.
Qed.


End RouterFacts.

(** ** Drone.ts: the flip animation *)

Section DroneFlip.

Import Drone.

Lemma update_flip_none dt input dr :
  flip dr = None -> flip (fst (update dt input dr)) = None.
Proof. intros H. unfold update. rewrite H. reflexivity. Qed.

Lemma update_flip_some dt input dr f :
  flip dr = Some f -> 0 < fl_duration f ->
  flip (fst (update dt input dr))
  = (if Rltb (fl_t f + dt) (fl_duration f)
     then Some {| fl_axis := fl_axis f; fl_dir := fl_dir f;
                  fl_t := fl_t f + dt; fl_duration := fl_duration f |}
     else None).
Proof.
  intros H Hd. unfold update. rewrite H. cbn [fst flip].
  assert (Hq : (fl_t f + dt) / fl_duration f < 1
               <-> fl_t f + dt < fl_duration f).
  { split; intros Hlt.
    - apply (Rmult_lt_compat_r (fl_duration f)) in Hlt; [| assumption].
      unfold Rdiv in Hlt. rewrite Rmult_assoc, Rinv_l in Hlt; lra.
    - apply (Rmult_lt_reg_r (fl_duration f)); [assumption |].
      unfold Rdiv. rewrite Rmult_assoc, Rinv_l; lra. }
  destruct (Rltb (fl_t f + dt) (fl_duration f)) eqn:E.
  - apply Rltb_true in E. apply Hq in E.
    rewrite (proj2 (Rgeb_false _ _)); [reflexivity |].
    unfold Rmin. destruct (Rle_dec 1 _); lra.
  - apply Rltb_false in E.
    rewrite (proj2 (Rgeb_true _ _)); [reflexivity |].
    unfold Rmin. destruct (Rle_dec 1 _) as [Hle | Hn]; [lra |].
    exfalso. apply Hn. left.
    assert (~ (fl_t f + dt) / fl_duration f < 1) by (rewrite Hq; lra). lra.
Qed.

Lemma fly_flip_none frames dr shown :
  flip dr = None -> flip (fst (fly frames dr shown)) = None.
Proof.
  revert dr shown; induction frames as [| [dt input] rest IH];
    intros dr shown H; [exact H |].
  cbn [fly]. destruct (update dt input dr) as [dr1 shown1] eqn:E.
  apply IH. replace dr1 with (fst (update dt input dr)) by now rewrite E.
  apply update_flip_none; assumption.
Qed.

Lemma flown_nonneg frames :
  Forall (fun f => 0 <= fst f) frames -> 0 <= flown frames.
Proof.
  induction 1 as [| [dt input] rest Hd _ IH]; simpl in *; lra.
Qed.

Lemma fly_flip frames dr shown f :
  Forall (fun fr => 0 <= fst fr) frames ->
  flip dr = Some f -> fl_t f < fl_duration f -> 0 < fl_duration f ->
  flip (fst (fly frames dr shown))
  = (if Rltb (fl_t f + flown frames) (fl_duration f)
     then Some {| fl_axis := fl_axis f; fl_dir := fl_dir f;
                  fl_t := fl_t f + flown frames;
                  fl_duration := fl_duration f |}
     else None).
Proof.
  intros Hd; revert dr shown f;
    induction Hd as [| [dt input] rest Hdt Hrest IH];
    intros dr shown f Hf Hlt Hdur.
  - cbn [fly flown fst]. rewrite Rplus_0_r.
    rewrite (proj2 (Rltb_true _ _) Hlt), Hf. destruct f; reflexivity.
  - cbn [fly flown]. cbn [fst] in Hdt.
    pose proof (flown_nonneg rest Hrest) as Hnn.
    pose proof (update_flip_some dt input dr f Hf Hdur) as Hu.
    destruct (update dt input dr) as [dr1 shown1]. cbn [fst] in Hu.
    replace (fl_t f + (dt + flown rest)) with (fl_t f + dt + flown rest)
      by ring.
    destruct (Rltb (fl_t f + dt) (fl_duration f)) eqn:E.
    + apply Rltb_true in E.
      rewrite (IH dr1 shown1 _ Hu); cbn [fl_t fl_duration fl_axis fl_dir];
        [reflexivity | assumption | assumption].
    + apply Rltb_false in E.
      rewrite (fly_flip_none rest dr1 shown1 Hu).
      rewrite (proj2 (Rltb_false _ _)); [reflexivity | lra].
Qed.

(** X17.  The flip animation runs its course: after [triggerFlip] and
    frames with frame times [>= 0], the flip is still pending, with the
    frame times added up as its clock, exactly while their sum is below
    0.38 s, and it is over from the frame on in which the sum reaches
    0.38 s.  A frame during the flip turns the drone about the flip axis
    by [dir * 2 pi * p (2 - p)] on top of the tilt, where [p] is the
    fraction of the flip elapsed, capped at 1: a full turn in the closing
    frame.  Triggering a flip while one is pending restarts it from 0. *)
Theorem flip_runs_its_course (a : Input.FlipAxis) (d : Input.FlipDir)
    (dr : Drone.t) (frames : list (R * DroneUpdateInput)) (shown : Pose)
    (dt : R) (input : DroneUpdateInput) :
  Forall (fun fr => 0 <= fst fr) frames ->
  let dr1 := fst (fly frames (triggerFlip a d dr) shown) in
  (flown frames < 0.38 ->
     flip dr1 = Some {| fl_axis := a; fl_dir := d; fl_t := flown frames;
                        fl_duration := 0.38 |}
     /\ let p := Rmin 1 ((flown frames + dt) / 0.38) in
        let turn := dirSign d * PI * 2 * (p * (2 - p)) in
        let tiltX := MathUtil.clamp (- in_strafeY input * 0.35) (-0.45) 0.45 in
        let tiltZ := MathUtil.clamp (- in_strafeX input * 0.35) (-0.45) 0.45 in
        pose_rotation (snd (update dt input dr1))
        = match a with
          | Input.AxisX => Vec3.mk (tiltX + turn) 0 (tiltZ + 0)
          | Input.AxisZ => Vec3.mk (tiltX + 0) 0 (tiltZ + turn)
          end)
  /\ (0.38 <= flown frames -> flip dr1 = None)
  /\ (forall a' d',
        flip (triggerFlip a' d' dr1)
        = Some {| fl_axis := a'; fl_dir := d'; fl_t := 0;
                  fl_duration := 0.38 |}).
Proof.
  intros Hd dr1.
  pose proof (fly_flip frames (triggerFlip a d dr) shown
                {| fl_axis := a; fl_dir := d; fl_t := 0; fl_duration := 0.38 |}
                Hd eq_refl) as H.
  cbn [fl_t fl_duration fl_axis fl_dir] in H.
  fold dr1 in H. rewrite Rplus_0_l in H.
  assert (H' := H ltac:(lra) ltac:(lra)). clear H.
  split; [| split].
  - intros Hlt. rewrite (proj2 (Rltb_true _ _) Hlt) in H'.
    split; [exact H' |].
    cbv zeta. unfold update. rewrite H'.
    cbn [fl_t fl_duration fl_axis fl_dir snd pose_rotation].
    destruct a; reflexivity.
  - intros Hge. rewrite (proj2 (Rltb_false _ _) Hge) in H'. exact H'.
  - intros a' d'. reflexivity.
Qed.

Lemma flip_runs_its_course_witness :
  let input := {| in_timeMs := 1000; in_strafeX := 0.5; in_strafeY := 0;
                  in_speed := 6 |} in
  let dr := {| position := Vec3.zero; flip := None |} in
  let shown := {| pose_rotation := Vec3.zero; pose_intensity := 0;
                  pose_glowOpacity := 0 |} in
  let frames := [(0.016, input); (0.05, input)] in
  let a := Input.AxisZ in
  let d := Input.DirMinus in
  let dt := 0.016 in
  let dr1 := fst (fly frames (triggerFlip a d dr) shown) in
  (flown frames < 0.38 ->
     flip dr1 = Some {| fl_axis := a; fl_dir := d; fl_t := flown frames;
                        fl_duration := 0.38 |}
     /\ let p := Rmin 1 ((flown frames + dt) / 0.38) in
        let turn := dirSign d * PI * 2 * (p * (2 - p)) in
        let tiltX := MathUtil.clamp (- in_strafeY input * 0.35) (-0.45) 0.45 in
        let tiltZ := MathUtil.clamp (- in_strafeX input * 0.35) (-0.45) 0.45 in
        pose_rotation (snd (update dt input dr1))
        = match a with
          | Input.AxisX => Vec3.mk (tiltX + turn) 0 (tiltZ + 0)
          | Input.AxisZ => Vec3.mk (tiltX + 0) 0 (tiltZ + turn)
          end)
  /\ (0.38 <= flown frames -> flip dr1 = None)
  /\ (forall a' d',
        flip (triggerFlip a' d' dr1)
        = Some {| fl_axis := a'; fl_dir := d'; fl_t := 0;
                  fl_duration := 0.38 |}).
Proof.
  intros input dr shown frames a d dt.
  apply (flip_runs_its_course a d dr frames shown dt input).
  unfold frames. repeat constructor; cbn [fst]; lra.
Defined.

End DroneFlip.

(** ** Game.ts: score, targets and the enemy pool *)

Section GameHelpers.

Import Levels.

Lemma LEVELS_score_range l :
  In l LEVELS ->
  exists lo hi, (1 <= lo <= hi)%Z /\ (hi <= 100)%Z
                /\ enemyScoreMin l = IZR lo /\ enemyScoreMax l = IZR hi
                /\ pickupScore l = 1.
Proof.
  unfold LEVELS; simpl; intros H.
  repeat (destruct H as [H | H];
          [subst l; simpl; do 2 eexists;
           (split; [| split; [| split; [reflexivity | split; reflexivity]]]);
           lia |]).
  contradiction.
Qed.

Lemma addScore_score amount g :
  Game.score (Game.addScore amount g)
  = (Game.score g + Z.max 0 (Zfloor amount))%Z.
Proof.
  unfold Game.addScore.
  destruct (Z.eqb_spec (Z.max 0 (Zfloor amount)) 0) as [E | N].
  - rewrite E. lia.
  - reflexivity.
Qed.

(** X18.  What a kill is worth.  On a level of the table the reward
    drawn by [getEnemyKillReward] is an integer from the level's
    [enemyScoreMin] to its [enemyScoreMax + 1], so at least 1, and
    [addScore] raises the score by exactly that amount.  The reward can
    exceed [enemyScoreMax] by one: on level 8, whose range is 6 to 10, the
    draw [1 - 2^-52] gives 11, through the rounding in [randInt]. *)
Theorem kill_reward_range (g : Game.t) (s : nat -> R) (n : nat) :
  In (Game.level g) LEVELS -> 0 <= s n < 1 ->
  let reward := fst (Game.getEnemyKillReward g s n) in
  (1 <= reward)%Z
  /\ enemyScoreMin (Game.level g) <= IZR reward
     <= enemyScoreMax (Game.level g) + 1
  /\ Game.score (Game.addScore (IZR reward) g) = (Game.score g + reward)%Z
  /\ (Game.level g = level8 -> s n = 1 - / 2 ^ 52 -> reward = 11%Z).
Proof.
  intros Hin Hs reward.
  destruct (LEVELS_score_range _ Hin) as (a & b & Hab & Hb & Ea & Eb & _).
  assert (Er : reward = fst (MathUtil.randInt a b s n)).
  { unfold reward, Game.getEnemyKillReward. rewrite Ea, Eb, !ZfloorZ.
    rewrite (Z.max_r 1 a) by lia. rewrite (Z.max_r a b) by lia. reflexivity. }
  destruct (randInt_between a b s n) as [H1 H2]; try lia; try assumption.
  rewrite <- Er in H1, H2.
  split; [lia |]. split; [| split].
  - rewrite Ea, Eb. split; [now apply IZR_le |].
    replace (IZR b + 1) with (IZR (b + 1)) by (rewrite plus_IZR; reflexivity).
    now apply IZR_le.
  - rewrite addScore_score, ZfloorZ. lia.
  - intros E8 Ed. unfold reward, Game.getEnemyKillReward. rewrite E8.
    cbn [level8 enemyScoreMin enemyScoreMax]. rewrite !ZfloorZ.
    change (Z.max 1 6) with 6%Z. change (Z.max 6 10) with 10%Z.
    now apply randInt_overshoot.
Qed.

Lemma kill_reward_range_witness :
  let g := Game.init false in
  let s := fun _ : nat => 1 - / 2 ^ 52 in
  let reward := fst (Game.getEnemyKillReward g s 0%nat) in
  (1 <= reward)%Z
  /\ enemyScoreMin (Game.level g) <= IZR reward
     <= enemyScoreMax (Game.level g) + 1
  /\ Game.score (Game.addScore (IZR reward) g) = (Game.score g + reward)%Z
  /\ (Game.level g = level8 -> s 0%nat = 1 - / 2 ^ 52 -> reward = 11%Z).
Proof.
  intros g s.
  apply (kill_reward_range g s 0%nat).
  - unfold g. cbn [Game.level Game.init]. rewrite initialLevel_is_level8.
    apply level8_in_LEVELS.
  - unfold s. rewrite pow_IZR.
    change (2 ^ Z.of_nat 52)%Z with 4503599627370496%Z. lra.
Defined.

End GameHelpers.

Section NearestEnemy.

Import Game.

(** The invariant of the loop of [findNearestEnemy]. *)
Lemma nearestFrom_spec slots from :
  forall i best,
  match nearestFrom i slots from best with
  | None =>
      best = None
      /\ forall s, In s slots -> Enemy.alive (enemy s) = false
  | Some (d, k) =>
      (forall s, In s slots -> Enemy.alive (enemy s) = true ->
         d <= dist2 (position (Enemy.mesh (enemy s))) from)
      /\ (best = Some (d, k)
          \/ (exists s, (i <= k)%nat /\ nth_error slots (k - i) = Some s
                 /\ Enemy.alive (enemy s) = true
                 /\ d = dist2 (position (Enemy.mesh (enemy s))) from
                 /\ (forall j s', (j < k - i)%nat ->
                       nth_error slots j = Some s' ->
                       Enemy.alive (enemy s') = true ->
                       d < dist2 (position (Enemy.mesh (enemy s'))) from)
                 /\ (forall b, best = Some b -> d < fst b)))
      /\ (forall b, best = Some b -> d <= fst b)
  end.
Proof.
  induction slots as [| slot rest IH]; intros i best.
  - cbn [nearestFrom]. destruct best as [[d k] |].
    + split; [intros s [] |]. split; [left; reflexivity |].
      intros b Hb; injection Hb as <-. simpl; lra.
    + split; [reflexivity | intros s []].
  - cbn [nearestFrom].
    destruct (Enemy.alive (enemy slot)) eqn:Ea; cbn [negb].
    + set (d0 := dist2 (position (Enemy.mesh (enemy slot))) from).
      set (best1 := match best with
                    | None => Some (d0, i)
                    | Some b => if Rltb d0 (fst b) then Some (d0, i) else best
                    end).
      specialize (IH (S i) best1).
      assert (Hb1 : exists d1 k1, best1 = Some (d1, k1) /\ d1 <= d0
                      /\ (forall b, best = Some b -> d1 <= fst b)
                      /\ ((best1 = best /\ (forall b, best = Some b -> fst b <= d0))
                          \/ (d1 = d0 /\ k1 = i
                              /\ forall b, best = Some b -> d0 < fst b))).
      { unfold best1. destruct best as [[bd bk] |].
        - cbn [fst]. destruct (Rltb d0 bd) eqn:E.
          + apply Rltb_true in E. exists d0, i.
            repeat split; try lra.
            * intros b Hb; injection Hb as <-; simpl; lra.
            * right. repeat split. intros b Hb; injection Hb as <-; simpl; lra.
          + apply Rltb_false in E. exists bd, bk.
            repeat split; try lra.
            * intros b Hb; injection Hb as <-; simpl; lra.
            * left. split; [reflexivity |].
              intros b Hb; injection Hb as <-; simpl; lra.
        - exists d0, i. repeat split; try lra.
          + intros b Hb; discriminate.
          + right. repeat split. intros b Hb; discriminate. }
      destruct Hb1 as (d1 & k1 & Eb1 & Hd1 & Hle1 & Hcase).
      destruct (nearestFrom (S i) rest from best1) as [[d k] |].
      * destruct IH as (Hmin & Hwho & Hbest).
        assert (Hdd1 : d <= d1) by (apply (Hbest (d1, k1)); exact Eb1).
        split; [| split].
        -- intros s [<- | Hin] Hal; [fold d0; lra | apply Hmin; assumption].
        -- destruct Hwho as [Hkeep | (s & Hik & Hnth & Hal & Hd & Hfirst & Hlt)].
           ++ rewrite Eb1 in Hkeep. injection Hkeep as <- <-.
              destruct Hcase as [[Hsame Hge] | (-> & -> & Hlt0)].
              ** left. rewrite <- Hsame. exact Eb1.
              ** right. exists slot. rewrite Nat.sub_diag. cbn [nth_error].
                 repeat split; try assumption; try lia.
           ++ right. exists s.
              assert (Ek : (k - i = S (k - S i))%nat) by lia.
              rewrite Ek. cbn [nth_error].
              repeat split; try assumption; try lia.
              ** intros j s' Hj Hn Ha'.
                 destruct j as [| j]; cbn [nth_error] in Hn.
                 --- injection Hn as <-. fold d0.
                     specialize (Hlt (d1, k1) Eb1). cbn [fst] in Hlt. lra.
                 --- apply (Hfirst j s'); [lia | assumption | assumption].
              ** intros b Hb. specialize (Hlt (d1, k1) Eb1). cbn [fst] in Hlt.
                 specialize (Hle1 b Hb). lra.
        -- intros b Hb. specialize (Hle1 b Hb). lra.
      * destruct IH as [E _]. rewrite Eb1 in E. discriminate.
    + specialize (IH (S i) best).
      destruct (nearestFrom (S i) rest from best) as [[d k] |].
      * destruct IH as (Hmin & Hwho & Hbest).
        split; [| split; [| exact Hbest]].
        -- intros s [<- | Hin] Hal; [congruence | apply Hmin; assumption].
        -- destruct Hwho as [Hkeep | (s & Hik & Hnth & Hal & Hd & Hfirst & Hlt)];
             [left; exact Hkeep |].
           right. exists s.
           assert (Ek : (k - i = S (k - S i))%nat) by lia.
           rewrite Ek. cbn [nth_error].
           repeat split; try assumption; try lia.
           intros j s' Hj Hn Ha'.
           destruct j as [| j]; cbn [nth_error] in Hn.
           ++ injection Hn as <-. congruence.
           ++ apply (Hfirst j s'); [lia | assumption | assumption].
      * destruct IH as [E Hdead]. split; [exact E |].
        intros s [<- | Hin]; [exact Ea | apply Hdead; assumption].
Qed.

(** X19.  [findNearestEnemy] returns [null] exactly when no enemy of the
    pool is alive; otherwise it returns a living enemy of the pool at the
    least squared distance from the given point, and among several at that
    distance the first of the pool. *)
Theorem findNearestEnemy_spec (slots : list EnemySlot) (from : Vec3.t) :
  match findNearestEnemy slots from with
  | None => forall s, In s slots -> Enemy.alive (enemy s) = false
  | Some k =>
      exists s, nth_error slots k = Some s
        /\ Enemy.alive (enemy s) = true
        /\ (forall s', In s' slots -> Enemy.alive (enemy s') = true ->
              dist2 (position (Enemy.mesh (enemy s))) from
              <= dist2 (position (Enemy.mesh (enemy s'))) from)
        /\ (forall j s', (j < k)%nat -> nth_error slots j = Some s' ->
              Enemy.alive (enemy s') = true ->
              dist2 (position (Enemy.mesh (enemy s))) from
              < dist2 (position (Enemy.mesh (enemy s'))) from)
  end.
Proof.
  unfold findNearestEnemy.
  pose proof (nearestFrom_spec slots from 0 None) as H.
  destruct (nearestFrom 0 slots from None) as [[d k] |]; cbn [option_map snd].
  - destruct H as (Hmin & Hwho & _).
    destruct Hwho as [Hbad | (s & _ & Hnth & Hal & Hd & Hfirst & _)];
      [discriminate |].
    rewrite Nat.sub_0_r in Hnth, Hfirst.
    exists s. rewrite <- Hd. repeat split; assumption.
  - exact (proj2 H).
Qed.

End NearestEnemy.

(** ** Game.ts: the enemy pool of a level *)

Section EnemyPool.

Import Levels Game.

Lemma computeEnemyPoolSize_range l :
  (0 <= computeEnemyPoolSize l <= 20)%Z
  /\ (enemyRate l <= 0 -> computeEnemyPoolSize l = 0%Z).
Proof.
  unfold computeEnemyPoolSize.
  destruct (Rleb (enemyRate l) 0) eqn:E.
  - split; [lia | reflexivity].
  - apply Rleb_false in E. split; [lia | intros H; lra].
Qed.

Lemma createEnemies_loop_S i n bounds s c :
  createEnemies_loop i (S n) bounds s c
  = let kind := if Rltb (s c) 0.65 then Enemy.Ship else Enemy.Spike in
    let e := Enemy.new (i + 1) kind (createEnemyMesh kind) (enemyCfgs kind) in
    let r1 := Enemy.spawn bounds 0 e s (S c) in
    let r2 := createEnemies_loop (i + 1) n bounds s (snd r1) in
    ({| enemy := fst r1; deadUntilMs := 0 |} :: fst r2, snd r2).
Proof.
  cbn [createEnemies_loop]. unfold bind at 1. cbn [Math_random].
  unfold bind at 1.
  destruct (Enemy.spawn bounds 0 _ s (S c)) as [e' c1].
  unfold bind at 1. cbn [fst snd].
  destruct (createEnemies_loop (i + 1) n bounds s c1) as [rest c2].
  reflexivity.
Qed.

Lemma createEnemies_loop_spec n bounds s :
  forall i c,
  List.length (fst (createEnemies_loop i n bounds s c)) = n
  /\ map (fun sl => Enemy.id (enemy sl)) (fst (createEnemies_loop i n bounds s c))
     = map (fun k => (i + Z.of_nat k)%Z) (seq 1 n)
  /\ Forall (fun sl => Enemy.alive (enemy sl) = true
                       /\ Enemy.hp (enemy sl) = Enemy.maxHp (enemy sl))
       (fst (createEnemies_loop i n bounds s c)).
Proof.
  induction n as [| n IH]; intros i c.
  - cbn. repeat split. constructor.
  - rewrite createEnemies_loop_S. cbv zeta.
    set (kind := if Rltb (s c) 0.65 then Enemy.Ship else Enemy.Spike).
    set (e := Enemy.new (i + 1) kind (createEnemyMesh kind) (enemyCfgs kind)).
    destruct (spawn_fields bounds 0 e s (S c)) as (Ha & Hh & Hm & Hid).
    destruct (IH (i + 1)%Z (snd (Enemy.spawn bounds 0 e s (S c))))
      as (Hl & Hids & Hall).
    cbn [fst List.length map enemy].
    split; [now rewrite Hl |]. split.
    + rewrite Hid. unfold e at 1. cbn [Enemy.new Enemy.id].
      cbn [seq map]. f_equal; try lia.
      rewrite Hids, <- (seq_shift n 1), map_map.
      apply map_ext. intros k. lia.
    + constructor; [| exact Hall]. cbn [enemy]. split; [exact Ha | congruence].
Qed.

Lemma slotIdentity_id sl :
  Enemy.id (enemy sl) = fst (fst (fst (fst (fst (slotIdentity sl))))).
Proof. reflexivity. Qed.

Lemma map_id_of_identity es es' :
  map slotIdentity es' = map slotIdentity es ->
  map (fun sl => Enemy.id (enemy sl)) es'
  = map (fun sl => Enemy.id (enemy sl)) es.
Proof.
  intros H.
  assert (E : forall xs, map (fun sl => Enemy.id (enemy sl)) xs
                = map (fun t => fst (fst (fst (fst (fst t)))))
                      (map slotIdentity xs))
    by (intros xs; rewrite map_map; reflexivity).
  now rewrite (E es'), (E es), H.
Qed.

(** X20.  The enemy pool of a level: [setLevel] on a game with its scene
    returns normally and leaves exactly [computeEnemyPoolSize(level)]
    enemies, a number between 0 and 20; their ids are 1, 2, ... in pool
    order, and all of them are alive at full hit points.  A level with
    [enemyRate <= 0] (the two park levels of the table) has no enemies. *)
Theorem enemy_pool_for_level (levelId : JsNumber) (g : Game.t)
    (s : nat -> R) (n : nat) :
  hasScene g = true ->
  match fst (setLevel levelId g s n) with
  | None => False
  | Some g' =>
      let k := computeEnemyPoolSize (level g') in
      (0 <= k <= 20)%Z
      /\ List.length (enemies g') = Z.to_nat k
      /\ map (fun sl => Enemy.id (enemy sl)) (enemies g')
         = map Z.of_nat (seq 1 (Z.to_nat k))
      /\ Forall (fun sl => Enemy.alive (enemy sl) = true
                           /\ Enemy.hp (enemy sl) = Enemy.maxHp (enemy sl))
           (enemies g')
      /\ (enemyRate (level g') <= 0 -> enemies g' = [])
  end.
Proof.
  intros Hs. unfold setLevel. rewrite Hs. cbn [negb].
  assert (Hcfg : exists next, getLevelConfig levelId = Some next).
  { destruct (getLevelConfig_cases levelId) as [(l & Hl & _) | [Hl _]];
      eexists; exact Hl. }
  destruct Hcfg as [next Hnext]. rewrite Hnext.
  unfold bind at 1.
  destruct (World.create (World.createWorld next (isIOS g)) s n) as [w n1].
  set (g1 := with_level_world
               (disposeEnemies (with_level_world g next None)) next (Some w)).
  unfold bind at 1.
  assert (Hc : let g2 := fst (createEnemiesForLevel g1 s n1) in
               level g2 = next
               /\ List.length (enemies g2)
                  = Z.to_nat (computeEnemyPoolSize next)
               /\ map (fun sl => Enemy.id (enemy sl)) (enemies g2)
                  = map Z.of_nat (seq 1 (Z.to_nat (computeEnemyPoolSize next)))).
  { cbv zeta. unfold createEnemiesForLevel.
    change (hasScene g1) with (hasScene g). rewrite Hs. cbn [negb].
    change (world g1) with (Some w). change (level g1) with next.
    destruct (Z.leb_spec (computeEnemyPoolSize next) 0) as [Hle | Hgt].
    - cbn [ret fst]. change (enemies g1) with (@nil EnemySlot).
      replace (Z.to_nat (computeEnemyPoolSize next)) with 0%nat by lia.
      repeat split.
    - unfold bind.
      destruct (createEnemies_loop_spec (Z.to_nat (computeEnemyPoolSize next))
                  (World.enemySpawnBounds w) s 0%Z n1) as (Hl & Hids & _).
      destruct (createEnemies_loop 0 _ _ s n1) as [es c]. cbn [fst ret] in *.
      cbn [with_enemies enemies level]. repeat split; assumption. }
  destruct (createEnemiesForLevel g1 s n1) as [g2 n2]. cbn [fst] in Hc.
  destruct Hc as (Hlev & Hlen & Hids).
  unfold bind at 1.
  pose proof (reset_fields ReasonReset g2 s n2) as Hr. cbv zeta in Hr.
  pose proof (reset_level ReasonReset g2 s n2) as Hrl.
  destruct (reset ReasonReset g2 s n2) as [g3 n3]. cbn [fst ret] in *.
  destruct Hr as (_ & _ & _ & _ & _ & Hident & Hall).
  rewrite Hrl, Hlev.
  destruct (computeEnemyPoolSize_range next) as [Hrange Hzero].
  assert (Hlen3 : List.length (enemies g3)
                  = Z.to_nat (computeEnemyPoolSize next)).
  { rewrite <- Hlen, <- (length_map slotIdentity (enemies g3)), Hident.
    apply length_map. }
  split; [exact Hrange |]. split; [exact Hlen3 |]. split.
  - rewrite (map_id_of_identity _ _ Hident). exact Hids.
  - split; [exact Hall |].
    intros Hrate. rewrite (Hzero Hrate) in Hlen3.
    destruct (enemies g3); [reflexivity | discriminate].
Qed.

Lemma enemy_pool_for_level_witness :
  match fst (setLevel (Finite 9) (init false) (fun _ => / 2) 0%nat) with
  | None => False
  | Some g' =>
      let k := computeEnemyPoolSize (level g') in
      (0 <= k <= 20)%Z
      /\ List.length (enemies g') = Z.to_nat k
      /\ map (fun sl => Enemy.id (enemy sl)) (enemies g')
         = map Z.of_nat (seq 1 (Z.to_nat k))
      /\ Forall (fun sl => Enemy.alive (enemy sl) = true
                           /\ Enemy.hp (enemy sl) = Enemy.maxHp (enemy sl))
           (enemies g')
      /\ (enemyRate (level g') <= 0 -> enemies g' = [])
  end.
Proof.
  apply (enemy_pool_for_level (Finite 9) (init false) (fun _ => / 2) 0%nat).
  reflexivity.
Defined.

End EnemyPool.

(** ** worlds: placement, scrolling and recycling *)

Section WorldFacts.

Import Levels World.

Lemma randomLanePos_loop_spec (P : R * R -> Prop) rangeX rangeY fallback s :
  (forall i, 0 <= s i < 1) -> 0 <= rangeX -> 0 <= rangeY ->
  (forall c, P (fst (fallback s c))) ->
  (forall x y, - rangeX <= x <= rangeX -> - rangeY <= y <= rangeY ->
     SAFE_LANE_X < Rabs x \/ SAFE_LANE_Y < Rabs y -> P (x, y)) ->
  forall k c, P (fst (randomLanePos_loop k rangeX rangeY fallback s c)).
Proof.
  intros Hs Hx Hy Hfb Hacc. induction k as [| k IH]; intros c.
  - apply Hfb.
  - cbn [randomLanePos_loop]. unfold bind at 1.
    rewrite randRange_value. unfold bind at 1. rewrite randRange_value.
    set (x := - rangeX + s c * (rangeX - - rangeX)).
    set (y := - rangeY + s (S c) * (rangeY - - rangeY)).
    destruct (Rgtb (Rabs x) SAFE_LANE_X || Rgtb (Rabs y) SAFE_LANE_Y) eqn:E.
    + cbn [ret fst]. apply Hacc.
      * pose proof (Hs c). unfold x. nra.
      * pose proof (Hs (S c)). unfold y. nra.
      * apply orb_prop in E. destruct E as [E | E]; apply Rgtb_true in E;
          [left | right]; assumption.
    + apply IH.
Qed.

(** X21.  Asteroids keep out of the centre lane: for draws of
    [Math.random()] and a field at least as wide as the lane,
    [randomLanePos] returns a position inside the field
    ([|x| <= rangeX], [|y| <= rangeY]) that is not strictly inside the
    safe lane: [|x| >= 3.4] or [|y| >= 2.4], also when all six attempts
    fall into the lane and the fallback is used. *)
Theorem randomLanePos_clear_of_lane (rangeX rangeY : R) (s : nat -> R)
    (n : nat) :
  (forall i, 0 <= s i < 1) ->
  SAFE_LANE_X <= rangeX -> SAFE_LANE_Y <= rangeY ->
  let p := fst (randomLanePos rangeX rangeY s n) in
  - rangeX <= fst p <= rangeX /\ - rangeY <= snd p <= rangeY
  /\ (SAFE_LANE_X <= Rabs (fst p) \/ SAFE_LANE_Y <= Rabs (snd p)).
Proof.
  intros Hs Hx Hy p. unfold p, randomLanePos.
  assert (Lx : 0 < SAFE_LANE_X) by (unfold SAFE_LANE_X; lra).
  assert (Ly : 0 < SAFE_LANE_Y) by (unfold SAFE_LANE_Y; lra).
  apply (randomLanePos_loop_spec
           (fun q => - rangeX <= fst q <= rangeX /\ - rangeY <= snd q <= rangeY
                     /\ (SAFE_LANE_X <= Rabs (fst q)
                         \/ SAFE_LANE_Y <= Rabs (snd q)))); try assumption;
    try lra.
  - intros c. unfold MathUtil.randRange. unfold bind, Math_random, ret.
    cbn [fst snd].
    set (ax := SAFE_LANE_X + s (S c) * (rangeX - SAFE_LANE_X)).
    set (ay := SAFE_LANE_Y + s (S (S (S c))) * (rangeY - SAFE_LANE_Y)).
    assert (Hax : SAFE_LANE_X <= ax <= rangeX)
      by (pose proof (Hs (S c)); unfold ax; nra).
    assert (Hay : SAFE_LANE_Y <= ay <= rangeY)
      by (pose proof (Hs (S (S (S c)))); unfold ay; nra).
    assert (Sx : forall b : bool,
               - rangeX <= (if b then -1 else 1) * ax <= rangeX
               /\ Rabs ((if b then -1 else 1) * ax) = ax).
    { intros b. destruct b.
      - split; [lra |]. replace (-1 * ax) with (- ax) by ring.
        rewrite Rabs_Ropp. apply Rabs_pos_eq. lra.
      - split; [lra |]. rewrite Rmult_1_l. apply Rabs_pos_eq. lra. }
    assert (Sy : forall b : bool,
               - rangeY <= (if b then -1 else 1) * ay <= rangeY).
    { intros b. destruct b; lra. }
    destruct (Sx (Rltb (s c) 0.5)) as [Bx Ex].
    split; [exact Bx |]. split; [apply Sy |].
    left. rewrite Ex. lra.
  - intros x y Bx By Hout. cbn [fst snd].
    split; [exact Bx |]. split; [exact By |].
    destruct Hout; [left | right]; lra.
Qed.

Lemma randomLanePos_clear_of_lane_witness :
  let p := fst (randomLanePos ASTEROID_FIELD_X ASTEROID_FIELD_Y
                  (fun _ => / 2) 0%nat) in
  - ASTEROID_FIELD_X <= fst p <= ASTEROID_FIELD_X
  /\ - ASTEROID_FIELD_Y <= snd p <= ASTEROID_FIELD_Y
  /\ (SAFE_LANE_X <= Rabs (fst p) \/ SAFE_LANE_Y <= Rabs (snd p)).
Proof.
  apply (randomLanePos_clear_of_lane ASTEROID_FIELD_X ASTEROID_FIELD_Y
           (fun _ => / 2) 0%nat);
    unfold SAFE_LANE_X, SAFE_LANE_Y, ASTEROID_FIELD_X, ASTEROID_FIELD_Y;
    intros; cbv beta; lra.
Defined.

(** *** What an update keeps *)

Lemma pickupLoop_length step ps s n :
  List.length (fst (fst (pickupLoop step ps s n))) = List.length ps
  /\ (snd (fst (pickupLoop step ps s n)) <= List.length ps)%nat.
Proof.
  revert n; induction ps as [| p rest IH]; intros n; cbn [pickupLoop].
  - cbn. split; [reflexivity | lia].
  - rewrite !bind_run, ret_run. cbn [fst snd List.length].
    destruct (IH (snd (step p s n))) as [IH1 IH2].
    split; [now rewrite IH1 |].
    destruct (snd (fst (step p s n))); lia.
Qed.

Lemma pickupsUpdate_size step p s n :
  poolSize (fst (fst (pickupsUpdate step p s n))) = poolSize p
  /\ (snd (fst (pickupsUpdate step p s n))
      <= match p with Some pool => List.length (items pool) | None => 0 end)%nat.
Proof.
  destruct p as [pool |]; cbn [pickupsUpdate].
  - rewrite bind_run, ret_run. cbn [fst snd poolSize items count].
    destruct (pickupLoop_length step (items pool) s n) as [A B].
    rewrite A. split; [reflexivity | exact B].
  - cbn. split; [reflexivity | lia].
Qed.

Lemma e_treeLoop_length speed dt playerPos playerRadius ts s n :
  List.length (fst (fst (e_treeLoop speed dt playerPos playerRadius ts s n)))
  = List.length ts.
Proof.
  revert n; induction ts as [| t0 rest IH]; intros n; cbn [e_treeLoop];
    [reflexivity |].
  rewrite bind_run.
  match goal with
  | |- context [if overlaps ?c ?p ?r then _ else _] =>
      destruct (overlaps c p r)
  end.
  - reflexivity.
  - rewrite bind_run, ret_run. cbn [fst snd List.length]. now rewrite IH.
Qed.

Lemma o_update_fields dt nowMs speed playerPos playerRadius o s n :
  let r := fst (o_update dt nowMs speed playerPos playerRadius o s n) in
  geometry (Orbit (fst (fst r))) = geometry (Orbit o)
  /\ o_level (fst (fst r)) = o_level o
  /\ (snd (fst r) = true -> snd r = 0%nat)
  /\ (snd r <= match o_pickups o with
               | Some pool => List.length (items pool)
               | None => 0
               end)%nat
  /\ (obstacleDensity (o_level o) < 0.18 -> snd (fst r) = false).
Proof.
  cbv zeta. unfold o_update. rewrite bind_run.
  set (ast := match o_asteroids o with
              | Some a => _
              | None => _
              end).
  assert (Hast : poolSize (fst (fst (ast s n))) = poolSize (o_asteroids o)
                 /\ (obstacleDensity (o_level o) < 0.18 ->
                     snd (fst (ast s n)) = false)).
  { unfold ast. destruct (o_asteroids o) as [a |].
    - rewrite bind_run, ret_run. cbn [fst snd poolSize items count].
      rewrite (forEachM_length (o_moveAsteroid speed dt) (items a) s n).
      split; [reflexivity |].
      intros Hd. rewrite (proj2 (Rgeb_false _ _) Hd). reflexivity.
    - cbn. split; reflexivity. }
  destruct Hast as [Hsz Hno].
  destruct (snd (fst (ast s n))) eqn:Ehit.
  - rewrite ret_run.
    cbn [fst snd geometry o_inScene o_asteroids o_pickups o_asteroidGeo
           o_asteroidMat o_pickupGeo o_pickupMat o_level].
    rewrite Hsz. repeat split; try reflexivity; try lia.
    intros Hd. specialize (Hno Hd). congruence.
  - rewrite bind_run, ret_run.
    destruct (pickupsUpdate_size
                (stepPickup o_respawnPickup O_Z_BEHIND speed dt playerPos
                   playerRadius) (o_pickups o) s (snd (ast s n))) as [Hp Hc].
    cbn [fst snd geometry o_inScene o_asteroids o_pickups o_asteroidGeo
           o_asteroidMat o_pickupGeo o_pickupMat o_level].
    rewrite Hsz, Hp. repeat split; try reflexivity; try assumption.
    intros H; discriminate.
Qed.

Lemma e_update_fields dt nowMs speed playerPos playerRadius e s n :
  let r := fst (e_update dt nowMs speed playerPos playerRadius e s n) in
  geometry (EarthPark (fst (fst r))) = geometry (EarthPark e)
  /\ e_level (fst (fst r)) = e_level e
  /\ (snd (fst r) = true -> snd r = 0%nat)
  /\ (snd r <= match e_pickups e with
               | Some pool => List.length (items pool)
               | None => 0
               end)%nat
  /\ e_groundTiles (fst (fst r)) = map (scrollTile speed dt) (e_groundTiles e).
Proof.
  cbv zeta. unfold e_update. rewrite bind_run.
  set (tr := match e_trees e with
             | Some a => _
             | None => _
             end).
  assert (Htr : poolSize (fst (fst (tr s n))) = poolSize (e_trees e)).
  { unfold tr. destruct (e_trees e) as [a |].
    - rewrite bind_run, ret_run. cbn [fst snd poolSize items count].
      now rewrite e_treeLoop_length.
    - reflexivity. }
  destruct (snd (fst (tr s n))) eqn:Ehit.
  - rewrite ret_run.
    cbn [fst snd geometry e_inScene e_trees e_pickups e_groundTiles
           e_groundGeo e_groundMat e_trunkGeo e_trunkMat e_foliageGeo
           e_foliageMat e_pickupGeo e_pickupMat e_level].
    rewrite Htr, length_map. repeat split; try reflexivity; lia.
  - rewrite bind_run, ret_run.
    destruct (pickupsUpdate_size
                (stepPickup e_respawnPickup E_Z_BEHIND speed dt playerPos
                   playerRadius) (e_pickups e) s (snd (tr s n))) as [Hp Hc].
    cbn [fst snd geometry e_inScene e_trees e_pickups e_groundTiles
           e_groundGeo e_groundMat e_trunkGeo e_trunkMat e_foliageGeo
           e_foliageMat e_pickupGeo e_pickupMat e_level].
    rewrite Htr, Hp, length_map. repeat split; try reflexivity; try assumption.
    intros H; discriminate.
Qed.

(** X22.  What [World.update] conserves, in both worlds and whatever is
    drawn: the pools keep their sizes and capacities, the ground its
    tiles, and nothing is allocated or released; the level is unchanged;
    it reports at most one collected pickup per pickup of the pool, and
    none at all in a frame that ends in a hit.  In the orbit world
    asteroids only collide on levels with [obstacleDensity >= 0.18]: below
    that the update never reports a hit. *)
Theorem world_update_conserves (dt nowMs speed playerRadius : R)
    (playerPos : Vec3.t) (w : World.t) (s : nat -> R) (n : nat) :
  let r := fst (World.update dt nowMs speed playerPos playerRadius w s n) in
  let hit := snd (fst r) in
  let collected := snd r in
  geometry (fst (fst r)) = geometry w
  /\ World.level (fst (fst r)) = World.level w
  /\ (hit = true -> collected = 0%nat)
  /\ (collected <= match geo_pickups (geometry w) with
                   | Some sz => fst sz
                   | None => 0
                   end)%nat
  /\ (forall o, w = Orbit o -> obstacleDensity (o_level o) < 0.18 ->
        hit = false).
Proof.
  cbv zeta. destruct w as [o | e]; cbn [World.update];
    rewrite bind_run, ret_run; cbn [fst snd].
  - pose proof (o_update_fields dt nowMs speed playerPos playerRadius o s n)
      as H. cbv zeta in H. destruct H as (Hg & Hl & Hh & Hc & Hd).
    split; [exact Hg |]. split; [exact Hl |]. split; [exact Hh |]. split.
    + cbn [geometry geo_pickups]. destruct (o_pickups o); exact Hc.
    + intros o' Ho; injection Ho as <-. exact Hd.
  - pose proof (e_update_fields dt nowMs speed playerPos playerRadius e s n)
      as H. cbv zeta in H. destruct H as (Hg & Hl & Hh & Hc & _).
    split; [exact Hg |]. split; [exact Hl |]. split; [exact Hh |]. split.
    + cbn [geometry geo_pickups]. destruct (e_pickups e); exact Hc.
    + intros o' Ho; discriminate.
Qed.

End WorldFacts.

Section WorldRecycling.

Import Levels World.

Lemma forEachM_Forall {A : Type} (Q : A -> Prop) (f : A -> Rand A)
    (xs : list A) s :
  (forall x n', Q (fst (f x s n'))) ->
  forall n, Forall Q (fst (forEachM f xs s n)).
Proof.
  intros Hf. induction xs as [| x rest IH]; intros n; cbn [forEachM].
  - constructor.
  - rewrite !bind_run, ret_run. cbn [fst]. constructor; [apply Hf | apply IH].
Qed.

Lemma o_moveAsteroid_z speed dt a s n :
  (forall i, 0 <= s i < 1) ->
  O_Z_BEHIND <= Vec3.z (a_pos (fst (o_moveAsteroid speed dt a s n))).
Proof.
  intros Hs. unfold o_moveAsteroid. cbv zeta.
  destruct (Rltb (Vec3.z (a_pos a) - speed * dt) O_Z_BEHIND) eqn:E.
  - rewrite !bind_run, ret_run. cbn [fst a_pos Vec3.z].
    rewrite randRange_value. cbn [fst].
    match goal with |- context [s ?k] => pose proof (Hs k) end.
    unfold O_Z_BEHIND, O_Z_SPAWN_MIN, O_Z_SPAWN_MAX. nra.
  - apply Rltb_false in E. rewrite ret_run. cbn [fst a_pos Vec3.z]. exact E.
Qed.

Lemma o_respawnPickup_z p s n :
  (forall i, 0 <= s i < 1) ->
  O_Z_BEHIND <= Vec3.z (p_pos (fst (o_respawnPickup p s n))).
Proof.
  intros Hs. unfold o_respawnPickup.
  rewrite !bind_run, ret_run. cbn [fst p_pos Vec3.z].
  rewrite randRange_value. cbn [fst].
  match goal with |- context [s ?k] => pose proof (Hs k) end.
  unfold O_Z_BEHIND, O_Z_SPAWN_MIN, O_Z_SPAWN_MAX. nra.
Qed.

Lemma e_respawnPickup_z p s n :
  (forall i, 0 <= s i < 1) ->
  E_Z_BEHIND <= Vec3.z (p_pos (fst (e_respawnPickup p s n))).
Proof.
  intros Hs. unfold e_respawnPickup.
  rewrite !bind_run, ret_run. cbn [fst p_pos Vec3.z].
  rewrite randRange_value. cbn [fst].
  match goal with |- context [s ?k] => pose proof (Hs k) end.
  unfold E_Z_BEHIND, E_Z_SPAWN_MIN, E_Z_SPAWN_MAX. nra.
Qed.

Lemma stepPickup_z respawn behind speed dt playerPos playerRadius p s n :
  (forall q n', behind <= Vec3.z (p_pos (fst (respawn q s n')))) ->
  behind <= Vec3.z (p_pos (fst (fst (stepPickup respawn behind speed dt
                                       playerPos playerRadius p s n)))).
Proof.
  intros Hr. unfold stepPickup. rewrite bind_run. cbv beta zeta.
  cbn [p_pos Vec3.z].
  destruct (Rltb (Vec3.z (p_pos p) - speed * dt) behind) eqn:E.
  - match goal with
    | |- context [if overlaps ?a ?b ?c then _ else _] =>
        destruct (overlaps a b c)
    end.
    + rewrite bind_run, ret_run. cbn [fst]. apply Hr.
    + rewrite ret_run. cbn [fst]. apply Hr.
  - apply Rltb_false in E. rewrite ret_run. cbn [fst snd].
    match goal with
    | |- context [if overlaps ?a ?b ?c then _ else _] =>
        destruct (overlaps a b c)
    end.
    + rewrite bind_run, ret_run. cbn [fst]. apply Hr.
    + rewrite ret_run. cbn [fst p_pos Vec3.z]. exact E.
Qed.

Lemma pickupLoop_Forall (Q : Pickup -> Prop) step ps s :
  (forall p n', Q (fst (fst (step p s n')))) ->
  forall n, Forall Q (fst (fst (pickupLoop step ps s n))).
Proof.
  intros Hq. induction ps as [| p rest IH]; intros n; cbn [pickupLoop].
  - constructor.
  - rewrite !bind_run, ret_run. cbn [fst]. constructor; [apply Hq | apply IH].
Qed.

Lemma pickupsUpdate_z step behind p s n :
  (forall q n', behind <= Vec3.z (p_pos (fst (fst (step q s n'))))) ->
  Forall (fun z => behind <= z)
    match fst (fst (pickupsUpdate step p s n)) with
    | Some pool => map (fun k => Vec3.z (p_pos k)) (items pool)
    | None => []
    end.
Proof.
  intros Hq. destruct p as [pool |]; cbn [pickupsUpdate].
  - rewrite bind_run, ret_run. cbn [fst items].
    apply Forall_map.
    apply (pickupLoop_Forall (fun k => behind <= Vec3.z (p_pos k))). exact Hq.
  - cbn. constructor.
Qed.

Lemma e_treeLoop_z speed dt playerPos playerRadius ts s :
  (forall i, 0 <= s i < 1) ->
  forall n,
  snd (fst (e_treeLoop speed dt playerPos playerRadius ts s n)) = false ->
  Forall (fun t0 => E_Z_BEHIND <= Vec3.z (t_pos t0))
    (fst (fst (e_treeLoop speed dt playerPos playerRadius ts s n))).
Proof.
  intros Hs. induction ts as [| t0 rest IH]; intros n; cbn [e_treeLoop].
  - intros _. constructor.
  - rewrite bind_run. cbv beta zeta.
    destruct (Rltb (Vec3.z (t_pos t0) - speed * dt) E_Z_BEHIND) eqn:E.
    + match goal with
      | |- context [if overlaps ?a ?b ?c then _ else _] =>
          destruct (overlaps a b c)
      end.
      * rewrite ret_run. cbn [fst snd]. discriminate.
      * rewrite bind_run, ret_run. cbn [fst snd]. intros Hno.
        constructor; [| apply IH; exact Hno].
        rewrite !bind_run, ret_run. cbn [fst t_pos Vec3.z].
        rewrite randRange_value. cbn [fst].
        match goal with |- context [s ?k] => pose proof (Hs k) end.
        unfold E_Z_BEHIND, E_Z_SPAWN_MIN, E_Z_SPAWN_MAX. nra.
    + apply Rltb_false in E. rewrite ret_run. cbn [fst snd].
      match goal with
      | |- context [if overlaps ?a ?b ?c then _ else _] =>
          destruct (overlaps a b c)
      end.
      * rewrite ret_run. cbn [fst snd]. discriminate.
      * rewrite bind_run, ret_run. cbn [fst snd]. intros Hno.
        constructor; [| apply IH; exact Hno].
        cbn [t_pos Vec3.z]. exact E.
Qed.

(** X23.  Nothing lingers behind the player: after a [World.update] that
    reports no hit, for draws of [Math.random()], every obstacle (asteroid
    or tree) and every pickup of the world is at or ahead of the world's
    recycling plane [behindZ] (-28 in orbit, -32 in the park): whatever
    scrolled past it was put back ahead in the same call. *)
Theorem update_recycles_behind (dt nowMs speed playerRadius : R)
    (playerPos : Vec3.t) (w : World.t) (s : nat -> R) (n : nat) :
  (forall i, 0 <= s i < 1) ->
  let r := fst (World.update dt nowMs speed playerPos playerRadius w s n) in
  snd (fst r) = false ->
  Forall (fun z => behindZ w <= z) (obstacleZs (fst (fst r)))
  /\ Forall (fun z => behindZ w <= z) (pickupZs (fst (fst r))).
Proof.
  intros Hs. cbv zeta.
  destruct w as [o | e]; cbn [World.update];
    rewrite bind_run, ret_run; cbn [fst snd behindZ obstacleZs pickupZs].
  - unfold o_update. rewrite bind_run.
    set (ast := match o_asteroids o with
                | Some a => _
                | None => _
                end).
    assert (Hast : Forall (fun z => O_Z_BEHIND <= z)
                     match fst (fst (ast s n)) with
                     | Some p => map (fun a => Vec3.z (a_pos a)) (items p)
                     | None => []
                     end).
    { unfold ast. destruct (o_asteroids o) as [a |].
      - rewrite bind_run, ret_run. cbn [fst items].
        apply Forall_map.
        apply (forEachM_Forall (fun a0 => O_Z_BEHIND <= Vec3.z (a_pos a0))).
        intros x n'. apply o_moveAsteroid_z. exact Hs.
      - cbn. constructor. }
    destruct (snd (fst (ast s n))).
    + rewrite ret_run. cbn [fst snd]. discriminate.
    + rewrite bind_run, ret_run. cbn [fst snd o_asteroids o_pickups].
      intros _. split; [exact Hast |].
      apply (pickupsUpdate_z _ O_Z_BEHIND).
      intros q n'. apply stepPickup_z.
      intros q' n''. apply o_respawnPickup_z. exact Hs.
  - unfold e_update. rewrite bind_run.
    set (tr := match e_trees e with
               | Some a => _
               | None => _
               end).
    assert (Htr : snd (fst (tr s n)) = false ->
                  Forall (fun z => E_Z_BEHIND <= z)
                    match fst (fst (tr s n)) with
                    | Some p => map (fun t0 => Vec3.z (t_pos t0)) (items p)
                    | None => []
                    end).
    { unfold tr. destruct (e_trees e) as [a |].
      - rewrite bind_run, ret_run. cbn [fst snd items]. intros Hno.
        apply Forall_map. apply e_treeLoop_z; assumption.
      - cbn. constructor. }
    destruct (snd (fst (tr s n))).
    + rewrite ret_run. cbn [fst snd]. discriminate.
    + rewrite bind_run, ret_run. cbn [fst snd e_trees e_pickups].
      intros _. split; [apply Htr; reflexivity |].
      apply (pickupsUpdate_z _ E_Z_BEHIND).
      intros q n'. apply stepPickup_z.
      intros q' n''. apply e_respawnPickup_z. exact Hs.
Qed.

End WorldRecycling.

Section WorldRecyclingWitness.

Import Levels World.

Lemma o_reset_level o s n : o_level (fst (o_reset o s n)) = o_level o.
Proof. unfold o_reset. rewrite !bind_run, ret_run. reflexivity. Qed.

Lemma o_create_level o s n : o_level (fst (o_create o s n)) = o_level o.
Proof.
  unfold o_create. rewrite !bind_run. cbv beta zeta.
  rewrite o_reset_level. reflexivity.
Qed.

Lemma update_recycles_behind_witness :
  let s := fun _ : nat => / 2 in
  let o := fst (o_create (o_new (nth 9 LEVELS level8) false) s 0%nat) in
  let r := fst (World.update 0.016 1000 16 (Vec3.mk 0 0 0) 1.1 (Orbit o)
                  s 2000%nat) in
  Forall (fun z => behindZ (Orbit o) <= z) (obstacleZs (fst (fst r)))
  /\ Forall (fun z => behindZ (Orbit o) <= z) (pickupZs (fst (fst r))).
Proof.
  intros s o.
  apply (update_recycles_behind 0.016 1000 16 1.1 (Vec3.mk 0 0 0) (Orbit o)
           s 2000%nat).
  - intros i. unfold s. lra.
  - cbn [World.update]. rewrite bind_run, ret_run. cbn [fst snd].
    apply (o_update_fields 0.016 1000 16 (Vec3.mk 0 0 0) 1.1 o s 2000%nat).
    unfold o. rewrite o_create_level. cbn [o_new o_level].
    unfold LEVELS. cbn [nth obstacleDensity]. lra.
Defined.

End WorldRecyclingWitness.

Section GroundTiles.

Import World.

Lemma list3_eq (a b c a' b' c' : R) :
  a = a' -> b = b' -> c = c' -> [a; b; c] = [a'; b'; c'].
Proof. now intros -> -> ->. Qed.

Lemma scrollTile_z speed dt t0 :
  g_z (scrollTile speed dt t0)
  = (if Rltb (g_z t0 - speed * dt) (-77) then g_z t0 - speed * dt + 270
     else g_z t0 - speed * dt)
  /\ g_meshZ (scrollTile speed dt t0) = g_z (scrollTile speed dt t0).
Proof.
  unfold scrollTile, E_Z_BEHIND, TILE_LENGTH, TILE_COUNT. cbn [g_z g_meshZ].
  replace (-32 - 90 * 0.5) with (-77) by lra.
  replace (90 * INR 3) with 270 by (simpl; lra).
  split; reflexivity.
Qed.

Lemma tiles_three (ts : list GroundTile) x y z :
  map g_z ts = [x; y; z] ->
  exists t0 t1 t2, ts = [t0; t1; t2]
                   /\ g_z t0 = x /\ g_z t1 = y /\ g_z t2 = z.
Proof.
  intros H. destruct ts as [| t0 [| t1 [| t2 [| t3 rest]]]]; try discriminate.
  injection H as H0 H1 H2. exists t0, t1, t2. repeat split; assumption.
Qed.

(** The tiles sit 90 apart, the nearest one at [a] with
    [-77 <= a < 13]; which tile of the list is the nearest rotates. *)
Lemma scroll_keeps_spacing speed dt (ts : list GroundTile) a :
  0 <= speed * dt <= 90 -> -77 <= a < 13 ->
  (map g_z ts = [a; a + 90; a + 180]
   \/ map g_z ts = [a + 180; a; a + 90]
   \/ map g_z ts = [a + 90; a + 180; a]) ->
  exists a', -77 <= a' < 13
    /\ (map g_z (map (scrollTile speed dt) ts) = [a'; a' + 90; a' + 180]
        \/ map g_z (map (scrollTile speed dt) ts) = [a' + 180; a'; a' + 90]
        \/ map g_z (map (scrollTile speed dt) ts) = [a' + 90; a' + 180; a']).
Proof.
  intros Hd Ha Hts.
  assert (Hstep : forall t0 v, g_z t0 = v ->
            g_z (scrollTile speed dt t0)
            = if Rltb (v - speed * dt) (-77) then v - speed * dt + 270
              else v - speed * dt).
  { intros t0 v <-. apply scrollTile_z. }
  destruct (Rlt_dec (a - speed * dt) (-77)) as [Hw | Hn].
  - (* the nearest tile wraps to the far end *)
    exists (a + 90 - speed * dt). split; [lra |].
    destruct Hts as [H | [H | H]];
      destruct (tiles_three ts _ _ _ H) as (t0 & t1 & t2 & -> & E0 & E1 & E2);
      cbn [map];
      rewrite (Hstep _ _ E0), (Hstep _ _ E1), (Hstep _ _ E2).
    + rewrite (proj2 (Rltb_true (a - speed * dt) (-77))) by lra.
      rewrite (proj2 (Rltb_false (a + 90 - speed * dt) (-77))) by lra.
      rewrite (proj2 (Rltb_false (a + 180 - speed * dt) (-77))) by lra.
      right; left. apply list3_eq; lra.
    + rewrite (proj2 (Rltb_true (a - speed * dt) (-77))) by lra.
      rewrite (proj2 (Rltb_false (a + 90 - speed * dt) (-77))) by lra.
      rewrite (proj2 (Rltb_false (a + 180 - speed * dt) (-77))) by lra.
      right; right. apply list3_eq; lra.
    + rewrite (proj2 (Rltb_true (a - speed * dt) (-77))) by lra.
      rewrite (proj2 (Rltb_false (a + 90 - speed * dt) (-77))) by lra.
      rewrite (proj2 (Rltb_false (a + 180 - speed * dt) (-77))) by lra.
      left. apply list3_eq; lra.
  - exists (a - speed * dt). split; [lra |].
    destruct Hts as [H | [H | H]];
      destruct (tiles_three ts _ _ _ H) as (t0 & t1 & t2 & -> & E0 & E1 & E2);
      cbn [map];
      rewrite (Hstep _ _ E0), (Hstep _ _ E1), (Hstep _ _ E2);
      rewrite (proj2 (Rltb_false (a - speed * dt) (-77))) by lra;
      rewrite (proj2 (Rltb_false (a + 90 - speed * dt) (-77))) by lra;
      rewrite (proj2 (Rltb_false (a + 180 - speed * dt) (-77))) by lra.
    + left. apply list3_eq; lra.
    + right; left. apply list3_eq; lra.
    + right; right. apply list3_eq; lra.
Qed.

Lemma scrollTilesBy_spacing moves :
  Forall (fun m => 0 <= fst m * snd m <= 90) moves ->
  forall ts a, -77 <= a < 13 ->
  (map g_z ts = [a; a + 90; a + 180]
   \/ map g_z ts = [a + 180; a; a + 90]
   \/ map g_z ts = [a + 90; a + 180; a]) ->
  exists a', -77 <= a' < 13
    /\ (map g_z (scrollTilesBy moves ts) = [a'; a' + 90; a' + 180]
        \/ map g_z (scrollTilesBy moves ts) = [a' + 180; a'; a' + 90]
        \/ map g_z (scrollTilesBy moves ts) = [a' + 90; a' + 180; a']).
Proof.
  induction 1 as [| [speed dt] rest Hm _ IH]; intros ts a Ha Hts.
  - exists a. split; assumption.
  - cbn [scrollTilesBy]. cbn [fst snd] in Hm.
    destruct (scroll_keeps_spacing speed dt ts a Hm Ha Hts) as (a1 & Ha1 & H1).
    exact (IH _ a1 Ha1 H1).
Qed.

Lemma resetTiles_three ts :
  List.length ts = TILE_COUNT ->
  map g_z (resetTiles 0 ts) = [0; 0 + 90; 0 + 180].
Proof.
  unfold TILE_COUNT. intros H.
  destruct ts as [| t0 [| t1 [| t2 [| t3 rest]]]]; try discriminate.
  cbn [resetTiles map g_z]. unfold TILE_LENGTH. simpl INR.
  apply list3_eq; lra.
Qed.

(** X24.  The park's ground never shows a gap under the play area: from
    the three tiles as [reset] lays them out, after any number of scrolls
    by at most one tile length each (a frame moves the ground by at most
    0.8), every depth [z] from the recycling plane -32 to 148 lies on a
    tile, i.e. within half a tile length of a tile's centre; the tiles
    stay three, 90 apart, and no tile is farther behind than -77.
    [EarthParkWorld.update] scrolls the tiles by exactly this step. *)
Theorem ground_stays_covered (ts : list GroundTile) (moves : list (R * R)) :
  List.length ts = TILE_COUNT ->
  Forall (fun m => 0 <= fst m * snd m <= TILE_LENGTH) moves ->
  let ts' := scrollTilesBy moves (resetTiles 0 ts) in
  List.length ts' = TILE_COUNT
  /\ Forall (fun t0 => E_Z_BEHIND - TILE_LENGTH / 2 <= g_z t0) ts'
  /\ (forall z, E_Z_BEHIND <= z <= 148 ->
        exists t0, In t0 ts' /\ Rabs (z - g_z t0) <= TILE_LENGTH / 2)
  /\ (forall dt nowMs speed playerPos playerRadius e s n,
        e_groundTiles
          (fst (fst (fst (e_update dt nowMs speed playerPos playerRadius e s n))))
        = map (scrollTile speed dt) (e_groundTiles e)).
Proof.
  intros Hlen Hmoves ts'.
  assert (Hm : Forall (fun m => 0 <= fst m * snd m <= 90) moves)
    by (unfold TILE_LENGTH in Hmoves; exact Hmoves).
  destruct (scrollTilesBy_spacing moves Hm (resetTiles 0 ts) 0 ltac:(lra)
              (or_introl (resetTiles_three ts Hlen)))
    as (a & Ha & Hts).
  fold ts' in Hts.
  unfold E_Z_BEHIND, TILE_LENGTH, TILE_COUNT.
  assert (Hcases : exists t0 t1 t2,
             In t0 ts' /\ In t1 ts' /\ In t2 ts'
             /\ List.length ts' = 3%nat
             /\ g_z t0 = a /\ g_z t1 = a + 90 /\ g_z t2 = a + 180
             /\ forall t3, In t3 ts' -> t3 = t0 \/ t3 = t1 \/ t3 = t2).
  { destruct Hts as [H | [H | H]];
      destruct (tiles_three ts' _ _ _ H) as (u0 & u1 & u2 & E & E0 & E1 & E2);
      rewrite E.
    - exists u0, u1, u2. cbn [In List.length]. intuition.
    - exists u1, u2, u0. cbn [In List.length]. intuition.
    - exists u2, u0, u1. cbn [In List.length]. intuition. }
  destruct Hcases as (t0 & t1 & t2 & I0 & I1 & I2 & L & E0 & E1 & E2 & Hall).
  split; [exact L |]. split; [| split].
  - apply Forall_forall. intros t3 Hin.
    destruct (Hall t3 Hin) as [-> | [-> | ->]]; lra.
  - intros z Hz.
    destruct (Rle_dec z (a + 45)) as [H1 | H1].
    + exists t0. split; [exact I0 |]. rewrite E0. apply Rabs_le. lra.
    + destruct (Rle_dec z (a + 135)) as [H2 | H2].
      * exists t1. split; [exact I1 |]. rewrite E1. apply Rabs_le. lra.
      * exists t2. split; [exact I2 |]. rewrite E2. apply Rabs_le. lra.
  - intros dt nowMs speed playerPos playerRadius e s n.
    apply (e_update_fields dt nowMs speed playerPos playerRadius e s n).
Qed.

Lemma ground_stays_covered_witness :
  let ts := makeTiles 0 TILE_COUNT in
  let moves := [(16, 0.05); (16, 0.016); (0, 0.016)] in
  let ts' := scrollTilesBy moves (resetTiles 0 ts) in
  List.length ts' = TILE_COUNT
  /\ Forall (fun t0 => E_Z_BEHIND - TILE_LENGTH / 2 <= g_z t0) ts'
  /\ (forall z, E_Z_BEHIND <= z <= 148 ->
        exists t0, In t0 ts' /\ Rabs (z - g_z t0) <= TILE_LENGTH / 2)
  /\ (forall dt nowMs speed playerPos playerRadius e s n,
        e_groundTiles
          (fst (fst (fst (e_update dt nowMs speed playerPos playerRadius e s n))))
        = map (scrollTile speed dt) (e_groundTiles e)).
Proof.
  intros ts moves.
  apply (ground_stays_covered ts moves).
  - reflexivity.
  - unfold moves, TILE_LENGTH. repeat constructor; cbn [fst snd]; lra.
Defined.

End GroundTiles.

(** ** Game.ts: the blocks of a frame *)

Section FrameBlocks.

Import Levels Projectiles Game.

Lemma carriesOn_refl g : carriesOn g g.
Proof. unfold carriesOn. repeat split; reflexivity. Qed.

Lemma carriesOn_trans g1 g2 g3 :
  carriesOn g1 g2 -> carriesOn g2 g3 -> carriesOn g1 g3.
Proof.
  unfold carriesOn.
  intros (A1 & A2 & A3 & A4 & A5 & A6 & A7 & A8)
         (B1 & B2 & B3 & B4 & B5 & B6 & B7 & B8).
  repeat split; try congruence. lia.
Qed.

Lemma spawnFirst_length {A : Type} (free : A -> bool) (f : A -> A) xs xs' :
  spawnFirst free f xs = Some xs' -> List.length xs' = List.length xs.
Proof.
  revert xs'; induction xs as [| x rest IH]; intros xs'; cbn [spawnFirst].
  - discriminate.
  - destruct (free x).
    + intros H; injection H as <-. reflexivity.
    + destruct (spawnFirst free f rest) as [rest' |]; [| discriminate].
      intros H; injection H as <-. cbn [List.length]. now rewrite (IH rest').
Qed.

Lemma spawnFirst_map {A B : Type} (h : A -> B) (free : A -> bool)
    (f : A -> A) xs xs' :
  (forall x, h (f x) = h x) ->
  spawnFirst free f xs = Some xs' -> map h xs' = map h xs.
Proof.
  intros Hf. revert xs'; induction xs as [| x rest IH]; intros xs';
    cbn [spawnFirst].
  - discriminate.
  - destruct (free x).
    + intros H; injection H as <-. cbn [map]. now rewrite Hf.
    + destruct (spawnFirst free f rest) as [rest' |]; [| discriminate].
      intros H; injection H as <-. cbn [map]. now rewrite (IH rest').
Qed.

Lemma addScore_carriesOn amount g : carriesOn g (addScore amount g).
Proof.
  unfold carriesOn. pose proof (addScore_score amount g) as Hs.
  unfold addScore in *.
  destruct (Z.max 0 (Zfloor amount) =? 0)%Z;
    repeat split; try reflexivity; lia.
Qed.

Lemma explode_carriesOn at0 sc g : carriesOn g (explode at0 sc g).
Proof.
  unfold explode.
  destruct (spawnFirst _ _ (explosions g)) as [xs |] eqn:E;
    [| apply carriesOn_refl].
  apply spawnFirst_length in E.
  unfold carriesOn, shape. cbn. rewrite E. repeat split; lia.
Qed.

Lemma takeDamage_identity amount sl d :
  slotIdentity {| enemy := Enemy.takeDamage amount (enemy sl);
                  deadUntilMs := d |}
  = slotIdentity sl.
Proof.
  unfold slotIdentity, Enemy.takeDamage. cbn [enemy].
  destruct (Enemy.alive (enemy sl)); reflexivity.
Qed.

Lemma update_identity dt worldSpeed playerPos timeMs sl d :
  slotIdentity {| enemy := Enemy.update dt worldSpeed playerPos timeMs (enemy sl);
                  deadUntilMs := d |}
  = slotIdentity sl.
Proof.
  unfold slotIdentity, Enemy.update. cbn [enemy].
  destruct (Enemy.alive (enemy sl)); reflexivity.
Qed.

Lemma spawn_identity bounds playerY e d d' s n :
  slotIdentity {| enemy := fst (Enemy.spawn bounds playerY e s n);
                  deadUntilMs := d |}
  = slotIdentity {| enemy := e; deadUntilMs := d' |}.
Proof. reflexivity. Qed.

Lemma getEnemyKillReward_run g s n :
  snd (getEnemyKillReward g s n) = S n.
Proof. reflexivity. Qed.

(** One laser against the pool. *)
Lemma laserScan_spec nowMs l slots :
  forall g s n,
  match fst (laserScan nowMs l slots g s n) with
  | Some hit =>
      map slotIdentity (fst hit) = map slotIdentity slots
      /\ carriesOn g (snd hit)
  | None => True
  end.
Proof.
  induction slots as [| slot rest IH]; intros g s n; cbn [laserScan].
  - exact I.
  - destruct (Enemy.alive (enemy slot) && Rltb _ _).
    + destruct (negb (Enemy.alive (Enemy.takeDamage 1 (enemy slot)))).
      * rewrite !bind_run, ret_run. cbn [fst snd map].
        split.
        -- f_equal. apply takeDamage_identity.
        -- eapply carriesOn_trans; [apply addScore_carriesOn |].
           apply explode_carriesOn.
      * rewrite ret_run. cbn [fst snd map]. split.
        -- f_equal. apply takeDamage_identity.
        -- apply carriesOn_refl.
    + rewrite bind_run, ret_run. cbn [fst].
      specialize (IH g s n).
      destruct (fst (laserScan nowMs l rest g s n)) as [hit |]; [| exact I].
      cbn [fst snd map]. destruct IH as [IH1 IH2].
      split; [now rewrite IH1 | exact IH2].
Qed.

Lemma laserLoop_spec nowMs ls :
  forall slots g s n,
  let r := fst (laserLoop nowMs ls slots g s n) in
  List.length (fst r) = List.length ls
  /\ map slotIdentity (fst (snd r)) = map slotIdentity slots
  /\ carriesOn g (snd (snd r)).
Proof.
  induction ls as [| l rest IH]; intros slots g s n; cbn [laserLoop].
  - cbn. repeat split. apply carriesOn_refl.
  - cbv zeta. rewrite !bind_run, ret_run. cbv beta. cbn [fst snd List.length].
    match goal with
    | |- context [laserLoop nowMs rest (fst (snd (fst ?c0)))] => set (c := c0)
    end.
    assert (Hc : map slotIdentity (fst (snd (fst c))) = map slotIdentity slots
                 /\ carriesOn g (snd (snd (fst c)))).
    { unfold c. destruct (negb (l_active l)).
      - rewrite ret_run. cbn [fst snd]. split; [reflexivity | apply carriesOn_refl].
      - destruct (Rgtb (Vec3.z (l_pos l)) LASER_Z_MAX).
        + rewrite ret_run. cbn [fst snd].
          split; [reflexivity | apply carriesOn_refl].
        + rewrite bind_run, ret_run. cbn [fst].
          pose proof (laserScan_spec nowMs l slots g s n) as Hs.
          destruct (fst (laserScan nowMs l slots g s n)) as [hit |].
          * cbn [fst snd]. exact Hs.
          * cbn [fst snd]. split; [reflexivity | apply carriesOn_refl]. }
    destruct Hc as [Hc1 Hc2].
    specialize (IH (fst (snd (fst c))) (snd (snd (fst c))) s (snd c)).
    cbv zeta in IH. destruct IH as (IH1 & IH2 & IH3).
    split; [now rewrite IH1 |]. split; [congruence |].
    eapply carriesOn_trans; eassumption.
Qed.

Lemma lasersBlock_carriesOn dt nowMs g s n :
  carriesOn g (fst (lasersBlock dt nowMs g s n)).
Proof.
  unfold lasersBlock. destruct (lasers g) as [items |] eqn:El.
  - rewrite bind_run, ret_run. cbn [fst].
    destruct (laserLoop_spec nowMs (map (laserUpdate dt) items) (enemies g) g
                s n) as (H1 & H2 & H3).
    cbv zeta in *.
    set (r := fst (laserLoop nowMs (map (laserUpdate dt) items) (enemies g) g
                     s n)) in *.
    destruct H3 as (S1 & S2 & S3 & S4 & S5 & S6 & S7 & S8).
    unfold carriesOn, shape in *. cbn.
    rewrite El in *. cbn [option_map] in *.
    rewrite H1, length_map, H2.
    injection S1 as I1 I2 I3 I4 I5 I6 I7 I8 I9 I10 I11.
    repeat split; try congruence.
  - rewrite ret_run. apply carriesOn_refl.
Qed.

End FrameBlocks.

Section FrameBlocks2.

Import Levels Projectiles Game.

Lemma updateAt_map {A B : Type} (h : A -> B) (f : A -> A) xs :
  forall i x, nth_error xs i = Some x -> h (f x) = h x ->
  map h (updateAt i f xs) = map h xs.
Proof.
  induction xs as [| y rest IH]; intros i x Hn Hf.
  - destruct i; discriminate.
  - destruct i as [| i]; cbn [updateAt map nth_error] in *.
    + injection Hn as ->. now rewrite Hf.
    + f_equal. eapply IH; eassumption.
Qed.

Lemma with_enemies_carriesOn g es :
  map slotIdentity es = map slotIdentity (enemies g) ->
  carriesOn g (with_enemies g es).
Proof.
  intros H. unfold carriesOn, shape. cbn. rewrite H. repeat split; reflexivity.
Qed.

Lemma missileStep_carriesOn dt nowMs m g s n :
  carriesOn g (snd (fst (missileStep dt nowMs m g s n))).
Proof.
  unfold missileStep.
  destruct (negb (m_active (shot m))).
  - rewrite ret_run. apply carriesOn_refl.
  - cbv zeta. rewrite bind_run, ret_run. cbn [fst snd].
    destruct (findNearestEnemy (enemies g) (m_pos (shot m))) as [i |];
      [| rewrite ret_run; apply carriesOn_refl].
    destruct (nth_error (enemies g) i) as [slot |] eqn:En;
      [| rewrite ret_run; apply carriesOn_refl].
    cbn [option_map snd].
    match goal with
    | |- context [if Rltb ?a ?b then _ else _] => destruct (Rltb a b)
    end; [| rewrite ret_run; apply carriesOn_refl].
    rewrite !bind_run, ret_run. cbn [fst snd].
    set (e1 := Enemy.takeDamage 999 (enemy slot)).
    set (g1 := with_enemies g _).
    assert (H1 : carriesOn g g1).
    { apply with_enemies_carriesOn.
      apply (updateAt_map slotIdentity _ _ i slot En).
      apply takeDamage_identity. }
    set (g2 := addScore _ g1).
    assert (H2 : carriesOn g1 g2) by apply addScore_carriesOn.
    set (g3 := explode _ _ g2).
    assert (H3 : carriesOn g2 g3) by apply explode_carriesOn.
    assert (H13 : carriesOn g g3)
      by (eapply carriesOn_trans; [exact H1 |];
          eapply carriesOn_trans; eassumption).
    destruct (existsb _ (enemies g3)); [| rewrite ret_run; exact H13].
    rewrite bind_run, ret_run. cbn [fst].
    match goal with
    | |- context [spawnFirst ?p ?f (enemies g3)] =>
        destruct (spawnFirst p f (enemies g3)) as [es |] eqn:Es
    end; [| exact H13].
    eapply carriesOn_trans; [exact H13 |].
    apply with_enemies_carriesOn.
    eapply spawnFirst_map; [| exact Es]. reflexivity.
Qed.

Lemma missileLoop_spec dt nowMs ms :
  forall g s n,
  List.length (fst (fst (missileLoop dt nowMs ms g s n))) = List.length ms
  /\ carriesOn g (snd (fst (missileLoop dt nowMs ms g s n))).
Proof.
  induction ms as [| m rest IH]; intros g s n; cbn [missileLoop].
  - cbn. split; [reflexivity | apply carriesOn_refl].
  - rewrite !bind_run, ret_run. cbn [fst snd List.length].
    pose proof (missileStep_carriesOn dt nowMs m g s n) as H1.
    destruct (IH (snd (fst (missileStep dt nowMs m g s n))) s
                 (snd (missileStep dt nowMs m g s n))) as [IH1 IH2].
    split; [now rewrite IH1 |].
    eapply carriesOn_trans; eassumption.
Qed.

Lemma missilesBlock_carriesOn dt nowMs g s n :
  carriesOn g (fst (missilesBlock dt nowMs g s n)).
Proof.
  unfold missilesBlock. rewrite bind_run, ret_run. cbn [fst].
  destruct (missileLoop_spec dt nowMs (missiles g) g s n) as [H1 H2].
  set (r := fst (missileLoop dt nowMs (missiles g) g s n)) in *.
  destruct H2 as (S1 & S2 & S3 & S4 & S5 & S6 & S7 & S8).
  unfold carriesOn, shape in *. cbn. rewrite H1.
  injection S1 as I1 I2 I3 I4 I5 I6 I7 I8 I9 I10 I11.
  repeat split; try congruence.
Qed.

Lemma explosions_carriesOn dt g :
  carriesOn g (with_explosions g (map (explosionStep dt) (explosions g))).
Proof.
  unfold carriesOn, shape. cbn. rewrite length_map. repeat split; reflexivity.
Qed.

Lemma enemyLoop_identity dt nowMs worldSpeed playerPos spawnBounds behindZ slots :
  forall s n,
  map slotIdentity
    (fst (fst (enemyLoop dt nowMs worldSpeed playerPos spawnBounds behindZ
                 slots s n)))
  = map slotIdentity slots.
Proof.
  induction slots as [| slot rest IH]; intros s n; cbn [enemyLoop].
  - reflexivity.
  - destruct (negb (Enemy.alive (enemy slot))).
    + rewrite !bind_run, ret_run. cbn [fst map]. rewrite IH. f_equal.
      destruct (Rgeb nowMs (deadUntilMs slot)).
      * rewrite bind_run, ret_run. cbn [fst]. destruct slot; reflexivity.
      * reflexivity.
    + destruct (Enemy.isOutOfRange _ _).
      * rewrite !bind_run, ret_run. cbn [fst map]. rewrite IH. f_equal.
        rewrite (spawn_identity _ _ _ _ (deadUntilMs slot)).
        apply update_identity.
      * match goal with
        | |- context [if Rltb ?a ?b then _ else _] => destruct (Rltb a b)
        end.
        -- rewrite ret_run. cbn [fst map]. f_equal. apply update_identity.
        -- rewrite bind_run, ret_run. cbn [fst map]. rewrite IH. f_equal.
           apply update_identity.
Qed.

Lemma fireMissile_carriesOn g : carriesOn g (fireMissile g).
Proof.
  unfold fireMissile. destruct (negb (running g)); [apply carriesOn_refl |].
  destruct (spawnFirst _ _ (missiles g)) as [ms |] eqn:E;
    [| apply carriesOn_refl].
  apply spawnFirst_length in E.
  unfold carriesOn, shape. cbn. rewrite E. repeat split; reflexivity.
Qed.

Lemma triggerFlip_carriesOn a d g : carriesOn g (triggerFlip a d g).
Proof.
  unfold triggerFlip, carriesOn, shape. cbn.
  destruct (drone g); repeat split; reflexivity.
Qed.

Lemma queueGunBurst_carriesOn count now g :
  carriesOn g (queueGunBurst count now g).
Proof.
  unfold queueGunBurst. destruct (negb (running g)); [apply carriesOn_refl |].
  unfold carriesOn, shape. cbn. repeat split; reflexivity.
Qed.

Lemma with_guns_carriesOn g rem nextMs lastMs0 items items' :
  lasers g = Some items -> List.length items' = List.length items ->
  carriesOn g (with_guns g rem nextMs lastMs0 (Some items')).
Proof.
  intros Hl Hlen. unfold carriesOn, shape. cbn. rewrite Hl. cbn. rewrite Hlen.
  repeat split; reflexivity.
Qed.

Lemma spawnLaser_length playerPos items :
  List.length (fst (spawnLaser playerPos items)) = List.length items.
Proof.
  unfold spawnLaser.
  destruct (spawnFirst _ _ items) as [items' |] eqn:E; cbn [fst];
    [eapply spawnFirst_length; exact E | reflexivity].
Qed.

Lemma gunBlock_carriesOn input nowMs items g :
  lasers g = Some items ->
  carriesOn g (fst (gunBlock input nowMs items g)).
Proof.
  intros Hl. unfold gunBlock.
  pose proof (spawnLaser_length (pos g) items) as Hlen.
  destruct ((0 <? gunBurstRemaining g)%Z && Rgeb nowMs (gunBurstNextMs g)).
  - destruct (spawnLaser (pos g) items) as [items' ok]. cbn [fst] in Hlen.
    destruct ok; cbn [fst]; eapply with_guns_carriesOn; eassumption.
  - destruct (Input.fireGuns input && _); [| apply carriesOn_refl].
    destruct (spawnLaser (pos g) items) as [items' ok]. cbn [fst] in Hlen.
    destruct ok; cbn [fst]; eapply with_guns_carriesOn; eassumption.
Qed.

Lemma fireControl_carriesOn input nowMs queueNow g :
  carriesOn g (fst (fireControl input nowMs queueNow g)).
Proof.
  unfold fireControl.
  destruct (lasers g) as [items0 |]; [| apply carriesOn_refl].
  destruct (negb (running g)); [apply carriesOn_refl |].
  cbv zeta.
  set (g1 := if Input.fireMissile input then fireMissile g else g).
  assert (H1 : carriesOn g g1)
    by (unfold g1; destruct (Input.fireMissile input);
        [apply fireMissile_carriesOn | apply carriesOn_refl]).
  set (g2 := match Input.flip input with
             | Some f => triggerFlip (Input.axis f) (Input.dir f) g1
             | None => g1
             end).
  assert (H2 : carriesOn g1 g2)
    by (unfold g2; destruct (Input.flip input);
        [apply triggerFlip_carriesOn | apply carriesOn_refl]).
  set (g3 := if Input.fireGunsBurst input
             then queueGunBurst GUN_BURST_COUNT queueNow g2 else g2).
  assert (H3 : carriesOn g2 g3)
    by (unfold g3; destruct (Input.fireGunsBurst input);
        [apply queueGunBurst_carriesOn | apply carriesOn_refl]).
  assert (H03 : carriesOn g g3)
    by (eapply carriesOn_trans; [exact H1 |];
        eapply carriesOn_trans; eassumption).
  destruct (lasers g3) as [items |] eqn:El; [| exact H03].
  eapply carriesOn_trans; [exact H03 |].
  apply gunBlock_carriesOn. exact El.
Qed.

Lemma collectPickups_carriesOn k : forall g, carriesOn g (collectPickups k g).
Proof.
  induction k as [| k IH]; intros g; cbn [collectPickups].
  - apply carriesOn_refl.
  - eapply carriesOn_trans; [apply addScore_carriesOn | apply IH].
Qed.

Lemma world_reset_bounds playerPos w s n :
  World.playerBounds (fst (World.reset playerPos w s n)) = World.playerBounds w.
Proof.
  destruct w; cbn [World.reset]; rewrite bind_run, ret_run; reflexivity.
Qed.

Lemma world_update_bounds dt nowMs speed playerPos playerRadius w s n :
  World.playerBounds
    (fst (fst (fst (World.update dt nowMs speed playerPos playerRadius w s n))))
  = World.playerBounds w
  /\ World.enemySpawnBounds
       (fst (fst (fst (World.update dt nowMs speed playerPos playerRadius w s n))))
     = World.enemySpawnBounds w.
Proof.
  destruct w; cbn [World.update]; rewrite bind_run, ret_run; split; reflexivity.
Qed.

Lemma effectiveMaxSpeed_nonneg l : 0 <= effectiveMaxSpeed l.
Proof.
  unfold effectiveMaxSpeed.
  eapply Rle_trans; [apply (Rmax_l 0 (baseSpeed l)) | apply Rmax_l].
Qed.

Lemma playerBounds_ordered w :
  World.xMin (World.playerBounds w) <= 0 <= World.xMax (World.playerBounds w)
  /\ World.yMin (World.playerBounds w) <= 0
     <= World.yMax (World.playerBounds w).
Proof. destruct w; cbn; lra. Qed.

(** What [reset] leaves behind, whatever the reason. *)
Lemma reset_state reason g s n :
  let g' := fst (reset reason g s n) in
  shape g' = shape g
  /\ playable g'
  /\ score g' = 1%Z
  /\ hitFlashCalls g'
     = match reason with
       | ReasonHit => S (hitFlashCalls g)
       | ReasonReset => hitFlashCalls g
       end
  /\ speed g' = 0 /\ pos g' = Vec3.zero.
Proof.
  cbv zeta.
  destruct (reset_fields reason g s n) as (Hsc & Hla & Hmi & Hex & Hge & Hid & _).
  cbv zeta in *.
  pose proof (reset_level reason g s n) as Hlev.
  assert (Hrest : let g' := fst (reset reason g s n) in
            isIOS g' = isIOS g /\ running g' = running g
            /\ crashed g' = crashed g /\ hasScene g' = hasScene g
            /\ speed g' = 0 /\ pos g' = Vec3.zero
            /\ drone g' = match drone g with
                          | Some d => Some {| Drone.position := Vec3.zero;
                                              Drone.flip := Drone.flip d |}
                          | None => None
                          end
            /\ world g' = match world g with
                          | Some w => Some (fst (World.reset Vec3.zero w s n))
                          | None => None
                          end
            /\ hitFlashCalls g'
               = match reason with
                 | ReasonHit => S (hitFlashCalls g)
                 | ReasonReset => hitFlashCalls g
                 end).
  { cbv zeta. unfold reset. rewrite !bind_run, ret_run. cbn [fst].
    cbn [isIOS running crashed hasScene speed pos drone world hitFlashCalls].
    repeat split.
    destruct (world g) as [w |]; [rewrite bind_run, ret_run |]; reflexivity. }
  cbv zeta in Hrest.
  destruct Hrest as (R1 & R2 & R3 & R4 & R5 & R6 & R7 & R8 & R9).
  set (g' := fst (reset reason g s n)) in *.
  split; [| split; [| split; [exact Hsc | split; [exact R9 | split; [exact R5 | exact R6]]]]].
  - unfold shape. rewrite R1, R2, R3, R4, Hlev, Hge, Hid, Hla, Hmi, Hex, R7.
    rewrite !length_map.
    destruct (lasers g) as [ls |]; cbn [option_map]; rewrite ?length_map;
      destruct (drone g); reflexivity.
  - unfold playable. rewrite Hsc, R5, R6, R7, R8, Hlev.
    split; [lia |]. split; [split; [lra | apply effectiveMaxSpeed_nonneg] |].
    split; [reflexivity |]. split.
    + destruct (world g) as [w |]; [| exact I].
      rewrite world_reset_bounds. unfold in_bounds. cbn [Vec3.zero Vec3.x Vec3.y].
      apply playerBounds_ordered.
    + destruct (drone g); [reflexivity | exact I].
Qed.

Lemma carriesOn_playable g g' : carriesOn g g' -> playable g -> playable g'.
Proof.
  intros (S1 & S2 & S3 & S4 & S5 & S6 & S7 & S8) (P1 & P2 & P3 & P4 & P5).
  assert (Hl : level g' = level g).
  { unfold shape in S1. injection S1 as I1 I2 I3 I4 I5 I6 I7 I8 I9 I10 I11.
    exact I5. }
  unfold playable. rewrite S2, S3, S5, Hl.
  split; [lia |]. split; [exact P2 |]. split; [exact P3 |].
  split; [exact P4 |].
  destruct (drone g') as [d' |]; [| exact I].
  destruct (drone g) as [d |]; cbn [option_map] in S4; [| discriminate].
  injection S4 as ->. exact P5.
Qed.

End FrameBlocks2.

Section FrameFacts.

Import Levels Projectiles Game.

Lemma drone_update_position dt input dr :
  Drone.position (fst (Drone.update dt input dr)) = Drone.position dr.
Proof.
  unfold Drone.update. destruct (Drone.flip dr) as [f |]; reflexivity.
Qed.

Lemma world_update_geometry dt nowMs speed playerPos playerRadius w s n :
  World.geometry
    (fst (fst (fst (World.update dt nowMs speed playerPos playerRadius w s n))))
  = World.geometry w.
Proof.
  destruct w as [o | e]; cbn [World.update]; rewrite bind_run, ret_run;
    cbn [fst snd].
  - pose proof (o_update_fields dt nowMs speed playerPos playerRadius o s n)
      as H. cbv zeta in H. apply H.
  - pose proof (e_update_fields dt nowMs speed playerPos playerRadius e s n)
      as H. cbv zeta in H. apply H.
Qed.

Lemma updateSpeed_fields dt boost stopActive g :
  let g1 := updateSpeed dt boost stopActive g in
  shape g1 = shape g /\ world g1 = world g /\ score g1 = score g
  /\ pos g1 = pos g /\ drone g1 = drone g
  /\ hitFlashCalls g1 = hitFlashCalls g.
Proof.
  cbv zeta. unfold updateSpeed.
  destruct stopActive; [repeat split |].
  destruct (autoForward (level g)); repeat split.
Qed.

Lemma movePlayer_in_bounds dt strafeX strafeY w p :
  in_bounds (World.playerBounds w)
    (movePlayer dt strafeX strafeY (World.playerBounds w) p)
  /\ Vec3.z (movePlayer dt strafeX strafeY (World.playerBounds w) p) = Vec3.z p.
Proof.
  pose proof (playerBounds_ordered w) as [Hx Hy].
  unfold in_bounds, movePlayer. cbn [Vec3.x Vec3.y Vec3.z].
  split; [split; apply clamp_bounds; lra | reflexivity].
Qed.

Lemma idle_false g :
  idle g = false ->
  crashed g = false /\ running g = true /\ hasScene g = true
  /\ exists dr ls w, drone g = Some dr /\ lasers g = Some ls /\ world g = Some w.
Proof.
  unfold idle. intros H.
  destruct (crashed g); [discriminate |].
  destruct (running g); [| discriminate].
  destruct (hasScene g); [| discriminate].
  destruct (drone g) as [dr |]; [| discriminate].
  destruct (lasers g) as [ls |]; [| discriminate].
  destruct (world g) as [w |]; [| discriminate].
  repeat split. now exists dr, ls, w.
Qed.

Lemma frame_idle nowMs queueNow face st s n :
  idle (game st) = true ->
  game (fst (frame nowMs queueNow face st s n)) = game st
  /\ snd (frame nowMs queueNow face st s n) = n
  /\ (lastMs (fst (frame nowMs queueNow face st s n)) = lastMs st
      \/ lastMs (fst (frame nowMs queueNow face st s n)) = nowMs).
Proof.
  unfold idle, frame. cbv zeta. intros H.
  destruct (crashed (game st)); [rewrite ret_run; auto |].
  destruct (hasScene (game st)); [| rewrite ret_run; auto].
  destruct (drone (game st)) as [dr |]; [| rewrite ret_run; auto].
  destruct (lasers (game st)) as [ls |]; [| rewrite ret_run; auto].
  destruct (world (game st)) as [w |]; [| rewrite ret_run; auto].
  destruct (running (game st)); [discriminate |].
  cbn [negb]. rewrite ret_run. cbn [fst snd game lastMs]. auto.
Qed.

Lemma frame_running nowMs queueNow face st s n :
  idle (game st) = false ->
  let r := fst (frame nowMs queueNow face st s n) in
  lastMs r = nowMs
  /\ router r = InputRouter.update face nowMs (router st)
  /\ exists gm,
       shape gm = shape (game st)
       /\ (score (game st) <= score gm)%Z
       /\ hitFlashCalls gm = hitFlashCalls (game st)
       /\ (lastMs st <= nowMs -> playable (game st) -> playable gm)
       /\ (carriesOn gm (game r)
           \/ exists gh s' n',
                carriesOn gm gh /\ game r = fst (reset ReasonHit gh s' n')).
Proof.
  intros Hidle.
  destruct (idle_false _ Hidle) as (Hc & Hr & Hs & dr & ls & w & Hd & Hl & Hw).
  cbv zeta. unfold frame. cbv zeta. rewrite Hc, Hs, Hd, Hl, Hw, Hr.
  cbn [negb].
  set (dt := Rmin 0.05 ((nowMs - lastMs st) / 1000)).
  set (router1 := InputRouter.update face nowMs (router st)).
  set (input := InputRouter.state router1).
  set (g1 := updateSpeed dt (MathUtil.clamp (Input.boost input) 0 1)
               (Input.stop input) (game st)).
  set (pos1 := movePlayer dt (frameStrafeX nowMs input (game st))
                 (Input.moveY input) (World.playerBounds w) (pos g1)).
  set (dr1 := fst (Drone.update dt _ _)).
  set (g2 := with_pos g1 pos1 (Some dr1)).
  rewrite bind_run. cbv beta.
  set (wu := World.update dt nowMs (speed g2) pos1 PLAYER_RADIUS w s n).
  set (w1 := fst (fst (fst wu))).
  set (gm := collectPickups (snd (fst wu))
               (with_level_world g2 (level g2) (Some w1))).
  set (gw := with_level_world g2 (level g2) (Some w1)) in gm.
  destruct (updateSpeed_fields dt (MathUtil.clamp (Input.boost input) 0 1)
              (Input.stop input) (game st)) as (F1 & F2 & F3 & F4 & F5 & F6).
  fold g1 in F1, F2, F3, F4, F5, F6.
  assert (Hgeo : World.geometry w1 = World.geometry w)
    by apply world_update_geometry.
  assert (Hbd : World.playerBounds w1 = World.playerBounds w)
    by apply world_update_bounds.
  assert (Hlev : level g1 = level (game st)) by apply updateSpeed_level.
  assert (Hgw : shape gw = shape (game st)).
  { rewrite <- F1. unfold shape, gw, g2.
    cbn [with_level_world with_pos isIOS running crashed hasScene level world
         enemies lasers missiles explosions drone option_map].
    rewrite F2, Hw, F5, Hd, Hgeo. reflexivity. }
  assert (Hcar : carriesOn gw gm) by apply collectPickups_carriesOn.
  assert (Hgm : shape gm = shape (game st)
                /\ (score (game st) <= score gm)%Z
                /\ hitFlashCalls gm = hitFlashCalls (game st)
                /\ (lastMs st <= nowMs -> playable (game st) -> playable gm)).
  { destruct Hcar as (S1 & S2 & S3 & S4 & S5 & S6 & S7 & S8).
    split; [congruence |]. split; [exact (Z.le_trans _ _ _ (Z.eq_le_incl _ _ (eq_sym F3)) S8) |].
    split; [rewrite S7; exact F6 |].
    intros Hclock (P1 & P2 & P3 & P4 & P5).
    apply (carriesOn_playable gw);
      [unfold carriesOn; repeat split; assumption |].
    assert (Hdt : 0 <= dt).
    { unfold dt. apply Rmin_glb; [lra |].
      apply Rmult_le_pos; lra. }
    pose proof (updateSpeed_effective_bound (game st) dt
                  (MathUtil.clamp (Input.boost input) 0 1) (Input.stop input)
                  Hdt P2) as Hsp.
    fold g1 in Hsp.
    destruct (movePlayer_in_bounds dt (frameStrafeX nowMs input (game st))
                (Input.moveY input) w (pos g1)) as [Hin Hz].
    fold pos1 in Hin, Hz.
    unfold playable, gw, g2.
    cbn [with_level_world with_pos score speed level pos world drone].
    rewrite F3, Hlev, Hbd.
    split; [exact P1 |]. split; [exact Hsp |].
    split; [rewrite Hz, F4; exact P3 |]. split; [exact Hin |].
    apply drone_update_position. }
  destruct (snd (fst (fst wu))).
  - rewrite bind_run, ret_run. cbn [fst lastMs router game].
    split; [reflexivity |]. split; [reflexivity |].
    exists gm. destruct Hgm as (G1 & G2 & G3 & G4).
    repeat (split; [assumption |]).
    right. exists gm, s, (snd wu). split; [apply carriesOn_refl | reflexivity].
  - rewrite bind_run. cbv beta.
    set (el := enemyLoop dt nowMs (speed gm) (pos gm)
                 (World.enemySpawnBounds w1) (World.behindZ w1) (enemies gm)
                 s (snd wu)).
    assert (He : carriesOn gm (with_enemies gm (fst (fst el))))
      by (apply with_enemies_carriesOn; apply enemyLoop_identity).
    destruct (snd (fst el)).
    + rewrite bind_run, ret_run. cbn [fst lastMs router game].
      split; [reflexivity |]. split; [reflexivity |].
      exists gm. destruct Hgm as (G1 & G2 & G3 & G4).
      repeat (split; [assumption |]).
      right. exists (with_enemies gm (fst (fst el))), s, (snd el).
      split; [exact He | reflexivity].
    + rewrite !bind_run, ret_run. cbn [fst lastMs router game].
      split; [reflexivity |]. split; [reflexivity |].
      exists gm. destruct Hgm as (G1 & G2 & G3 & G4).
      repeat (split; [assumption |]).
      left.
      eapply carriesOn_trans; [exact He |].
      eapply carriesOn_trans; [apply fireControl_carriesOn |].
      eapply carriesOn_trans; [apply lasersBlock_carriesOn |].
      eapply carriesOn_trans; [apply missilesBlock_carriesOn |].
      apply explosions_carriesOn.
Qed.

End FrameFacts.

Section FrameRuns.

Import Levels Projectiles Game.

Lemma frame_shape nowMs queueNow face st s n :
  shape (game (fst (frame nowMs queueNow face st s n))) = shape (game st).
Proof.
  destruct (idle (game st)) eqn:E.
  - destruct (frame_idle nowMs queueNow face st s n E) as (H & _).
    now rewrite H.
  - destruct (frame_running nowMs queueNow face st s n E)
      as (_ & _ & gm & G1 & _ & _ & _ & [Hc | (gh & s' & n' & Hc & Hr)]).
    + destruct Hc as (S1 & _). congruence.
    + rewrite Hr. destruct (reset_state ReasonHit gh s' n') as (R1 & _).
      cbv zeta in R1. rewrite R1. destruct Hc as (S1 & _). congruence.
Qed.

Lemma frame_playable nowMs queueNow face st s n :
  lastMs st <= nowMs -> playable (game st) ->
  playable (game (fst (frame nowMs queueNow face st s n))).
Proof.
  intros Hclock Hp. destruct (idle (game st)) eqn:E.
  - destruct (frame_idle nowMs queueNow face st s n E) as (H & _).
    now rewrite H.
  - destruct (frame_running nowMs queueNow face st s n E)
      as (_ & _ & gm & _ & _ & _ & G4 & [Hc | (gh & s' & n' & Hc & Hr)]).
    + apply (carriesOn_playable gm); [exact Hc | now apply G4].
    + rewrite Hr. apply (reset_state ReasonHit gh s' n').
Qed.

Lemma frame_lastMs nowMs queueNow face st s n :
  lastMs st <= nowMs ->
  lastMs (fst (frame nowMs queueNow face st s n)) <= nowMs.
Proof.
  intros Hclock. destruct (idle (game st)) eqn:E.
  - destruct (frame_idle nowMs queueNow face st s n E) as (_ & _ & [H | H]);
      rewrite H; lra.
  - destruct (frame_running nowMs queueNow face st s n E) as (H & _).
    cbv zeta in H. rewrite H. lra.
Qed.

Lemma clockRuns_weaken a b ticks :
  a <= b -> clockRuns b ticks -> clockRuns a ticks.
Proof.
  destruct ticks as [| tk rest]; cbn [clockRuns]; [trivial |].
  intros Hab [H1 H2]. split; [lra | exact H2].
Qed.

Lemma frame_dichotomy nowMs queueNow face st s n :
  let g := game st in
  let g' := game (fst (frame nowMs queueNow face st s n)) in
  ((score g <= score g')%Z /\ hitFlashCalls g' = hitFlashCalls g)
  \/ (score g' = 1%Z /\ hitFlashCalls g' = S (hitFlashCalls g)
      /\ speed g' = 0 /\ pos g' = Vec3.zero).
Proof.
  cbv zeta. destruct (idle (game st)) eqn:E.
  - destruct (frame_idle nowMs queueNow face st s n E) as (H & _).
    rewrite H. left. split; [apply Z.le_refl | reflexivity].
  - destruct (frame_running nowMs queueNow face st s n E)
      as (_ & _ & gm & _ & G2 & G3 & _ & [Hc | (gh & s' & n' & Hc & Hr)]).
    + left. destruct Hc as (_ & _ & _ & _ & _ & _ & S7 & S8).
      split; [lia | congruence].
    + right. rewrite Hr.
      destruct (reset_state ReasonHit gh s' n') as (_ & _ & R3 & R4 & R5 & R6).
      cbv zeta in R3, R4, R5, R6.
      destruct Hc as (_ & _ & _ & _ & _ & _ & S7 & _).
      repeat split; try assumption. rewrite R4. congruence.
Qed.

Lemma setRunning_playable b g : playable g -> playable (setRunning b g).
Proof. intros H. exact H. Qed.

Lemma new_playable isIOS0 levelId g s n :
  fst (Game.new isIOS0 levelId s n) = Some g -> playable g.
Proof.
  unfold Game.new, setLevel. cbn [hasScene init negb].
  destruct (getLevelConfig _) as [next |]; [| rewrite ret_run; discriminate].
  rewrite !bind_run, ret_run. cbn [fst].
  intros H; injection H as <-. apply reset_state.
Qed.

(** X25.  A run of the frame loop, whatever the clock, the inputs and the
    random draws, conserves the configuration of the game: the platform,
    running and crashed flags, the level, what the world has allocated,
    the identities (id, kind, tuning) of the pooled enemies, and the sizes
    of the laser, missile and explosion pools; the drone is never
    dropped. *)
Theorem frames_conserve_shape (ticks : list Tick) (st : Loop)
    (s : nat -> R) (n : nat) :
  shape (game (fst (frames ticks st s n))) = shape (game st).
Proof.
  revert st s n. induction ticks as [| tk rest IH]; intros st s n;
    cbn [frames].
  - reflexivity.
  - rewrite bind_run, IH, frame_shape. reflexivity.
Qed.

(** X26.  The state of play is an invariant of the frame loop.  When the
    clock never goes back, every run of frames from a game whose score is
    at least 1, whose speed lies between 0 and the bound of its level, and
    whose player is on the plane z = 0 inside the bounds of the world with
    the drone on it, ends in such a game, whatever the inputs and the
    random draws. *)
Theorem frames_keep_playable (ticks : list Tick) (st : Loop)
    (s : nat -> R) (n : nat) :
  playable (game st) ->
  clockRuns (lastMs st) ticks ->
  playable (game (fst (frames ticks st s n))).
Proof.
  revert st s n. induction ticks as [| tk rest IH]; intros st s n Hp Hclock;
    cbn [frames].
  - exact Hp.
  - destruct Hclock as [H1 H2]. rewrite bind_run. apply IH.
    + apply frame_playable; [exact H1 | exact Hp].
    + eapply clockRuns_weaken; [| exact H2].
      apply frame_lastMs. exact H1.
Qed.

Lemma frames_keep_playable_witness :
  exists g0 : Game.t,
    fst (Game.new false None (fun _ => / 2) 0%nat) = Some g0
    /\ let st0 := {| game := setRunning true g0; lastMs := 0;
                     router := InputRouter.new |} in
       let ticks :=
         [ {| tk_before := []; tk_nowMs := 16; tk_queueNow := 16.1;
              tk_face := {| Input.calibrated := true; Input.strafeX := / 4;
                         Input.strafeY := 0; Input.f_boost := 1;
                         Input.mouthOpen := 0; Input.fireBurst := true;
                         Input.fireHold := false |} |};
           {| tk_before := [InputRouter.AKeyDown (InputRouter.keyPress " " false)];
              tk_nowMs := 33; tk_queueNow := 33.1;
              tk_face := {| Input.calibrated := true; Input.strafeX := / 4;
                         Input.strafeY := 0; Input.f_boost := 1;
                         Input.mouthOpen := 0; Input.fireBurst := true;
                         Input.fireHold := false |} |} ] in
       playable (game st0)
       /\ clockRuns (lastMs st0) ticks
       /\ playable (game (fst (frames ticks st0 (fun _ => / 2) 0%nat))).
Proof.
  destruct (fst (Game.new false None (fun _ => / 2) 0%nat)) as [g0 |] eqn:E.
  - exists g0. split; [reflexivity |]. cbv zeta.
    assert (Hp : playable (setRunning true g0))
      by (apply setRunning_playable; eapply new_playable; exact E).
    assert (Hc : clockRuns 0
                   [ {| tk_before := []; tk_nowMs := 16; tk_queueNow := 16.1;
                        tk_face := {| Input.calibrated := true; Input.strafeX := / 4;
                         Input.strafeY := 0; Input.f_boost := 1;
                         Input.mouthOpen := 0; Input.fireBurst := true;
                         Input.fireHold := false |} |};
                     {| tk_before :=
                          [InputRouter.AKeyDown (InputRouter.keyPress " " false)];
                        tk_nowMs := 33; tk_queueNow := 33.1;
                        tk_face := {| Input.calibrated := true; Input.strafeX := / 4;
                         Input.strafeY := 0; Input.f_boost := 1;
                         Input.mouthOpen := 0; Input.fireBurst := true;
                         Input.fireHold := false |} |} ])
      by (cbn [clockRuns tk_nowMs]; repeat split; lra).
    split; [exact Hp |]. split; [exact Hc |].
    apply frames_keep_playable; [exact Hp | exact Hc].
  - exfalso. revert E. unfold Game.new, setLevel. cbn [hasScene init negb].
    rewrite getLevelConfig_8, !bind_run, ret_run. discriminate.
Defined.

(** X27.  What one frame does to the score.  After a frame, whatever the
    clock, the inputs and the random draws, one of two holds: the score
    has not gone down and no hit flash was shown; or the hit flash was
    shown exactly once and the game is as [reset('hit')] leaves it, with
    the score back to 1, the speed to 0 and the player at the origin. *)
Theorem frame_hit_or_progress (nowMs queueNow : R)
    (face : Input.FaceControls) (st : Loop) (s : nat -> R) (n : nat) :
  let g := game st in
  let g' := game (fst (frame nowMs queueNow face st s n)) in
  ((score g <= score g')%Z /\ hitFlashCalls g' = hitFlashCalls g)
  \/ (score g' = 1%Z /\ hitFlashCalls g' = S (hitFlashCalls g)
      /\ speed g' = 0 /\ pos g' = Vec3.zero).
Proof. apply frame_dichotomy. Qed.

(** X28.  Over a run of frames the count of hit flashes never goes down,
    and the score can only fall through a hit: a run that ends with the
    count it started with ends with a score at least as high as it started
    with. *)
Theorem score_falls_only_on_hit (ticks : list Tick) (st : Loop)
    (s : nat -> R) (n : nat) :
  let g := game st in
  let g' := game (fst (frames ticks st s n)) in
  (hitFlashCalls g <= hitFlashCalls g')%nat
  /\ (hitFlashCalls g' = hitFlashCalls g -> (score g <= score g')%Z).
Proof.
  cbv zeta. revert st s n.
  induction ticks as [| tk rest IH]; intros st s n; cbn [frames].
  - split; [apply Nat.le_refl | intros _; apply Z.le_refl].
  - rewrite bind_run.
    set (st' := {| game := game st; lastMs := lastMs st;
                   router := InputRouter.run (tk_before tk) (router st) |}).
    pose proof (frame_dichotomy (tk_nowMs tk) (tk_queueNow tk) (tk_face tk)
                  st' s n) as D.
    cbv zeta in D. cbn [game st'] in D.
    destruct (IH (fst (frame (tk_nowMs tk) (tk_queueNow tk) (tk_face tk) st' s n))
                 s (snd (frame (tk_nowMs tk) (tk_queueNow tk) (tk_face tk) st' s n)))
      as [I1 I2].
    destruct D as [[D1 D2] | (_ & D2 & _)].
    + rewrite D2 in I1, I2. split; [exact I1 |].
      intros H. specialize (I2 H). lia.
    + rewrite D2 in I1, I2. split; [lia |]. intros H. lia.
Qed.

(** X29.  A game that is crashed, paused or without one of the objects
    [frame()] needs is frozen: any run of frames, whatever the clock and
    the inputs, leaves the game as it was (its flags, level, world, score,
    speed, player, drone, guns, enemies and pools) and consumes no random
    draw.  Only the frame clock [lastMs] and the input router, which a
    paused frame still polls, go on. *)
Theorem idle_frames_freeze (ticks : list Tick) (st : Loop)
    (s : nat -> R) (n : nat) :
  idle (game st) = true ->
  game (fst (frames ticks st s n)) = game st
  /\ snd (frames ticks st s n) = n.
Proof.
  revert st s n. induction ticks as [| tk rest IH]; intros st s n Hidle;
    cbn [frames].
  - rewrite ret_run. split; reflexivity.
  - rewrite bind_run.
    set (st' := {| game := game st; lastMs := lastMs st;
                   router := InputRouter.run (tk_before tk) (router st) |}).
    destruct (frame_idle (tk_nowMs tk) (tk_queueNow tk) (tk_face tk) st' s n
                Hidle) as (F1 & F2 & _).
    cbn [game st'] in F1.
    destruct (IH (fst (frame (tk_nowMs tk) (tk_queueNow tk) (tk_face tk) st' s n))
                 s (snd (frame (tk_nowMs tk) (tk_queueNow tk) (tk_face tk) st' s n)))
      as [I1 I2]; [rewrite F1; exact Hidle |].
    split; [rewrite I1; exact F1 | rewrite I2; exact F2].
Qed.

Lemma idle_frames_freeze_witness :
  let st0 := {| game := init false; lastMs := 0; router := InputRouter.new |} in
  let ticks :=
    [ {| tk_before := [InputRouter.AKeyDown (InputRouter.keyPress " " false)];
         tk_nowMs := 16; tk_queueNow := 16.1;
         tk_face := {| Input.calibrated := true; Input.strafeX := / 4;
                         Input.strafeY := 0; Input.f_boost := 1;
                         Input.mouthOpen := 0; Input.fireBurst := true;
                         Input.fireHold := false |} |};
      {| tk_before := []; tk_nowMs := 33; tk_queueNow := 33.1;
         tk_face := {| Input.calibrated := true; Input.strafeX := / 4;
                         Input.strafeY := 0; Input.f_boost := 1;
                         Input.mouthOpen := 0; Input.fireBurst := true;
                         Input.fireHold := false |} |} ] in
  idle (game st0) = true
  /\ game (fst (frames ticks st0 (fun _ => / 2) 0%nat)) = game st0
  /\ snd (frames ticks st0 (fun _ => / 2) 0%nat) = 0%nat.
Proof.
  cbv zeta. split; [reflexivity |].
  apply idle_frames_freeze. reflexivity.
Defined.

End FrameRuns.

(** ** Game.ts: the frame loop and the guns *)

Section FrameGuns.

Import Levels Projectiles Game.

(** [frameT] is [frame] with its outcome. *)
Lemma frameT_frame nowMs queueNow face st s n :
  fst (fst (frameT nowMs queueNow face st s n))
  = fst (frame nowMs queueNow face st s n)
  /\ snd (frameT nowMs queueNow face st s n)
     = snd (frame nowMs queueNow face st s n).
Proof.
  unfold frameT, frame. cbv zeta.
  destruct (crashed (game st)); [split; reflexivity |].
  destruct (hasScene (game st)); [| split; reflexivity].
  destruct (drone (game st)) as [dr |]; [| split; reflexivity].
  destruct (lasers (game st)) as [ls |]; [| split; reflexivity].
  destruct (world (game st)) as [w |]; [| split; reflexivity].
  destruct (negb (running (game st))); [split; reflexivity |].
  rewrite !bind_run. cbv beta.
  match goal with
  | |- context [if snd (fst (fst ?c0)) then _ else _] =>
      destruct (snd (fst (fst c0)))
  end.
  - rewrite !bind_run, !ret_run. split; reflexivity.
  - rewrite !bind_run. cbv beta.
    match goal with
    | |- context [if snd (fst ?c0) then _ else _] => destruct (snd (fst c0))
    end.
    + rewrite !bind_run, !ret_run. split; reflexivity.
    + rewrite !bind_run, !ret_run. split; reflexivity.
Qed.

(** The frame of a game that is not idle, block by block. *)
Lemma frameT_blocks nowMs queueNow face st s n dr ls w :
  crashed (game st) = false -> hasScene (game st) = true ->
  running (game st) = true ->
  drone (game st) = Some dr -> lasers (game st) = Some ls ->
  world (game st) = Some w ->
  let dt := Rmin 0.05 ((nowMs - lastMs st) / 1000) in
  let router1 := InputRouter.update face nowMs (router st) in
  let input := InputRouter.state router1 in
  let g1 := updateSpeed dt (MathUtil.clamp (Input.boost input) 0 1)
              (Input.stop input) (game st) in
  let pos1 := movePlayer dt (frameStrafeX nowMs input (game st))
                (Input.moveY input) (World.playerBounds w) (pos g1) in
  let dr1 :=
    fst (Drone.update dt
           {| Drone.in_timeMs := nowMs;
              Drone.in_strafeX := frameStrafeX nowMs input (game st);
              Drone.in_strafeY := Input.moveY input;
              Drone.in_speed := speed g1 |}
           {| Drone.position := pos1; Drone.flip := Drone.flip dr |}) in
  let g2 := with_pos g1 pos1 (Some dr1) in
  let wu := World.update dt nowMs (speed g2) pos1 PLAYER_RADIUS w s n in
  let w1 := fst (fst (fst wu)) in
  let gm := collectPickups (snd (fst wu))
              (with_level_world g2 (level g2) (Some w1)) in
  let el := enemyLoop dt nowMs (speed gm) (pos gm)
              (World.enemySpawnBounds w1) (World.behindZ w1) (enemies gm)
              s (snd wu) in
  let g4 := with_enemies gm (fst (fst el)) in
  let fc := fireControl input nowMs queueNow g4 in
  let lb := lasersBlock dt nowMs (fst fc) s (snd el) in
  let mb := missilesBlock dt nowMs (fst lb) s (snd lb) in
  let done := fun g' => {| game := g'; lastMs := nowMs; router := router1 |} in
  fst (frameT nowMs queueNow face st s n)
  = if snd (fst (fst wu))
    then (done (fst (reset ReasonHit gm s (snd wu))), Hit)
    else if snd (fst el)
    then (done (fst (reset ReasonHit g4 s (snd el))), Hit)
    else (done (with_explosions (fst mb)
                  (map (explosionStep dt) (explosions (fst mb)))),
          Guns (Input.fireGunsBurst input) (Input.fireGuns input) (snd fc)).
Proof.
  intros Hc Hs Hr Hd Hl Hw. cbv zeta. unfold frameT. cbv zeta.
  rewrite Hc, Hs, Hd, Hl, Hw, Hr. cbn [negb].
  rewrite bind_run. cbv beta.
  match goal with
  | |- context [if snd (fst (fst ?c0)) then _ else _] =>
      destruct (snd (fst (fst c0)))
  end.
  - rewrite bind_run, ret_run. reflexivity.
  - rewrite bind_run. cbv beta.
    match goal with
    | |- context [if snd (fst ?c0) then _ else _] => destruct (snd (fst c0))
    end.
    + rewrite bind_run, ret_run. reflexivity.
    + rewrite !bind_run, ret_run. reflexivity.
Qed.

(** *** What the blocks leave of the guns *)

Lemma keepsGuns_refl g : keepsGuns g g.
Proof. unfold keepsGuns. repeat split. Qed.

Lemma keepsGuns_trans g1 g2 g3 :
  keepsGuns g1 g2 -> keepsGuns g2 g3 -> keepsGuns g1 g3.
Proof.
  unfold keepsGuns. intros (A1 & A2 & A3 & A4) (B1 & B2 & B3 & B4).
  repeat split; congruence.
Qed.

Lemma sideline_refl g : sideline g g.
Proof. unfold sideline. split; [apply keepsGuns_refl | split; reflexivity]. Qed.

Lemma sideline_trans g1 g2 g3 :
  sideline g1 g2 -> sideline g2 g3 -> sideline g1 g3.
Proof.
  unfold sideline. intros (A1 & A2 & A3) (B1 & B2 & B3).
  split; [eapply keepsGuns_trans; eassumption | split; congruence].
Qed.

Lemma Forall2_free_refl (xs : list LaserShot) :
  Forall2 (fun l l' => laserFree l = true -> laserFree l' = true) xs xs.
Proof. induction xs; constructor; auto. Qed.

Lemma retiresOnly_refl g : retiresOnly g g.
Proof.
  unfold retiresOnly. destruct (lasers g) as [items |]; [| exact I].
  apply Forall2_free_refl.
Qed.

Lemma Forall2_free_trans (xs ys zs : list LaserShot) :
  Forall2 (fun l l' => laserFree l = true -> laserFree l' = true) xs ys ->
  Forall2 (fun l l' => laserFree l = true -> laserFree l' = true) ys zs ->
  Forall2 (fun l l' => laserFree l = true -> laserFree l' = true) xs zs.
Proof.
  intros H. revert zs. induction H as [| x y xs ys Hxy _ IH]; intros zs Hz.
  - inversion Hz. constructor.
  - inversion Hz as [| y' z ys' zs' Hyz Hrest]; subst.
    constructor; [auto | apply IH; assumption].
Qed.

Lemma retiresOnly_trans g1 g2 g3 :
  retiresOnly g1 g2 -> retiresOnly g2 g3 -> retiresOnly g1 g3.
Proof.
  unfold retiresOnly.
  destruct (lasers g1), (lasers g2), (lasers g3); try tauto.
  apply Forall2_free_trans.
Qed.

Lemma sideline_afterGuns g g' : sideline g g' -> afterGuns g g'.
Proof.
  intros (A1 & A2 & A3). split; [exact A1 |]. split; [| exact A3].
  unfold retiresOnly. rewrite A2.
  destruct (lasers g) as [items |]; [| exact I].
  apply Forall2_free_refl.
Qed.

Lemma afterGuns_trans g1 g2 g3 :
  afterGuns g1 g2 -> afterGuns g2 g3 -> afterGuns g1 g3.
Proof.
  intros (A1 & A2 & A3) (B1 & B2 & B3).
  split; [eapply keepsGuns_trans; eassumption |].
  split; [eapply retiresOnly_trans; eassumption | congruence].
Qed.

(** The inactive slots of a pool whose shots were retired at most. *)
Lemma retired_freeSlots (xs ys : list LaserShot) :
  Forall2 (fun l l' => laserFree l = true -> laserFree l' = true) xs ys ->
  (freeSlots xs <= freeSlots ys)%nat.
Proof.
  unfold freeSlots. induction 1 as [| x y xs ys Hxy _ IH]; [apply Nat.le_refl |].
  cbn [filter]. destruct (laserFree x).
  - rewrite Hxy by reflexivity. cbn [List.length]. now apply le_n_S.
  - destruct (laserFree y); cbn [List.length]; [apply le_S |]; exact IH.
Qed.

Lemma addScore_sideline amount g : sideline g (addScore amount g).
Proof.
  unfold addScore. destruct (_ =? 0)%Z; [apply sideline_refl |].
  unfold sideline, keepsGuns. repeat split.
Qed.

Lemma explode_sideline at0 sc g : sideline g (explode at0 sc g).
Proof.
  unfold explode. destruct (spawnFirst _ _ (explosions g));
    [| apply sideline_refl].
  unfold sideline, keepsGuns. repeat split.
Qed.

Lemma with_enemies_sideline g es :
  map placing es = map placing (enemies g) -> sideline g (with_enemies g es).
Proof. intros H. unfold sideline, keepsGuns. repeat split. exact H. Qed.

Lemma takeDamage_placing amount sl d :
  placing {| enemy := Enemy.takeDamage amount (enemy sl); deadUntilMs := d |}
  = placing sl.
Proof.
  unfold placing, Enemy.takeDamage. cbn [enemy].
  destruct (negb (Enemy.alive (enemy sl))); reflexivity.
Qed.

(** One laser against the pool. *)
Lemma laserScan_sideline nowMs l slots :
  forall g s n,
  match fst (laserScan nowMs l slots g s n) with
  | Some hit =>
      map placing (fst hit) = map placing slots
      /\ sideline g (snd hit)
  | None => True
  end.
Proof.
  induction slots as [| slot rest IH]; intros g s n; cbn [laserScan].
  - exact I.
  - destruct (Enemy.alive (enemy slot) && Rltb _ _).
    + destruct (negb (Enemy.alive (Enemy.takeDamage 1 (enemy slot)))).
      * rewrite !bind_run, ret_run. cbn [fst snd map].
        split.
        -- f_equal. apply takeDamage_placing.
        -- eapply sideline_trans; [apply addScore_sideline |].
           apply explode_sideline.
      * rewrite ret_run. cbn [fst snd map]. split.
        -- f_equal. apply takeDamage_placing.
        -- apply sideline_refl.
    + rewrite bind_run, ret_run. cbn [fst].
      specialize (IH g s n).
      destruct (fst (laserScan nowMs l rest g s n)) as [hit |]; [| exact I].
      cbn [fst snd map]. destruct IH as [IH1 IH2].
      split; [now rewrite IH1 | exact IH2].
Qed.

Lemma deactivateLaser_free l : laserFree (deactivateLaser l) = true.
Proof. reflexivity. Qed.

Lemma laserLoop_sideline nowMs ls :
  forall slots g s n,
  let r := fst (laserLoop nowMs ls slots g s n) in
  Forall2 (fun l l' => laserFree l = true -> laserFree l' = true) ls (fst r)
  /\ map placing (fst (snd r)) = map placing slots
  /\ sideline g (snd (snd r)).
Proof.
  induction ls as [| l rest IH]; intros slots g s n; cbn [laserLoop].
  - cbn. split; [constructor |]. split; [reflexivity | apply sideline_refl].
  - cbv zeta. rewrite !bind_run, ret_run. cbv beta. cbn [fst snd].
    match goal with
    | |- context [laserLoop nowMs rest (fst (snd (fst ?c0)))] => set (c := c0)
    end.
    assert (Hc : (laserFree l = true -> laserFree (fst (fst c)) = true)
                 /\ map placing (fst (snd (fst c))) = map placing slots
                 /\ sideline g (snd (snd (fst c)))).
    { unfold c. destruct (negb (l_active l)) eqn:Ea.
      - rewrite ret_run. cbn [fst snd].
        split; [auto |]. split; [reflexivity | apply sideline_refl].
      - assert (Hn : laserFree l = false) by exact Ea.
        destruct (Rgtb (Vec3.z (l_pos l)) LASER_Z_MAX).
        + rewrite ret_run. cbn [fst snd].
          split; [reflexivity |]. split; [reflexivity | apply sideline_refl].
        + rewrite bind_run, ret_run. cbn [fst].
          pose proof (laserScan_sideline nowMs l slots g s n) as Hs.
          destruct (fst (laserScan nowMs l slots g s n)) as [hit |].
          * cbn [fst snd]. split; [reflexivity | exact Hs].
          * cbn [fst snd]. split; [congruence |].
            split; [reflexivity | apply sideline_refl]. }
    destruct Hc as (Hc0 & Hc1 & Hc2).
    specialize (IH (fst (snd (fst c))) (snd (snd (fst c))) s (snd c)).
    cbv zeta in IH. destruct IH as (IH1 & IH2 & IH3).
    split; [constructor; assumption |]. split; [congruence |].
    eapply sideline_trans; eassumption.
Qed.

Lemma laserUpdate_free dt l :
  laserFree l = true -> laserFree (laserUpdate dt l) = true.
Proof.
  unfold laserFree, laserUpdate. intros H. now rewrite H.
Qed.

Lemma lasersBlock_afterGuns dt nowMs g s n :
  afterGuns g (fst (lasersBlock dt nowMs g s n)).
Proof.
  unfold lasersBlock. destruct (lasers g) as [items |] eqn:El.
  - rewrite bind_run, ret_run. cbn [fst].
    destruct (laserLoop_sideline nowMs (map (laserUpdate dt) items)
                (enemies g) g s n) as (H1 & H2 & H3).
    cbv zeta in *.
    set (r := fst (laserLoop nowMs (map (laserUpdate dt) items) (enemies g) g
                     s n)) in *.
    destruct H3 as ((K1 & K2 & K3 & K4) & L1 & L2).
    unfold afterGuns, keepsGuns, retiresOnly.
    cbn [with_guns with_enemies running gunBurstRemaining gunBurstNextMs
         lastGunFireMs lasers enemies].
    rewrite El. repeat split; try assumption.
    eapply Forall2_free_trans; [| exact H1].
    clear. induction items; constructor; auto using laserUpdate_free.
  - rewrite ret_run. apply sideline_afterGuns, sideline_refl.
Qed.

Lemma missileStep_sideline dt nowMs m g s n :
  sideline g (snd (fst (missileStep dt nowMs m g s n))).
Proof.
  unfold missileStep.
  destruct (negb (m_active (shot m))).
  - rewrite ret_run. apply sideline_refl.
  - cbv zeta. rewrite bind_run, ret_run. cbn [fst snd].
    destruct (findNearestEnemy (enemies g) (m_pos (shot m))) as [i |];
      [| rewrite ret_run; apply sideline_refl].
    destruct (nth_error (enemies g) i) as [slot |] eqn:En;
      [| rewrite ret_run; apply sideline_refl].
    cbn [option_map snd].
    match goal with
    | |- context [if Rltb ?a ?b then _ else _] => destruct (Rltb a b)
    end; [| rewrite ret_run; apply sideline_refl].
    rewrite !bind_run, ret_run. cbn [fst snd].
    set (e1 := Enemy.takeDamage 999 (enemy slot)).
    set (g1 := with_enemies g _).
    assert (H1 : sideline g g1).
    { apply with_enemies_sideline.
      apply (updateAt_map placing _ _ i slot En).
      apply takeDamage_placing. }
    set (g2 := addScore _ g1).
    assert (H2 : sideline g1 g2) by apply addScore_sideline.
    set (g3 := explode _ _ g2).
    assert (H3 : sideline g2 g3) by apply explode_sideline.
    assert (H13 : sideline g g3)
      by (eapply sideline_trans; [exact H1 |];
          eapply sideline_trans; eassumption).
    destruct (existsb _ (enemies g3)); [| rewrite ret_run; exact H13].
    rewrite bind_run, ret_run. cbn [fst].
    match goal with
    | |- context [spawnFirst ?p ?f (enemies g3)] =>
        destruct (spawnFirst p f (enemies g3)) as [es |] eqn:Es
    end; [| exact H13].
    eapply sideline_trans; [exact H13 |].
    apply with_enemies_sideline.
    eapply spawnFirst_map; [| exact Es]. reflexivity.
Qed.

Lemma missileLoop_sideline dt nowMs ms :
  forall g s n, sideline g (snd (fst (missileLoop dt nowMs ms g s n))).
Proof.
  induction ms as [| m rest IH]; intros g s n; cbn [missileLoop].
  - apply sideline_refl.
  - rewrite !bind_run, ret_run. cbn [fst snd].
    eapply sideline_trans; [apply missileStep_sideline | apply IH].
Qed.

Lemma missilesBlock_sideline dt nowMs g s n :
  sideline g (fst (missilesBlock dt nowMs g s n)).
Proof.
  unfold missilesBlock. rewrite bind_run, ret_run. cbn [fst].
  eapply sideline_trans; [apply (missileLoop_sideline dt nowMs (missiles g) g s n) |].
  unfold sideline, keepsGuns. repeat split.
Qed.

Lemma with_explosions_sideline g xs : sideline g (with_explosions g xs).
Proof. unfold sideline, keepsGuns. repeat split. Qed.

Lemma collectPickups_sideline k :
  forall g, sideline g (collectPickups k g)
            /\ enemies (collectPickups k g) = enemies g
            /\ world (collectPickups k g) = world g
            /\ speed (collectPickups k g) = speed g
            /\ pos (collectPickups k g) = pos g.
Proof.
  induction k as [| k IH]; intros g; cbn [collectPickups].
  - split; [apply sideline_refl | repeat split].
  - set (g1 := addScore _ g).
    assert (H1 : sideline g g1 /\ enemies g1 = enemies g /\ world g1 = world g
                 /\ speed g1 = speed g /\ pos g1 = pos g).
    { split; [apply addScore_sideline |]. unfold g1, addScore.
      destruct (_ =? 0)%Z; repeat split. }
    destruct H1 as (A & B & C & D & E).
    destruct (IH g1) as (A' & B' & C' & D' & E').
    split; [eapply sideline_trans; eassumption |].
    repeat split; congruence.
Qed.

End FrameGuns.

Section FrameGunSteps.

Import Levels Projectiles Game.

Lemma idle_shape g g' : shape g' = shape g -> idle g' = idle g.
Proof.
  unfold shape, idle. intros H.
  injection H as I1 I2 I3 I4 I5 I6 I7 I8 I9 I10 I11.
  rewrite I2, I3, I4.
  destruct (drone g), (drone g'); try discriminate;
    destruct (lasers g), (lasers g'); try discriminate;
    destruct (world g), (world g'); try discriminate; reflexivity.
Qed.

Lemma reset_guns reason g s n :
  gunBurstRemaining (fst (reset reason g s n)) = 0%Z
  /\ gunBurstNextMs (fst (reset reason g s n)) = 0
  /\ running (fst (reset reason g s n)) = running g
  /\ lasers (fst (reset reason g s n))
     = option_map (map deactivateLaser) (lasers g).
Proof.
  unfold reset. rewrite !bind_run, ret_run. cbn [fst]. repeat split.
Qed.

Lemma updateSpeed_sideline dt boost stopActive g :
  sideline g (updateSpeed dt boost stopActive g)
  /\ enemies (updateSpeed dt boost stopActive g) = enemies g.
Proof.
  unfold updateSpeed, sideline, keepsGuns.
  destruct stopActive; [repeat split |].
  destruct (autoForward (level g)); repeat split.
Qed.

(** One frame of a game that is not idle, as far as the guns go: a
    collision resets the pending counter; otherwise the gun block runs on
    the gun fields and the laser pool as the frame found them, and the
    rest of the frame only retires shots. *)
Lemma frameT_guns nowMs queueNow face st s n :
  idle (game st) = false ->
  let r := fst (frameT nowMs queueNow face st s n) in
  let input := InputRouter.state (InputRouter.update face nowMs (router st)) in
  idle (game (fst r)) = false
  /\ ((snd r = Hit
       /\ gunBurstRemaining (game (fst r)) = 0%Z)
      \/ exists g4,
           running g4 = true
           /\ gunBurstRemaining g4 = gunBurstRemaining (game st)
           /\ gunBurstNextMs g4 = gunBurstNextMs (game st)
           /\ lasers g4 = lasers (game st)
           /\ snd r = Guns (Input.fireGunsBurst input) (Input.fireGuns input)
                        (snd (fireControl input nowMs queueNow g4))
           /\ afterGuns (fst (fireControl input nowMs queueNow g4))
                (game (fst r))).
Proof.
  intros Hidle. cbv zeta.
  split.
  { rewrite (proj1 (frameT_frame nowMs queueNow face st s n)).
    rewrite (idle_shape _ _ (frame_shape nowMs queueNow face st s n)).
    exact Hidle. }
  destruct (idle_false _ Hidle) as (Hc & Hr & Hs & dr & ls & w & Hd & Hl & Hw).
  rewrite (frameT_blocks nowMs queueNow face st s n dr ls w Hc Hs Hr Hd Hl Hw).
  cbv zeta.
  set (dt := Rmin 0.05 ((nowMs - lastMs st) / 1000)).
  set (router1 := InputRouter.update face nowMs (router st)).
  set (input := InputRouter.state router1).
  set (g1 := updateSpeed dt (MathUtil.clamp (Input.boost input) 0 1)
               (Input.stop input) (game st)).
  set (pos1 := movePlayer dt (frameStrafeX nowMs input (game st))
                 (Input.moveY input) (World.playerBounds w) (pos g1)).
  set (dr1 := fst (Drone.update dt _ _)).
  set (g2 := with_pos g1 pos1 (Some dr1)).
  set (wu := World.update dt nowMs (speed g2) pos1 PLAYER_RADIUS w s n).
  set (w1 := fst (fst (fst wu))).
  set (gw := with_level_world g2 (level g2) (Some w1)).
  set (gm := collectPickups (snd (fst wu)) gw).
  set (el := enemyLoop dt nowMs (speed gm) (pos gm)
               (World.enemySpawnBounds w1) (World.behindZ w1) (enemies gm)
               s (snd wu)).
  set (g4 := with_enemies gm (fst (fst el))).
  destruct (snd (fst (fst wu))).
  - left. cbn [fst snd game]. split; [reflexivity |].
    apply reset_guns.
  - destruct (snd (fst el)).
    + left. cbn [fst snd game]. split; [reflexivity |].
      apply reset_guns.
    + right. exists g4. cbn [fst snd game].
      destruct (updateSpeed_sideline dt (MathUtil.clamp (Input.boost input) 0 1)
                  (Input.stop input) (game st)) as (((K1 & K2 & K3 & K4) & L1 & _) & _).
      fold g1 in K1, K2, K3, K4, L1.
      destruct (collectPickups_sideline (snd (fst wu)) gw)
        as (((M1 & M2 & M3 & M4) & N1 & _) & _).
      fold gm in M1, M2, M3, M4, N1.
      split; [cbn; rewrite M1; cbn; congruence |].
      split; [cbn; rewrite M2; cbn; congruence |].
      split; [cbn; rewrite M3; cbn; congruence |].
      split; [cbn; rewrite N1; cbn; congruence |].
      split; [reflexivity |].
      eapply afterGuns_trans; [apply lasersBlock_afterGuns |].
      apply sideline_afterGuns.
      eapply sideline_trans; [apply missilesBlock_sideline |].
      apply with_explosions_sideline.
Qed.

Lemma framesT_cons tk rest st s n :
  let r1 := frameT (tk_nowMs tk) (tk_queueNow tk) (tk_face tk)
              {| game := game st; lastMs := lastMs st;
                 router := InputRouter.run (tk_before tk) (router st) |}
              s n in
  let r2 := framesT rest (fst (fst r1)) s (snd r1) in
  framesT (tk :: rest) st s n
  = ((fst (fst r2), (tk_nowMs tk, snd (fst r1)) :: snd (fst r2)), snd r2).
Proof. cbv zeta. cbn [framesT]. rewrite !bind_run, ret_run. reflexivity. Qed.

Lemma framesT_length ticks :
  forall st s n,
  List.length (snd (fst (framesT ticks st s n))) = List.length ticks.
Proof.
  induction ticks as [| tk rest IH]; intros st s n; [reflexivity |].
  rewrite framesT_cons. cbv zeta. cbn [fst snd List.length]. now rewrite IH.
Qed.

Lemma burstTimes_cons tm o tr :
  burstTimes ((tm, o) :: tr)
  = match o with
    | Guns _ _ BurstShot => tm :: burstTimes tr
    | _ => burstTimes tr
    end.
Proof. destruct o as [| | request hold []]; reflexivity. Qed.

(** The gun fields after the gun block of a frame, by what it fired. *)
Lemma frameT_gunStep nowMs queueNow face st s n :
  idle (game st) = false ->
  (0 <= gunBurstRemaining (game st))%Z ->
  let r := fst (frameT nowMs queueNow face st s n) in
  let g' := game (fst r) in
  idle g' = false
  /\ (0 <= gunBurstRemaining g')%Z
  /\ match snd r with
     | Skipped => False
     | Hit => gunBurstRemaining g' = 0%Z
     | Guns request hold out =>
         let p :=
           if request
           then (Z.min 25 (gunBurstRemaining (game st) + 5),
                 if Rltb (gunBurstNextMs (game st)) queueNow then queueNow
                 else gunBurstNextMs (game st))
           else (gunBurstRemaining (game st), gunBurstNextMs (game st)) in
         gunStep (fst p) (snd p) nowMs g' out
     end.
Proof.
  intros Hidle Hrem. cbv zeta.
  destruct (frameT_guns nowMs queueNow face st s n Hidle)
    as (Hi & [(Hh & H0) | (g4 & R4 & P4 & N4 & L4 & Ho & Ha)]).
  - split; [exact Hi |]. rewrite Hh. split; [lia | exact H0].
  - split; [exact Hi |]. rewrite Ho.
    set (input := InputRouter.state (InputRouter.update face nowMs (router st)))
      in *.
    assert (Hl : lasers g4 <> None).
    { rewrite L4. destruct (idle_false _ Hidle)
        as (_ & _ & _ & dr & ls & w & _ & Hl & _). rewrite Hl. discriminate. }
    destruct (fireControl_cases input nowMs queueNow g4 R4 Hl) as (_ & _ & Hs).
    cbv zeta in Hs. unfold pendingAfterRequest in Hs. rewrite P4, N4 in Hs.
    destruct Ha as ((_ & K2 & K3 & _) & _).
    set (fc := fireControl input nowMs queueNow g4) in *.
    assert (Hg : forall q t0,
               (0 <= q)%Z -> gunStep q t0 nowMs (fst fc) (snd fc) ->
               gunStep q t0 nowMs
                 (game (fst (fst (frameT nowMs queueNow face st s n))))
                 (snd fc)
               /\ (0 <= gunBurstRemaining
                         (game (fst (fst (frameT nowMs queueNow face st s n)))))%Z).
    { intros q t0 Hq. unfold gunStep. rewrite K2, K3.
      destruct (snd fc); intros H; (split; [exact H |]);
        decompose [and] H; lia. }
    destruct (Input.fireGunsBurst input); cbn [fst snd] in Hs |- *.
    + assert (Hq : (0 <= Z.min 25 (gunBurstRemaining (game st) + 5))%Z) by lia.
      destruct (Hg _ _ Hq Hs) as [G1 G2]. split; assumption.
    + destruct (Hg _ _ Hrem Hs) as [G1 G2]. split; assumption.
Qed.

(** A frame that reached its gun block, followed by frames that are
    accounted for. *)
Lemma account_step q t0 now request hold out (r2 : Loop * list (R * Outcome)) :
  (0 <= q)%Z ->
  forall g1,
  gunStep q t0 now g1 out ->
  accounting (gunBurstRemaining g1) (gunBurstNextMs g1) r2 ->
  accounting q t0 (fst r2, (now, Guns request hold out) :: snd r2).
Proof.
  intros Hq g1 Hs (A & C & B & D). cbv zeta in A, B, C, D.
  unfold accounting. cbv zeta. cbn [fst snd].
  rewrite burstTimes_cons.
  assert (Hlift : forall f : R * Outcome -> bool,
             existsb f (snd r2) = true ->
             existsb f ((now, Guns request hold out) :: snd r2) = true)
    by (intros f H; cbn [existsb]; rewrite H; apply orb_true_r).
  unfold gunStep in Hs.
  destruct out.
  - (* NoShot *)
    destruct Hs as [Sr Sn]. rewrite Sr in A, B. rewrite Sn in C.
    split; [exact A |]. split; [exact C |]. split; [| exact D].
    destruct B as [B | [B | B]]; [left; exact B | right; left | right; right];
      now apply Hlift.
  - (* BurstShot *)
    destruct Hs as (Spos & Sdue & Sr & Sn). rewrite Sr in A, B. rewrite Sn in C.
    cbn [List.length].
    split; [lia |]. split; [| split; [| exact D]].
    + intros k tm H. destruct k as [| k'].
      * cbn [nth_error] in H. injection H as H; subst tm.
        simpl INR. lra.
      * cbn [nth_error] in H. specialize (C k' tm H).
        rewrite S_INR. unfold GUN_BURST_INTERVAL_MS in *. lra.
    + destruct B as [B | [B | B]]; [left; lia | right; left | right; right];
        now apply Hlift.
  - (* BurstDropped *)
    destruct Hs as [Sr Sn]. rewrite Sr in A, B. rewrite Sn in C.
    split; [lia |]. split; [exact C |].
    split; [right; left; reflexivity | exact D].
  - (* HoldShot *)
    destruct Hs as [Sr Sn]. rewrite Sr in A, B. rewrite Sn in C.
    split; [exact A |]. split; [exact C |]. split; [| exact D].
    destruct B as [B | [B | B]]; [left; exact B | right; left | right; right];
      now apply Hlift.
Qed.

(** One frame, followed by frames that are accounted for: the account
    runs from what is pending after the frame's request, if its gun block
    processed one. *)
Lemma step_accounting tk rest st s n :
  idle (game st) = false ->
  (0 <= gunBurstRemaining (game st))%Z ->
  let r1 := frameT (tk_nowMs tk) (tk_queueNow tk) (tk_face tk)
              {| game := game st; lastMs := lastMs st;
                 router := InputRouter.run (tk_before tk) (router st) |}
              s n in
  let r2 := fst (framesT rest (fst (fst r1)) s (snd r1)) in
  accounting (gunBurstRemaining (game (fst (fst r1))))
    (gunBurstNextMs (game (fst (fst r1)))) r2 ->
  let p :=
    match snd (fst r1) with
    | Guns true _ _ =>
        (Z.min 25 (gunBurstRemaining (game st) + 5),
         if Rltb (gunBurstNextMs (game st)) (tk_queueNow tk)
         then tk_queueNow tk
         else gunBurstNextMs (game st))
    | _ => (gunBurstRemaining (game st), gunBurstNextMs (game st))
    end in
  accounting (fst p) (snd p) (fst (framesT (tk :: rest) st s n)).
Proof.
  intros Hidle Hrem. cbv zeta. intros Hacc.
  rewrite framesT_cons. cbv zeta. cbn [fst snd].
  set (st' := {| game := game st; lastMs := lastMs st;
                 router := InputRouter.run (tk_before tk) (router st) |}) in *.
  destruct (frameT_gunStep (tk_nowMs tk) (tk_queueNow tk) (tk_face tk) st' s n
              Hidle Hrem) as (_ & _ & Hs).
  cbv zeta in Hs. cbn [game st'] in Hs.
  set (r1 := frameT (tk_nowMs tk) (tk_queueNow tk) (tk_face tk) st' s n) in *.
  set (r2 := fst (framesT rest (fst (fst r1)) s (snd r1))) in *.
  destruct (snd (fst r1)) as [| | request hold out] eqn:Eo; [contradiction | |].
  - (* a collision *)
    destruct Hacc as (A & C & B & D). cbv zeta in A, B, C, D.
    unfold accounting. cbv zeta. cbn [fst snd]. rewrite burstTimes_cons.
    rewrite Hs in A, B.
    assert (E : burstTimes (snd r2) = [])
      by (destruct (burstTimes (snd r2)); [reflexivity | cbn in A; lia]).
    rewrite E. cbn [List.length fst snd].
    split; [lia |]. split; [intros k tm H; destruct k; discriminate |].
    split; [right; right; reflexivity | exact D].
  - destruct request; cbn [fst snd] in Hs |- *;
      (eapply account_step; [lia | exact Hs | exact Hacc]).
Qed.

(** Frames whose gun blocks process no request: the burst shots they
    spawn are taken from the pending counter, one per frame at most, shot
    [k] no earlier than [70 * k] ms after the next-shot time. *)
Lemma quiet_accounting ticks :
  forall st s n,
  idle (game st) = false ->
  (0 <= gunBurstRemaining (game st))%Z ->
  existsb isRequest (snd (fst (framesT ticks st s n))) = false ->
  accounting (gunBurstRemaining (game st)) (gunBurstNextMs (game st))
    (fst (framesT ticks st s n)).
Proof.
  induction ticks as [| tk rest IH]; intros st s n Hidle Hrem Hq.
  - unfold accounting. cbn. repeat split; try lia.
    intros k tm H. destruct k; discriminate.
  - pose proof (step_accounting tk rest st s n Hidle Hrem) as H.
    cbv zeta in H.
    rewrite framesT_cons in Hq. cbv zeta in Hq. cbn [fst snd existsb] in Hq.
    apply orb_false_iff in Hq. destruct Hq as [Hq1 Hq2].
    set (st' := {| game := game st; lastMs := lastMs st;
                   router := InputRouter.run (tk_before tk) (router st) |}) in *.
    destruct (frameT_gunStep (tk_nowMs tk) (tk_queueNow tk) (tk_face tk) st' s n
                Hidle Hrem) as (Hi & Hr & _).
    cbv zeta in Hi, Hr.
    specialize (H (IH _ s _ Hi Hr Hq2)).
    unfold isRequest in Hq1. cbn [snd] in Hq1.
    destruct (snd (fst (frameT (tk_nowMs tk) (tk_queueNow tk) (tk_face tk) st'
                         s n))) as [| | request hold out]; try exact H.
    rewrite Hq1 in H. exact H.
Qed.

(** *** Progress: a shot that is due is spawned *)

Lemma gunBlock_steady input nowMs items g :
  Input.fireGuns input = false ->
  (gunBurstRemaining g <= Z.of_nat (freeSlots items))%Z ->
  let r := gunBlock input nowMs items g in
  if (0 <? gunBurstRemaining g)%Z && Rgeb nowMs (gunBurstNextMs g)
  then snd r = BurstShot
       /\ gunBurstRemaining (fst r) = (gunBurstRemaining g - 1)%Z
       /\ gunBurstNextMs (fst r) = gunBurstNextMs g + GUN_BURST_INTERVAL_MS
       /\ exists items', lasers (fst r) = Some items'
                         /\ S (freeSlots items') = freeSlots items
  else snd r = NoShot /\ fst r = g.
Proof.
  intros Hh Hle. cbv zeta. unfold gunBlock. rewrite Hh.
  destruct ((0 <? gunBurstRemaining g)%Z) eqn:Erem;
    destruct (Rgeb nowMs (gunBurstNextMs g)) eqn:Edue; cbn [andb];
    try (split; reflexivity).
  apply Z.ltb_lt in Erem.
  assert (Hfree : (0 < freeSlots items)%nat) by lia.
  destruct (spawnLaser_free (pos g) items Hfree) as [Hok Hs].
  destruct (spawnLaser (pos g) items) as [items' ok].
  cbn [fst snd] in Hok, Hs. subst ok. cbn [fst snd].
  split; [reflexivity |]. split; [reflexivity |]. split; [reflexivity |].
  exists items'. split; [reflexivity | exact Hs].
Qed.

Lemma fireControl_steady input nowMs queueNow g items :
  running g = true ->
  lasers g = Some items ->
  Input.fireGuns input = false ->
  let p := pendingAfterRequest input queueNow g in
  (fst p <= Z.of_nat (freeSlots items))%Z ->
  let fc := fireControl input nowMs queueNow g in
  exists items',
    lasers (fst fc) = Some items'
    /\ if (0 <? fst p)%Z && Rgeb nowMs (snd p)
       then snd fc = BurstShot
            /\ gunBurstRemaining (fst fc) = (fst p - 1)%Z
            /\ gunBurstNextMs (fst fc) = snd p + GUN_BURST_INTERVAL_MS
            /\ S (freeSlots items') = freeSlots items
       else snd fc = NoShot
            /\ gunBurstRemaining (fst fc) = fst p
            /\ gunBurstNextMs (fst fc) = snd p
            /\ items' = items.
Proof.
  intros Hrun El Hh. cbv zeta. intros Hle. unfold fireControl.
  rewrite El, Hrun. cbn [negb].
  set (g1 := if Input.fireMissile input then fireMissile g else g).
  assert (H1 : running g1 = true /\ lasers g1 = Some items
               /\ gunBurstRemaining g1 = gunBurstRemaining g
               /\ gunBurstNextMs g1 = gunBurstNextMs g).
  { unfold g1. destruct (Input.fireMissile input); [| tauto].
    destruct (fireMissile_keeps g) as [A [B [C D]]].
    rewrite A, B, C, D. tauto. }
  set (g2 := match Input.flip input with
             | Some f => triggerFlip (Input.axis f) (Input.dir f) g1
             | None => g1
             end).
  assert (H2 : running g2 = true /\ lasers g2 = Some items
               /\ gunBurstRemaining g2 = gunBurstRemaining g
               /\ gunBurstNextMs g2 = gunBurstNextMs g).
  { unfold g2. destruct (Input.flip input); [simpl |]; exact H1. }
  clearbody g2. clear g1 H1. destruct H2 as [R2 [L2 [P2 N2]]].
  unfold pendingAfterRequest in *.
  destruct (Input.fireGunsBurst input); cbn [fst snd] in Hle |- *.
  - unfold queueGunBurst. rewrite R2. cbn [negb].
    rewrite Zfloor_burst_count. cbn [lasers with_guns].
    rewrite L2, P2, N2.
    match goal with
    | |- context [gunBlock input nowMs items ?g3] =>
        pose proof (gunBlock_steady input nowMs items g3 Hh) as H;
        set (g3' := g3) in *
    end.
    cbn [gunBurstRemaining gunBurstNextMs with_guns g3'] in H.
    specialize (H Hle). cbv zeta in H.
    destruct ((0 <? Z.min 25 (gunBurstRemaining g + 5))%Z && Rgeb nowMs _).
    + destruct H as (A & B & C & items' & D & E).
      exists items'. repeat split; assumption.
    + destruct H as (A & B). exists items. rewrite B.
      repeat split; [exact A].
  - rewrite L2.
    assert (Hle2 : (gunBurstRemaining g2 <= Z.of_nat (freeSlots items))%Z)
      by (rewrite P2; exact Hle).
    pose proof (gunBlock_steady input nowMs items g2 Hh Hle2) as H.
    cbv zeta in H. rewrite P2, N2 in H.
    destruct ((0 <? gunBurstRemaining g)%Z && Rgeb nowMs _).
    + destruct H as (A & B & C & items' & D & E).
      exists items'. repeat split; assumption.
    + destruct H as (A & B). exists items. rewrite B.
      repeat split; assumption.
Qed.

(** A frame that reaches its gun block with the fire key not held and
    enough inactive slots for what is pending: it spawns the shot that is
    due, and nothing else takes a slot. *)
Lemma frameT_steady nowMs queueNow face st s n items request out :
  idle (game st) = false ->
  lasers (game st) = Some items ->
  let r := fst (frameT nowMs queueNow face st s n) in
  let g' := game (fst r) in
  snd r = Guns request false out ->
  let q := if request then Z.min 25 (gunBurstRemaining (game st) + 5)
           else gunBurstRemaining (game st) in
  let t0 := if request
            then if Rltb (gunBurstNextMs (game st)) queueNow then queueNow
                 else gunBurstNextMs (game st)
            else gunBurstNextMs (game st) in
  (q <= Z.of_nat (freeSlots items))%Z ->
  exists items',
    lasers g' = Some items'
    /\ if (0 <? q)%Z && Rgeb nowMs t0
       then out = BurstShot
            /\ gunBurstRemaining g' = (q - 1)%Z
            /\ gunBurstNextMs g' = t0 + GUN_BURST_INTERVAL_MS
            /\ (freeSlots items <= S (freeSlots items'))%nat
       else out = NoShot
            /\ gunBurstRemaining g' = q
            /\ gunBurstNextMs g' = t0
            /\ (freeSlots items <= freeSlots items')%nat.
Proof.
  intros Hidle El. cbv zeta. intros Ho Hle.
  destruct (frameT_guns nowMs queueNow face st s n Hidle)
    as (_ & [(Hh & _) | (g4 & R4 & P4 & N4 & L4 & Ho4 & Ha)]);
    [rewrite Hh in Ho; discriminate |].
  rewrite Ho4 in Ho. injection Ho as Er Eh Eo.
  rewrite El in L4.
  set (input := InputRouter.state (InputRouter.update face nowMs (router st)))
    in *.
  assert (Hle4 : (fst (pendingAfterRequest input queueNow g4)
                  <= Z.of_nat (freeSlots items))%Z).
  { unfold pendingAfterRequest. rewrite Er, P4.
    destruct request; exact Hle. }
  destruct (fireControl_steady input nowMs queueNow g4 items R4 L4 Eh Hle4)
    as (items1 & L1 & H).
  unfold pendingAfterRequest in H. rewrite Er, P4, N4 in H.
  destruct Ha as ((_ & K2 & K3 & _) & Hret & _).
  unfold retiresOnly in Hret. rewrite L1 in Hret.
  destruct (lasers (game (fst (fst (frameT nowMs queueNow face st s n)))))
    as [items2 |]; [| contradiction].
  apply retired_freeSlots in Hret.
  exists items2. split; [reflexivity |].
  rewrite K2, K3, <- Eo.
  destruct request; cbn [fst snd] in H |- *.
  - destruct ((0 <? _)%Z && Rgeb nowMs _).
    + destruct H as (A & B & C & D). repeat split; try assumption. lia.
    + destruct H as (A & B & C & D). subst items1.
      repeat split; assumption.
  - destruct ((0 <? _)%Z && Rgeb nowMs _).
    + destruct H as (A & B & C & D). repeat split; try assumption. lia.
    + destruct H as (A & B & C & D). subst items1.
      repeat split; assumption.
Qed.

End FrameGunSteps.

Section BurstProgress.

Import Levels Projectiles Game.

Lemma framesFrom_cons T o tr :
  framesFrom T (o :: tr)
  = ((if Rgeb (fst o) T then 1 else 0) + framesFrom T tr)%nat.
Proof. unfold framesFrom. cbn [filter]. now destruct (Rgeb (fst o) T). Qed.

(** One frame of a burst that nothing holds up, against the frames left
    from [T] on, a time by which the [j]-th pending shot is due. *)
Lemma progress_step tm request out tr q t0 q1 t1 j T :
  (0 <= q)%Z ->
  (if (0 <? q)%Z && Rgeb tm t0
   then out = BurstShot /\ q1 = (q - 1)%Z /\ t1 = t0 + GUN_BURST_INTERVAL_MS
   else out = NoShot /\ q1 = q /\ t1 = t0) ->
  (0 <= j <= q)%Z ->
  ((0 < j)%Z -> t0 + GUN_BURST_INTERVAL_MS * IZR (j - 1) <= T) ->
  let j1 := if (0 <? q)%Z && Rgeb tm t0 then Z.max 0 (j - 1) else j in
  (0 <= q1)%Z
  /\ (0 <= j1 <= q1)%Z
  /\ ((0 < j1)%Z -> t1 + GUN_BURST_INTERVAL_MS * IZR (j1 - 1) <= T)
  /\ isDropped (tm, Guns request false out) = false
  /\ ((Z.min j1 (Z.of_nat (framesFrom T tr))
       <= Z.of_nat (List.length (burstTimes tr)))%Z ->
      (Z.min j (Z.of_nat (framesFrom T ((tm, Guns request false out) :: tr)))
       <= Z.of_nat (List.length
                      (burstTimes ((tm, Guns request false out) :: tr))))%Z).
Proof.
  intros Hq Hstep Hj HT. cbv zeta. unfold GUN_BURST_INTERVAL_MS in *.
  rewrite framesFrom_cons. cbn [fst].
  destruct ((0 <? q)%Z) eqn:Epos; cbn [andb] in Hstep |- *.
  - apply Z.ltb_lt in Epos.
    destruct (Rgeb tm t0) eqn:Edue.
    + destruct Hstep as (-> & -> & ->).
      split; [lia |]. split; [lia |]. split.
      { intros Hp. assert (Hj1 : (0 < j)%Z) by lia. specialize (HT Hj1).
        rewrite (Z.max_r 0 (j - 1)) by lia.
        rewrite !minus_IZR. rewrite minus_IZR in HT. lra. }
      split; [reflexivity |].
      intros Hrest. cbn [burstTimes List.length].
      destruct (Rgeb tm T); lia.
    + destruct Hstep as (-> & -> & ->).
      split; [lia |]. split; [lia |]. split; [exact HT |].
      split; [reflexivity |].
      intros Hrest. cbn [burstTimes].
      destruct (Z.eq_dec j 0) as [-> | Hne]; [lia |].
      assert (Hj1 : (0 < j)%Z) by lia. specialize (HT Hj1).
      assert (Hlate : Rgeb tm T = false).
      { apply Rgeb_false. apply Rgeb_false in Edue.
        assert (0 <= IZR (j - 1)) by (apply IZR_le; lia). lra. }
      rewrite Hlate. cbn [Nat.add]. exact Hrest.
  - apply Z.ltb_ge in Epos. destruct Hstep as (-> & -> & ->).
    split; [lia |]. split; [lia |]. split; [intros Hp; lia |].
    split; [reflexivity |].
    intros _. lia.
Qed.

(** A run of frames with no further request, each frame reaching its gun
    block with the fire key not held, and a free laser slot for every
    pending shot: no frame drops the burst, and from the time [T] by which
    the [j]-th pending shot is due the shots leave one per frame. *)
Lemma steady_progress ticks :
  forall st s n items j T,
  idle (game st) = false ->
  lasers (game st) = Some items ->
  (0 <= gunBurstRemaining (game st))%Z ->
  (gunBurstRemaining (game st) <= Z.of_nat (freeSlots items))%Z ->
  (0 <= j <= gunBurstRemaining (game st))%Z ->
  ((0 < j)%Z ->
   gunBurstNextMs (game st) + GUN_BURST_INTERVAL_MS * IZR (j - 1) <= T) ->
  let tr := snd (fst (framesT ticks st s n)) in
  existsb isRequest tr = false ->
  forallb isSteady tr = true ->
  existsb isDropped tr = false
  /\ existsb isHit tr = false
  /\ (Z.min j (Z.of_nat (framesFrom T tr))
      <= Z.of_nat (List.length (burstTimes tr)))%Z.
Proof.
  induction ticks as [| tk rest IH];
    intros st s n items j T Hidle El Hrem Hfree Hj HT.
  - cbn. intros _ _. repeat split. lia.
  - cbv zeta. rewrite framesT_cons. cbv zeta. cbn [fst snd existsb forallb].
    set (st' := {| game := game st; lastMs := lastMs st;
                   router := InputRouter.run (tk_before tk) (router st) |}).
    intros Hq Hst.
    apply orb_false_iff in Hq. destruct Hq as [Hq1 Hq2].
    apply andb_true_iff in Hst. destruct Hst as [Hs1 Hs2].
    destruct (frameT_gunStep (tk_nowMs tk) (tk_queueNow tk) (tk_face tk) st' s n
                Hidle Hrem) as (Hi & Hr & _).
    cbv zeta in Hi, Hr.
    pose proof (frameT_steady (tk_nowMs tk) (tk_queueNow tk) (tk_face tk) st'
                  s n items) as Hf.
    cbv zeta in Hf.
    set (r1 := frameT (tk_nowMs tk) (tk_queueNow tk) (tk_face tk) st' s n) in *.
    unfold isRequest in Hq1. unfold isSteady in Hs1. cbn [snd] in Hq1, Hs1.
    destruct (snd (fst r1)) as [| | request hold out] eqn:Eo;
      try discriminate.
    subst request. destruct hold; [discriminate |].
    specialize (Hf false out Hidle El eq_refl Hfree).
    cbn [game st'] in Hf. destruct Hf as (items' & El' & Hf).
    assert (Hstep :
      if (0 <? gunBurstRemaining (game st))%Z
         && Rgeb (tk_nowMs tk) (gunBurstNextMs (game st))
      then out = BurstShot
           /\ gunBurstRemaining (game (fst (fst r1)))
              = (gunBurstRemaining (game st) - 1)%Z
           /\ gunBurstNextMs (game (fst (fst r1)))
              = gunBurstNextMs (game st) + GUN_BURST_INTERVAL_MS
      else out = NoShot
           /\ gunBurstRemaining (game (fst (fst r1)))
              = gunBurstRemaining (game st)
           /\ gunBurstNextMs (game (fst (fst r1))) = gunBurstNextMs (game st))
      by (destruct (_ && _); tauto).
    assert (Hfree' : (gunBurstRemaining (game (fst (fst r1)))
                      <= Z.of_nat (freeSlots items'))%Z)
      by (destruct (_ && _);
          [destruct Hf as (_ & -> & _ & Hn) | destruct Hf as (_ & -> & _ & Hn)];
          lia).
    destruct (progress_step (tk_nowMs tk) false out
                (snd (fst (framesT rest (fst (fst r1)) s (snd r1))))
                _ _ _ _ j T Hrem Hstep Hj HT) as (P1 & Pj & P2 & P3 & P4).
    destruct (IH (fst (fst r1)) s (snd r1) items' _ T Hi El' P1 Hfree' Pj P2
                Hq2 Hs2) as (I1 & I2 & I3).
    rewrite P3, I1, I2. cbn [isHit snd orb].
    split; [reflexivity |]. split; [reflexivity |].
    exact (P4 I3).
Qed.


End BurstProgress.

(** ** Game.ts: frames out of harm's way *)

Section OutOfHarm.

Import Levels Projectiles Game.

Lemma beyond_placing b sl sl' :
  placing sl' = placing sl -> beyond b sl -> beyond b sl'.
Proof.
  unfold placing, beyond. intros H. injection H as H1 H2 H3.
  rewrite H1, H2, H3. tauto.
Qed.

Lemma enemiesBeyond_placing b es :
  forall es', map placing es' = map placing es ->
  Forall (beyond b) es -> Forall (beyond b) es'.
Proof.
  induction es as [| sl rest IH]; intros [| sl' rest'] H HF;
    try discriminate; [constructor |].
  cbn [map] in H.
  assert (H1 : placing sl' = placing sl) by congruence.
  assert (H2 : map placing rest' = map placing rest) by congruence.
  inversion HF as [| ? ? Hsl Hrest]; subst.
  constructor; [exact (beyond_placing b sl sl' H1 Hsl) | now apply IH].
Qed.

Lemma beyond_weaken b b' sl : b' <= b -> beyond b sl -> beyond b' sl.
Proof. unfold beyond. intros H (A & B & C). repeat split; lra. Qed.

(** A respawned enemy is at least [zMin] ahead. *)
Lemma spawn_beyond bounds playerY e b d s n :
  (forall k, 0 <= s k) ->
  b <= Enemy.zMin bounds <= Enemy.zMax bounds ->
  Enemy.approachSpeed e <= 9 ->
  0 <= Enemy.radius e <= 1.2 ->
  beyond b {| enemy := fst (Enemy.spawn bounds playerY e s n);
              deadUntilMs := d |}.
Proof.
  intros Hs Hb Ha Hr.
  unfold Enemy.spawn, MathUtil.randRange, bind, Math_random, ret, beyond.
  cbn [fst snd enemy Enemy.mesh position Vec3.z Enemy.approachSpeed
       Enemy.radius].
  split; [| split; assumption].
  pose proof (Hs (S (S n))) as H0.
  assert (0 <= s (S (S n)) * (Enemy.zMax bounds - Enemy.zMin bounds))
    by (apply Rmult_le_pos; lra).
  lra.
Qed.

(** The enemy loop of a frame whose enemies are all at least [b] ahead,
    with [b] far enough: no enemy reaches the player, and each is at least
    [b - 1.25] ahead afterwards. *)
Lemma enemyLoop_safe dt nowMs ws playerPos bounds behindZ b s slots :
  (forall k, 0 <= s k) ->
  0 <= dt <= 0.05 ->
  ws <= 16 ->
  Vec3.z playerPos = 0 ->
  3.55 <= b ->
  b - 1.25 <= Enemy.zMin bounds <= Enemy.zMax bounds ->
  Forall (beyond b) slots ->
  forall n,
  snd (fst (enemyLoop dt nowMs ws playerPos bounds behindZ slots s n)) = false
  /\ Forall (beyond (b - 1.25))
       (fst (fst (enemyLoop dt nowMs ws playerPos bounds behindZ slots s n))).
Proof.
  intros Hs Hdt Hws Hz Hb Hbd HF.
  induction HF as [| slot rest Hslot _ IH]; intros n; cbn [enemyLoop].
  - rewrite ret_run. split; [reflexivity | constructor].
  - destruct Hslot as (Hsz & Hsa & Hsr).
    destruct (Enemy.alive (enemy slot)) eqn:Ea; cbn [negb].
    + set (e1 := Enemy.update dt ws playerPos nowMs (enemy slot)).
      assert (He1 : Vec3.z (position (Enemy.mesh e1))
                    = Vec3.z (position (Enemy.mesh (enemy slot)))
                      - (ws + Enemy.approachSpeed (enemy slot)) * dt
                    /\ Enemy.approachSpeed e1 = Enemy.approachSpeed (enemy slot)
                    /\ Enemy.radius e1 = Enemy.radius (enemy slot)).
      { unfold e1, Enemy.update. rewrite Ea. cbn. repeat split. }
      destruct He1 as (Z1 & A1 & R1).
      assert (Hmove : (ws + Enemy.approachSpeed (enemy slot)) * dt <= 1.25).
      { destruct (Rle_dec 0 (ws + Enemy.approachSpeed (enemy slot))) as [Hp | Hn].
        - assert ((ws + Enemy.approachSpeed (enemy slot)) * dt
                  <= 25 * 0.05)
            by (apply Rmult_le_compat; lra).
          lra.
        - assert ((ws + Enemy.approachSpeed (enemy slot)) * dt <= 0).
          { rewrite <- (Rmult_0_l dt).
            apply Rmult_le_compat_r; lra. }
          lra. }
      assert (Hb1 : beyond (b - 1.25)
                      {| enemy := e1; deadUntilMs := deadUntilMs slot |}).
      { unfold beyond. cbn [enemy]. rewrite Z1, A1, R1.
        repeat split; lra. }
      destruct (Enemy.isOutOfRange behindZ e1).
      * rewrite !bind_run, ret_run. cbn [fst snd].
        destruct (IH (snd (Enemy.spawn bounds (Vec3.y playerPos) e1 s n)))
          as [I1 I2].
        split; [exact I1 |]. constructor; [| exact I2].
        apply spawn_beyond; try assumption; rewrite ?A1, ?R1; assumption.
      * assert (Hfar : Rltb (dist2 (position (Enemy.mesh e1)) playerPos)
                         ((PLAYER_RADIUS + Enemy.radius e1)
                          * (PLAYER_RADIUS + Enemy.radius e1)) = false).
        { apply Rltb_false. unfold dist2, PLAYER_RADIUS. cbv zeta.
          rewrite Hz, Z1, R1.
          set (dx := Vec3.x (position (Enemy.mesh e1)) - Vec3.x playerPos).
          set (dy := Vec3.y (position (Enemy.mesh e1)) - Vec3.y playerPos).
          set (dz := Vec3.z (position (Enemy.mesh (enemy slot)))
                     - (ws + Enemy.approachSpeed (enemy slot)) * dt - 0).
          set (rr := 1.1 + Enemy.radius (enemy slot)).
          assert (0 <= dx * dx) by (apply Rle_0_sqr).
          assert (0 <= dy * dy) by (apply Rle_0_sqr).
          assert (0 <= rr <= dz) by (unfold rr, dz; lra).
          assert (rr * rr <= dz * dz) by (apply Rmult_le_compat; lra).
          lra. }
        rewrite Hfar. rewrite bind_run, ret_run. cbn [fst snd].
        destruct (IH n) as [I1 I2].
        split; [exact I1 |]. constructor; [exact Hb1 | exact I2].
    + destruct (Rgeb nowMs (deadUntilMs slot)).
      * rewrite !bind_run, !ret_run. cbn [fst snd].
        destruct (IH (snd (Enemy.spawn bounds (Vec3.y playerPos) (enemy slot)
                             s n))) as [I1 I2].
        split; [exact I1 |]. constructor; [| exact I2].
        apply spawn_beyond; assumption.
      * rewrite !bind_run, !ret_run. cbn [fst snd].
        destruct (IH n) as [I1 I2].
        split; [exact I1 |]. constructor; [| exact I2].
        apply (beyond_weaken b); [lra |]. exact (conj Hsz (conj Hsa Hsr)).
Qed.

Lemma gunBlock_enemies input nowMs items g :
  enemies (fst (gunBlock input nowMs items g)) = enemies g.
Proof.
  unfold gunBlock.
  destruct (_ && _).
  - destruct (spawnLaser (pos g) items) as [items' ok]. now destruct ok.
  - destruct (_ && _); [| reflexivity].
    destruct (spawnLaser (pos g) items) as [items' ok]. now destruct ok.
Qed.

Lemma fireControl_enemies input nowMs queueNow g :
  enemies (fst (fireControl input nowMs queueNow g)) = enemies g.
Proof.
  unfold fireControl.
  destruct (lasers g) as [items0 |]; [| reflexivity].
  destruct (negb (running g)); [reflexivity |].
  cbv zeta.
  set (g1 := if Input.fireMissile input then fireMissile g else g).
  assert (H1 : enemies g1 = enemies g).
  { unfold g1. destruct (Input.fireMissile input); [| reflexivity].
    unfold fireMissile. destruct (negb (running g)); [reflexivity |].
    cbv zeta. now destruct (spawnFirst _ _ _). }
  set (g2 := match Input.flip input with
             | Some f => triggerFlip (Input.axis f) (Input.dir f) g1
             | None => g1
             end).
  assert (H2 : enemies g2 = enemies g)
    by (unfold g2; destruct (Input.flip input); exact H1).
  set (g3 := if Input.fireGunsBurst input
             then queueGunBurst GUN_BURST_COUNT queueNow g2 else g2).
  assert (H3 : enemies g3 = enemies g).
  { unfold g3. destruct (Input.fireGunsBurst input); [| exact H2].
    unfold queueGunBurst. destruct (negb (running g2)); exact H2. }
  destruct (lasers g3); [now rewrite gunBlock_enemies | exact H3].
Qed.

Lemma shape_level g g' : shape g' = shape g -> level g' = level g.
Proof.
  unfold shape. intros H.
  injection H as I1 I2 I3 I4 I5 I6 I7 I8 I9 I10 I11. exact I5.
Qed.

(** A frame of a loop out of harm's way reaches its gun block, and leaves
    the loop out of harm's way, the enemies 1.25 closer at most. *)
Lemma frameT_safe nowMs queueNow face st s n b :
  idle (game st) = false ->
  playable (game st) ->
  calmWorld (game st) ->
  effectiveMaxSpeed (level (game st)) <= 16 ->
  enemiesBeyond b (game st) ->
  lastMs st <= nowMs ->
  3.55 <= b <= 111.25 ->
  (forall k, 0 <= s k) ->
  let r := fst (frameT nowMs queueNow face st s n) in
  isHit (nowMs, snd r) = false
  /\ playable (game (fst r))
  /\ calmWorld (game (fst r))
  /\ effectiveMaxSpeed (level (game (fst r))) <= 16
  /\ enemiesBeyond (b - 1.25) (game (fst r))
  /\ lastMs (fst r) = nowMs
  /\ router (fst r) = InputRouter.update face nowMs (router st).
Proof.
  intros Hidle Hp Hcalm Hmax Hen Hclock Hb Hs. cbv zeta.
  assert (Hplay : playable (game (fst (fst (frameT nowMs queueNow face st s n))))).
  { rewrite (proj1 (frameT_frame nowMs queueNow face st s n)).
    now apply frame_playable. }
  assert (Hlev : level (game (fst (fst (frameT nowMs queueNow face st s n))))
                 = level (game st)).
  { rewrite (proj1 (frameT_frame nowMs queueNow face st s n)).
    apply shape_level, frame_shape. }
  destruct (idle_false _ Hidle) as (Hc & Hr & Hsc & dr & ls & w & Hd & Hl & Hw).
  unfold calmWorld in Hcalm. rewrite Hw in Hcalm.
  destruct w as [o | e]; [| contradiction].
  pose proof (frameT_blocks nowMs queueNow face st s n dr ls (World.Orbit o)
                Hc Hsc Hr Hd Hl Hw) as E.
  cbv zeta in E.
  set (dt := Rmin 0.05 ((nowMs - lastMs st) / 1000)) in *.
  set (router1 := InputRouter.update face nowMs (router st)) in *.
  set (input := InputRouter.state router1) in *.
  set (g1 := updateSpeed dt (MathUtil.clamp (Input.boost input) 0 1)
               (Input.stop input) (game st)) in *.
  set (pos1 := movePlayer dt (frameStrafeX nowMs input (game st))
                 (Input.moveY input) (World.playerBounds (World.Orbit o))
                 (pos g1)) in *.
  set (dr1 := fst (Drone.update dt _ _)) in *.
  set (g2 := with_pos g1 pos1 (Some dr1)) in *.
  set (wu := World.update dt nowMs (speed g2) pos1 PLAYER_RADIUS
               (World.Orbit o) s n) in *.
  set (w1 := fst (fst (fst wu))) in *.
  set (gw := with_level_world g2 (level g2) (Some w1)) in *.
  set (gm := collectPickups (snd (fst wu)) gw) in *.
  assert (Hwu : snd (fst (fst wu)) = false
                /\ exists o1, w1 = World.Orbit o1
                              /\ World.o_level o1 = World.o_level o).
  { unfold w1, wu. cbn [World.update]. rewrite bind_run, ret_run.
    cbn [fst snd].
    pose proof (o_update_fields dt nowMs (speed g2) pos1 PLAYER_RADIUS o s n)
      as H. cbv zeta in H. destruct H as (_ & H2 & _ & _ & H5).
    split; [exact (H5 Hcalm) |]. eexists. split; [reflexivity | exact H2]. }
  destruct Hwu as (Hnohit & o1 & Ew1 & Elev1).
  rewrite Hnohit in E.
  assert (Hdt : 0 <= dt <= 0.05).
  { unfold dt. split; [| apply Rmin_l].
    apply Rmin_glb; [lra |]. apply Rmult_le_pos; lra. }
  destruct Hp as (P1 & P2 & P3 & P4 & P5).
  destruct (collectPickups_sideline (snd (fst wu)) gw)
    as (_ & Cen & Cw & Csp & Cpos).
  fold gm in Cen, Cw, Csp, Cpos.
  destruct (updateSpeed_sideline dt (MathUtil.clamp (Input.boost input) 0 1)
              (Input.stop input) (game st)) as (_ & Uen).
  fold g1 in Uen.
  assert (Hsp : speed gm <= 16).
  { rewrite Csp. unfold gw, g2. cbn [with_level_world with_pos speed].
    pose proof (updateSpeed_effective_bound (game st) dt
                  (MathUtil.clamp (Input.boost input) 0 1) (Input.stop input)
                  (proj1 Hdt) P2) as H.
    fold g1 in H. lra. }
  assert (Hpz : Vec3.z (pos gm) = 0).
  { rewrite Cpos. unfold gw, g2. cbn [with_level_world with_pos pos].
    unfold pos1, movePlayer. cbn [Vec3.z].
    destruct (updateSpeed_fields dt (MathUtil.clamp (Input.boost input) 0 1)
                (Input.stop input) (game st)) as (_ & _ & _ & F4 & _).
    fold g1 in F4. rewrite F4. exact P3. }
  assert (Hes : Forall (beyond b) (enemies gm)).
  { rewrite Cen. unfold gw, g2. cbn [with_level_world with_pos enemies].
    rewrite Uen. exact Hen. }
  assert (Hbd : b - 1.25 <= Enemy.zMin (World.enemySpawnBounds w1)
                <= Enemy.zMax (World.enemySpawnBounds w1)).
  { rewrite Ew1. cbn [World.enemySpawnBounds Enemy.zMin Enemy.zMax]. lra. }
  destruct (enemyLoop_safe dt nowMs (speed gm) (pos gm)
              (World.enemySpawnBounds w1) (World.behindZ w1) b s (enemies gm)
              Hs Hdt Hsp Hpz (proj1 Hb) Hbd Hes (snd wu)) as (Hnohit2 & Hes2).
  set (el := enemyLoop dt nowMs (speed gm) (pos gm)
               (World.enemySpawnBounds w1) (World.behindZ w1) (enemies gm)
               s (snd wu)) in *.
  rewrite Hnohit2 in E.
  set (g4 := with_enemies gm (fst (fst el))) in *.
  set (fc := fireControl input nowMs queueNow g4) in *.
  set (lb := lasersBlock dt nowMs (fst fc) s (snd el)) in *.
  set (mb := missilesBlock dt nowMs (fst lb) s (snd lb)) in *.
  rewrite E in Hplay, Hlev |- *. cbn [fst snd game lastMs router] in *.
  split; [reflexivity |]. split; [exact Hplay |].
  assert (Ha : afterGuns (fst fc)
                 (with_explosions (fst mb)
                    (map (explosionStep dt) (explosions (fst mb))))).
  { eapply afterGuns_trans; [apply lasersBlock_afterGuns |].
    apply sideline_afterGuns.
    eapply sideline_trans; [apply missilesBlock_sideline |].
    apply with_explosions_sideline. }
  assert (Hcar : carriesOn gm
                   (with_explosions (fst mb)
                      (map (explosionStep dt) (explosions (fst mb))))).
  { eapply carriesOn_trans;
      [apply (with_enemies_carriesOn gm (fst (fst el)));
       apply enemyLoop_identity |].
    eapply carriesOn_trans; [apply fireControl_carriesOn |].
    eapply carriesOn_trans; [apply lasersBlock_carriesOn |].
    eapply carriesOn_trans; [apply missilesBlock_carriesOn |].
    apply explosions_carriesOn. }
  split.
  { unfold calmWorld. destruct Hcar as (_ & S2 & _). rewrite S2, Cw.
    unfold gw. cbn [with_level_world world]. rewrite Ew1, Elev1. exact Hcalm. }
  split; [rewrite Hlev; exact Hmax |].
  split; [| split; reflexivity].
  unfold enemiesBeyond. destruct Ha as (_ & _ & A3).
  apply (enemiesBeyond_placing (b - 1.25) (enemies (fst fc))); [exact A3 |].
  unfold fc. rewrite fireControl_enemies. exact Hes2.
Qed.

End OutOfHarm.

(** ** Two sessions of a new game *)

Section RouterQueue.

Import Input InputRouter.

(** What a poll does to the queue, and the gun flags it publishes. *)
Lemma update_queue face nowMs r :
  let r' := update face nowMs r in
  keys r' = keys r
  /\ queuedGunBurst r' = false
  /\ queuedMissile r' = false
  /\ queuedFlip r' = None
  /\ fireGuns (state r') = (calibrated face && fireHold face) || k_fire (keys r)
  /\ fireGunsBurst (state r')
     = (calibrated face && fireBurst face) || queuedGunBurst r.
Proof.
  cbv zeta. unfold update.
  destruct (manualNudge r) as [m |];
    [destruct (Rgtb (untilMs m) nowMs) |];
    destruct (negb _ || negb _); cbn; repeat split.
Qed.

(** The poll of a tick of a session, from a router at rest: the burst
    flag is the request of the tick, the fire key is not held, and the
    router is at rest again. *)
Lemma tick_router nowMs queueNow burst r :
  Game.restingRouter r ->
  let r1 := update Game.noFace nowMs
              (run (Game.tk_before (Game.tickAt nowMs queueNow burst)) r) in
  Game.restingRouter r1
  /\ fireGuns (state r1) = false
  /\ fireGunsBurst (state r1) = burst.
Proof.
  intros (Hk & Hb & Hm & Hf). cbv zeta.
  set (r0 := run (Game.tk_before (Game.tickAt nowMs queueNow burst)) r).
  assert (H0 : keys r0 = noKeys /\ queuedGunBurst r0 = burst).
  { unfold r0. destruct burst; cbn; split;
      first [assumption | reflexivity]. }
  destruct H0 as [K0 B0].
  destruct (update_queue Game.noFace nowMs r0) as (U1 & U2 & U3 & U4 & U5 & U6).
  cbv zeta in *.
  unfold Game.restingRouter.
  rewrite U1, U2, U3, U4, U5, U6, K0, B0. cbn. repeat split.
Qed.

End RouterQueue.

Section Sessions.

Import Levels Projectiles Game.

(** One frame of a session out of harm's way: what the gun block does,
    and the state it leaves. *)
Lemma tick_safe (b : R) (rem : Z) (nx : R) (free : nat)
    (last nowMs queueNow : R) (burst : bool) st s n (q : Z) (t0 : R)
    (due : bool) rest :
  outOfHarm b st ->
  gunState (game st) rem nx free ->
  lastMs st = last ->
  last <= nowMs ->
  3.55 <= b <= 111.25 ->
  (forall k, 0 <= s k) ->
  (0 <= rem)%Z ->
  q = (if burst then Z.min 25 (rem + 5) else rem)%Z ->
  t0 = (if burst then if Rltb nx queueNow then queueNow else nx else nx) ->
  due = ((0 <? q)%Z && Rgeb nowMs t0) ->
  (q <= Z.of_nat free)%Z ->
  exists st1 n1,
    framesT (tickAt nowMs queueNow burst :: rest) st s n
    = ((fst (fst (framesT rest st1 s n1)),
        (nowMs, Guns burst false (if due then BurstShot else NoShot))
          :: snd (fst (framesT rest st1 s n1))),
       snd (framesT rest st1 s n1))
    /\ outOfHarm (b - 1.25) st1
    /\ gunState (game st1)
         (if due then q - 1 else q)%Z
         (if due then t0 + 70 else t0)
         (if due then pred free else free)
    /\ lastMs st1 = nowMs.
Proof.
  intros (Hidle & Hp & Hcalm & Hmax & Hen & Hrest)
         (Grun & Grem & Gnx & items & El & Hfree)
         Hlast Hclock Hb Hs Hrem Eq Et Ed Hq.
  rewrite framesT_cons. cbv zeta. cbn [tickAt tk_nowMs tk_queueNow tk_face].
  set (st' := {| game := game st; lastMs := lastMs st;
                 router := InputRouter.run
                             (tk_before (tickAt nowMs queueNow burst))
                             (router st) |}).
  set (r1 := frameT nowMs queueNow noFace st' s n).
  exists (fst (fst r1)), (snd r1).
  destruct (tick_router nowMs queueNow burst (router st) Hrest)
    as (R1 & R2 & R3).
  cbv zeta in R1, R2, R3.
  assert (Hclock' : lastMs st' <= nowMs) by (cbn [lastMs st']; lra).
  destruct (frameT_safe nowMs queueNow noFace st' s n b Hidle Hp Hcalm Hmax Hen
              Hclock' Hb Hs) as (S1 & S2 & S3 & S4 & S5 & S6 & S7).
  cbv zeta in S1, S2, S3, S4, S5, S6, S7.
  destruct (frameT_guns nowMs queueNow noFace st' s n Hidle)
    as (Hi' & [(Hh & _) | (g4 & R4 & P4 & N4 & L4 & Ho & Ha)]).
  { fold r1 in S1, Hh. unfold isHit in S1. cbn [snd] in S1.
    rewrite Hh in S1. discriminate. }
  cbn [router st'] in Ho. rewrite R2, R3 in Ho.
  fold r1 in S1, S2, S3, S4, S5, S6, S7, Hi', Ho.
  set (out := snd (fireControl _ nowMs queueNow g4)) in Ho.
  pose proof (frameT_steady nowMs queueNow noFace st' s n items burst out
                Hidle El Ho) as Hf.
  cbv zeta in Hf. cbn [game st'] in Hf. fold r1 in Hf.
  rewrite Grem, Gnx, <- Eq, <- Et, <- Ed in Hf.
  assert (Hq' : (q <= Z.of_nat (freeSlots items))%Z) by lia.
  destruct (Hf Hq') as (items' & El' & Hstep).
  assert (Hout : out = if due then BurstShot else NoShot)
    by (destruct due; tauto).
  split; [rewrite Ho, Hout; reflexivity |].
  split.
  { unfold outOfHarm. rewrite S7. tauto. }
  split; [| exact S6].
  unfold gunState.
  destruct (idle_false _ Hi') as (_ & Hr' & _).
  split; [exact Hr' |].
  unfold GUN_BURST_INTERVAL_MS in Hstep.
  destruct due.
  - destruct Hstep as (_ & A & B & C).
    split; [exact A |]. split; [exact B |].
    exists items'. split; [exact El' | lia].
  - destruct Hstep as (_ & A & B & C).
    split; [exact A |]. split; [exact B |].
    exists items'. split; [exact El' | lia].
Qed.

(** *** The game [new Game(...)] builds for level 10 *)

Lemma getLevelConfig_10 :
  exists l,
    getLevelConfig (Finite 10) = Some l
    /\ environment l = War
    /\ obstacleDensity l = 0.15
    /\ baseSpeed l = 4.2
    /\ maxSpeed l = 16.
Proof.
  exists (nth 9 LEVELS level8). split.
  - unfold getLevelConfig. rewrite fallback_is_level8.
    unfold LEVELS; cbn [Number_isFinite negb find strictEq id level8].
    decide_cmp. reflexivity.
  - repeat split; try reflexivity. cbn. lra.
Qed.

(** The tuning of the enemy table. *)
Lemma createEnemies_loop_tuned k :
  forall i bounds s n,
  Forall (fun sl => Enemy.approachSpeed (enemy sl) <= 9
                    /\ 0 <= Enemy.radius (enemy sl) <= 1.2)
    (fst (createEnemies_loop i k bounds s n)).
Proof.
  induction k as [| k IH]; intros i bounds s n; cbn [createEnemies_loop].
  - rewrite ret_run. constructor.
  - rewrite !bind_run. cbv zeta. rewrite ?bind_run, ?ret_run. cbn [fst].
    constructor; [| apply IH].
    cbn [enemy].
    unfold Enemy.spawn, MathUtil.randRange, bind, Math_random, ret.
    cbn [fst snd Enemy.approachSpeed Enemy.radius Enemy.new].
    destruct (Rltb _ 0.65);
      cbn [enemyCfgs Enemy.cfg_radius Enemy.cfg_approachSpeed];
      unfold Rmax; repeat destruct (Rle_dec _ _); lra.
Qed.

Lemma resetSlots_beyond bounds playerY s xs :
  (forall k, 0 <= s k) ->
  110 <= Enemy.zMin bounds <= Enemy.zMax bounds ->
  Forall (fun sl => Enemy.approachSpeed (enemy sl) <= 9
                    /\ 0 <= Enemy.radius (enemy sl) <= 1.2) xs ->
  forall n,
  Forall (beyond 110) (fst (forEachM (resetSlot bounds playerY) xs s n)).
Proof.
  intros Hs Hb HF.
  induction HF as [| x rest [Ha Hr] _ IH]; intros n; cbn [forEachM].
  - rewrite ret_run. constructor.
  - rewrite !bind_run, ret_run. cbn [fst].
    constructor; [| apply IH].
    unfold resetSlot. rewrite bind_run, ret_run. cbn [fst].
    apply spawn_beyond; assumption.
Qed.

(** [new Game({levelId: 10})]: the game is the [reset] of a game on level
    10 in an orbit world of that level, with the pools of [init] and
    enemies tuned by the enemy table. *)
Lemma new_level10 s :
  exists l o es n2,
    let g1 :=
      with_enemies
        (with_level_world
           (disposeEnemies (with_level_world (init false) l None)) l
           (Some (World.Orbit o))) es in
    fst (new false (Some (Finite 10)) s 0%nat)
    = Some (fst (reset ReasonReset g1 s n2))
    /\ obstacleDensity l = 0.15
    /\ baseSpeed l = 4.2
    /\ maxSpeed l = 16
    /\ World.o_level o = l
    /\ Forall (fun sl => Enemy.approachSpeed (enemy sl) <= 9
                         /\ 0 <= Enemy.radius (enemy sl) <= 1.2) es.
Proof.
  destruct getLevelConfig_10 as (l & El & Henv & Hd & Hb & Hm).
  unfold new, setLevel. cbn [hasScene init negb]. rewrite El.
  rewrite !bind_run, ret_run. cbn [fst].
  unfold World.createWorld, World.isSpaceEnvironment. rewrite Henv.
  cbn [isIOS init].
  rewrite create_orbit.
  set (o := fst (World.o_create (World.o_new l false) s 0%nat)).
  set (n1 := snd (World.create _ s 0%nat)).
  set (G1 := with_level_world _ l (Some (World.Orbit o))).
  assert (Hg2 : exists es,
            fst (createEnemiesForLevel G1 s n1) = with_enemies G1 es
            /\ Forall (fun sl => Enemy.approachSpeed (enemy sl) <= 9
                                 /\ 0 <= Enemy.radius (enemy sl) <= 1.2) es).
  { unfold createEnemiesForLevel.
    cbn [hasScene G1 with_level_world disposeEnemies with_enemies init negb
         world level].
    destruct (_ <=? 0)%Z.
    - exists []. rewrite ret_run. split; [reflexivity | constructor].
    - rewrite bind_run, ret_run. cbn [fst]. eexists.
      split; [reflexivity | apply createEnemies_loop_tuned]. }
  destruct Hg2 as (es & Eg2 & Htuned).
  exists l, o, es, (snd (createEnemiesForLevel G1 s n1)).
  cbv zeta. rewrite Eg2.
  split; [reflexivity |].
  repeat (split; [assumption |]).
  split; [| exact Htuned].
  unfold o. now rewrite o_create_level.
Qed.

Lemma freeSlots_deactivated xs :
  freeSlots (map deactivateLaser xs) = List.length xs.
Proof.
  unfold freeSlots. induction xs as [| x rest IH]; [reflexivity |].
  cbn [map filter laserFree deactivateLaser l_active negb List.length].
  now rewrite IH.
Qed.

(** The loop of the sessions: out of harm's way, the enemies 110 ahead,
    no burst pending and every laser slot inactive. *)
Lemma freshLoop_safe :
  outOfHarm 110 freshLoop
  /\ gunState (game freshLoop) 0 0 140
  /\ lastMs freshLoop = 984.
Proof.
  destruct (new_level10 evenStream) as (l & o & es & n2 & E & Hd & Hb & Hm & Hl & Ht).
  cbv zeta in E.
  assert (Hs : forall k, 0 <= evenStream k) by (intros k; unfold evenStream; lra).
  set (g1 := with_enemies _ es) in E.
  pose proof (new_playable false (Some (Finite 10)) _ evenStream 0%nat E) as Hp.
  unfold freshLoop. rewrite E.
  set (g := fst (reset ReasonReset g1 evenStream n2)) in *.
  assert (Hf : crashed g = false /\ hasScene g = true
               /\ level g = l
               /\ gunBurstRemaining g = 0%Z /\ gunBurstNextMs g = 0
               /\ lasers g
                  = Some (map deactivateLaser (repeat newLaserShot MAX_LASERS))
               /\ (exists d, drone g = Some d)
               /\ world g
                  = Some (World.Orbit (fst (World.o_reset o evenStream n2)))
               /\ enemies g
                  = fst (forEachM
                           (resetSlot
                              (World.enemySpawnBounds
                                 (World.Orbit
                                    (fst (World.o_reset o evenStream n2))))
                              (Vec3.y Vec3.zero))
                           es evenStream
                           (snd (World.o_reset o evenStream n2)))).
  { unfold g, reset. cbv zeta.
    cbn [world g1 with_enemies with_level_world].
    rewrite !bind_run, !ret_run. cbn [fst snd].
    cbn [crashed hasScene level gunBurstRemaining gunBurstNextMs lasers drone
         world enemies g1 with_enemies with_level_world disposeEnemies init
         option_map].
    unfold World.reset. rewrite !bind_run, !ret_run. cbn [fst snd].
    repeat split. eexists. reflexivity. }
  destruct Hf as (F1 & F2 & F3 & F4 & F5 & F6 & (d & F7) & F8 & F9).
  cbn [game lastMs router].
  split; [| split; [| reflexivity]].
  - unfold outOfHarm. cbn [game router].
    split.
    { unfold idle, setRunning.
      cbn [crashed running hasScene drone lasers world].
      rewrite F1, F2, F6, F7, F8. reflexivity. }
    split; [exact Hp |].
    split.
    { unfold calmWorld, setRunning. cbn [world]. rewrite F8.
      rewrite o_reset_level, Hl, Hd. lra. }
    split.
    { unfold setRunning. cbn [level]. rewrite F3.
      unfold effectiveMaxSpeed. rewrite Hb, Hm.
      unfold Rmax; repeat destruct (Rle_dec _ _); lra. }
    split.
    { unfold enemiesBeyond, setRunning. cbn [enemies]. rewrite F9.
      apply resetSlots_beyond; [exact Hs | | exact Ht].
      cbn [World.enemySpawnBounds Enemy.zMin Enemy.zMax]. lra. }
    unfold restingRouter. cbn. repeat split.
  - unfold gunState, setRunning.
    cbn [running gunBurstRemaining gunBurstNextMs lasers].
    split; [reflexivity |]. split; [exact F4 |]. split; [exact F5 |].
    eexists. split; [exact F6 |].
    rewrite freeSlots_deactivated, repeat_length. unfold MAX_LASERS. lia.
Qed.

End Sessions.

Section SessionRuns.

Import Levels Projectiles Game.

(** One tick of a session: [q], [t0] and [due] are the pending shots and
    the next-shot time after the request of the tick, if any, and whether
    a shot is due in its frame. *)
Ltac session_tick q t0 due :=
  match goal with
  | H : outOfHarm ?b ?st, G : gunState (game ?st) ?rem ?nx ?free,
    L : lastMs ?st = ?last
    |- context [framesT (tickAt ?now ?qn ?burst :: ?rest) ?st ?s ?n] =>
      let st1 := fresh "st" in
      let n1 := fresh "n" in
      let E := fresh "E" in
      let H1 := fresh "H" in
      let G1 := fresh "G" in
      let L1 := fresh "L" in
      destruct (tick_safe b rem nx free last now qn burst st s n q t0 due rest
                  H G L)
        as (st1 & n1 & E & H1 & G1 & L1);
      [ lra | lra | intros; unfold evenStream; lra | lia | reflexivity
      | first [reflexivity | decide_cmp; reflexivity]
      | first [unfold Rgeb; decide_cmp; reflexivity | reflexivity]
      | cbn; lia
      | rewrite E; clear E H G L; cbv beta iota in G1 ]
  end.

(** The session with a stall: the request of the first frame is not due
    in it; after the stall the shots leave one a frame until the
    next-shot time, 70 ms on for each shot, has caught up with the
    clock. *)
Lemma stalledSession_run :
  exists st,
    fst (framesT stalledSession freshLoop evenStream 0%nat)
    = (st, [ (1000, Guns true false NoShot);
             (1200, Guns false false BurstShot);
             (1216, Guns false false BurstShot);
             (1232, Guns false false BurstShot);
             (1248, Guns false false BurstShot);
             (1264, Guns false false NoShot);
             (1280, Guns false false NoShot);
             (1296, Guns false false BurstShot) ])
    /\ gunBurstRemaining (game st) = 0%Z.
Proof.
  destruct freshLoop_safe as (H0 & G0 & L0).
  unfold stalledSession.
  session_tick 5%Z 1000.1 false.
  session_tick 5%Z 1000.1 true.
  session_tick (5 - 1)%Z (1000.1 + 70) true.
  session_tick (5 - 1 - 1)%Z (1000.1 + 70 + 70) true.
  session_tick (5 - 1 - 1 - 1)%Z (1000.1 + 70 + 70 + 70) true.
  session_tick (5 - 1 - 1 - 1 - 1)%Z (1000.1 + 70 + 70 + 70 + 70) false.
  session_tick (5 - 1 - 1 - 1 - 1)%Z (1000.1 + 70 + 70 + 70 + 70) false.
  session_tick (5 - 1 - 1 - 1 - 1)%Z (1000.1 + 70 + 70 + 70 + 70) true.
  cbn [framesT]. rewrite ret_run. cbn [fst snd].
  eexists. split; [reflexivity |].
  match goal with
  | G : gunState _ _ _ _ |- _ => destruct G as (_ & Hrem & _)
  end.
  rewrite Hrem. reflexivity.
Qed.

(** The session with a request in every frame: each request moves the
    next-shot time past the clock of its frame, so no shot leaves, and the
    sixth request finds the cap of 25. *)
Lemma hammeredSession_run :
  exists st,
    fst (framesT hammeredSession freshLoop evenStream 0%nat)
    = (st, [ (1000, Guns true false NoShot);
             (1016, Guns true false NoShot);
             (1032, Guns true false NoShot);
             (1048, Guns true false NoShot);
             (1064, Guns true false NoShot);
             (1080, Guns true false NoShot) ])
    /\ gunBurstRemaining (game st) = 25%Z
    /\ idle (game st) = false.
Proof.
  destruct freshLoop_safe as (H0 & G0 & L0).
  unfold hammeredSession.
  session_tick 5%Z 1000.1 false.
  session_tick 10%Z 1016.1 false.
  session_tick 15%Z 1032.1 false.
  session_tick 20%Z 1048.1 false.
  session_tick 25%Z 1064.1 false.
  session_tick 25%Z 1080.1 false.
  cbn [framesT]. rewrite ret_run. cbn [fst snd].
  eexists. split; [reflexivity |].
  match goal with
  | G : gunState _ _ _ _ |- _ => destruct G as (_ & Hrem & _)
  end.
  split; [exact Hrem |].
  match goal with
  | H : outOfHarm _ _ |- _ => exact (proj1 H)
  end.
Qed.



End SessionRuns.

(** ** VoiceHandler.ts: the command parser *)

Section VoiceFacts.

Import Input Voice.

Local Open Scope string_scope.

Lemma includes_unfold text t :
  includes text t
  = String.prefix t text
    || match text with
       | EmptyString => false
       | String _ rest => includes rest t
       end.
Proof. destruct text; reflexivity. Qed.

Lemma prefix_app t b : String.prefix t (t ++ b) = true.
Proof.
  induction t as [| c t IH]; cbn [String.append String.prefix].
  - destruct b; reflexivity.
  - destruct (Ascii.ascii_dec c c); [exact IH | congruence].
Qed.

Lemma prefix_split t : forall text,
  String.prefix t text = true -> exists b, text = t ++ b.
Proof.
  induction t as [| c t IH]; intros text H.
  - exists text. reflexivity.
  - destruct text as [| c' text]; cbn [String.prefix] in H; [discriminate |].
    destruct (Ascii.ascii_dec c c') as [<- |]; [| discriminate].
    destruct (IH text H) as [b ->]. exists b. reflexivity.
Qed.

(** [includes] finds exactly the substrings. *)
Lemma includes_substring text t :
  includes text t = true <-> exists a b, text = a ++ t ++ b.
Proof.
  split.
  - induction text as [| c text IH]; rewrite includes_unfold; intros H;
      apply orb_true_iff in H as [H | H]; try discriminate.
    + destruct (prefix_split _ _ H) as [b Hb]. exists EmptyString, b. exact Hb.
    + destruct (prefix_split _ _ H) as [b Hb]. exists EmptyString, b. exact Hb.
    + destruct (IH H) as (a & b & ->). exists (String c a), b. reflexivity.
  - intros (a & b & ->). induction a as [| c a IH]; rewrite includes_unfold.
    + cbn [String.append]. now rewrite prefix_app.
    + cbn [String.append]. rewrite IH. apply orb_true_r.
Qed.

Lemma includesAny_app text l1 l2 :
  includesAny text (l1 ++ l2) = includesAny text l1 || includesAny text l2.
Proof. apply existsb_app. Qed.

Lemma includesAny_substring text l :
  includesAny text l = true
  <-> exists t a b, In t l /\ text = a ++ t ++ b.
Proof.
  unfold includesAny. rewrite existsb_exists. split.
  - intros (t & Hin & H). apply includes_substring in H as (a & b & H).
    now exists t, a, b.
  - intros (t & a & b & Hin & H). exists t. split; [exact Hin |].
    apply includes_substring. now exists a, b.
Qed.

(** X30.  The voice parser, on a normalized text.  It returns no command
    exactly when none of its keywords occurs in the text; a text in which
    a pause or resume word occurs anywhere toggles the pause, whatever
    else was said; and a nudge is always a step of -1, 0 or 1 on each
    axis, not zero on both, that lasts 700 ms. *)
Theorem voice_commands (text : string) :
  (parseNormalized text = None
   <-> forall t a b,
         In t (pauseWords ++ resumeWords ++ stopWords ++ missileWords
               ++ flipWords ++ shootWords ++ leftWords ++ rightWords
               ++ upWords ++ downWords) ->
         text <> a ++ t ++ b)
  /\ (forall t a b,
        In t (pauseWords ++ resumeWords) -> text = a ++ t ++ b ->
        parseNormalized text = Some VTogglePause)
  /\ (forall x y d,
        parseNormalized text = Some (VNudge x y d) ->
        (x = -1 \/ x = 0 \/ x = 1) /\ (y = -1 \/ y = 0 \/ y = 1)
        /\ (x <> 0 \/ y <> 0) /\ d = Finite 700).
Proof.
  assert (Hnone : parseNormalized text = None
                  <-> includesAny text
                        (pauseWords ++ resumeWords ++ stopWords
                         ++ missileWords ++ flipWords ++ shootWords
                         ++ leftWords ++ rightWords ++ upWords ++ downWords)
                      = false).
  { rewrite !includesAny_app. destruct text as [| c r]; [split; reflexivity |].
    unfold parseNormalized. cbv zeta.
    destruct (includesAny (String c r) pauseWords); cbn [orb];
      [split; discriminate |].
    destruct (includesAny (String c r) resumeWords); cbn [orb];
      [split; discriminate |].
    destruct (includesAny (String c r) stopWords); cbn [orb];
      [split; discriminate |].
    destruct (includesAny (String c r) missileWords); cbn [orb];
      [split; discriminate |].
    destruct (includesAny (String c r) flipWords); cbn [orb];
      [split; discriminate |].
    destruct (includesAny (String c r) shootWords); cbn [orb];
      [split; discriminate |].
    destruct (includesAny (String c r) leftWords); cbn [orb];
      [split; discriminate |].
    destruct (includesAny (String c r) rightWords); cbn [orb];
      [split; discriminate |].
    destruct (includesAny (String c r) upWords); cbn [orb];
      [split; discriminate |].
    destruct (includesAny (String c r) downWords); cbn [orb];
      split; (discriminate || reflexivity). }
  split; [| split].
  - rewrite Hnone. split.
    + intros H t a b Hin Heq.
      assert (includesAny text
                (pauseWords ++ resumeWords ++ stopWords ++ missileWords
                 ++ flipWords ++ shootWords ++ leftWords ++ rightWords
                 ++ upWords ++ downWords) = true)
        by (apply includesAny_substring; now exists t, a, b).
      congruence.
    + intros H.
      destruct (includesAny text _) eqn:E; [| reflexivity].
      apply includesAny_substring in E as (t & a & b & Hin & Heq).
      exfalso. exact (H t a b Hin Heq).
  - intros t a b Hin Heq.
    assert (E : includesAny text (pauseWords ++ resumeWords) = true)
      by (apply includesAny_substring; now exists t, a, b).
    rewrite includesAny_app in E.
    destruct text as [| c r].
    + discriminate E.
    + unfold parseNormalized. cbv zeta. now rewrite E.
  - intros x y d. destruct text as [| c r]; [discriminate |].
    unfold parseNormalized. cbv zeta.
    destruct (includesAny (String c r) pauseWords); cbn [orb];
      [discriminate |].
    destruct (includesAny (String c r) resumeWords); cbn [orb];
      [discriminate |].
    destruct (includesAny (String c r) stopWords); [discriminate |].
    destruct (includesAny (String c r) missileWords); [discriminate |].
    destruct (includesAny (String c r) flipWords); [discriminate |].
    destruct (includesAny (String c r) shootWords); [discriminate |].
    destruct (includesAny (String c r) leftWords);
      destruct (includesAny (String c r) rightWords);
      destruct (includesAny (String c r) upWords);
      destruct (includesAny (String c r) downWords); cbn [orb];
      intros H; try discriminate; injection H as <- <- <-;
      (split; [lra |]); (split; [lra |]); (split; [lra | reflexivity]).
Qed.

End VoiceFacts.
